(** * A shallow embedding of the mini-language compiler pipeline

    Lexer -> Parser -> SemanticAnalyzer -> CodeGenerator -> VM, embedded
    function by function from the TypeScript sources, followed by the
    properties established about them.

    Conventions of the embedding.
    - A JavaScript number is an IEEE double.  The finite doubles the
      program can hold are integers: literals are strings of digits, and
      [+ - *], [Math.floor(a / b)] and [%] give integers on integers.  Such
      a double is [Int z] with [z] its value; negative zero, the infinities
      and NaN are represented explicitly.  Every operation rounds its exact
      result to the nearest double, to the one with the even significand
      when two are equally near.
    - Object identity of AST nodes (they are keys of a JS [Map]) is a [nat]
      reference handed out by [new] in construction order.
    - Exceptions are the [Err] branch of [result]. *)

From Stdlib Require Import ZArith Ascii String List Lia Bool.
From Stdlib Require SpecFloat.
From stdpp Require Import base option list gmap strings pretty.

Open Scope string_scope.
Open Scope list_scope.

(** ** JavaScript numbers

    The values of type [number] that the program holds, and what the
    operators and built-ins used by the sources compute on them.  A stack
    cell or slot can also be [undefined], when a [pop()] found the stack
    empty. *)

Inductive jsnum :=
| Int (z : Z)
| NegZero
| Inf (negative : bool)
| NaN.

Inductive jsval :=
| Num (n : jsnum)
| Undefined.

Module JS.
#[local] Open Scope Z_scope.

Definition isNaN (a : jsnum) : bool :=
  match a with NaN => true | _ => false end.

Definition isInf (a : jsnum) : bool :=
  match a with Inf _ => true | _ => false end.

Definition isZero (a : jsnum) : bool :=
  match a with Int 0 | NegZero => true | _ => false end.

(** The sign bit. *)
Definition negative (a : jsnum) : bool :=
  match a with
  | Int z => z <? 0
  | NegZero => true
  | Inf s => s
  | NaN => false
  end.

(** The integer a finite number stands for. *)
Definition toZ (a : jsnum) : Z :=
  match a with Int z => z | _ => 0 end.

Definition zero (neg : bool) : jsnum := if neg then NegZero else Int 0.

(** [ToNumber]: [undefined] becomes [NaN]. *)
Definition toNumber (v : jsval) : jsnum :=
  match v with Num n => n | Undefined => NaN end.

(** [n / d] rounded to the nearest integer, and to the even one when two
    are equally near. *)
Definition nearest_even (n d : Z) : Z :=
  let q := n / d in
  let r := n mod d in
  if 2 * r <? d then q
  else if d <? 2 * r then q + 1
  else if Z.even q then q else q + 1.

(** The double nearest to the ratio [n / d] of two positive integers, as
    a significand [m] and an exponent [e]: the double is [m * 2^e].  The
    exponent is the one that leaves 53 bits to the significand, and at
    least -1074, the exponent of the smallest double. *)
Definition nearest_double (n d : Z) : Z * Z :=
  let e0 := Z.log2 n - Z.log2 d - 52 in
  let e1 := if n * 2 ^ Z.log2 d <? d * 2 ^ Z.log2 n then e0 - 1 else e0 in
  let e := Z.max e1 (-1074) in
  let m := if 0 <=? e then nearest_even n (d * 2 ^ e)
           else nearest_even (n * 2 ^ (- e)) d in
  (m, e).

(** Beyond the largest double. *)
Definition overflows (m e : Z) : bool := 2 ^ 1024 <=? m * 2 ^ e.

(** The double nearest to the integer [z]; an integer of at most 53
    bits is a double. *)
Definition round (z : Z) : jsnum :=
  let '(m, e) := nearest_double (Z.abs z) 1 in
  if e <=? 0 then Int z
  else if overflows m e then Inf (z <? 0)
  else Int (Z.sgn z * (m * 2 ^ e)).

Definition neg (a : jsnum) : jsnum :=
  match a with
  | Int 0 => NegZero
  | Int z => Int (- z)
  | NegZero => Int 0
  | Inf s => Inf (negb s)
  | NaN => NaN
  end.

(** [a + b] *)
Definition add (a b : jsnum) : jsnum :=
  match a, b with
  | NaN, _ | _, NaN => NaN
  | Inf s, Inf t => if Bool.eqb s t then Inf s else NaN
  | Inf s, _ | _, Inf s => Inf s
  | NegZero, NegZero => NegZero
  | NegZero, Int z | Int z, NegZero => Int z
  | Int x, Int y => round (x + y)
  end.

(** [a - b] *)
Definition sub (a b : jsnum) : jsnum := add a (neg b).

(** [a * b] *)
Definition mul (a b : jsnum) : jsnum :=
  if isNaN a || isNaN b then NaN
  else
    let s := xorb (negative a) (negative b) in
    if isInf a || isInf b then
      if isZero a || isZero b then NaN else Inf s
    else
      let z := toZ a * toZ b in
      if z =? 0 then zero s else round z.

(** [Math.floor] of the double [m * 2^e], negated when [s]. *)
Definition floor (s : bool) (m e : Z) : jsnum :=
  let sm := if s then - m else m in
  let f := if 0 <=? e then sm * 2 ^ e else sm / 2 ^ (- e) in
  if f =? 0 then zero s else Int f.

(** [Math.floor(a / b)]: the quotient is rounded to a double before its
    floor is taken. *)
Definition floorDiv (a b : jsnum) : jsnum :=
  if isNaN a || isNaN b then NaN
  else
    let s := xorb (negative a) (negative b) in
    if isInf a then (if isInf b then NaN else Inf s)
    else if isInf b then zero s
    else if isZero b then (if isZero a then NaN else Inf s)
    else if isZero a then zero s
    else
      let '(m, e) := nearest_double (Z.abs (toZ a)) (Z.abs (toZ b)) in
      if overflows m e then Inf s else floor s m e.

(** [a % b]: exact, and the result takes the sign of the dividend. *)
Definition rem (a b : jsnum) : jsnum :=
  if isNaN a || isNaN b then NaN
  else if isInf a then NaN
  else if isInf b then a
  else if isZero b then NaN
  else if isZero a then a
  else
    let r := Z.rem (toZ a) (toZ b) in
    if r =? 0 then zero (negative a) else Int r.

(** The position of a number other than [NaN] on the extended line. *)
Inductive ext := NegInfinity | Finite (z : Z) | PosInfinity.

Definition toExt (a : jsnum) : ext :=
  match a with
  | Int z => Finite z
  | NegZero => Finite 0
  | Inf true => NegInfinity
  | Inf false => PosInfinity
  | NaN => Finite 0
  end.

Definition ext_ltb (x y : ext) : bool :=
  match x, y with
  | NegInfinity, NegInfinity => false
  | NegInfinity, _ => true
  | Finite a, Finite b => a <? b
  | Finite _, PosInfinity => true
  | _, _ => false
  end.

Definition ext_eqb (x y : ext) : bool :=
  match x, y with
  | NegInfinity, NegInfinity | PosInfinity, PosInfinity => true
  | Finite a, Finite b => a =? b
  | _, _ => false
  end.

(** [a < b], [a <= b] on numbers: false as soon as one side is [NaN]. *)
Definition ltb (a b : jsnum) : bool :=
  negb (isNaN a || isNaN b) && ext_ltb (toExt a) (toExt b).

Definition leb (a b : jsnum) : bool :=
  negb (isNaN a || isNaN b) && negb (ext_ltb (toExt b) (toExt a)).

Definition num_eqb (a b : jsnum) : bool :=
  negb (isNaN a || isNaN b) && ext_eqb (toExt a) (toExt b).

(** [a === b] *)
Definition strictEq (a b : jsval) : bool :=
  match a, b with
  | Undefined, Undefined => true
  | Num x, Num y => num_eqb x y
  | _, _ => false
  end.

(** The decimal [c] reads as the double [x]. *)
Definition reads_as (x c : Z) : bool :=
  match round c with
  | Int y => y =? x
  | _ => false
  end.

(** The decimal with the fewest significant digits that reads as the
    positive double [x]: a multiple of the highest power of ten, from
    [10^j] down, that has one reading as [x], and the one nearest to [x]
    if there are two. *)
Fixpoint shortest (j : nat) (x : Z) : Z :=
  match j with
  | O => x
  | S j' =>
      let p := 10 ^ Z.of_nat j in
      let lo := x / p * p in
      let hi := lo + p in
      let lo_ok := (0 <? lo) && reads_as x lo in
      let hi_ok := reads_as x hi in
      if lo_ok && hi_ok then
        if x - lo <? hi - x then lo
        else if hi - x <? x - lo then hi
        else if Z.even (lo / p) then lo else hi
      else if lo_ok then lo
      else if hi_ok then hi
      else shortest j' x
  end.

Fixpoint strip_zeros (reversed : list ascii) : list ascii :=
  match reversed with
  | "0"%char :: digits => strip_zeros digits
  | _ => reversed
  end.

(** The text of the positive integer [c]: its digits when there are at
    most 21 of them, otherwise the first digit, the other significant
    digits behind a point, and the exponent. *)
Definition digits_or_exponent (c : Z) : string :=
  let digits := pretty c in
  let n := String.length digits in
  if (n <=? 21)%nat then digits
  else
    match rev (strip_zeros (rev (list_ascii_of_string digits))) with
    | [] => digits
    | d :: more =>
        String d (match more with
                  | [] => ""
                  | _ => String "."%char (string_of_list_ascii more)
                  end)
        +:+ "e+" +:+ pretty (Nat.pred n)
    end.

Definition positive_toString (x : Z) : string :=
  digits_or_exponent (shortest (String.length (pretty x)) x).

(** [String(v)] *)
Definition toString (v : jsval) : string :=
  match v with
  | Undefined => "undefined"
  | Num (Int z) =>
      if z =? 0 then "0"
      else if z <? 0 then "-" +:+ positive_toString (- z)
      else positive_toString z
  | Num NegZero => "0"
  | Num (Inf false) => "Infinity"
  | Num (Inf true) => "-Infinity"
  | Num NaN => "NaN"
  end.

Definition ofBool (b : bool) : jsval := Num (Int (if b then 1 else 0)).

End JS.

(** ** types.ts *)

Inductive TokenType :=
| KW_INT | KW_IF | KW_ELSE | KW_WHILE | KW_PRINT
| ID | NUM
| PLUS | MINUS | STAR | SLASH | PERCENT
| ASSIGN | EQ | NE | LT | GT | LE | GE
| LPAREN | RPAREN | LBRACE | RBRACE | SEMI
| EOF | ERROR.

Global Instance TokenType_eq_dec : EqDecision TokenType.
Proof. solve_decision. Defined.

Record Token := mkToken {
  type : TokenType;
  lexeme : string;
  line : nat;
  col : nat
}.

Inductive OpCode :=
| PUSH_INT
| LOAD
| STORE
| ADD | SUB | MUL | DIV | MOD
| CMP_EQ | CMP_NE | CMP_LT | CMP_GT | CMP_LE | CMP_GE
| JMP
| JMP_IF_FALSE
| PRINT
| HALT.

Global Instance OpCode_eq_dec : EqDecision OpCode.
Proof. solve_decision. Defined.

(** [operand?: number] and [comment?: string]: an absent field is [None]. *)
Record Instruction := mkInstruction {
  op : OpCode;
  operand : option jsnum;
  comment : option string
}.

(** ** Exceptions

    Every [throw new Error(...)] of the sources, with the data the message
    is built from, plus the [TypeError] JavaScript raises when a property
    of [undefined] is read or written.  [FuelExhausted] belongs to the
    embedding only: it is what a fuel-bounded loop answers when the bound
    was too small, and [tokenize]/[parse] pick bounds that are not. *)
Inductive Thrown :=
| LexerError (ch : ascii) (line col : nat)
| ParseError (message : string) (found : Token)
| Redeclaration (name : string) (line : nat)
| UndeclaredVariable (name : string) (line : nat)
| TypeError
| FuelExhausted.

Inductive result (A : Type) :=
| Ok (a : A)
| Err (e : Thrown).
Arguments Ok {A} a.
Arguments Err {A} e.

Definition bind {A B} (r : result A) (k : A -> result B) : result B :=
  match r with
  | Ok a => k a
  | Err e => Err e
  end.

Notation "'do' x <- r ; k" := (bind r (fun x => k))
  (at level 10, x pattern, r at level 100, k at level 200).

(** ** lexer.ts *)

Module Lexer.

(** The fields [input] and [pos] are kept together as the text still to
    be read, [input.slice(pos)]. *)
Record t := mk {
  rest : list ascii;
  line : nat;
  col : nat
}.

Definition isAtEnd (lx : t) : bool :=
  match rest lx with [] => true | _ => false end.

Definition peek (lx : t) : ascii :=
  match rest lx with [] => "000"%char | c :: _ => c end.

Definition advance (lx : t) : ascii * t :=
  let char := peek lx in
  let rest' := tl (rest lx) in
  if Ascii.eqb char "010"%char
  then (char, mk rest' (S (line lx)) 1)
  else (char, mk rest' (line lx) (S (col lx))).

Definition isDigit (c : ascii) : bool :=
  (48 <=? nat_of_ascii c)%nat && (nat_of_ascii c <=? 57)%nat.

Definition isAlpha (c : ascii) : bool :=
  ((97 <=? nat_of_ascii c)%nat && (nat_of_ascii c <=? 122)%nat)
  || ((65 <=? nat_of_ascii c)%nat && (nat_of_ascii c <=? 90)%nat)
  || Ascii.eqb c "_"%char.

Definition isAlphaNumeric (c : ascii) : bool := isAlpha c || isDigit c.

Definition keywordOrId (s : string) : TokenType :=
  if String.eqb s "int" then KW_INT
  else if String.eqb s "if" then KW_IF
  else if String.eqb s "else" then KW_ELSE
  else if String.eqb s "while" then KW_WHILE
  else if String.eqb s "print" then KW_PRINT
  else ID.

(** [while (!isAtEnd() && peek() !== '\n') advance();] *)
Fixpoint skipLineComment (fuel : nat) (lx : t) : t :=
  match fuel with
  | O => lx
  | S fuel' =>
      if negb (isAtEnd lx) && negb (Ascii.eqb (peek lx) "010"%char)
      then skipLineComment fuel' (snd (advance lx))
      else lx
  end.

Definition isSpace (c : ascii) : bool :=
  Ascii.eqb c " "%char || Ascii.eqb c "013"%char
  || Ascii.eqb c "009"%char || Ascii.eqb c "010"%char.

(** [input[pos + 1] === '/'] *)
Definition nextIsSlash (lx : t) : bool :=
  match rest lx with
  | _ :: c :: _ => Ascii.eqb c "/"%char
  | _ => false
  end.

Fixpoint skipWhitespace (fuel : nat) (lx : t) : t :=
  match fuel with
  | O => lx
  | S fuel' =>
      if isAtEnd lx then lx
      else
        let char := peek lx in
        if isSpace char then skipWhitespace fuel' (snd (advance lx))
        else if Ascii.eqb char "/"%char && nextIsSlash lx
        then skipWhitespace fuel' (skipLineComment (length (rest lx)) lx)
        else lx
  end.

(** [while (p(peek())) s += advance();] *)
Fixpoint scanWhile (p : ascii -> bool) (fuel : nat) (s : string) (lx : t)
  : string * t :=
  match fuel with
  | O => (s, lx)
  | S fuel' =>
      if p (peek lx)
      then let '(c, lx') := advance lx in
           scanWhile p fuel' (s ++ String c EmptyString) lx'
      else (s, lx)
  end.

(** The body of the [switch (char)] for a character that is neither a
    digit nor a letter. *)
Definition punctuation (char : ascii) (startLine startCol : nat) (lx : t)
  : result (Token * t) :=
  let one ty := Ok (mkToken ty (String char EmptyString) startLine startCol, lx) in
  let two ty1 ty2 :=
    if Ascii.eqb (peek lx) "="%char
    then Ok (mkToken ty2 (String char "=") startLine startCol, snd (advance lx))
    else match ty1 with
         | Some ty => Ok (mkToken ty (String char EmptyString) startLine startCol, lx)
         | None => Err (LexerError char startLine startCol)
         end in
  if Ascii.eqb char "+"%char then one PLUS
  else if Ascii.eqb char "-"%char then one MINUS
  else if Ascii.eqb char "*"%char then one STAR
  else if Ascii.eqb char "/"%char then one SLASH
  else if Ascii.eqb char "%"%char then one PERCENT
  else if Ascii.eqb char "("%char then one LPAREN
  else if Ascii.eqb char ")"%char then one RPAREN
  else if Ascii.eqb char "{"%char then one LBRACE
  else if Ascii.eqb char "}"%char then one RBRACE
  else if Ascii.eqb char ";"%char then one SEMI
  else if Ascii.eqb char "="%char then two (Some ASSIGN) EQ
  else if Ascii.eqb char "!"%char then two None NE
  else if Ascii.eqb char "<"%char then two (Some LT) LE
  else if Ascii.eqb char ">"%char then two (Some GT) GE
  else Err (LexerError char startLine startCol).

Definition finish (lx : t) (tokens : list Token) : list Token :=
  tokens ++ [mkToken EOF "" (line lx) (col lx)].

Fixpoint tokenize_loop (fuel : nat) (lx : t) (tokens : list Token)
  : result (list Token) :=
  match fuel with
  | O => if isAtEnd lx then Ok (finish lx tokens) else Err FuelExhausted
  | S fuel' =>
      if isAtEnd lx then Ok (finish lx tokens)
      else
        let lx := skipWhitespace (length (rest lx)) lx in
        if isAtEnd lx then Ok (finish lx tokens)
        else
          let startLine := line lx in
          let startCol := col lx in
          let '(char, lx) := advance lx in
          if isDigit char then
            let '(num, lx) :=
              scanWhile isDigit (length (rest lx)) (String char EmptyString) lx in
            tokenize_loop fuel' lx
              (tokens ++ [mkToken NUM num startLine startCol])
          else if isAlpha char then
            let '(id, lx) :=
              scanWhile isAlphaNumeric (length (rest lx))
                (String char EmptyString) lx in
            tokenize_loop fuel' lx
              (tokens ++ [mkToken (keywordOrId id) id startLine startCol])
          else
            match punctuation char startLine startCol lx with
            | Ok (tok, lx) => tokenize_loop fuel' lx (tokens ++ [tok])
            | Err e => Err e
            end
  end.

Definition tokenize (input : string) : result (list Token) :=
  let cs := list_ascii_of_string input in
  tokenize_loop (length cs) (mk cs 1 1) [].

End Lexer.

(** ** ast.ts

    One class per variant, all subclasses of [ASTNode]; any child position
    accepts any [ASTNode].  [VarDeclNode], [AssignNode] and
    [IdentifierNode] objects are used as keys of the resolution map, so
    they carry their reference [ref]. *)

#[local] Unset Elimination Schemes.
Inductive ASTNode :=
| ProgramNode (statements : list ASTNode)
| VarDeclNode (ref : nat) (name : Token)
| AssignNode (ref : nat) (name : Token) (expr : ASTNode)
| PrintNode (expr : ASTNode)
| BlockNode (statements : list ASTNode)
| IfNode (cond thenBranch : ASTNode) (elseBranch : option ASTNode)
| WhileNode (cond body : ASTNode)
| BinaryExprNode (left : ASTNode) (op : Token) (right : ASTNode)
| LiteralNode (val : jsnum)
| IdentifierNode (ref : nat) (name : Token).
#[local] Set Elimination Schemes.

(** ** parser.ts *)

Module Parser.

(** [tokens] and [current] are kept as [tokens.slice(current)] in [rest]
    and [tokens[current - 1]] in [prev]; [nextRef] is the allocator of
    node references. *)
Record t := mk {
  rest : list Token;
  prev : option Token;
  nextRef : nat
}.

(** Parsing actions: read and advance the parser state, or throw. *)
Definition M (A : Type) : Type := t -> result (A * t).

Definition ret {A} (a : A) : M A := fun p => Ok (a, p).

Definition throw {A} (e : Thrown) : M A := fun _ => Err e.

Definition bindM {A B} (m : M A) (k : A -> M B) : M B :=
  fun p => match m p with
           | Ok (a, p') => k a p'
           | Err e => Err e
           end.

Notation "x <- m ;; k" := (bindM m (fun x => k))
  (at level 90, m at level 80, k at level 200, only parsing).
Notation "m ;;; k" := (bindM m (fun _ => k))
  (at level 90, k at level 200, only parsing).

(** [tokens[current]]; reading [.type] of a missing element raises. *)
Definition peek : M Token :=
  fun p => match rest p with
           | [] => Err TypeError
           | tok :: _ => Ok (tok, p)
           end.

Definition previous : M Token :=
  fun p => match prev p with
           | None => Err TypeError
           | Some tok => Ok (tok, p)
           end.

Definition isAtEnd : M bool :=
  tok <- peek ;; ret (bool_decide (type tok = EOF)).

Definition check (ty : TokenType) : M bool :=
  e <- isAtEnd ;;
  if e then ret false
  else tok <- peek ;; ret (bool_decide (type tok = ty)).

Definition step : M unit :=
  fun p => Ok (tt, mk (tl (rest p)) (head (rest p)) (nextRef p)).

Definition advance : M Token :=
  e <- isAtEnd ;;
  (if e then ret tt else step) ;;;
  previous.

Fixpoint match_ (types : list TokenType) : M bool :=
  match types with
  | [] => ret false
  | ty :: types' =>
      c <- check ty ;;
      if c then advance ;;; ret true else match_ types'
  end.

Definition consume (ty : TokenType) (message : string) : M Token :=
  c <- check ty ;;
  if c then advance
  else token <- peek ;; throw (ParseError message token).

(** [new] of a node class whose objects serve as map keys. *)
Definition newRef : M nat :=
  fun p => Ok (nextRef p, mk (rest p) (prev p) (S (nextRef p))).

(** [Number(lexeme)] on the lexemes of [NUM] tokens, which are strings
    of decimal digits: the double nearest to the number written. *)
Definition digitValue (c : ascii) : Z := Z.of_nat (nat_of_ascii c) - 48.

Fixpoint Number_from (acc : Z) (s : string) : Z :=
  match s with
  | EmptyString => acc
  | String c s' => Number_from (10 * acc + digitValue c) s'
  end.

Definition Number_of (s : string) : jsnum := JS.round (Number_from 0 s).

Section Expressions.
Variable expression : M ASTNode.

Definition primary : M ASTNode :=
  b <- match_ [NUM] ;;
  if b then tok <- previous ;; ret (LiteralNode (Number_of (lexeme tok)))
  else
    b <- match_ [ID] ;;
    if b then tok <- previous ;; r <- newRef ;; ret (IdentifierNode r tok)
    else
      b <- match_ [LPAREN] ;;
      if b then
        expr <- expression ;;
        consume RPAREN "Expect ')' after expression" ;;;
        ret expr
      else tok <- peek ;; throw (ParseError "Expect expression" tok).

(** The loop the three binary levels share:
    [while (match(...ops)) { op = previous(); right = operand();
                             expr = new BinaryExprNode(expr, op, right); }] *)
Fixpoint binaryLoop (ops : list TokenType) (operand : M ASTNode)
    (fuel : nat) (expr : ASTNode) : M ASTNode :=
  match fuel with
  | O => throw FuelExhausted
  | S fuel' =>
      b <- match_ ops ;;
      if b then
        op <- previous ;;
        right <- operand ;;
        binaryLoop ops operand fuel' (BinaryExprNode expr op right)
      else ret expr
  end.

Definition factor (fuel : nat) : M ASTNode :=
  expr <- primary ;;
  binaryLoop [STAR; SLASH; PERCENT] primary fuel expr.

Definition term (fuel : nat) : M ASTNode :=
  expr <- factor fuel ;;
  binaryLoop [PLUS; MINUS] (factor fuel) fuel expr.

Definition comparison (fuel : nat) : M ASTNode :=
  expr <- term fuel ;;
  binaryLoop [EQ; NE; LT; GT; LE; GE] (term fuel) fuel expr.
End Expressions.

Fixpoint expression (fuel : nat) : M ASTNode :=
  match fuel with
  | O => throw FuelExhausted
  | S fuel' => comparison (expression fuel') fuel'
  end.

Section Statements.
Variable expression : M ASTNode.
Variable statement : M ASTNode.

Definition varDecl : M ASTNode :=
  name <- consume ID "Expect variable name after 'int'" ;;
  consume SEMI "Expect ';' after variable declaration" ;;;
  r <- newRef ;;
  ret (VarDeclNode r name).

Definition printStmt : M ASTNode :=
  consume LPAREN "Expect '(' after 'print'" ;;;
  expr <- expression ;;
  consume RPAREN "Expect ')' after print expression" ;;;
  consume SEMI "Expect ';' after print statement" ;;;
  ret (PrintNode expr).

Definition ifStmt : M ASTNode :=
  consume LPAREN "Expect '(' after 'if'" ;;;
  cond <- expression ;;
  consume RPAREN "Expect ')' after if condition" ;;;
  thenBranch <- statement ;;
  b <- match_ [KW_ELSE] ;;
  if b then
    elseBranch <- statement ;;
    ret (IfNode cond thenBranch (Some elseBranch))
  else ret (IfNode cond thenBranch None).

Definition whileStmt : M ASTNode :=
  consume LPAREN "Expect '(' after 'while'" ;;;
  cond <- expression ;;
  consume RPAREN "Expect ')' after while condition" ;;;
  body <- statement ;;
  ret (WhileNode cond body).

Fixpoint block_loop (fuel : nat) (statements : list ASTNode)
  : M (list ASTNode) :=
  match fuel with
  | O => throw FuelExhausted
  | S fuel' =>
      c <- check RBRACE ;;
      if c then ret statements
      else
        e <- isAtEnd ;;
        if e then ret statements
        else
          s <- statement ;;
          block_loop fuel' (statements ++ [s])
  end.

Definition block (fuel : nat) : M ASTNode :=
  statements <- block_loop fuel [] ;;
  consume RBRACE "Expect '}' after block" ;;;
  ret (BlockNode statements).

Definition assignStmt : M ASTNode :=
  name <- consume ID "Expect identifier in assignment or statement" ;;
  consume ASSIGN "Expect '=' after identifier" ;;;
  expr <- expression ;;
  consume SEMI "Expect ';' after assignment" ;;;
  r <- newRef ;;
  ret (AssignNode r name expr).

Fixpoint parse_loop (fuel : nat) (statements : list ASTNode)
  : M (list ASTNode) :=
  match fuel with
  | O => throw FuelExhausted
  | S fuel' =>
      e <- isAtEnd ;;
      if e then ret statements
      else
        s <- statement ;;
        parse_loop fuel' (statements ++ [s])
  end.
End Statements.

(** [efuel] bounds the expression parser, [fuel] the nesting of
    statements and the length of blocks. *)
Fixpoint statement (efuel fuel : nat) : M ASTNode :=
  match fuel with
  | O => throw FuelExhausted
  | S fuel' =>
      b <- match_ [KW_INT] ;;
      if b then varDecl
      else
        b <- match_ [KW_PRINT] ;;
        if b then printStmt (expression efuel)
        else
          b <- match_ [KW_IF] ;;
          if b then ifStmt (expression efuel) (statement efuel fuel')
          else
            b <- match_ [KW_WHILE] ;;
            if b then whileStmt (expression efuel) (statement efuel fuel')
            else
              b <- match_ [LBRACE] ;;
              if b then block (statement efuel fuel') fuel'
              else assignStmt (expression efuel)
  end.

(** Every loop iteration and every level of nesting consumes a token,
    so the number of tokens (plus the final failing test of a loop)
    bounds them all. *)
Definition fuel_for (tokens : list Token) : nat := length tokens + 2.

Definition parse (tokens : list Token) : result ASTNode :=
  let fuel := fuel_for tokens in
  match parse_loop (statement fuel fuel) fuel [] (mk tokens None 0) with
  | Ok (statements, _) => Ok (ProgramNode statements)
  | Err e => Err e
  end.

End Parser.

(** [statements.forEach(s => s.accept(visitor))] for a visitor that
    threads its state and may throw. *)
Section ForEach.
Context {A S : Type}.
Variable f : A -> S -> result S.

Fixpoint forEach (l : list A) (s : S) : result S :=
  match l with
  | [] => Ok s
  | a :: l' => do s' <- f a s; forEach l' s'
  end.
End ForEach.

(** ** semantic.ts *)

Module SemanticAnalyzer.

(** [scopes] is kept innermost scope first: [enterScope] conses,
    [exitScope] drops the head, [resolve] searches from the head. *)
Record t := mk {
  scopes : list (gmap string nat);
  slotCounter : nat;
  varToSlot : gmap nat nat
}.

Definition init : t := mk [∅] 0 ∅.

Definition enterScope (sa : t) : t :=
  mk (∅ :: scopes sa) (slotCounter sa) (varToSlot sa).

Definition exitScope (sa : t) : t :=
  mk (tl (scopes sa)) (slotCounter sa) (varToSlot sa).

Fixpoint resolve_in (scs : list (gmap string nat)) (name : string)
  : option nat :=
  match scs with
  | [] => None
  | sc :: scs' =>
      match sc !! name with
      | Some slot => Some slot
      | None => resolve_in scs' name
      end
  end.

Definition resolve (sa : t) (name : string) : option nat :=
  resolve_in (scopes sa) name.

Definition visitVarDecl (ref : nat) (name : Token) (sa : t) : result t :=
  match scopes sa with
  | [] => Err TypeError
  | scope :: outer =>
      match scope !! lexeme name with
      | Some _ => Err (Redeclaration (lexeme name) (line name))
      | None =>
          let slot := slotCounter sa in
          Ok (mk (<[lexeme name := slot]> scope :: outer)
                 (S slot)
                 (<[ref := slot]> (varToSlot sa)))
      end
  end.

(** The common tail of [visitAssign] and [visitIdentifier]. *)
Definition record_use (ref : nat) (name : Token) (sa : t) : result t :=
  match resolve sa (lexeme name) with
  | None => Err (UndeclaredVariable (lexeme name) (line name))
  | Some slot =>
      Ok (mk (scopes sa) (slotCounter sa) (<[ref := slot]> (varToSlot sa)))
  end.

Fixpoint visit (node : ASTNode) (sa : t) : result t :=
  match node with
  | ProgramNode statements => forEach visit statements sa
  | VarDeclNode ref name => visitVarDecl ref name sa
  | AssignNode ref name expr =>
      do sa <- visit expr sa;
      record_use ref name sa
  | PrintNode expr => visit expr sa
  | BlockNode statements =>
      do sa <- forEach visit statements (enterScope sa);
      Ok (exitScope sa)
  | IfNode cond thenBranch elseBranch =>
      do sa <- visit cond sa;
      do sa <- visit thenBranch sa;
      match elseBranch with
      | Some e => visit e sa
      | None => Ok sa
      end
  | WhileNode cond body =>
      do sa <- visit cond sa;
      visit body sa
  | BinaryExprNode lhs _ rhs =>
      do sa <- visit lhs sa;
      visit rhs sa
  | LiteralNode val => Ok sa
  | IdentifierNode ref name => record_use ref name sa
  end.

(** [new SemanticAnalyzer()], [visitProgram(ast)], then read
    [varToSlot]. *)
Definition analyze (program : ASTNode) : result (gmap nat nat) :=
  do sa <- visit program init;
  Ok (varToSlot sa).

End SemanticAnalyzer.

(** ** codegen.ts *)

Module CodeGenerator.

Section WithMap.
Variable varToSlot : gmap nat nat.

(** [varToSlot.get(node)], as an instruction operand. *)
Definition slotOf (ref : nat) : option jsnum :=
  Int ∘ Z.of_nat <$> varToSlot !! ref.

(** [emit] pushes and returns the index of the pushed instruction. *)
Definition emit (o : OpCode) (operand : option jsnum)
    (comment : option string)
    (instructions : list Instruction) : list Instruction * nat :=
  (instructions ++ [mkInstruction o operand comment], length instructions).

Definition emit_ (o : OpCode) (operand : option jsnum)
    (comment : option string)
    (instructions : list Instruction) : list Instruction :=
  fst (emit o operand comment instructions).

(** [instructions[index].operand = value]; raises when there is no
    instruction at [index]. *)
Definition patch (index : nat) (value : nat)
    (instructions : list Instruction) : result (list Instruction) :=
  match instructions !! index with
  | None => Err TypeError
  | Some i =>
      Ok (<[index := mkInstruction (op i) (Some (Int (Z.of_nat value)))
                       (comment i)]> instructions)
  end.

Definition binaryOpCode (ty : TokenType) : option OpCode :=
  match ty with
  | PLUS => Some ADD
  | MINUS => Some SUB
  | STAR => Some MUL
  | SLASH => Some DIV
  | PERCENT => Some MOD
  | EQ => Some CMP_EQ
  | NE => Some CMP_NE
  | LT => Some CMP_LT
  | GT => Some CMP_GT
  | LE => Some CMP_LE
  | GE => Some CMP_GE
  | _ => None
  end.

Fixpoint visit (node : ASTNode) (instructions : list Instruction)
  : result (list Instruction) :=
  match node with
  | ProgramNode statements => forEach visit statements instructions
  | VarDeclNode ref name =>
      let slot := slotOf ref in
      let instructions :=
        emit_ PUSH_INT (Some (Int 0))
          (Some (String.append "init " (lexeme name))) instructions in
      Ok (emit_ STORE slot None instructions)
  | AssignNode ref name expr =>
      do instructions <- visit expr instructions;
      let slot := slotOf ref in
      Ok (emit_ STORE slot (Some (String.append "assign " (lexeme name))) instructions)
  | PrintNode expr =>
      do instructions <- visit expr instructions;
      Ok (emit_ PRINT None None instructions)
  | BlockNode statements => forEach visit statements instructions
  | IfNode cond thenBranch elseBranch =>
      do instructions <- visit cond instructions;
      let '(instructions, jumpIfFalseIdx) :=
        emit JMP_IF_FALSE (Some (Int 0)) None instructions in
      do instructions <- visit thenBranch instructions;
      match elseBranch with
      | Some e =>
          let '(instructions, jumpToEndIdx) :=
            emit JMP (Some (Int 0)) None instructions in
          do instructions <- patch jumpIfFalseIdx (length instructions) instructions;
          do instructions <- visit e instructions;
          patch jumpToEndIdx (length instructions) instructions
      | None => patch jumpIfFalseIdx (length instructions) instructions
      end
  | WhileNode cond body =>
      let loopStartIdx := length instructions in
      do instructions <- visit cond instructions;
      let '(instructions, jumpIfFalseIdx) :=
        emit JMP_IF_FALSE (Some (Int 0)) None instructions in
      do instructions <- visit body instructions;
      let instructions :=
        emit_ JMP (Some (Int (Z.of_nat loopStartIdx))) None instructions in
      patch jumpIfFalseIdx (length instructions) instructions
  | BinaryExprNode lhs o rhs =>
      do instructions <- visit lhs instructions;
      do instructions <- visit rhs instructions;
      match binaryOpCode (type o) with
      | Some oc => Ok (emit_ oc None None instructions)
      | None => Ok instructions
      end
  | LiteralNode val => Ok (emit_ PUSH_INT (Some val) None instructions)
  | IdentifierNode ref name =>
      let slot := slotOf ref in
      Ok (emit_ LOAD slot (Some (String.append "load " (lexeme name))) instructions)
  end.

Definition getBytecode (instructions : list Instruction)
  : list Instruction :=
  instructions ++ [mkInstruction HALT None None].

(** [new CodeGenerator(varToSlot)], [visitProgram(ast)],
    [getBytecode()]. *)
Definition generate (program : ASTNode) : result (list Instruction) :=
  do instructions <- visit program [];
  Ok (getBytecode instructions).
End WithMap.

End CodeGenerator.

(** ** vm.ts *)

Module VM.

(** [stack] is kept top first.  [variables] is only ever indexed, by an
    instruction operand, so it is the finite map of the properties that
    were assigned, under their keys: indexing converts the operand to a
    string. *)
Record t := mk {
  bytecode : list Instruction;
  stack : list jsval;
  variables : gmap string jsval;
  ip : option jsnum;
  output : list string
}.

(** [new VM(bytecode)] *)
Definition new (bytecode : list Instruction) : t :=
  mk bytecode [] ∅ (Some (Int 0)) [].

#[warnings="-abstract-large-number"]
Definition MAX_ITERATIONS : nat := 100000.

Global Opaque MAX_ITERATIONS.

Definition sentinel : string :=
  "Runtime Error: Exceeded execution limit (possible infinite loop)".

(** [stack.pop()] answers [undefined] on an empty stack. *)
Definition pop (st : list jsval) : jsval * list jsval :=
  match st with
  | [] => (Undefined, [])
  | v :: st' => (v, st')
  end.

Definition push_operand (o : option jsnum) : jsval :=
  match o with
  | Some n => Num n
  | None => Undefined
  end.

(** The property key of [variables[k]]: [-0] and [0] name the same
    element, [undefined] the property of that name. *)
Definition key (k : option jsnum) : string := JS.toString (push_operand k).

(** [variables[k] ?? 0] *)
Definition load (vars : gmap string jsval) (k : option jsnum) : jsval :=
  match vars !! key k with
  | Some (Num n) => Num n
  | Some Undefined | None => Num (Int 0)
  end.

(** [ip++], which the loop evaluates behind its test
    [ip < bytecode.length]: there [ip + 1] is exact, the length of an
    array being below 2^32. *)
Definition next (i : option jsnum) : option jsnum :=
  match i with
  | Some (Int z) => Some (Int (z + 1))
  | Some NegZero => Some (Int 1)
  | Some (Inf s) => Some (Inf s)
  | Some NaN | None => Some NaN
  end.

Definition binary (f : jsval -> jsval -> jsval) (vm : t) : t :=
  let '(b, st) := pop (stack vm) in
  let '(a, st) := pop st in
  mk (bytecode vm) (f a b :: st) (variables vm) (next (ip vm)) (output vm).

Definition arith (f : jsnum -> jsnum -> jsnum) (a b : jsval) : jsval :=
  Num (f (JS.toNumber a) (JS.toNumber b)).

Definition compare (f : jsnum -> jsnum -> bool) (a b : jsval) : jsval :=
  JS.ofBool (f (JS.toNumber a) (JS.toNumber b)).

(** The [switch (inst.op)]: [None] is the [return] of [HALT], otherwise
    the state in which the loop test is evaluated next. *)
Definition dispatch (inst : Instruction) (vm : t) : option t :=
  match op inst with
  | PUSH_INT =>
      Some (mk (bytecode vm) (push_operand (operand inst) :: stack vm)
               (variables vm) (next (ip vm)) (output vm))
  | LOAD =>
      Some (mk (bytecode vm) (load (variables vm) (operand inst) :: stack vm)
               (variables vm) (next (ip vm)) (output vm))
  | STORE =>
      let '(v, st) := pop (stack vm) in
      Some (mk (bytecode vm) st (<[key (operand inst) := v]> (variables vm))
               (next (ip vm)) (output vm))
  | ADD => Some (binary (arith JS.add) vm)
  | SUB => Some (binary (arith JS.sub) vm)
  | MUL => Some (binary (arith JS.mul) vm)
  | DIV => Some (binary (arith JS.floorDiv) vm)
  | MOD => Some (binary (arith JS.rem) vm)
  | CMP_EQ => Some (binary (fun a b => JS.ofBool (JS.strictEq a b)) vm)
  | CMP_NE => Some (binary (fun a b => JS.ofBool (negb (JS.strictEq a b))) vm)
  | CMP_LT => Some (binary (compare JS.ltb) vm)
  | CMP_GT => Some (binary (compare (fun a b => JS.ltb b a)) vm)
  | CMP_LE => Some (binary (compare JS.leb) vm)
  | CMP_GE => Some (binary (compare (fun a b => JS.leb b a)) vm)
  | JMP =>
      Some (mk (bytecode vm) (stack vm) (variables vm) (operand inst) (output vm))
  | JMP_IF_FALSE =>
      let '(v, st) := pop (stack vm) in
      if JS.strictEq v (Num (Int 0))
      then Some (mk (bytecode vm) st (variables vm) (operand inst) (output vm))
      else Some (mk (bytecode vm) st (variables vm) (next (ip vm)) (output vm))
  | PRINT =>
      let '(v, st) := pop (stack vm) in
      Some (mk (bytecode vm) st (variables vm) (next (ip vm))
               (output vm ++ [JS.toString v]))
  | HALT => None
  end.

(** [ip < bytecode.length]; false when [ip] is [undefined]. *)
Definition ip_lt_length (vm : t) : bool :=
  match ip vm with
  | Some i => JS.ltb i (Int (Z.of_nat (length (bytecode vm))))
  | None => false
  end.

(** [bytecode[ip]]: an element when [ip] is an index, [-0] being the
    index 0. *)
Definition fetch (vm : t) : option Instruction :=
  match ip vm with
  | Some (Int i) => if (i <? 0)%Z then None else bytecode vm !! Z.to_nat i
  | Some NegZero => bytecode vm !! 0
  | _ => None
  end.

Inductive exit := Halted | LoopEnded | Threw.

(** The [while] loop; [fuel] is [MAX_ITERATIONS - iterations].  Answers
    how the loop was left, the final value of [iterations] and the
    final state. *)
Fixpoint loop (fuel : nat) (iterations : nat) (vm : t) : exit * nat * t :=
  match fuel with
  | O => (LoopEnded, iterations, vm)
  | S fuel' =>
      if ip_lt_length vm then
        let iterations := S iterations in
        match fetch vm with
        | None => (Threw, iterations, vm)
        | Some inst =>
            match dispatch inst vm with
            | Some vm' => loop fuel' iterations vm'
            | None => (Halted, iterations, vm)
            end
        end
      else (LoopEnded, iterations, vm)
  end.

(** The three assignments that open [run]. *)
Definition reset (vm : t) : t :=
  mk (bytecode vm) [] (variables vm) (Some (Int 0)) [].

(** [run()]: the value returned or the exception, the number of
    instructions dispatched, and the object afterwards. *)
Definition run_full (vm : t) : result (list string) * nat * t :=
  match loop MAX_ITERATIONS 0 (reset vm) with
  | (Halted, iterations, vm') => (Ok (output vm'), iterations, vm')
  | (Threw, iterations, vm') => (Err TypeError, iterations, vm')
  | (LoopEnded, iterations, vm') =>
      if (MAX_ITERATIONS <=? iterations)%nat then
        let vm'' := mk (bytecode vm') (stack vm') (variables vm') (ip vm')
                       (output vm' ++ [sentinel]) in
        (Ok (output vm''), iterations, vm'')
      else (Ok (output vm'), iterations, vm')
  end.

Definition run (vm : t) : result (list string) := fst (fst (run_full vm)).

End VM.

(** ** The pipeline

    The five stages in sequence, the complete output of each being the
    input of the next; the tree reaches the generator through its visitor
    interface, [ast.accept(codegen)]. *)

Definition compile (source : string) : result (list Instruction) :=
  do tokens <- Lexer.tokenize source;
  do ast <- Parser.parse tokens;
  do varToSlot <- SemanticAnalyzer.analyze ast;
  CodeGenerator.generate varToSlot ast.

Definition compile_and_run (source : string) : result (list string) :=
  do bytecode <- compile source;
  VM.run (VM.new bytecode).

(** ** App.tsx *)

Module App.

(** The body of the [try] in [runCompiler], returning the bytecode and
    the log lines it hands to the views.  It asks a new generator for its
    bytecode without passing the tree to it. *)
Definition runCompiler (code : string)
  : result (list Instruction * list string) :=
  do tks <- Lexer.tokenize code;
  do ast <- Parser.parse tks;
  do varToSlot <- SemanticAnalyzer.analyze ast;
  let bc := CodeGenerator.getBytecode [] in
  do result <- VM.run (VM.new bc);
  Ok (bc, result).

End App.

(** * Notions used to state the properties *)

(** ** Induction over the tree *)

Section ASTNode_induction.
Variable P : ASTNode -> Prop.
Hypothesis HProgram : forall statements,
  Forall P statements -> P (ProgramNode statements).
Hypothesis HVarDecl : forall ref name, P (VarDeclNode ref name).
Hypothesis HAssign : forall ref name expr,
  P expr -> P (AssignNode ref name expr).
Hypothesis HPrint : forall expr, P expr -> P (PrintNode expr).
Hypothesis HBlock : forall statements,
  Forall P statements -> P (BlockNode statements).
Hypothesis HIf : forall cond thenBranch elseBranch,
  P cond -> P thenBranch ->
  from_option P True elseBranch ->
  P (IfNode cond thenBranch elseBranch).
Hypothesis HWhile : forall cond body,
  P cond -> P body -> P (WhileNode cond body).
Hypothesis HBinary : forall lhs o rhs,
  P lhs -> P rhs -> P (BinaryExprNode lhs o rhs).
Hypothesis HLiteral : forall val, P (LiteralNode val).
Hypothesis HIdentifier : forall ref name, P (IdentifierNode ref name).

Fixpoint ASTNode_ind (node : ASTNode) : P node :=
  let fix all (l : list ASTNode) : Forall P l :=
    match l with
    | [] => @List.Forall_nil _ P
    | n :: l' => @List.Forall_cons _ P n l' (ASTNode_ind n) (all l')
    end in
  match node with
  | ProgramNode statements => HProgram statements (all statements)
  | VarDeclNode ref name => HVarDecl ref name
  | AssignNode ref name expr => HAssign ref name expr (ASTNode_ind expr)
  | PrintNode expr => HPrint expr (ASTNode_ind expr)
  | BlockNode statements => HBlock statements (all statements)
  | IfNode cond thenBranch elseBranch =>
      HIf cond thenBranch elseBranch (ASTNode_ind cond) (ASTNode_ind thenBranch)
        (match elseBranch as o return from_option P True o with
         | Some e => ASTNode_ind e
         | None => I
         end)
  | WhileNode cond body => HWhile cond body (ASTNode_ind cond) (ASTNode_ind body)
  | BinaryExprNode lhs o rhs =>
      HBinary lhs o rhs (ASTNode_ind lhs) (ASTNode_ind rhs)
  | LiteralNode val => HLiteral val
  | IdentifierNode ref name => HIdentifier ref name
  end.
End ASTNode_induction.

(** ** Execution of the VM, one dispatch at a time *)

Module Exec.
Import VM.

(** One turn of the loop body with the loop test in front of it, without
    the iteration cap: [None] when the test fails, when [bytecode[ip]]
    is missing, or when the instruction is [HALT]. *)
Definition step (vm : t) : option t :=
  if ip_lt_length vm then
    match fetch vm with
    | Some inst => dispatch inst vm
    | None => None
    end
  else None.

Fixpoint state_after (n : nat) (vm : t) : option t :=
  match n with
  | O => Some vm
  | S n' =>
      match step vm with
      | Some vm' => state_after n' vm'
      | None => None
      end
  end.

(** The loop is about to dispatch a [HALT]. *)
Definition at_halt (vm : t) : Prop :=
  ip_lt_length vm = true /\
  exists inst, fetch vm = Some inst /\ op inst = HALT.

(** The loop test fails: [ip] is [undefined] or not below the length. *)
Definition left_code (vm : t) : Prop := ip_lt_length vm = false.

Definition reaches_halt (bytecode : list Instruction) : Prop :=
  exists n vm, state_after n (new bytecode) = Some vm /\ at_halt vm.

End Exec.

(** ** Notions for the iteration cap *)

Module Cap.
Import VM Exec.

(** The loop test holds and the instruction to dispatch is not [HALT]. *)
Definition running (vm : t) : Prop :=
  ip_lt_length vm = true /\
  exists inst, fetch vm = Some inst /\ op inst <> HALT.

Definition with_sentinel (vm : t) : t :=
  mk (bytecode vm) (stack vm) (variables vm) (ip vm) (output vm ++ [sentinel]).

(** The statement as the specification words it, for every instruction
    sequence. *)
Definition sentinel_whenever_no_halt : Prop :=
  forall bytecode,
    ~ reaches_halt bytecode ->
    exists out vm',
      run_full (new bytecode) = (Ok (out ++ [sentinel]), MAX_ITERATIONS, vm').

Definition runs_off_the_end : list Instruction :=
  [mkInstruction PUSH_INT (Some (Int 7)) None].

Definition spin : list Instruction :=
  [mkInstruction PUSH_INT (Some (Int 1)) None;
   mkInstruction JMP_IF_FALSE (Some (Int 3)) None;
   mkInstruction JMP (Some (Int 0)) None;
   mkInstruction HALT None None].

End Cap.

(** ** Notions for DIV and MOD *)

Module Arith.
Import VM.

(** The number [n] is the integer [z]; zero has two representations. *)
Definition represents (n : jsnum) (z : Z) : Prop :=
  n = Int z \/ (n = NegZero /\ z = 0%Z).

(** The integer [z] is a double. *)
Definition is_double (z : Z) : Prop := JS.round z = Int z.

(** The integers of at most 53 bits, JavaScript's safe integers. *)
Definition safe (z : Z) : Prop := (Z.abs z < 2 ^ 53)%Z.

(** [q] is the quotient of [a] by [b] rounded toward negative infinity. *)
Definition is_floor (a b q : Z) : Prop :=
  ((0 < b)%Z -> (q * b <= a < (q + 1) * b)%Z) /\
  ((b < 0)%Z -> ((q + 1) * b < a <= q * b)%Z).

(** [r] is a remainder of [a] by [b] with the sign of [a]. *)
Definition is_dividend_sign_remainder (a b r : Z) : Prop :=
  (Z.abs r < Z.abs b)%Z /\
  ((0 <= a)%Z -> (0 <= r)%Z) /\
  ((a <= 0)%Z -> (r <= 0)%Z) /\
  exists k, (a = k * b + r)%Z.

(** The state after a binary instruction that pushed [v]. *)
Definition pushed (vm : t) (v : jsval) (st : list jsval) : t :=
  mk (bytecode vm) (v :: st) (variables vm) (next (ip vm)) (output vm).

(** The statement about DIV as the specification words it, for every
    pair of integers that the stack can hold. *)
Definition div_floors_every_pair : Prop :=
  forall (vm : t) (a b : Z) (st : list jsval) (inst : Instruction),
    is_double a -> is_double b -> b <> 0%Z ->
    stack vm = Num (Int b) :: Num (Int a) :: st ->
    op inst = DIV ->
    exists q,
      dispatch inst vm = Some (pushed vm (Num q) st) /\ represents q (a / b).

End Arith.

(** ** Sample programs *)

Definition while_sample : string :=
  "int i; i=0; while (i<5) { print(i); i=i+1; }".

Definition stale_slot_sample : string :=
  "int c; if (c) int x; print(x); x = 5;".


(** ** Notions for the parser *)

Module Grammar.

(** The operators of the [comparison] production. *)
Definition comparison_ops : list TokenType := [EQ; NE; LT; GT; LE; GE].

(** The parser state once the token at the head of [rest] is consumed. *)
Definition after (tok : Token) (rest : list Token) (p : Parser.t) : Parser.t :=
  Parser.mk rest (Some tok) (Parser.nextRef p).

Definition chained_sample : string :=
  "int a; int b; int c; a=3; b=2; c=1; print(a<b<c); print(a<b); print(5<7<1);".

Definition tok (ty : TokenType) (s : string) (c : nat) : Token :=
  mkToken ty s 1 c.

(** The tokens of [a<b<c]. *)
Definition chained_tokens : list Token :=
  [tok ID "a" 1; tok LT "<" 2; tok ID "b" 3; tok LT "<" 4; tok ID "c" 5;
   tok EOF "" 6].

End Grammar.

(** ** Notions for the semantic analyzer *)

Module Scoping.
Import SemanticAnalyzer.

(** Threading a flag through the statements of a list while collecting
    references. *)
Section Thread.
Variable f : ASTNode -> bool -> list nat * bool.

Fixpoint thread (l : list ASTNode) (flag : bool) : list nat * bool :=
  match l with
  | [] => ([], flag)
  | n :: l' =>
      let '(us1, flag1) := f n flag in
      let '(us2, flag2) := thread l' flag1 in
      (us1 ++ us2, flag2)
  end.
End Thread.

(** The references of the nodes that are keys of the resolution map, in
    the order in which the analyzer reaches them. *)
Fixpoint refs (node : ASTNode) : list nat :=
  match node with
  | ProgramNode statements => flat_map refs statements
  | VarDeclNode ref _ => [ref]
  | AssignNode ref _ expr => refs expr ++ [ref]
  | PrintNode expr => refs expr
  | BlockNode statements => flat_map refs statements
  | IfNode cond thenBranch elseBranch =>
      refs cond ++ refs thenBranch ++
      match elseBranch with Some e => refs e | None => [] end
  | WhileNode cond body => refs cond ++ refs body
  | BinaryExprNode lhs _ rhs => refs lhs ++ refs rhs
  | LiteralNode _ => []
  | IdentifierNode ref _ => [ref]
  end.

(** The uses of the name [x] (identifier reads and assignment targets)
    inside [node] that see the binding of [x] in force where [node]
    starts.  [shadowed] tells whether a declaration of [x] met on the way
    hides that binding; a declaration hides it for what follows in the
    same scope, and a block gives back on exit the flag it was entered
    with.  Answers the references of those uses and the flag after
    [node]. *)
Fixpoint bound_uses (x : string) (node : ASTNode) (shadowed : bool)
  : list nat * bool :=
  match node with
  | ProgramNode statements => thread (bound_uses x) statements shadowed
  | VarDeclNode _ name =>
      ([], shadowed || bool_decide (lexeme name = x))
  | AssignNode ref name expr =>
      let '(us, sh) := bound_uses x expr shadowed in
      (us ++ (if negb sh && bool_decide (lexeme name = x) then [ref] else []), sh)
  | PrintNode expr => bound_uses x expr shadowed
  | BlockNode statements =>
      (fst (thread (bound_uses x) statements shadowed), shadowed)
  | IfNode cond thenBranch elseBranch =>
      let '(us1, sh1) := bound_uses x cond shadowed in
      let '(us2, sh2) := bound_uses x thenBranch sh1 in
      let '(us3, sh3) :=
        match elseBranch with
        | Some e => bound_uses x e sh2
        | None => ([], sh2)
        end in
      (us1 ++ us2 ++ us3, sh3)
  | WhileNode cond body =>
      let '(us1, sh1) := bound_uses x cond shadowed in
      let '(us2, sh2) := bound_uses x body sh1 in
      (us1 ++ us2, sh2)
  | BinaryExprNode lhs _ rhs =>
      let '(us1, sh1) := bound_uses x lhs shadowed in
      let '(us2, sh2) := bound_uses x rhs sh1 in
      (us1 ++ us2, sh2)
  | LiteralNode _ => ([], shadowed)
  | IdentifierNode ref name =>
      (if negb shadowed && bool_decide (lexeme name = x) then [ref] else [],
       shadowed)
  end.

(** The uses of [x] in a run of statements that see the binding in force
    at its start. *)
Definition uses_of (x : string) (statements : list ASTNode) : list nat :=
  fst (thread (bound_uses x) statements false).

(** Every slot bound in some scope was handed out by the counter. *)
Definition slots_below_counter (sa : t) : Prop :=
  forall sc x slot,
    sc ∈ scopes sa -> sc !! x = Some slot -> slot < slotCounter sa.

(** Same enclosing scopes, and the innermost scope kept its bindings. *)
Definition grows (scs scs' : list (gmap string nat)) : Prop :=
  match scs, scs' with
  | [], [] => True
  | top :: outer, top' :: outer' => top ⊆ top' /\ outer = outer'
  | _, _ => False
  end.

(** What one visit does to the analyzer, whatever the node. *)
Definition frame (node : ASTNode) (sa sa' : t) : Prop :=
  grows (scopes sa) (scopes sa') /\
  slotCounter sa <= slotCounter sa' /\
  (slots_below_counter sa -> slots_below_counter sa') /\
  (forall r, r ∉ refs node -> varToSlot sa' !! r = varToSlot sa !! r) /\
  (forall r, is_Some (varToSlot sa !! r) -> is_Some (varToSlot sa' !! r)) /\
  (forall r, r ∈ refs node -> is_Some (varToSlot sa' !! r)).

(** The uses collected by [bound_uses] are recorded with the slot that
    the name resolved to where the node starts, and that binding is in
    force again after the node unless the flag says it is hidden. *)
Definition binding (x : string) (slot : nat) (uses : list nat) (flag : bool)
    (all : list nat) (sa' : t) : Prop :=
  (flag = false -> resolve sa' x = Some slot) /\
  (forall u, u ∈ uses -> varToSlot sa' !! u = Some slot /\ u ∈ all).

Definition shadow_sample : string :=
  "int x; x=1; print(x); { int x; x=10; print(x); } print(x);".

(** The tree of [shadow_sample], cut at the block. *)
Definition x_at (c : nat) : Token := mkToken ID "x" 1 c.

Definition shadow_before : list ASTNode :=
  [VarDeclNode 0 (x_at 5);
   AssignNode 1 (x_at 8) (LiteralNode (Int 1));
   PrintNode (IdentifierNode 2 (x_at 19))].

Definition shadow_inner : list ASTNode :=
  [AssignNode 4 (x_at 32) (LiteralNode (Int 10));
   PrintNode (IdentifierNode 5 (x_at 44))].

Definition shadow_after : list ASTNode :=
  [PrintNode (IdentifierNode 6 (x_at 56))].

Definition shadow_program : ASTNode :=
  ProgramNode
    (shadow_before
     ++ BlockNode ([] ++ VarDeclNode 3 (x_at 29) :: shadow_inner)
     :: shadow_after).

(** The analyzer state reached by visiting [statements] from [sa]
    ([sa] itself if the visit throws). *)
Definition state_after_visiting (statements : list ASTNode) (sa : t) : t :=
  match forEach visit statements sa with
  | Ok sa' => sa'
  | Err _ => sa
  end.

(** The state [visitVarDecl] leaves when the name is new in the current
    scope [top]. *)
Definition declared (ref : nat) (name : Token) (top : gmap string nat)
    (outer : list (gmap string nat)) (sa : t) : t :=
  mk (<[lexeme name := slotCounter sa]> top :: outer)
     (S (slotCounter sa))
     (<[ref := slotCounter sa]> (varToSlot sa)).

Definition unbraced_sample : string := "if (1) int x; x = 7; print(x);".
Definition braced_sample : string := "if (1) { int x; } x = 7; print(x);".

Definition unbraced_after : list ASTNode :=
  [AssignNode 1 (x_at 15) (LiteralNode (Int 7));
   PrintNode (IdentifierNode 2 (x_at 28))].

Definition redeclaration_sample : string :=
  "int a; int a; a=10; print(b);".

End Scoping.

(** ** Notions for the binding errors

    The declarations and uses of a program in the order of one
    depth-first traversal, with the ends of its blocks, and what it means
    for one of them to be in error. *)

Module Binding.

Inductive event :=
| Enter
| Leave
| Decl (name : Token)
| Use (name : Token).

(** The right-hand side of an assignment comes before its target. *)
Fixpoint events (node : ASTNode) : list event :=
  match node with
  | ProgramNode statements => flat_map events statements
  | VarDeclNode _ name => [Decl name]
  | AssignNode _ name expr => events expr ++ [Use name]
  | PrintNode expr => events expr
  | BlockNode statements => Enter :: flat_map events statements ++ [Leave]
  | IfNode cond thenBranch elseBranch =>
      events cond ++ events thenBranch ++
      match elseBranch with Some e => events e | None => [] end
  | WhileNode cond body => events cond ++ events body
  | BinaryExprNode lhs _ rhs => events lhs ++ events rhs
  | LiteralNode _ => []
  | IdentifierNode _ name => [Use name]
  end.

(** The number of blocks entered and not yet left behind [between],
    starting from [d]; nothing when a block that was open at the start
    has been left. *)
Fixpoint depth_from (d : nat) (between : list event) : option nat :=
  match between with
  | [] => Some d
  | Enter :: l => depth_from (S d) l
  | Leave :: l =>
      match d with
      | O => None
      | S d' => depth_from d' l
      end
  | _ :: l => depth_from d l
  end.

(** Somewhere in [before] the name [x] is declared, in a block that is
    still open at the end of [before], and [k] blocks entered since are
    open as well: the declaration is in the [k]-th scope around the end
    of [before]. *)
Definition declared_at (k : nat) (x : string) (before : list event) : Prop :=
  exists pre d between,
    before = pre ++ Decl d :: between /\ lexeme d = x /\
    depth_from 0 between = Some k.

(** [x] is declared in the current scope. *)
Definition declared_here (x : string) (before : list event) : Prop :=
  declared_at 0 x before.

(** [x] is declared in the current scope or in a scope around it. *)
Definition declared_around (x : string) (before : list event) : Prop :=
  exists k, declared_at k x before.

(** The event that follows [before] is in error: a declaration of a
    name declared in the current scope, a use of a name declared in no
    scope around it. *)
Inductive fails (before : list event) : event -> Thrown -> Prop :=
| fails_redeclaration name :
    declared_here (lexeme name) before ->
    fails before (Decl name) (Redeclaration (lexeme name) (line name))
| fails_undeclared name :
    ~ declared_around (lexeme name) before ->
    fails before (Use name) (UndeclaredVariable (lexeme name) (line name)).

(** No event of [evs], behind [before], is in error. *)
Definition clean_behind (before evs : list event) : Prop :=
  forall b1 ev b2 e, evs = b1 ++ ev :: b2 -> ~ fails (before ++ b1) ev e.

Definition clean (evs : list event) : Prop := clean_behind [] evs.

(** [e] is the error of the first event of [evs] that is in error. *)
Definition first_failure (evs : list event) (e : Thrown) : Prop :=
  exists b1 ev b2, evs = b1 ++ ev :: b2 /\ clean b1 /\ fails b1 ev e.

End Binding.

(** The scopes of the analyzer as sets of names, for the proof that the
    analyzer fails as [Binding] says: the names of the open scopes,
    innermost first, and what one event does to them. *)

Module OpenScopes.
Import Binding.

Definition names (sa : SemanticAnalyzer.t) : list (gset string) :=
  dom <$> SemanticAnalyzer.scopes sa.

Definition step (ev : event) (open : list (gset string))
  : result (list (gset string)) :=
  match ev with
  | Enter => Ok (∅ :: open)
  | Leave => Ok (tl open)
  | Decl name =>
      match open with
      | [] => Err TypeError
      | top :: outer =>
          if decide (lexeme name ∈ top)
          then Err (Redeclaration (lexeme name) (line name))
          else Ok (({[lexeme name]} ∪ top) :: outer)
      end
  | Use name =>
      if decide (Exists (fun sc => lexeme name ∈ sc) open)
      then Ok open
      else Err (UndeclaredVariable (lexeme name) (line name))
  end.

(** The open scopes hold the names declared in them. *)
Definition tracked (before : list event) (open : list (gset string)) : Prop :=
  (exists d, depth_from 0 before = Some d /\ length open = S d) /\
  forall k x,
    (exists sc, open !! k = Some sc /\ x ∈ sc) <-> declared_at k x before.

End OpenScopes.

(** ** The layout of the generated code

    The code the generator appends for a node, as a function of the index
    [base] at which it starts, with every jump operand already final, and
    each instruction paired with the height [h] the operand stack has
    when the instruction is dispatched. *)

Module Layout.
Import CodeGenerator.

Section WithMap.
Variable varToSlot : gmap nat nat.

Definition ins (o : OpCode) (operand : option jsnum) (comment : option string)
    (h : nat) : Instruction * nat :=
  (mkInstruction o operand comment, h).

Section Sequence.
Variable f : nat -> ASTNode -> list (Instruction * nat).

Fixpoint sequence (base : nat) (l : list ASTNode) : list (Instruction * nat) :=
  match l with
  | [] => []
  | n :: l' =>
      let c := f base n in
      c ++ sequence (base + length c) l'
  end.
End Sequence.

Fixpoint acode (h base : nat) (node : ASTNode) : list (Instruction * nat) :=
  match node with
  | ProgramNode statements => sequence (acode h) base statements
  | VarDeclNode ref name =>
      [ins PUSH_INT (Some (Int 0)) (Some (String.append "init " (lexeme name))) h;
       ins STORE (slotOf varToSlot ref) None (S h)]
  | AssignNode ref name expr =>
      acode h base expr ++
      [ins STORE (slotOf varToSlot ref)
           (Some (String.append "assign " (lexeme name))) (S h)]
  | PrintNode expr => acode h base expr ++ [ins PRINT None None (S h)]
  | BlockNode statements => sequence (acode h) base statements
  | IfNode cond thenBranch elseBranch =>
      let cc := acode h base cond in
      let tb := base + length cc + 1 in
      let tc := acode h tb thenBranch in
      match elseBranch with
      | Some e =>
          let eb := tb + length tc + 1 in
          let ec := acode h eb e in
          cc ++ [ins JMP_IF_FALSE (Some (Int (Z.of_nat eb))) None (S h)] ++ tc
             ++ [ins JMP (Some (Int (Z.of_nat (eb + length ec)))) None h] ++ ec
      | None =>
          cc ++ [ins JMP_IF_FALSE (Some (Int (Z.of_nat (tb + length tc)))) None (S h)]
             ++ tc
      end
  | WhileNode cond body =>
      let cc := acode h base cond in
      let bb := base + length cc + 1 in
      let bc := acode h bb body in
      cc ++ [ins JMP_IF_FALSE (Some (Int (Z.of_nat (bb + length bc + 1)))) None (S h)]
         ++ bc ++ [ins JMP (Some (Int (Z.of_nat base))) None h]
  | BinaryExprNode lhs o rhs =>
      let lc := acode h base lhs in
      let rc := acode (S h) (base + length lc) rhs in
      lc ++ rc ++
      match binaryOpCode (type o) with
      | Some oc => [ins oc None None (S (S h))]
      | None => []
      end
  | LiteralNode val => [ins PUSH_INT (Some val) None h]
  | IdentifierNode ref name =>
      [ins LOAD (slotOf varToSlot ref)
           (Some (String.append "load " (lexeme name))) h]
  end.

(** The whole program: statements at height 0, then [HALT]. *)
Definition annotated (program : ASTNode) : list (Instruction * nat) :=
  acode 0 0 program ++ [ins HALT None None 0].

End WithMap.

Definition is_jump (i : Instruction) : Prop :=
  op i = JMP \/ op i = JMP_IF_FALSE.

(** Every jump of the annotated fragment [l] has an operand between [lo]
    and [hi]. *)
Definition targets_within (lo hi : nat) (l : list (Instruction * nat)) : Prop :=
  Forall (fun a => is_jump a.1 ->
            exists t, operand a.1 = Some (Int (Z.of_nat t)) /\ lo <= t <= hi) l.

(** Every jump of [code] has an operand that is an index into [code]. *)
Definition jumps_land_inside (code : list Instruction) : Prop :=
  forall i inst,
    code !! i = Some inst -> is_jump inst ->
    exists target,
      operand inst = Some (Int target) /\
      (0 <= target < Z.of_nat (length code))%Z.

End Layout.

(** ** Notions for the safety of compiled code *)

Module Shape.

(** The trees the [expression] production builds. *)
Fixpoint is_expr (node : ASTNode) : bool :=
  match node with
  | LiteralNode _ | IdentifierNode _ _ => true
  | BinaryExprNode lhs o rhs =>
      is_expr lhs && is_expr rhs
      && bool_decide (is_Some (CodeGenerator.binaryOpCode (type o)))
  | _ => false
  end.

(** The trees the [statement] production builds. *)
Fixpoint is_stmt (node : ASTNode) : bool :=
  match node with
  | VarDeclNode _ _ => true
  | AssignNode _ _ expr | PrintNode expr => is_expr expr
  | BlockNode statements => forallb is_stmt statements
  | IfNode cond thenBranch elseBranch =>
      is_expr cond && is_stmt thenBranch
      && match elseBranch with Some e => is_stmt e | None => true end
  | WhileNode cond body => is_expr cond && is_stmt body
  | _ => false
  end.

Definition is_program (node : ASTNode) : bool :=
  match node with
  | ProgramNode statements => forallb is_stmt statements
  | _ => false
  end.

End Shape.

Module Safety.
Import VM.

(** How many values an instruction pops. *)
Definition pops (o : OpCode) : nat :=
  match o with
  | ADD | SUB | MUL | DIV | MOD
  | CMP_EQ | CMP_NE | CMP_LT | CMP_GT | CMP_LE | CMP_GE => 2
  | STORE | PRINT | JMP_IF_FALSE => 1
  | PUSH_INT | LOAD | JMP | HALT => 0
  end.

(** The instructions that read [inst.operand]. *)
Definition reads_operand (o : OpCode) : bool :=
  match o with
  | PUSH_INT | LOAD | STORE | JMP | JMP_IF_FALSE => true
  | _ => false
  end.

(** The dispatch about to happen in [vm] finds its instruction, finds on
    the stack every value it pops, and finds its operand if it reads
    one. *)
Definition safe (vm : t) : Prop :=
  ip_lt_length vm = true /\
  exists inst,
    fetch vm = Some inst /\
    pops (op inst) <= length (stack vm) /\
    (reads_operand (op inst) = true -> is_Some (operand inst)).

(** The height recorded for the head of an annotated fragment. *)
Definition hh (l : list (Instruction * nat)) : option nat := snd <$> head l.

(** The height recorded at index [k]. *)
Definition height (A : list (Instruction * nat)) (k : nat) : option nat :=
  hh (drop k A).

(** The instruction [inst] at index [i], dispatched at height [h], finds
    what it needs, and the heights recorded at its successors are the
    height it leaves. *)
Definition ok (A : list (Instruction * nat)) (i : nat) (inst : Instruction)
    (h : nat) : Prop :=
  match op inst with
  | PUSH_INT | LOAD =>
      is_Some (operand inst) /\ height A (S i) = Some (S h)
  | STORE =>
      is_Some (operand inst) /\
      exists h', h = S h' /\ height A (S i) = Some h'
  | PRINT => exists h', h = S h' /\ height A (S i) = Some h'
  | ADD | SUB | MUL | DIV | MOD
  | CMP_EQ | CMP_NE | CMP_LT | CMP_GT | CMP_LE | CMP_GE =>
      exists h', h = S (S h') /\ height A (S i) = Some (S h')
  | JMP =>
      exists target,
        operand inst = Some (Int (Z.of_nat target)) /\ height A target = Some h
  | JMP_IF_FALSE =>
      exists target h',
        operand inst = Some (Int (Z.of_nat target)) /\ h = S h' /\
        height A target = Some h' /\ height A (S i) = Some h'
  | HALT => True
  end.

Definition well_typed (A : list (Instruction * nat)) : Prop :=
  forall i inst h, A !! i = Some (inst, h) -> ok A i inst h.

(** The fragment [F], placed at index [base] of [A], is made of
    instructions that are [ok] in [A]. *)
Definition frag_ok (A : list (Instruction * nat)) (base : nat)
    (F : list (Instruction * nat)) : Prop :=
  forall j inst h, F !! j = Some (inst, h) -> ok A (base + j) inst h.

(** The state of the VM agrees with the annotation. *)
Definition agrees (A : list (Instruction * nat)) (vm : t) : Prop :=
  bytecode vm = A.*1 /\
  exists i, ip vm = Some (Int (Z.of_nat i)) /\ height A i = Some (length (stack vm)).

(** What [stmt_ok] establishes for the statement [s]: its code, entered
    at height [h], is made of [ok] instructions wherever it is placed
    before something annotated with height [h]. *)
Definition stmt_typed (m : gmap nat nat) (s : ASTNode) : Prop :=
  Shape.is_stmt s -> (forall r, r ∈ Scoping.refs s -> is_Some (m !! r)) ->
  forall h base pre post A,
    A = pre ++ Layout.acode m h base s ++ post -> length pre = base ->
    hh post = Some h ->
    frag_ok A base (Layout.acode m h base s).

End Safety.

(** The two ways in which [run] can return on [bytecode]: after the
    dispatch of a [HALT], with the output accumulated until then; or after
    [MAX_ITERATIONS] dispatches, with the sentinel line appended to it. *)
Module Outcome.
Import VM Exec.

Definition halts_normally (bytecode : list Instruction) : Prop :=
  exists n vm,
    n < MAX_ITERATIONS /\
    state_after n (new bytecode) = Some vm /\
    at_halt vm /\
    run_full (new bytecode) = (Ok (output vm), S n, vm).

Definition hits_the_cap (bytecode : list Instruction) : Prop :=
  exists vm,
    state_after MAX_ITERATIONS (new bytecode) = Some vm /\
    run_full (new bytecode)
      = (Ok (output vm ++ [sentinel]), MAX_ITERATIONS, Cap.with_sentinel vm).

Definition while_bytecode : list Instruction :=
  Eval vm_compute in
    match compile while_sample with
    | Ok bytecode => bytecode
    | Err _ => []
    end.

End Outcome.

(** ** Notions for the loop bounds and the allocator of the front end *)

Module LexerBound.
Import Lexer.

(** The number of characters still to be read. *)
Definition remaining (lx : t) : nat := length (rest lx).

End LexerBound.

Module ParserLogic.
Import Parser.

(** The number of tokens still to be read. *)
Definition len (p : t) : nat := length (rest p).

(** [mm], run from [p], returns something that satisfies [Q] or throws
    an exception that [allowed] admits. *)
Definition wp (allowed : Thrown -> Prop) {A} (mm : M A) (p : t)
    (Q : A -> t -> Prop) : Prop :=
  match mm p with
  | Ok (a, p') => Q a p'
  | Err e => allowed e
  end.

(** The exceptions of the parser itself are admitted. *)
Class Tolerant (allowed : Thrown -> Prop) := {
  tolerant_type : allowed TypeError;
  tolerant_parse : forall message found, allowed (ParseError message found)
}.

Definition not_fuel (e : Thrown) : Prop := e <> FuelExhausted.
Definition any_error (e : Thrown) : Prop := True.

Global Instance not_fuel_tolerant : Tolerant not_fuel.
Proof. by split. Qed.

Global Instance any_error_tolerant : Tolerant any_error.
Proof. by split. Qed.

(** The postconditions: no token is given back, or at least one token
    is taken. *)
Definition keeps {A} (p : t) : A -> t -> Prop := fun _ p' => len p' <= len p.
Definition takes {A} (p : t) : A -> t -> Prop := fun _ p' => len p' < len p.

(** The references in [l] are distinct and were allocated from [lo]
    up to, not including, [hi]. *)
Definition fresh (lo hi : nat) (l : list nat) : Prop :=
  NoDup l /\ forall r, r ∈ l -> lo <= r < hi.

(** The node returned took its references from the allocator. *)
Definition allocs (p : t) (node : ASTNode) (p' : t) : Prop :=
  nextRef p <= nextRef p' /\ fresh (nextRef p) (nextRef p') (Scoping.refs node).

Definition allocs_list (lo : nat) (p : t) (l : list ASTNode) (p' : t) : Prop :=
  nextRef p <= nextRef p' /\ fresh lo (nextRef p') (flat_map Scoping.refs l).

End ParserLogic.

(** ** The numbers against the IEEE 754 reference

    The Standard Library's executable specification of binary floating
    point, at the parameters of a double (53 bits of precision, exponents
    up to 1024), against which the operations of [JS] are run on sample
    values. *)

Module Binary64.

Definition of_jsnum (n : jsnum) : SpecFloat.spec_float :=
  match n with
  | Int z => SpecFloat.binary_normalize 53 1024 z 0 false
  | NegZero => SpecFloat.S754_zero true
  | Inf s => SpecFloat.S754_infinity s
  | NaN => SpecFloat.S754_nan
  end.

(** The number a float holds, when it is an integer; with [floor], its
    [Math.floor]. *)
Definition to_jsnum (floor : bool) (f : SpecFloat.spec_float)
  : option jsnum :=
  match f with
  | SpecFloat.S754_zero s => Some (JS.zero s)
  | SpecFloat.S754_infinity s => Some (Inf s)
  | SpecFloat.S754_nan => Some NaN
  | SpecFloat.S754_finite s m e =>
      let sm := if s then Z.neg m else Z.pos m in
      if (0 <=? e)%Z then Some (Int (sm * 2 ^ e))
      else if floor || (sm mod 2 ^ (- e) =? 0)%Z then
        let f := (sm / 2 ^ (- e))%Z in
        Some (if (f =? 0)%Z then JS.zero s else Int f)
      else None
  end.

Definition add (a b : jsnum) : option jsnum :=
  to_jsnum false (SpecFloat.SFadd 53 1024 (of_jsnum a) (of_jsnum b)).

Definition sub (a b : jsnum) : option jsnum :=
  to_jsnum false (SpecFloat.SFsub 53 1024 (of_jsnum a) (of_jsnum b)).

Definition mul (a b : jsnum) : option jsnum :=
  to_jsnum false (SpecFloat.SFmul 53 1024 (of_jsnum a) (of_jsnum b)).

Definition floorDiv (a b : jsnum) : option jsnum :=
  to_jsnum true (SpecFloat.SFdiv 53 1024 (of_jsnum a) (of_jsnum b)).

(** Doubles of all sizes, among them the neighbours of 2^53, of the
    largest double and of the ties between two doubles. *)
Definition sample_integers : list Z :=
  [0; 1; 3; -7; 94906267; 4503599627370497; 9007199254740991;
   9007199254740992; 9007199254740993; 9007199254740995;
   1152921504606846976; 10 ^ 21; 2 ^ 100 + 2 ^ 47; 2 ^ 100 + 3 * 2 ^ 47;
   - (2 ^ 200 + 1); (2 ^ 53 - 1) * 2 ^ 971;
   (2 ^ 53 - 1) * 2 ^ 971 + 2 ^ 970 - 1; (2 ^ 53 - 1) * 2 ^ 971 + 2 ^ 970;
   10 ^ 400]%Z.

Definition samples : list jsnum :=
  [NegZero; Inf false; Inf true; NaN] ++ (JS.round <$> sample_integers).

Definition pairs : list (jsnum * jsnum) :=
  a ← samples; b ← samples; [(a, b)].

End Binary64.
(** * Notions used to state the further properties *)

(** ** Notions for the text the lexer reads *)

Module Text.

Definition newline : ascii := "010"%char.

(** The number of line ends in [cs]. *)
Fixpoint newlines (cs : list ascii) : nat :=
  match cs with
  | [] => 0
  | c :: cs' => (if Ascii.eqb c newline then 1 else 0) + newlines cs'
  end.

(** The number of characters of [cs] behind its last line end. *)
Fixpoint since_newline (cs : list ascii) : nat :=
  match cs with
  | [] => 0
  | c :: cs' =>
      if Ascii.eqb c newline || (0 <? newlines cs')%nat
      then since_newline cs'
      else S (since_newline cs')
  end.

(** The line and the column, both counted from 1, of the character that
    follows the text [pre]. *)
Definition line_of (pre : list ascii) : nat := 1 + newlines pre.
Definition col_of (pre : list ascii) : nat := 1 + since_newline pre.

(** The lexeme of [tok] stands in [input] from offset [k] on, and [tok]
    carries the line and column of that offset. *)
Definition located (input : list ascii) (k : nat) (tok : Token) : Prop :=
  exists pre post,
    input = pre ++ list_ascii_of_string (lexeme tok) ++ post /\
    length pre = k /\
    line tok = line_of pre /\ col tok = col_of pre.

(** The tokens stand in [input] in their order, one behind the other
    without overlap, between the offsets [from] and [upto]. *)
Fixpoint spans (input : list ascii) (from : nat) (tokens : list Token)
    (upto : nat) : Prop :=
  match tokens with
  | [] => from <= upto
  | tok :: tokens' =>
      exists k,
        from <= k /\ located input k tok /\
        spans input (k + String.length (lexeme tok)) tokens' upto
  end.

(** The lexer [lx'] is the lexer [lx] moved over the characters
    [consumed]. *)
Definition moved (lx : Lexer.t) (consumed : list ascii) (lx' : Lexer.t)
  : Prop :=
  Lexer.rest lx = consumed ++ Lexer.rest lx' /\
  Lexer.line lx' = Lexer.line lx + newlines consumed /\
  Lexer.col lx' = (if (0 <? newlines consumed)%nat then 1 else Lexer.col lx)
            + since_newline consumed.

(** The lexer has read [pre] of [input]. *)
Definition reading (input : list ascii) (pre : list ascii) (lx : Lexer.t)
  : Prop :=
  input = pre ++ Lexer.rest lx /\
  Lexer.line lx = line_of pre /\ Lexer.col lx = col_of pre.

(** The fixed spelling of the punctuation and operator tokens. *)
Definition spelling (ty : TokenType) : option string :=
  match ty with
  | PLUS => Some "+" | MINUS => Some "-" | STAR => Some "*"
  | SLASH => Some "/" | PERCENT => Some "%"
  | ASSIGN => Some "=" | EQ => Some "==" | NE => Some "!="
  | LT => Some "<" | GT => Some ">" | LE => Some "<=" | GE => Some ">="
  | LPAREN => Some "(" | RPAREN => Some ")"
  | LBRACE => Some "{" | RBRACE => Some "}" | SEMI => Some ";"
  | _ => None
  end.

Definition is_word (s : string) : bool :=
  match list_ascii_of_string s with
  | [] => false
  | c :: cs => Lexer.isAlpha c && forallb Lexer.isAlphaNumeric cs
  end.

Definition is_number (s : string) : bool :=
  match list_ascii_of_string s with
  | [] => false
  | cs => forallb Lexer.isDigit cs
  end.

(** The lexeme of a token has the form its type announces; no token
    other than the last is [EOF], and none is [ERROR]. *)
Definition fits (tok : Token) : bool :=
  match type tok with
  | NUM => is_number (lexeme tok)
  | ID | KW_INT | KW_IF | KW_ELSE | KW_WHILE | KW_PRINT =>
      is_word (lexeme tok)
      && bool_decide (type tok = Lexer.keywordOrId (lexeme tok))
  | EOF | ERROR => false
  | ty => bool_decide (spelling ty = Some (lexeme tok))
  end.

(** The characters at which a token can start. *)
Definition starts_token (c : ascii) : bool :=
  Lexer.isDigit c || Lexer.isAlpha c
  || bool_decide (c ∈ list_ascii_of_string "+-*/%(){};=<>").

(** One turn of the loop of [tokenize] behind [skipWhitespace]: the
    token read and the lexer behind it. *)
Definition scan (lx : Lexer.t) : result (Token * Lexer.t) :=
  let startLine := Lexer.line lx in
  let startCol := Lexer.col lx in
  let '(char, lx) := Lexer.advance lx in
  if Lexer.isDigit char then
    let '(num, lx) :=
      Lexer.scanWhile Lexer.isDigit (length (Lexer.rest lx))
        (String char EmptyString) lx in
    Ok (mkToken NUM num startLine startCol, lx)
  else if Lexer.isAlpha char then
    let '(id, lx) :=
      Lexer.scanWhile Lexer.isAlphaNumeric (length (Lexer.rest lx))
        (String char EmptyString) lx in
    Ok (mkToken (Lexer.keywordOrId id) id startLine startCol, lx)
  else Lexer.punctuation char startLine startCol lx.

(** The outcome of [tokenize] on [input]: tokens that stand in the text,
    followed by the [EOF] token, which carries the position behind the
    last character. *)
Definition outcome (input : list ascii) (r : result (list Token)) : Prop :=
  match r with
  | Ok tokens =>
      exists body eof,
        tokens = body ++ [eof] /\ Forall (fun t => fits t = true) body /\
        type eof = EOF /\ lexeme eof = "" /\
        spans input 0 body (length input) /\
        line eof = line_of input /\ col eof = col_of input
  | Err e =>
      e = FuelExhausted \/
      exists pre c post,
        input = pre ++ c :: post /\
        e = LexerError c (line_of pre) (col_of pre) /\
        starts_token c = false /\ Lexer.isSpace c = false /\
        (c = "!"%char -> head post <> Some "="%char)
  end.

End Text.

(** ** Notions for the failures of the parser *)

Module ParseErrors.

(** The tokens still to be read end with an [EOF] token. *)
Definition ends_with_eof (l : list Token) : Prop :=
  exists body eof, l = body ++ [eof] /\ type eof = EOF.

(** The parser is inside [tokens], with the [EOF] token still ahead. *)
Definition inside (tokens : list Token) (p : Parser.t) : Prop :=
  (exists consumed, tokens = consumed ++ Parser.rest p) /\
  ends_with_eof (Parser.rest p).

(** The exceptions that remain possible inside [tokens]: the bound of
    the model, and a parse error at one of the tokens. *)
Definition parse_failure (tokens : list Token) (e : Thrown) : Prop :=
  e = FuelExhausted \/
  exists message found, e = ParseError message found /\ found ∈ tokens.

(** Started inside [tokens], [mm] returns inside [tokens] with [Q], or
    fails with a [parse_failure]. *)
Definition wpi (tokens : list Token) {A} (mm : Parser.M A) (p : Parser.t)
    (Q : A -> Parser.t -> Prop) : Prop :=
  inside tokens p ->
  match mm p with
  | Ok (a, p') => inside tokens p' /\ Q a p'
  | Err e => parse_failure tokens e
  end.

Definition fine {A} : A -> Parser.t -> Prop := fun _ _ => True.

End ParseErrors.

(** ** Notions for the pipeline as a whole *)

Module Pipeline.

(** The errors of the three stages that can reject a program. *)
Definition is_stage_error (e : Thrown) : Prop :=
  match e with
  | LexerError _ _ _ | ParseError _ _
  | Redeclaration _ _ | UndeclaredVariable _ _ => True
  | TypeError | FuelExhausted => False
  end.

End Pipeline.

(** ** Notions for chains of binary operators *)

Module Chain.

(** From the parser state [p] on, the tokens are the operators and
    operands [items], each operator one of [ops] and each operand parsed
    by [operand], and [p'] is the state behind the last operand. *)
Fixpoint reads (ops : list TokenType) (operand : Parser.M ASTNode)
    (p : Parser.t) (items : list (Token * ASTNode)) (p' : Parser.t) : Prop :=
  match items with
  | [] => p' = p
  | (o, rhs) :: items' =>
      exists r p1,
        Parser.rest p = o :: r /\ type o ∈ ops /\ type o <> EOF /\
        operand (Grammar.after o r p) = Ok (rhs, p1) /\
        reads ops operand p1 items' p'
  end.

(** The tree of a chain: the operators applied from left to right. *)
Definition tree (first : ASTNode) (items : list (Token * ASTNode)) : ASTNode :=
  fold_left (fun acc item => BinaryExprNode acc item.1 item.2) items first.

End Chain.

(** ** Notions for the slots the analyzer hands out *)

Module Slots.
Import SemanticAnalyzer.

(** The declarations of a tree, in the order in which the analyzer
    reaches them. *)
Fixpoint decls (node : ASTNode) : list nat :=
  match node with
  | ProgramNode statements => flat_map decls statements
  | VarDeclNode ref _ => [ref]
  | AssignNode _ _ expr => decls expr
  | PrintNode expr => decls expr
  | BlockNode statements => flat_map decls statements
  | IfNode cond thenBranch elseBranch =>
      decls cond ++ decls thenBranch ++
      match elseBranch with Some e => decls e | None => [] end
  | WhileNode cond body => decls cond ++ decls body
  | BinaryExprNode lhs _ rhs => decls lhs ++ decls rhs
  | LiteralNode _ => []
  | IdentifierNode _ _ => []
  end.

(** Every slot recorded in the resolution map was handed out by the
    counter. *)
Definition map_below_counter (sa : t) : Prop :=
  forall r slot, varToSlot sa !! r = Some slot -> slot < slotCounter sa.

(** What one successful visit does with the counter: it advances by the
    number of declarations, the recorded slots stay below it, and the
    declarations receive its successive values. *)
Definition tracks (node : ASTNode) (sa sa' : t) : Prop :=
  slotCounter sa' = slotCounter sa + length (decls node) /\
  (Scoping.slots_below_counter sa -> map_below_counter sa ->
   map_below_counter sa') /\
  (NoDup (Scoping.refs node) ->
   forall i d, decls node !! i = Some d ->
     varToSlot sa' !! d = Some (slotCounter sa + i)).

(** The references of two parts visited one after the other are
    distinct when those of the whole are. *)
Definition splits (n n1 n2 : ASTNode) : Prop :=
  decls n = decls n1 ++ decls n2 /\
  (forall r, r ∈ Scoping.refs n <-> r ∈ Scoping.refs n1 \/ r ∈ Scoping.refs n2) /\
  (NoDup (Scoping.refs n) ->
   NoDup (Scoping.refs n1) /\ NoDup (Scoping.refs n2) /\
   forall u, u ∈ Scoping.refs n1 -> u ∉ Scoping.refs n2).

(** The exceptions of the analyzer itself. *)
Definition is_binding_error (e : Thrown) : Prop :=
  match e with
  | Redeclaration _ _ | UndeclaredVariable _ _ => True
  | _ => False
  end.

End Slots.

(** ** Notions for the instructions the generator emits *)

Module Emitted.
Import CodeGenerator.

(** The instructions that a visit of a tree with the key nodes [rs] can
    emit. *)
Definition from (varToSlot : gmap nat nat) (rs : list nat)
    (inst : Instruction) : Prop :=
  match op inst with
  | PUSH_INT | JMP | JMP_IF_FALSE => is_Some (operand inst)
  | LOAD | STORE => exists r, r ∈ rs /\ operand inst = slotOf varToSlot r
  | HALT => False
  | _ => operand inst = None
  end.

Definition is_jumpb (inst : Instruction) : bool :=
  match op inst with
  | JMP | JMP_IF_FALSE => true
  | _ => false
  end.

(** The index [n] moved [base] places further. *)
Definition moved_by (base : nat) (n : jsnum) : jsnum :=
  match n with
  | Int t => Int (t + Z.of_nat base)
  | _ => n
  end.

(** The instruction moved [base] places further: a jump operand is an
    index into the sequence and moves along. *)
Definition relocate (base : nat) (inst : Instruction) : Instruction :=
  if is_jumpb inst
  then mkInstruction (op inst) (moved_by base <$> operand inst) (comment inst)
  else inst.

Definition relocate_annotated (base : nat) (a : Instruction * nat)
  : Instruction * nat :=
  (relocate base a.1, a.2).

Definition is_slot_access (inst : Instruction) : Prop :=
  op inst = LOAD \/ op inst = STORE.

End Emitted.

(** ** Notions for the VM on arbitrary code *)

Module Run.
Import VM Exec.

(** The loop test holds but [bytecode[ip]] is missing: [ip] is a negative
    number, and reading [inst.op] raises. *)
Definition at_missing (vm : t) : Prop :=
  ip_lt_length vm = true /\ fetch vm = None /\
  exists i, ip vm = Some i /\ JS.ltb i (Int 0) = true.

(** No jump of [code] has a negative operand. *)
Definition no_negative_jump (code : list Instruction) : Prop :=
  forall inst n,
    inst ∈ code -> Layout.is_jump inst -> operand inst = Some n ->
    JS.ltb n (Int 0) = false.

Definition jump_back_before_start : list Instruction :=
  [mkInstruction JMP (Some (Int (-1))) None].

(** [ip] is [undefined] or not negative. *)
Definition ip_not_negative (vm : t) : Prop :=
  forall i, ip vm = Some i -> JS.ltb i (Int 0) = false.

End Run.

(** ** The value of an expression

    What JavaScript computes for the operator of a token on two values
    taken from the stack, and for an expression tree from the slots. *)

Module Eval.

Definition apply (ty : TokenType) (a b : jsval) : jsval :=
  let x := JS.toNumber a in
  let y := JS.toNumber b in
  match ty with
  | PLUS => Num (JS.add x y)
  | MINUS => Num (JS.sub x y)
  | STAR => Num (JS.mul x y)
  | SLASH => Num (JS.floorDiv x y)
  | PERCENT => Num (JS.rem x y)
  | EQ => JS.ofBool (JS.strictEq a b)
  | NE => JS.ofBool (negb (JS.strictEq a b))
  | LT => JS.ofBool (JS.ltb x y)
  | GT => JS.ofBool (JS.ltb y x)
  | LE => JS.ofBool (JS.leb x y)
  | GE => JS.ofBool (JS.leb y x)
  | _ => Undefined
  end.

Fixpoint value (varToSlot : gmap nat nat) (variables : gmap string jsval)
    (expr : ASTNode) : jsval :=
  match expr with
  | LiteralNode val => Num val
  | IdentifierNode ref _ =>
      VM.load variables (CodeGenerator.slotOf varToSlot ref)
  | BinaryExprNode lhs o rhs =>
      apply (type o) (value varToSlot variables lhs)
                     (value varToSlot variables rhs)
  | _ => Undefined
  end.

(** The state in which [v] was pushed and [ip] moved to index [i]. *)
Definition pushed_at (vm : VM.t) (v : jsval) (i : nat) : VM.t :=
  VM.mk (VM.bytecode vm) (v :: VM.stack vm) (VM.variables vm)
        (Some (Int (Z.of_nat i))) (VM.output vm).

End Eval.

(** ** Notions for what compiled statements do *)

Module Effect.

(** The state in which [ip] is at index [i], with the given stack,
    slots and output. *)
Definition at_index (vm : VM.t) (i : nat) (stack : list jsval)
    (variables : gmap string jsval) (output : list string) : VM.t :=
  VM.mk (VM.bytecode vm) stack variables (Some (Int (Z.of_nat i))) output.

(** The state in which only [ip] changed, to index [i]. *)
Definition moved_to (vm : VM.t) (i : nat) : VM.t :=
  at_index vm i (VM.stack vm) (VM.variables vm) (VM.output vm).

(** [v === 0], the test of [JMP_IF_FALSE]. *)
Definition is_false (v : jsval) : bool := JS.strictEq v (Num (Int 0)).

End Effect.

(** ** The meaning of programs without loops

    What a statement does to the slots and to the output when it is
    carried out as written, with JavaScript's operators on the values.
    A [while] statement is left out: it is given no meaning here. *)

Module Meaning.

Definition state : Type := gmap string jsval * list string.

Fixpoint exec (varToSlot : gmap nat nat) (node : ASTNode) (st : state)
  : state :=
  let value := Eval.value varToSlot st.1 in
  let slot ref := VM.key (CodeGenerator.slotOf varToSlot ref) in
  match node with
  | ProgramNode statements =>
      fold_left (fun st s => exec varToSlot s st) statements st
  | VarDeclNode ref _ => (<[slot ref := Num (Int 0)]> st.1, st.2)
  | AssignNode ref _ expr => (<[slot ref := value expr]> st.1, st.2)
  | PrintNode expr => (st.1, st.2 ++ [JS.toString (value expr)])
  | BlockNode statements =>
      fold_left (fun st s => exec varToSlot s st) statements st
  | IfNode cond thenBranch elseBranch =>
      if Effect.is_false (value cond)
      then match elseBranch with
           | Some e => exec varToSlot e st
           | None => st
           end
      else exec varToSlot thenBranch st
  | _ => st
  end.

(** The statements and programs without a [while]. *)
Fixpoint loop_free (node : ASTNode) : bool :=
  match node with
  | ProgramNode statements => forallb loop_free statements
  | BlockNode statements => forallb loop_free statements
  | IfNode _ thenBranch elseBranch =>
      loop_free thenBranch
      && match elseBranch with Some e => loop_free e | None => true end
  | WhileNode _ _ => false
  | _ => true
  end.

(** From [vm], at most [n] dispatches lead to [vm']. *)
Definition runs (vm : VM.t) (n : nat) (vm' : VM.t) : Prop :=
  exists k, k <= n /\ Exec.state_after k vm = Some vm'.

(** The state of the VM in which [ip] is at index [i] and the slots and
    the output are those of [st], the stack being that of [vm]. *)
Definition reached (vm : VM.t) (i : nat) (st : state) : VM.t :=
  Effect.at_index vm i (VM.stack vm) st.1 st.2.

Definition state_of (vm : VM.t) : state := (VM.variables vm, VM.output vm).

(** What the code of the statement [s] is expected to do, wherever it is
    placed: from its first instruction, with at most one dispatch for
    each of its instructions, it leads right behind itself, with the
    slots and the output that [exec] gives and the stack as before. *)
Definition carried_out (varToSlot : gmap nat nat) (s : ASTNode) : Prop :=
  Shape.is_stmt s -> loop_free s ->
  forall h vm pre post,
    VM.bytecode vm
    = pre ++ (Layout.acode varToSlot h (length pre) s).*1 ++ post ->
    VM.ip vm = Some (Int (Z.of_nat (length pre))) ->
    runs vm (length (Layout.acode varToSlot h (length pre) s))
      (reached vm
         (length pre + length (Layout.acode varToSlot h (length pre) s))
         (exec varToSlot s (state_of vm))).

End Meaning.
(** * Properties *)

(** ** Numbers *)

Module JSFacts.

Lemma ltb_Int a b : JS.ltb (Int a) (Int b) = (a <? b)%Z.
Proof. reflexivity. Qed.

(** An integer of at most 53 bits is a double. *)
Lemma round_safe z : (Z.abs z < 2 ^ 53)%Z -> JS.round z = Int z.
Proof.
  intros Hz. unfold JS.round, JS.nearest_double.
  assert (Z.log2 (Z.abs z) < 53)%Z as Hl.
  { destruct (Z.eq_dec z 0%Z) as [->|]; [done|]. apply Z.log2_lt_pow2; lia. }
  change (Z.log2 1) with 0%Z.
  set (e := Z.max _ _).
  assert (e <= 0)%Z as He.
  { subst e. destruct (_ <? _)%Z; lia. }
  by rewrite (proj2 (Z.leb_le e 0%Z) He).
Qed.

End JSFacts.

Module Binary64Facts.
Import Binary64.

(** On the samples, rounding and the four operations of [JS] give what
    the reference gives. *)
Remark round_agrees :
  of_jsnum <$> (JS.round <$> sample_integers)
  = (fun z => SpecFloat.binary_normalize 53 1024 z 0 false)
      <$> sample_integers.
Proof. vm_compute. reflexivity. Qed.

Remark add_agrees :
  (fun p => Some (JS.add p.1 p.2)) <$> pairs = (fun p => add p.1 p.2) <$> pairs.
Proof. vm_compute. reflexivity. Qed.

Remark sub_agrees :
  (fun p => Some (JS.sub p.1 p.2)) <$> pairs = (fun p => sub p.1 p.2) <$> pairs.
Proof. vm_compute. reflexivity. Qed.

Remark mul_agrees :
  (fun p => Some (JS.mul p.1 p.2)) <$> pairs = (fun p => mul p.1 p.2) <$> pairs.
Proof. vm_compute. reflexivity. Qed.

Remark floorDiv_agrees :
  (fun p => Some (JS.floorDiv p.1 p.2)) <$> pairs
  = (fun p => floorDiv p.1 p.2) <$> pairs.
Proof. vm_compute. reflexivity. Qed.

End Binary64Facts.

(** ** Execution of the VM, one dispatch at a time *)

Module ExecFacts.
Import VM Exec.

Lemma dispatch_halt inst vm :
  dispatch inst vm = None <-> op inst = HALT.
Proof.
  unfold dispatch, binary.
  destruct (op inst); repeat (destruct (pop _)); try (split; congruence).
  destruct (JS.strictEq _ _); split; congruence.
Qed.

Lemma state_after_plus n m vm :
  state_after (n + m) vm =
  match state_after n vm with
  | Some vm' => state_after m vm'
  | None => None
  end.
Proof.
  revert vm. induction n as [|n IH]; intros vm; simpl; [done|].
  destruct (step vm); [apply IH | done].
Qed.

Lemma state_after_S n vm :
  state_after (S n) vm =
  match state_after n vm with
  | Some vm' => step vm'
  | None => None
  end.
Proof.
  replace (S n) with (n + 1) by lia. rewrite state_after_plus.
  destruct (state_after n vm) as [vm'|]; [|done].
  simpl. by destruct (step vm').
Qed.

(** While steps exist the loop keeps turning and counts each of them. *)
Lemma loop_running fuel : forall iterations vm vm',
  state_after fuel vm = Some vm' ->
  loop fuel iterations vm = (LoopEnded, iterations + fuel, vm').
Proof.
  induction fuel as [|fuel IH]; intros iterations vm vm' H; simpl in *.
  - injection H as <-. by rewrite Nat.add_0_r.
  - unfold step in H.
    destruct (ip_lt_length vm); [|done].
    destruct (fetch vm) as [inst|]; [|done].
    destruct (dispatch inst vm) as [vm1|]; [|done].
    rewrite (IH (S iterations) vm1 vm' H). f_equal. f_equal. lia.
Qed.

(** The loop stops at the first state without a successor, having
    counted the dispatches made so far. *)
Lemma loop_stops n : forall fuel iterations vm vm',
  state_after n vm = Some vm' ->
  step vm' = None ->
  n < fuel ->
  loop fuel iterations vm =
    if ip_lt_length vm' then
      match fetch vm' with
      | Some _ => (Halted, S (iterations + n), vm')
      | None => (Threw, S (iterations + n), vm')
      end
    else (LoopEnded, iterations + n, vm').
Proof.
  induction n as [|n IH]; intros fuel iterations vm vm' Hn Hstep Hlt.
  - simpl in Hn. injection Hn as <-.
    destruct fuel as [|fuel]; [lia|]. simpl.
    unfold step in Hstep. rewrite Nat.add_0_r.
    destruct (ip_lt_length vm); [|done].
    destruct (fetch vm) as [inst|]; [|done].
    by rewrite Hstep.
  - destruct fuel as [|fuel]; [lia|].
    simpl in Hn. unfold step in Hn. simpl.
    destruct (ip_lt_length vm); [|done].
    destruct (fetch vm) as [inst|]; [|done].
    destruct (dispatch inst vm) as [vm1|]; [|done].
    rewrite (IH fuel (S iterations) vm1 vm' Hn Hstep ltac:(lia)).
    replace (S iterations + n) with (iterations + S n) by lia.
    done.
Qed.

Lemma reset_new bytecode : reset (new bytecode) = new bytecode.
Proof. reflexivity. Qed.

Lemma state_after_bytecode n : forall vm vm',
  state_after n vm = Some vm' -> bytecode vm' = bytecode vm.
Proof.
  induction n as [|n IH]; intros vm vm' H; simpl in H.
  - by injection H as <-.
  - destruct (step vm) as [vm1|] eqn:E; [|done].
    rewrite (IH _ _ H). unfold step in E.
    destruct (ip_lt_length vm); [|done].
    destruct (fetch vm) as [inst|]; [|done].
    unfold dispatch, binary in E.
    destruct (op inst); repeat (destruct (pop _));
      try destruct (JS.strictEq _ _); try done;
      by injection E as <-.
Qed.

End ExecFacts.

(** ** C1: the while sample end to end *)

(** C1.  Tokenizing [while_sample], parsing the tokens, analyzing the
    tree, generating code from the tree and the resolution map and running
    the code on a new VM all succeed, and [run] returns exactly
    ["0"; "1"; "2"; "3"; "4"]. *)
Theorem C1_while_sample_output :
  exists tokens ast varToSlot bytecode,
    Lexer.tokenize while_sample = Ok tokens /\
    Parser.parse tokens = Ok ast /\
    SemanticAnalyzer.analyze ast = Ok varToSlot /\
    CodeGenerator.generate varToSlot ast = Ok bytecode /\
    VM.run (VM.new bytecode) = Ok ["0"; "1"; "2"; "3"; "4"] /\
    compile_and_run while_sample = Ok ["0"; "1"; "2"; "3"; "4"].
Proof.
  do 4 eexists.
  split; [vm_compute; reflexivity|].
  split; [vm_compute; reflexivity|].
  split; [vm_compute; reflexivity|].
  split; [vm_compute; reflexivity|].
  split; vm_compute; reflexivity.
Qed.

(** ** Reaching the iteration cap *)

Module CapFacts.
Import VM Exec ExecFacts Cap.

Lemma running_step vm : running vm <-> is_Some (step vm).
Proof.
  unfold running, step. split.
  - intros [-> (inst & -> & Hop)].
    destruct (dispatch inst vm) eqn:E; [eauto|].
    by apply dispatch_halt in E.
  - intros [vm' H].
    destruct (ip_lt_length vm); [|done].
    destruct (fetch vm) as [inst|]; [|done].
    split; [done|]. exists inst. split; [done|].
    intros Hop. apply (dispatch_halt inst vm) in Hop. congruence.
Qed.

Lemma running_all n : forall vm,
  (forall k vm', k < n -> state_after k vm = Some vm' -> running vm') ->
  is_Some (state_after n vm).
Proof.
  induction n as [|n IH]; intros vm H; [by eexists|].
  rewrite state_after_S.
  destruct (IH vm) as [vm' Hvm']; [intros; eapply H; [|done]; lia|].
  rewrite Hvm'. apply running_step. eapply H; [|done]. lia.
Qed.

Lemma all_running n : forall vm,
  is_Some (state_after n vm) ->
  forall k vm', k < n -> state_after k vm = Some vm' -> running vm'.
Proof.
  intros vm [vmn Hn] k vm' Hk Hk'.
  apply running_step.
  replace n with (k + S (n - S k)) in Hn by lia.
  rewrite state_after_plus, Hk' in Hn. simpl in Hn.
  destruct (step vm'); [eauto|done].
Qed.

(** When 100,000 dispatches happen, [run] returns with the sentinel. *)
Lemma cap_reached bytecode vm' :
  state_after MAX_ITERATIONS (new bytecode) = Some vm' ->
  run_full (new bytecode)
  = (Ok (output vm' ++ [sentinel]), MAX_ITERATIONS, with_sentinel vm').
Proof.
  intros H. unfold run_full. rewrite reset_new.
  rewrite (loop_running _ 0 _ _ H). simpl "+". by rewrite Nat.leb_refl.
Qed.

End CapFacts.

(** ** C4: DIV and MOD *)

Module ArithFacts.
Import VM Arith.
#[local] Open Scope Z_scope.

Lemma represents_cases n z :
  represents n z ->
  JS.isNaN n = false /\ JS.isInf n = false /\ JS.toZ n = z /\
  JS.isZero n = (z =? 0) /\
  (z <> 0 -> JS.negative n = (z <? 0)).
Proof.
  intros [-> | [-> ->]]; simpl.
  - split; [done|]. split; [done|]. split; [done|].
    split; [by destruct z | done].
  - by repeat split.
Qed.

Lemma div_is_floor a b : b <> 0 -> is_floor a b (a / b).
Proof.
  intros Hb. pose proof (Z.div_mod a b Hb) as E. split; intros Hs.
  - pose proof (Z.mod_pos_bound a b Hs). lia.
  - pose proof (Z.mod_neg_bound a b Hs). lia.
Qed.

Lemma rem_is_dividend_sign a b :
  b <> 0 -> is_dividend_sign_remainder a b (Z.rem a b).
Proof.
  intros Hb. pose proof (Z.rem_bound_abs a b Hb).
  pose proof (Z.rem_sign_mul a b Hb). pose proof (Z.quot_rem' a b).
  split; [done|].
  split; [by apply Z.rem_nonneg|]. split; [by apply Z.rem_nonpos|].
  exists (Z.quot a b). lia.
Qed.

Lemma nearest_even_cases n d :
  0 < d ->
  JS.nearest_even n d = n / d /\ 2 * (n mod d) <= d \/
  JS.nearest_even n d = n / d + 1 /\ d <= 2 * (n mod d).
Proof.
  intros Hd. unfold JS.nearest_even.
  destruct (Z.ltb_spec (2 * (n mod d)) d); [left; lia|].
  destruct (Z.ltb_spec d (2 * (n mod d))); [right; lia|].
  destruct (Z.even (n / d)); [left | right]; lia.
Qed.

(** Rounding the quotient on a grid that is finer than the divisor
    allows does not move it across an integer: with [P] the number of
    grid points in a unit, [n * P / d] rounded to the nearest integer has
    the floor of [n / d], and so for the negated quotient. *)
Lemma floor_of_rounded n d P :
  0 < n -> 0 < d -> 0 < P -> d < 2 * P ->
  JS.nearest_even (n * P) d / P = n / d /\
  (- JS.nearest_even (n * P) d) / P = (- n) / d.
Proof.
  intros Hn Hd HP HdP. set (m := JS.nearest_even (n * P) d).
  pose proof (Z.div_mod n d ltac:(lia)) as En.
  pose proof (Z.mod_pos_bound n d Hd) as Rn.
  set (Q := n / d) in *. set (R := n mod d) in *.
  pose proof (Z.div_mod (R * P) d ltac:(lia)) as Et.
  pose proof (Z.mod_pos_bound (R * P) d Hd) as Ru.
  assert (0 <= R * P / d < P) as Ht.
  { split; [apply Z.div_pos; nia|]. apply Z.div_lt_upper_bound; nia. }
  set (t := R * P / d) in *. set (u := (R * P) mod d) in *.
  assert (n * P = d * (Q * P + t) + u) as EN by nia.
  assert ((n * P) / d = Q * P + t) as Eq.
  { symmetry. apply (Z.div_unique_pos _ _ _ u); lia. }
  assert ((n * P) mod d = u) as Er.
  { symmetry. apply (Z.mod_unique_pos _ _ (Q * P + t)); lia. }
  assert (m = Q * P + t /\ 2 * u <= d \/ m = Q * P + t + 1 /\ d <= 2 * u)
    as Hm.
  { subst m. destruct (nearest_even_cases (n * P) d Hd) as [[-> H]|[-> H]];
      rewrite Eq, Er in *; [left | right]; lia. }
  assert (0 <= Q) as HQ by (apply Z.div_pos; lia).
  assert (Q * P <= m /\ m < (Q + 1) * P) as [Hlo Hhi].
  { destruct Hm as [[-> _]|[-> Hu]]; [nia|]. split; [nia|].
    destruct (Z.eq_dec t (P - 1)) as [Et'|]; [|nia].
    assert (u = R * P - d * (P - 1)) by nia. nia. }
  split.
  - symmetry. apply (Z.div_unique_pos _ _ _ (m - Q * P)); nia.
  - destruct (Z.eq_dec R 0) as [HR|HR].
    + assert (t = 0 /\ u = 0) as [Ht0 Hu0].
      { subst t u. rewrite HR. simpl.
        by rewrite Z.div_0_l, Z.mod_0_l by lia. }
      assert (m = Q * P) as -> by lia.
      transitivity (- Q).
      * symmetry. apply (Z.div_unique_pos _ _ _ 0); lia.
      * apply (Z.div_unique_pos _ _ _ 0); lia.
    + assert (Q * P < m) as Hlo'.
      { destruct (Z.eq_dec t 0) as [Et'|]; [|nia].
        assert (u = R * P) by nia.
        destruct Hm as [[-> Hu]|[-> _]]; [nia | lia]. }
      transitivity (- Q - 1).
      * symmetry. apply (Z.div_unique_pos _ _ _ ((Q + 1) * P - m)); nia.
      * apply (Z.div_unique_pos _ _ _ (d - R)); nia.
Qed.

Lemma log2_bounds n : 0 < n -> 2 ^ Z.log2 n <= n < 2 ^ (Z.log2 n + 1).
Proof.
  intros Hn. pose proof (Z.log2_spec n Hn). by rewrite <- Z.add_1_r in *.
Qed.

(** Within 53 bits, the floor of the rounded quotient is the floor of
    the quotient. *)
Lemma floor_nearest_double n d s :
  0 < n < 2 ^ 53 -> 0 < d < 2 ^ 53 ->
  exists m e,
    JS.nearest_double n d = (m, e) /\
    JS.overflows m e = false /\
    JS.floor s m e
    = let f := (if s then - n else n) / d in
      if f =? 0 then JS.zero s else Int f.
Proof.
  intros Hn Hd. eexists _, _. split; [reflexivity|].
  pose proof (log2_bounds n ltac:(lia)) as Bn.
  pose proof (log2_bounds d ltac:(lia)) as Bd.
  pose proof (Z.log2_nonneg n) as Nn. pose proof (Z.log2_nonneg d) as Nd.
  assert (Z.log2 n < 53) as Ln by (apply Z.log2_lt_pow2; lia).
  assert (Z.log2 d < 53) as Ld by (apply Z.log2_lt_pow2; lia).
  set (e1 := if n * 2 ^ Z.log2 d <? d * 2 ^ Z.log2 n
             then Z.log2 n - Z.log2 d - 52 - 1
             else Z.log2 n - Z.log2 d - 52).
  assert (Z.max e1 (-1074) = e1) as ->.
  { apply Z.max_l. subst e1. destruct (_ <? _); lia. }
  destruct (Z.leb_spec 0 e1) as [He|He].
  - (* the divisor is 1 and the dividend has 53 bits *)
    assert (Z.log2 n = 52 /\ Z.log2 d = 0 /\ e1 = 0) as (En & Ed & ->).
    { subst e1.
      destruct (Z.ltb_spec (n * 2 ^ Z.log2 d) (d * 2 ^ Z.log2 n)); [|lia].
      assert (Z.log2 n = 52 /\ Z.log2 d = 0) as [E1 E2] by lia.
      rewrite E1, E2 in *. simpl in *. lia. }
    assert (d = 1) as -> by (rewrite Ed in Bd; simpl in Bd; lia).
    assert (JS.nearest_even n (1 * 2 ^ 0) = n) as ->.
    { unfold JS.nearest_even. simpl. rewrite Z.mod_1_r, Z.div_1_r. done. }
    split.
    + unfold JS.overflows. apply Z.leb_gt. simpl (2 ^ 0).
      assert (2 ^ 53 < 2 ^ 1024) by (apply Z.pow_lt_mono_r; lia). lia.
    + unfold JS.floor. simpl (0 <=? 0). cbv iota. simpl (2 ^ 0).
      rewrite !Z.mul_1_r, !Z.div_1_r. done.
  - set (P := 2 ^ (- e1)).
    assert (0 < P) as HP by (apply Z.pow_pos_nonneg; lia).
    assert (d < 2 * P) as HdP.
    { assert (2 ^ (Z.log2 d + 1) <= 2 * P); [|lia].
      unfold P. rewrite <- Z.pow_succ_r by lia.
      apply Z.pow_le_mono_r; [lia|].
      subst e1. destruct (_ <? _); lia. }
    destruct (floor_of_rounded n d P ltac:(lia) ltac:(lia) HP HdP)
      as [Hpos Hneg].
    fold P. set (m := JS.nearest_even (n * P) d) in *.
    split.
    + unfold JS.overflows. apply Z.leb_gt.
      rewrite (Z.pow_neg_r 2 e1) by lia. rewrite Z.mul_0_r.
      apply Z.pow_pos_nonneg; lia.
    + unfold JS.floor. rewrite (proj2 (Z.leb_gt 0 e1)) by lia. fold P.
      destruct s; [by rewrite Hneg | by rewrite Hpos].
Qed.

Lemma floorDiv_represents x y a b :
  represents x a -> represents y b -> b <> 0 -> safe a -> safe b ->
  represents (JS.floorDiv x y) (a / b).
Proof.
  intros Hx Hy Hb Sa Sb. unfold safe in *.
  destruct (represents_cases _ _ Hx) as (Hx1 & Hx2 & Hx3 & Hx4 & Hx5).
  destruct (represents_cases _ _ Hy) as (Hy1 & Hy2 & Hy3 & Hy4 & Hy5).
  unfold JS.floorDiv. rewrite Hx1, Hy1, Hx2, Hy2, Hx3, Hy3, Hx4, Hy4.
  simpl orb. cbv iota.
  destruct (Z.eqb_spec b 0) as [|_]; [done|].
  destruct (Z.eqb_spec a 0) as [->|Ha].
  - rewrite Z.div_0_l by done.
    unfold JS.zero. destruct (xorb _ _); [by right | by left].
  - rewrite (Hx5 Ha), (Hy5 Hb).
    destruct (floor_nearest_double (Z.abs a) (Z.abs b)
                (xorb (a <? 0) (b <? 0)) ltac:(lia) ltac:(lia))
      as (m & e & -> & -> & ->).
    assert ((if xorb (a <? 0) (b <? 0) then - Z.abs a else Z.abs a) / Z.abs b
            = a / b) as ->.
    { destruct (Z.ltb_spec a 0), (Z.ltb_spec b 0); simpl.
      - rewrite !Z.abs_neq by lia. apply Z.div_opp_opp. lia.
      - rewrite Z.abs_neq, Z.abs_eq by lia. by rewrite Z.opp_involutive.
      - rewrite Z.abs_eq, Z.abs_neq by lia.
        rewrite <- (Z.div_opp_opp a b) by lia. done.
      - by rewrite !Z.abs_eq by lia. }
    cbv zeta.
    destruct (Z.eqb_spec (a / b) 0) as [->|_]; [|by left].
    unfold JS.zero. destruct (xorb _ _); [by right | by left].
Qed.

Lemma rem_represents x y a b :
  represents x a -> represents y b -> b <> 0 ->
  represents (JS.rem x y) (Z.rem a b).
Proof.
  intros Hx Hy Hb.
  destruct (represents_cases _ _ Hx) as (Hx1 & Hx2 & Hx3 & Hx4 & _).
  destruct (represents_cases _ _ Hy) as (Hy1 & Hy2 & Hy3 & Hy4 & _).
  unfold JS.rem. rewrite Hx1, Hy1, Hx2, Hy2, Hx3, Hy3, Hx4, Hy4. simpl.
  destruct (Z.eqb_spec b 0) as [|_]; [done|].
  destruct (Z.eqb_spec a 0) as [->|_].
  - by rewrite Z.rem_0_l.
  - destruct (Z.eqb_spec (Z.rem a b) 0) as [->|_]; [|by left].
    unfold JS.zero. destruct (JS.negative x); [by right | by left].
Qed.

End ArithFacts.

(** C4, as the specification words it, does not hold.  [a / b] is a
    division of doubles, whose result is rounded to 53 bits before
    [Math.floor] sees it: for the doubles a = 2^60 and b = 3, DIV pushes
    384307168202282304, while the floor of a/b is 384307168202282325. *)
Theorem C4_div_rounds_before_it_floors :
  ~ Arith.div_floors_every_pair /\
  (let vm := VM.mk [] [Num (Int 3); Num (Int (2 ^ 60))] ∅ (Some (Int 0)) [] in
   VM.dispatch (mkInstruction DIV None None) vm
   = Some (Arith.pushed vm (Num (Int 384307168202282304)) [])) /\
  (2 ^ 60 / 3 = 384307168202282325)%Z /\
  compile_and_run "print(1152921504606846976/3);"
    = Ok ["384307168202282300"].
Proof.
  split; [|split; [|split]].
  - intros H.
    destruct (H (VM.mk [] [Num (Int 3); Num (Int (2 ^ 60))] ∅ (Some (Int 0)) [])
                (2 ^ 60)%Z 3%Z [] (mkInstruction DIV None None))
      as (q & Hq & Hr); try (vm_compute; congruence).
    vm_compute in Hq. injection Hq as <-.
    destruct Hr as [Hr | [Hr _]]; vm_compute in Hr; discriminate Hr.
  - vm_compute. reflexivity.
  - vm_compute. reflexivity.
  - vm_compute. reflexivity.
Qed.

(** C4, amended.  With the integer [a] below the nonzero integer [b] on
    the stack, DIV replaces both by the floor of a/b when both have at
    most 53 bits, and MOD replaces both by the remainder that has the
    sign of [a], whatever their size.  The two conventions do not fit
    the identity a = (a/b)*b + a%b: for a = -7, b = 2 the VM computes
    -4 and -1, and (-4)*2 + (-1) is -9. *)
Theorem C4_div_floors_mod_follows_dividend
    (vm : VM.t) (x y : jsnum) (a b : Z) (st : list jsval) (inst : Instruction) :
  Arith.represents x a ->
  Arith.represents y b ->
  b <> 0%Z ->
  VM.stack vm = Num y :: Num x :: st ->
  (op inst = DIV -> Arith.safe a -> Arith.safe b ->
   exists q,
     VM.dispatch inst vm = Some (Arith.pushed vm (Num q) st) /\
     Arith.represents q (a / b) /\ Arith.is_floor a b (a / b)) /\
  (op inst = MOD ->
   exists r,
     VM.dispatch inst vm = Some (Arith.pushed vm (Num r) st) /\
     Arith.represents r (Z.rem a b) /\
     Arith.is_dividend_sign_remainder a b (Z.rem a b)) /\
  compile_and_run "print((0-7)/2); print((0-7)%2); print((0-7)/2*2+(0-7)%2);"
    = Ok ["-4"; "-1"; "-9"].
Proof.
  intros Hx Hy Hb Hst. split; [|split].
  - intros Hop Sa Sb. exists (JS.floorDiv x y).
    split; [|split].
    + unfold VM.dispatch, VM.binary. by rewrite Hop, Hst.
    + by apply ArithFacts.floorDiv_represents.
    + by apply ArithFacts.div_is_floor.
  - intros Hop. exists (JS.rem x y).
    split; [|split].
    + unfold VM.dispatch, VM.binary. by rewrite Hop, Hst.
    + by apply ArithFacts.rem_represents.
    + by apply ArithFacts.rem_is_dividend_sign.
  - vm_compute. reflexivity.
Qed.

(** For a = -7 and b = 2. *)
Lemma C4_div_floors_mod_follows_dividend_witness :
  let vm := VM.mk [] [Num (Int 2); Num (Int (-7))] ∅ (Some (Int 0)) [] in
  (exists q,
     VM.dispatch (mkInstruction DIV None None) vm
       = Some (Arith.pushed vm (Num q) []) /\
     Arith.represents q (-7 / 2) /\ Arith.is_floor (-7) 2 (-7 / 2)) /\
  (exists r,
     VM.dispatch (mkInstruction MOD None None) vm
       = Some (Arith.pushed vm (Num r) []) /\
     Arith.represents r (Z.rem (-7) 2) /\
     Arith.is_dividend_sign_remainder (-7) 2 (Z.rem (-7) 2)).
Proof.
  intros vm.
  pose proof (C4_div_floors_mod_follows_dividend vm (Int (-7)) (Int 2) (-7) 2 []
                (mkInstruction DIV None None)
                (or_introl eq_refl) (or_introl eq_refl) ltac:(lia) eq_refl)
    as (Hdiv & _ & _).
  pose proof (C4_div_floors_mod_follows_dividend vm (Int (-7)) (Int 2) (-7) 2 []
                (mkInstruction MOD None None)
                (or_introl eq_refl) (or_introl eq_refl) ltac:(lia) eq_refl)
    as (_ & Hmod & _).
  split; [|exact (Hmod eq_refl)].
  apply (Hdiv eq_refl); unfold Arith.safe; simpl; lia.
Defined.

(** ** C9: two runs on one VM object *)

(** C9.  [run] starts by assigning fresh values to [output], [ip] and
    [stack], but not to [variables]: on the code compiled from
    [stale_slot_sample] the first [run] of a VM object returns ["0"] and
    the second [run] of the same object returns ["5"], the value the
    first execution left in slot 1; a new VM object returns ["0"]. *)
Theorem C9_second_run_reads_first_runs_slots :
  exists bytecode vm1 vm2,
    compile stale_slot_sample = Ok bytecode /\
    VM.run_full (VM.new bytecode) = (Ok ["0"], 9, vm1) /\
    VM.run_full vm1 = (Ok ["5"], 9, vm2) /\
    VM.variables vm1 !! VM.key (Some (Int 1)) = Some (Num (Int 5)) /\
    VM.run (VM.new bytecode) = Ok ["0"].
Proof.
  do 3 eexists.
  split; [vm_compute; reflexivity|].
  split; [vm_compute; reflexivity|].
  split; [vm_compute; reflexivity|].
  split; vm_compute; reflexivity.
Qed.

(** ** C8: chained comparisons *)

Module ParserFacts.
Import Parser Grammar.

Lemma check_head ty tk r pv n :
  check ty (mk (tk :: r) pv n) =
  Ok (bool_decide (type tk <> EOF /\ type tk = ty), mk (tk :: r) pv n).
Proof.
  unfold check, isAtEnd, bindM, peek, ret. cbn.
  destruct (decide (type tk = EOF)) as [He|He].
  - rewrite (bool_decide_eq_true_2 _ He).
    rewrite bool_decide_eq_false_2; [done|]. by intros [? _].
  - rewrite (bool_decide_eq_false_2 _ He). cbn.
    destruct (decide (type tk = ty)) as [Ht|Ht].
    + rewrite (bool_decide_eq_true_2 _ Ht). by rewrite bool_decide_eq_true_2.
    + rewrite (bool_decide_eq_false_2 _ Ht).
      rewrite bool_decide_eq_false_2; [done|]. by intros [_ ?].
Qed.

Lemma advance_head tk r pv n :
  type tk <> EOF ->
  advance (mk (tk :: r) pv n) = Ok (tk, mk r (Some tk) n).
Proof.
  intros Hne. unfold advance, isAtEnd, bindM, peek, ret. cbn.
  by rewrite bool_decide_eq_false_2.
Qed.
Lemma match_head types tk r pv n :
  match_ types (mk (tk :: r) pv n) =
  if bool_decide (type tk <> EOF /\ type tk ∈ types)
  then Ok (true, mk r (Some tk) n)
  else Ok (false, mk (tk :: r) pv n).
Proof.
  induction types as [|ty types IH]; simpl.
  - rewrite bool_decide_eq_false_2; [done|]. intros [_ H]. by apply elem_of_nil in H.
  - unfold bindM at 1. rewrite check_head.
    destruct (decide (type tk <> EOF /\ type tk = ty)) as [[Hne Hty]|Hn].
    + rewrite (bool_decide_eq_true_2 _ (conj Hne Hty)). subst ty.
      unfold bindM. rewrite advance_head by done.
      rewrite bool_decide_eq_true_2; [done|]. split; [done|]. apply elem_of_cons; by left.
    + rewrite (bool_decide_eq_false_2 _ Hn), IH.
      destruct (decide (type tk <> EOF /\ type tk ∈ types)) as [[H1 H2]|H].
      * rewrite (bool_decide_eq_true_2 _ (conj H1 H2)).
        rewrite bool_decide_eq_true_2; [done|].
        split; [done|]. apply elem_of_cons; by right.
      * rewrite (bool_decide_eq_false_2 _ H).
        rewrite bool_decide_eq_false_2; [done|].
        intros [H1 [H2|H2]%elem_of_cons]; [by apply Hn | by apply H].
Qed.

Lemma match_consumes types tk r p :
  rest p = tk :: r -> type tk ∈ types -> type tk <> EOF ->
  match_ types p = Ok (true, after tk r p).
Proof.
  destruct p as [rs pv n]. simpl. intros -> Hin Hne.
  rewrite match_head. by rewrite bool_decide_eq_true_2.
Qed.

Lemma match_refuses types tk r p :
  rest p = tk :: r -> type tk ∉ types ->
  match_ types p = Ok (false, p).
Proof.
  destruct p as [rs pv n]. simpl. intros -> Hin.
  rewrite match_head. rewrite bool_decide_eq_false_2; [done|]. by intros [_ ?].
Qed.

(** One turn of a binary level's loop that finds its operator. *)
Lemma binaryLoop_turn ops operand fuel expr p tk r right_ p' :
  rest p = tk :: r -> type tk ∈ ops -> type tk <> EOF ->
  operand (after tk r p) = Ok (right_, p') ->
  binaryLoop ops operand (S fuel) expr p =
  binaryLoop ops operand fuel (BinaryExprNode expr tk right_) p'.
Proof.
  intros Hp Hin Hne Hop. simpl. unfold bindM at 1.
  rewrite (match_consumes _ _ _ _ Hp Hin Hne).
  unfold bindM, previous. simpl. by rewrite Hop.
Qed.

(** The turn on which the loop ends. *)
Lemma binaryLoop_exit ops operand fuel expr p tk r :
  rest p = tk :: r -> type tk ∉ ops ->
  binaryLoop ops operand (S fuel) expr p = Ok (expr, p).
Proof.
  intros Hp Hin. simpl. unfold bindM.
  by rewrite (match_refuses _ _ _ _ Hp Hin).
Qed.

Lemma comparison_op_not_EOF ty : ty ∈ comparison_ops -> ty <> EOF.
Proof.
  intros Hin ->. unfold comparison_ops in Hin.
  repeat (apply elem_of_cons in Hin as [Hin|Hin]; [discriminate|]).
  by apply elem_of_nil in Hin.
Qed.

End ParserFacts.

(** C8.  Let [term] parse the operands [a], [b], [c] of a token stream
    [a op1 b op2 c ...] in which [op1] and [op2] are comparison operators
    and the token after [c] is not.  Then [expression] accepts the stream
    up to there and returns the tree [(a op1 b) op2 c], whose left child
    is the [BinaryExprNode] of [a op1 b]; at run time the 0 or 1 left by
    the first comparison is what is compared with [c]. *)
Theorem C8_chained_comparison_is_left_nested
    (fuel : nat) (p pa pb pc : Parser.t) (a b c : ASTNode)
    (op1 op2 following : Token) (r1 r2 r3 : list Token) :
  let term := Parser.term (Parser.expression (3 + fuel)) (3 + fuel) in
  term p = Ok (a, pa) ->
  Parser.rest pa = op1 :: r1 -> type op1 ∈ Grammar.comparison_ops ->
  term (Grammar.after op1 r1 pa) = Ok (b, pb) ->
  Parser.rest pb = op2 :: r2 -> type op2 ∈ Grammar.comparison_ops ->
  term (Grammar.after op2 r2 pb) = Ok (c, pc) ->
  Parser.rest pc = following :: r3 ->
  type following ∉ Grammar.comparison_ops ->
  Parser.expression (4 + fuel) p
    = Ok (BinaryExprNode (BinaryExprNode a op1 b) op2 c, pc) /\
  compile_and_run Grammar.chained_sample = Ok ["1"; "0"; "0"].
Proof.
  intros term Ha Hpa Hop1 Hb Hpb Hop2 Hc Hpc Hnext.
  split; [|vm_compute; reflexivity].
  change (Parser.expression (4 + fuel))
    with (Parser.comparison (Parser.expression (3 + fuel)) (3 + fuel)).
  unfold Parser.comparison, Parser.bindM at 1. fold term. rewrite Ha.
  change (3 + fuel) with (S (S (S fuel))).
  rewrite (ParserFacts.binaryLoop_turn _ _ _ _ _ _ _ _ _ Hpa Hop1
             (ParserFacts.comparison_op_not_EOF _ Hop1) Hb).
  rewrite (ParserFacts.binaryLoop_turn _ _ _ _ _ _ _ _ _ Hpb Hop2
             (ParserFacts.comparison_op_not_EOF _ Hop2) Hc).
  by rewrite (ParserFacts.binaryLoop_exit _ _ _ _ _ _ _ Hpc Hnext).
Qed.

(** The tokens of [a<b<c]. *)
Lemma C8_chained_comparison_is_left_nested_witness :
  Parser.expression 4 (Parser.mk Grammar.chained_tokens None 0)
    = Ok (BinaryExprNode
            (BinaryExprNode (IdentifierNode 0 (Grammar.tok ID "a" 1))
                            (Grammar.tok LT "<" 2)
                            (IdentifierNode 1 (Grammar.tok ID "b" 3)))
            (Grammar.tok LT "<" 4)
            (IdentifierNode 2 (Grammar.tok ID "c" 5)),
          Parser.mk [Grammar.tok EOF "" 6] (Some (Grammar.tok ID "c" 5)) 3) /\
  compile_and_run Grammar.chained_sample = Ok ["1"; "0"; "0"].
Proof.
  apply (C8_chained_comparison_is_left_nested 0
           (Parser.mk Grammar.chained_tokens None 0)
           (Parser.mk (drop 1 Grammar.chained_tokens) (Some (Grammar.tok ID "a" 1)) 1)
           (Parser.mk (drop 3 Grammar.chained_tokens) (Some (Grammar.tok ID "b" 3)) 2)
           (Parser.mk (drop 5 Grammar.chained_tokens) (Some (Grammar.tok ID "c" 5)) 3)
           _ _ _ (Grammar.tok LT "<" 2) (Grammar.tok LT "<" 4) (Grammar.tok EOF "" 6)
           (drop 2 Grammar.chained_tokens) (drop 4 Grammar.chained_tokens) []).
  - vm_compute. reflexivity.
  - reflexivity.
  - simpl. unfold Grammar.comparison_ops.
    repeat (apply elem_of_cons; first [by left | right]).
  - vm_compute. reflexivity.
  - reflexivity.
  - simpl. unfold Grammar.comparison_ops.
    repeat (apply elem_of_cons; first [by left | right]).
  - vm_compute. reflexivity.
  - reflexivity.
  - intros H. by apply (ParserFacts.comparison_op_not_EOF _ H).
Defined.

(** ** The semantic analyzer *)

Module AnalyzerFacts.
Import SemanticAnalyzer Scoping.

Lemma bind_Ok {A B} (r : result A) (k : A -> result B) b :
  bind r k = Ok b <-> exists a, r = Ok a /\ k a = Ok b.
Proof.
  destruct r as [a|e]; simpl; split.
  - eauto.
  - by intros (a' & [= <-] & H).
  - done.
  - by intros (a' & ? & _).
Qed.

Lemma forEach_app {A S} (f : A -> S -> result S) l1 l2 s :
  forEach f (l1 ++ l2) s = do s1 <- forEach f l1 s; forEach f l2 s1.
Proof.
  revert s. induction l1 as [|a l1 IH]; intros s; simpl; [done|].
  destruct (f a s); simpl; [apply IH | done].
Qed.

Global Instance grows_refl : Reflexive grows.
Proof. intros [|top outer]; simpl; done. Qed.

Global Instance grows_trans : Transitive grows.
Proof.
  intros [|t1 o1] [|t2 o2] [|t3 o3]; simpl; try done.
  intros [H1 ->] [H2 ->]. split; [by etrans | done].
Qed.

Lemma grows_tl scs scs' : grows scs scs' -> tl scs = tl scs'.
Proof. destruct scs, scs'; simpl; try done. by intros [_ ->]. Qed.

Lemma frame_trans n1 n2 n sa sa1 sa2 :
  frame n1 sa sa1 -> frame n2 sa1 sa2 ->
  (forall r, r ∈ refs n <-> r ∈ refs n1 \/ r ∈ refs n2) ->
  frame n sa sa2.
Proof.
  intros (G1 & C1 & W1 & M1 & K1 & D1) (G2 & C2 & W2 & M2 & K2 & D2) Hrefs.
  split; [by etrans|]. split; [lia|]. split; [tauto|].
  split; [|split].
  - intros r Hr. rewrite M2, M1; [done| |]; intros ?; apply Hr, Hrefs; tauto.
  - intros r Hr. by apply K2, K1.
  - intros r [Hr|Hr]%Hrefs; [by apply K2, D1 | by apply D2].
Qed.

Lemma frame_refl n sa : refs n = [] -> frame n sa sa.
Proof.
  intros Hn. repeat split; try done. rewrite Hn. by intros r ?%elem_of_nil.
Qed.

Lemma frame_refs n n' sa sa' :
  (forall r, r ∈ refs n <-> r ∈ refs n') -> frame n sa sa' -> frame n' sa sa'.
Proof.
  intros Hrefs (G & C & W & M & K & D).
  repeat split; try done.
  - intros r Hr. apply M. by rewrite Hrefs.
  - intros r Hr. apply D. by rewrite Hrefs.
Qed.

Lemma visitVarDecl_frame ref name sa sa' :
  visitVarDecl ref name sa = Ok sa' -> frame (VarDeclNode ref name) sa sa'.
Proof.
  unfold visitVarDecl.
  destruct sa as [[|scope outer] counter m]; simpl; [done|].
  destruct (scope !! lexeme name) eqn:E; [done|]. intros [= <-].
  split; [|split; [|split; [|split; [|split]]]]; simpl.
  - split; [by apply insert_subseteq | done].
  - lia.
  - intros W sc x slot Hsc Hx. simpl in *.
    apply elem_of_cons in Hsc as [->|Hsc].
    + destruct (decide (lexeme name = x)) as [Heq|Hne].
      * rewrite <- Heq, lookup_insert_eq in Hx. injection Hx as <-. lia.
      * rewrite lookup_insert_ne in Hx by done.
        specialize (W scope x slot). simpl in W.
        assert (slot < counter); [apply W; [apply elem_of_cons; by left | done] | lia].
    + specialize (W sc x slot). simpl in W.
      assert (slot < counter); [apply W; [apply elem_of_cons; by right | done] | lia].
  - intros r Hr. apply lookup_insert_ne. intros ->.
    apply Hr, list_elem_of_singleton. done.
  - intros r Hr. destruct (decide (ref = r)) as [->|Hne].
    + rewrite lookup_insert_eq. eauto.
    + by rewrite lookup_insert_ne.
  - intros r ->%list_elem_of_singleton. rewrite lookup_insert_eq. eauto.
Qed.

Lemma record_use_frame ref name sa sa' n :
  record_use ref name sa = Ok sa' ->
  (forall r, r ∈ refs n <-> r = ref) ->
  frame n sa sa'.
Proof.
  unfold record_use. destruct (resolve sa (lexeme name)) as [slot|]; [|done].
  intros [= <-] Hn. repeat split; simpl; try done.
  - intros r Hr. apply lookup_insert_ne. intros ->. by apply Hr, Hn.
  - intros r Hr. destruct (decide (ref = r)) as [->|Hne].
    + rewrite lookup_insert_eq. eauto.
    + by rewrite lookup_insert_ne.
  - intros r ->%Hn. rewrite lookup_insert_eq. eauto.
Qed.

Lemma forEach_frame statements :
  Forall (fun n => forall sa sa', visit n sa = Ok sa' -> frame n sa sa') statements ->
  forall sa sa',
    forEach visit statements sa = Ok sa' ->
    frame (ProgramNode statements) sa sa'.
Proof.
  induction 1 as [|n l Hn _ IH]; intros sa sa' H; simpl in H.
  - injection H as <-. by apply frame_refl.
  - apply bind_Ok in H as (sa1 & H1 & H2).
    eapply frame_trans; [by apply Hn | by apply IH |].
    intros r. simpl. by rewrite elem_of_app.
Qed.

Lemma visit_frame node : forall sa sa',
  visit node sa = Ok sa' -> frame node sa sa'.
Proof.
  induction node as
    [ss IH | ref name | ref name expr IH | expr IH | ss IH
    | cond thenB elseB IHc IHt IHe | cond body IHc IHb
    | lhs o rhs IHl IHr | val | ref name ] using ASTNode_ind;
    intros sa sa' H; simpl in H.
  - by apply forEach_frame.
  - by apply visitVarDecl_frame.
  - apply bind_Ok in H as (sa1 & H1 & H2).
    eapply (frame_trans expr (IdentifierNode ref name));
      [by apply IH | by eapply record_use_frame;
        [done | intros r; apply list_elem_of_singleton] |].
    intros r. simpl. rewrite elem_of_app. done.
  - by apply IH.
  - apply bind_Ok in H as (sa1 & H1 & [= <-]).
    apply (forEach_frame _ IH) in H1 as (G & C & W & M & K & D). simpl in *.
    destruct (scopes sa1) as [|top' outer'] eqn:E; [done|].
    destruct G as [_ <-].
    split; [simpl; by rewrite E|]. split; [done|].
    split; [|by repeat split].
    intros Hs sc x slot Hsc Hx. simpl in *. rewrite E in Hsc. simpl in Hsc.
    assert (slots_below_counter sa1) as W1.
    { apply W. intros sc0 x0 slot0 [->|Hsc0]%elem_of_cons Hx0; [done|].
      by eapply Hs. }
    eapply W1; [|done]. rewrite E. apply elem_of_cons. by right.
  - apply bind_Ok in H as (sa1 & H1 & H).
    apply bind_Ok in H as (sa2 & H2 & H3).
    destruct elseB as [e|]; simpl in *.
    + eapply (frame_trans (WhileNode cond thenB) e);
        [eapply (frame_trans cond thenB);
          [by apply IHc | by apply IHt |] | by apply IHe |].
      * intros r. simpl. by rewrite elem_of_app.
      * intros r. simpl. rewrite !elem_of_app. tauto.
    + injection H3 as <-.
      eapply (frame_trans cond thenB); [by apply IHc | by apply IHt |].
      intros r. simpl. rewrite !elem_of_app. rewrite elem_of_nil. tauto.
  - apply bind_Ok in H as (sa1 & H1 & H2).
    eapply (frame_trans cond body); [by apply IHc | by apply IHb |].
    intros r. simpl. by rewrite elem_of_app.
  - apply bind_Ok in H as (sa1 & H1 & H2).
    eapply (frame_trans lhs rhs); [by apply IHl | by apply IHr |].
    intros r. simpl. by rewrite elem_of_app.
  - injection H as <-. by apply frame_refl.
  - eapply record_use_frame; [done|]. intros r. simpl. apply list_elem_of_singleton.
Qed.

Lemma binding_seq x slot us1 sh1 all1 sa1 us2 sh2 all2 sa2 n2 :
  binding x slot us1 sh1 all1 sa1 ->
  frame n2 sa1 sa2 -> refs n2 = all2 ->
  (forall u, u ∈ all1 -> u ∉ all2) ->
  ((sh1 = false -> resolve sa1 x = Some slot) ->
   binding x slot us2 sh2 all2 sa2) ->
  binding x slot (us1 ++ us2) sh2 (all1 ++ all2) sa2.
Proof.
  intros [R1 U1] (_ & _ & _ & M & _) <- Hdisj H2.
  destruct (H2 R1) as [R2 U2]. split; [done|].
  intros u [Hu|Hu]%elem_of_app.
  - destruct (U1 u Hu) as [Hm Hin]. split; [|apply elem_of_app; by left].
    rewrite M; [done|]. by apply Hdisj.
  - destruct (U2 u Hu) as [Hm Hin]. split; [done|apply elem_of_app; by right].
Qed.

Lemma resolve_enterScope sa x : resolve (enterScope sa) x = resolve sa x.
Proof. unfold resolve. simpl. by rewrite lookup_empty. Qed.

Lemma visitVarDecl_other ref name sa sa' x :
  visitVarDecl ref name sa = Ok sa' -> lexeme name <> x ->
  resolve sa' x = resolve sa x.
Proof.
  unfold visitVarDecl, resolve.
  destruct sa as [[|scope outer] counter m]; simpl; [done|].
  destruct (scope !! lexeme name); [done|]. intros [= <-] Hne. simpl.
  by rewrite lookup_insert_ne.
Qed.

Lemma record_use_binding ref name sa sa' x slot sh :
  record_use ref name sa = Ok sa' ->
  (sh = false -> resolve sa x = Some slot) ->
  binding x slot (if negb sh && bool_decide (lexeme name = x) then [ref] else [])
    sh [ref] sa'.
Proof.
  unfold record_use. destruct (resolve sa (lexeme name)) as [sl|] eqn:E; [|done].
  intros [= <-] R. split; [done|]. simpl.
  destruct sh; simpl; [by intros u ?%elem_of_nil|].
  case_bool_decide as Hx; [|by intros u ?%elem_of_nil].
  intros u ->%list_elem_of_singleton. rewrite lookup_insert_eq.
  rewrite Hx, R in E by done. injection E as <-.
  split; [done | by apply list_elem_of_singleton].
Qed.

Lemma forEach_never_out_of_fuel statements :
  Forall (fun n => forall sa e, visit n sa = Err e -> e <> FuelExhausted) statements ->
  forall sa e, forEach visit statements sa = Err e -> e <> FuelExhausted.
Proof.
  induction 1 as [|n l Hn _ IH]; intros sa e H; simpl in H; [done|].
  destruct (visit n sa) as [sa1|e1] eqn:E; simpl in H.
  - by eapply IH.
  - injection H as <-. by eapply Hn.
Qed.

(** The analyzer has no bound to run out of. *)
Lemma visit_never_out_of_fuel node : forall sa e,
  visit node sa = Err e -> e <> FuelExhausted.
Proof.
  assert (forall ref name sa e, record_use ref name sa = Err e -> e <> FuelExhausted)
    as Huse.
  { intros ref name sa e. unfold record_use.
    destruct (resolve sa (lexeme name)); [done|]. by intros [= <-]. }
  induction node as
    [ss IH | ref name | ref name expr IH | expr IH | ss IH
    | cond thenB elseB IHc IHt IHe | cond body IHc IHb
    | lhs o rhs IHl IHr | val | ref name ] using ASTNode_ind;
    intros sa e H; simpl in H.
  - by eapply forEach_never_out_of_fuel.
  - unfold visitVarDecl in H.
    destruct (scopes sa) as [|top outer]; [by injection H as <-|].
    destruct (top !! lexeme name); [by injection H as <-|done].
  - destruct (visit expr sa) as [sa1|e1] eqn:E; simpl in H.
    + by eapply Huse.
    + injection H as <-. by eapply IH.
  - by eapply IH.
  - destruct (forEach visit ss (enterScope sa)) as [sa1|e1] eqn:E; simpl in H; [done|].
    injection H as <-. by eapply forEach_never_out_of_fuel.
  - destruct (visit cond sa) as [sa1|e1] eqn:E1; simpl in H;
      [|injection H as <-; by eapply IHc].
    destruct (visit thenB sa1) as [sa2|e2] eqn:E2; simpl in H;
      [|injection H as <-; by eapply IHt].
    destruct elseB as [eb|]; [|done]. by eapply IHe.
  - destruct (visit cond sa) as [sa1|e1] eqn:E1; simpl in H;
      [|injection H as <-; by eapply IHc].
    by eapply IHb.
  - destruct (visit lhs sa) as [sa1|e1] eqn:E1; simpl in H;
      [|injection H as <-; by eapply IHl].
    by eapply IHr.
  - done.
  - by eapply Huse.
Qed.

Lemma NoDup_app_disjoint (l k : list nat) :
  NoDup (l ++ k) -> NoDup l /\ NoDup k /\ forall u, u ∈ l -> u ∉ k.
Proof. intros (? & ? & ?)%NoDup_app. done. Qed.

Lemma thread_binding x slot statements :
  Forall (fun n => forall sa sa' sh,
            visit n sa = Ok sa' -> NoDup (refs n) ->
            (sh = false -> resolve sa x = Some slot) ->
            binding x slot (fst (bound_uses x n sh)) (snd (bound_uses x n sh))
              (refs n) sa') statements ->
  forall sa sa' sh,
    forEach visit statements sa = Ok sa' ->
    NoDup (flat_map refs statements) ->
    (sh = false -> resolve sa x = Some slot) ->
    binding x slot (fst (thread (bound_uses x) statements sh))
      (snd (thread (bound_uses x) statements sh))
      (flat_map refs statements) sa'.
Proof.
  induction 1 as [|n l Hn _ IH]; intros sa sa' sh H Hnd R; simpl in *.
  - injection H as <-. split; [done|]. by intros u ?%elem_of_nil.
  - apply bind_Ok in H as (sa1 & H1 & H2).
    apply NoDup_app_disjoint in Hnd as (Hnd1 & Hnd2 & Hdisj).
    specialize (Hn sa sa1 sh H1 Hnd1 R).
    destruct (bound_uses x n sh) as [us1 sh1]. simpl in Hn.
    specialize (IH sa1 sa' sh1 H2 Hnd2).
    destruct (thread (bound_uses x) l sh1) as [us2 sh2]. simpl in *.
    apply (binding_seq x slot us1 sh1 (refs n) sa1 us2 sh2 _ sa' (ProgramNode l));
      [done| |done|done|done].
    refine (forEach_frame l _ sa1 sa' H2).
    apply Forall_forall. intros ? _ ? ?. apply visit_frame.
Qed.

Lemma visit_binding x slot node : forall sa sa' sh,
  visit node sa = Ok sa' -> NoDup (refs node) ->
  (sh = false -> resolve sa x = Some slot) ->
  binding x slot (fst (bound_uses x node sh)) (snd (bound_uses x node sh))
    (refs node) sa'.
Proof.
  induction node as
    [ss IH | ref name | ref name expr IH | expr IH | ss IH
    | cond thenB elseB IHc IHt IHe | cond body IHc IHb
    | lhs o rhs IHl IHr | val | ref name ] using ASTNode_ind;
    intros sa sa' sh H Hnd R; simpl in H.
  - exact (thread_binding x slot ss IH sa sa' sh H Hnd R).
  - simpl. split; [|by intros u ?%elem_of_nil].
    intros [-> Hx]%orb_false_elim. apply bool_decide_eq_false in Hx.
    rewrite (visitVarDecl_other _ _ _ _ _ H Hx). by apply R.
  - apply bind_Ok in H as (sa1 & H1 & H2). simpl in *.
    apply NoDup_app_disjoint in Hnd as (Hnd1 & Hnd2 & Hdisj).
    specialize (IH sa sa1 sh H1 Hnd1 R).
    destruct (bound_uses x expr sh) as [us1 sh1]. simpl in *.
    apply (binding_seq x slot us1 sh1 (refs expr) sa1 _ sh1 _ sa'
             (IdentifierNode ref name)); [done| |done|done|].
    + eapply record_use_frame; [done|]. intros r. simpl. apply list_elem_of_singleton.
    + intros R1. by eapply record_use_binding.
  - exact (IH sa sa' sh H Hnd R).
  - apply bind_Ok in H as (sa1 & H1 & [= <-]). simpl in *.
    pose proof (forEach_frame ss
                  (proj2 (Forall_forall _ _) (fun n _ sa sa' => visit_frame n sa sa'))
                  _ _ H1) as (G & _).
    apply grows_tl in G. simpl in G.
    destruct (thread_binding x slot ss IH (enterScope sa) sa1 sh H1 Hnd) as [_ U].
    { intros Hsh. rewrite resolve_enterScope. by apply R. }
    split; [|done].
    intros Hsh. unfold resolve, exitScope. simpl. rewrite <- G. by apply R.
  - apply bind_Ok in H as (sa1 & H1 & H).
    apply bind_Ok in H as (sa2 & H2 & H3). simpl in *.
    apply NoDup_app_disjoint in Hnd as (Hnd1 & Hnd23 & Hdisj1).
    apply NoDup_app_disjoint in Hnd23 as (Hnd2 & Hnd3 & Hdisj2).
    specialize (IHc sa sa1 sh H1 Hnd1 R).
    destruct (bound_uses x cond sh) as [us1 sh1]. simpl in *.
    specialize (IHt sa1 sa2 sh1 H2 Hnd2).
    destruct (bound_uses x thenB sh1) as [us2 sh2]. simpl in *.
    destruct elseB as [e|]; simpl in *.
    + specialize (IHe sa2 sa' sh2 H3 Hnd3).
      destruct (bound_uses x e sh2) as [us3 sh3]. simpl in *.
      apply (binding_seq x slot us1 sh1 (refs cond) sa1 _ sh3 _ sa'
               (WhileNode thenB e)); [done| |done|done|].
      * eapply (frame_trans thenB e); [by apply visit_frame | by apply visit_frame |].
        intros r. simpl. by rewrite elem_of_app.
      * intros R1.
        apply (binding_seq x slot us2 sh2 (refs thenB) sa2 us3 sh3 _ sa' e);
          [by apply IHt | by apply visit_frame | done | done | done].
    + injection H3 as <-. rewrite !app_nil_r.
      apply (binding_seq x slot us1 sh1 (refs cond) sa1 us2 sh2 _ sa2 thenB);
        [done | by apply visit_frame | done | | done].
      intros u Hu. specialize (Hdisj1 u Hu). by rewrite app_nil_r in Hdisj1.
  - apply bind_Ok in H as (sa1 & H1 & H2). simpl in *.
    apply NoDup_app_disjoint in Hnd as (Hnd1 & Hnd2 & Hdisj).
    specialize (IHc sa sa1 sh H1 Hnd1 R).
    destruct (bound_uses x cond sh) as [us1 sh1]. simpl in *.
    specialize (IHb sa1 sa' sh1 H2 Hnd2).
    destruct (bound_uses x body sh1) as [us2 sh2]. simpl in *.
    apply (binding_seq x slot us1 sh1 (refs cond) sa1 us2 sh2 _ sa' body);
      [done | by apply visit_frame | done | done | done].
  - apply bind_Ok in H as (sa1 & H1 & H2). simpl in *.
    apply NoDup_app_disjoint in Hnd as (Hnd1 & Hnd2 & Hdisj).
    specialize (IHl sa sa1 sh H1 Hnd1 R).
    destruct (bound_uses x lhs sh) as [us1 sh1]. simpl in *.
    specialize (IHr sa1 sa' sh1 H2 Hnd2).
    destruct (bound_uses x rhs sh1) as [us2 sh2]. simpl in *.
    apply (binding_seq x slot us1 sh1 (refs lhs) sa1 us2 sh2 _ sa' rhs);
      [done | by apply visit_frame | done | done | done].
  - injection H as <-. simpl. split; [done|]. by intros u ?%elem_of_nil.
  - simpl. by eapply record_use_binding.
Qed.

End AnalyzerFacts.

(** ** C6: shadowing *)

Module ShadowFacts.
Import SemanticAnalyzer Scoping AnalyzerFacts.

Lemma resolve_in_elem scs x slot :
  resolve_in scs x = Some slot -> exists sc, sc ∈ scs /\ sc !! x = Some slot.
Proof.
  induction scs as [|sc scs IH]; simpl; [done|].
  destruct (sc !! x) as [s|] eqn:E.
  - intros [= <-]. exists sc. split; [apply elem_of_cons; by left | done].
  - intros (sc' & Hin & Hx)%IH. exists sc'. split; [apply elem_of_cons; by right | done].
Qed.

Lemma resolve_in_None scs x :
  resolve_in scs x = None <-> forall sc, sc ∈ scs -> sc !! x = None.
Proof.
  induction scs as [|sc scs IH]; simpl.
  - split; [by intros _ sc ?%elem_of_nil | done].
  - destruct (sc !! x) as [s|] eqn:E.
    + split; [done|]. intros H. rewrite H in E; [done|]. apply elem_of_cons; by left.
    + rewrite IH. split.
      * intros H sc' [->|Hin]%elem_of_cons; [done | by apply H].
      * intros H sc' Hin. apply H, elem_of_cons. by right.
Qed.

Lemma visitVarDecl_declared ref name sa top outer :
  scopes sa = top :: outer -> top !! lexeme name = None ->
  visitVarDecl ref name sa = Ok (declared ref name top outer sa).
Proof. unfold visitVarDecl. by intros -> ->. Qed.

Lemma visitVarDecl_Ok ref name sa sa' :
  visitVarDecl ref name sa = Ok sa' ->
  exists top outer,
    scopes sa = top :: outer /\ top !! lexeme name = None /\
    sa' = declared ref name top outer sa.
Proof.
  unfold visitVarDecl. destruct (scopes sa) as [|top outer]; [done|].
  destruct (top !! lexeme name) eqn:E; [done|]. intros [= <-]. eauto.
Qed.

Lemma resolve_declared ref name top outer sa :
  resolve (declared ref name top outer sa) (lexeme name) = Some (slotCounter sa).
Proof. unfold resolve. simpl. by rewrite lookup_insert_eq. Qed.

Lemma forEach_visit_frame statements sa sa' :
  forEach visit statements sa = Ok sa' -> frame (ProgramNode statements) sa sa'.
Proof.
  apply forEach_frame, Forall_forall. intros ? _ ? ?. apply visit_frame.
Qed.

Lemma forEach_visit_binding x slot statements sa sa' :
  forEach visit statements sa = Ok sa' ->
  NoDup (flat_map refs statements) ->
  resolve sa x = Some slot ->
  forall u, u ∈ uses_of x statements ->
    varToSlot sa' !! u = Some slot /\ u ∈ flat_map refs statements.
Proof.
  intros H Hnd R.
  refine (proj2 (thread_binding x slot statements _ sa sa' false H Hnd (fun _ => R))).
  apply Forall_forall. intros ? _ ? ? ?. apply visit_binding.
Qed.

End ShadowFacts.

(** C6.  In any analyzer state [sa] whose scopes only hold slots handed
    out by the counter and in which the name [x] resolves to [so], visit a
    block that declares [x] (after the statements [pre], before the
    statements [post]) and then the statements [after].  The inner
    declaration gets a slot [si] taken from the counter, larger than [so];
    the uses of [x] in [post] that no deeper declaration hides are
    recorded with [si]; the uses of [x] in [after] are recorded with
    [so]. *)
Theorem C6_shadowing_gets_new_slot
    (sa sa' : SemanticAnalyzer.t) (name : Token) (so d : nat)
    (pre post after : list ASTNode) :
  let x := lexeme name in
  let block := BlockNode (pre ++ VarDeclNode d name :: post) in
  Scoping.slots_below_counter sa ->
  SemanticAnalyzer.resolve sa x = Some so ->
  NoDup (flat_map Scoping.refs (block :: after)) ->
  forEach SemanticAnalyzer.visit (block :: after) sa = Ok sa' ->
  exists si,
    SemanticAnalyzer.varToSlot sa' !! d = Some si /\
    so < si /\
    SemanticAnalyzer.slotCounter sa <= si < SemanticAnalyzer.slotCounter sa' /\
    (forall u, u ∈ Scoping.uses_of x post ->
       SemanticAnalyzer.varToSlot sa' !! u = Some si) /\
    (forall u, u ∈ Scoping.uses_of x after ->
       SemanticAnalyzer.varToSlot sa' !! u = Some so).
Proof.
  intros x block W R Hnd H. simpl in H, Hnd.
  apply AnalyzerFacts.bind_Ok in H as (sb & Hb & Hafter).
  pose proof Hb as Hblock.
  apply AnalyzerFacts.bind_Ok in Hb as (s3 & Hbody & [= <-]).
  rewrite AnalyzerFacts.forEach_app in Hbody.
  apply AnalyzerFacts.bind_Ok in Hbody as (s1 & Hpre & Hrest).
  simpl in Hrest.
  apply AnalyzerFacts.bind_Ok in Hrest as (s2 & Hdecl & Hpost).
  apply AnalyzerFacts.NoDup_app_disjoint in Hnd as (Hnd_block & Hnd_after & Hdisj).
  rewrite flat_map_app in Hnd_block, Hdisj. simpl in Hnd_block, Hdisj.
  apply AnalyzerFacts.NoDup_app_disjoint in Hnd_block as (Hnd_pre & Hnd_rest & Hdisj_pre).
  apply NoDup_cons in Hnd_rest as [Hd_post Hnd_post].
  destruct (ShadowFacts.visitVarDecl_Ok _ _ _ _ Hdecl)
    as (top & outer & Hsc & Hfresh & ->).
  pose proof (ShadowFacts.forEach_visit_frame _ _ _ Hpre) as (_ & Cpre & _).
  pose proof (ShadowFacts.forEach_visit_frame _ _ _ Hpost) as (_ & Cpost & _ & Mpost & _).
  pose proof (ShadowFacts.forEach_visit_frame _ _ _ Hafter)
    as (_ & Cafter & _ & Mafter & _).
  simpl in *.
  exists (SemanticAnalyzer.slotCounter s1).
  assert (so < SemanticAnalyzer.slotCounter sa) as Hso.
  { destruct (ShadowFacts.resolve_in_elem _ _ _ R) as (sc & Hin & Hx). by eapply W. }
  split; [|split; [lia|split; [lia|split]]].
  - rewrite Mafter, Mpost; [by rewrite lookup_insert_eq|done|].
    apply Hdisj, elem_of_app. right. apply elem_of_cons. by left.
  - intros u Hu.
    destruct (ShadowFacts.forEach_visit_binding x _ post _ _ Hpost Hnd_post
                (ShadowFacts.resolve_declared d name top outer s1) u Hu) as [Hm Hin].
    rewrite Mafter; [done|].
    apply Hdisj, elem_of_app. right. apply elem_of_cons. by right.
  - intros u Hu.
    assert (SemanticAnalyzer.resolve (SemanticAnalyzer.exitScope s3) x = Some so) as Rb.
    { refine (proj1 (AnalyzerFacts.visit_binding x so block sa _ false Hblock _
                       (fun _ => R)) eq_refl).
      simpl. rewrite flat_map_app. simpl.
      apply NoDup_app. split; [done|]. split; [done|]. by apply NoDup_cons. }
    by destruct (ShadowFacts.forEach_visit_binding x _ after _ _ Hafter Hnd_after Rb u Hu).
Qed.

Lemma slots_below_counter_init :
  Scoping.slots_below_counter SemanticAnalyzer.init.
Proof.
  intros sc x slot Hsc Hx. simpl in Hsc.
  apply list_elem_of_singleton in Hsc as ->. by rewrite lookup_empty in Hx.
Qed.

(** [shadow_sample]: the outer [x] has slot 0, the inner [x] slot 1. *)
Lemma C6_shadowing_gets_new_slot_witness :
  (do tokens <- Lexer.tokenize Scoping.shadow_sample; Parser.parse tokens)
    = Ok Scoping.shadow_program /\
  let sa :=
    Scoping.state_after_visiting Scoping.shadow_before SemanticAnalyzer.init in
  let sa' :=
    Scoping.state_after_visiting
      (BlockNode ([] ++ VarDeclNode 3 (Scoping.x_at 29) :: Scoping.shadow_inner)
       :: Scoping.shadow_after) sa in
  exists si,
    SemanticAnalyzer.varToSlot sa' !! 3 = Some si /\
    0 < si /\
    SemanticAnalyzer.slotCounter sa <= si < SemanticAnalyzer.slotCounter sa' /\
    (forall u, u ∈ Scoping.uses_of "x" Scoping.shadow_inner ->
       SemanticAnalyzer.varToSlot sa' !! u = Some si) /\
    (forall u, u ∈ Scoping.uses_of "x" Scoping.shadow_after ->
       SemanticAnalyzer.varToSlot sa' !! u = Some 0).
Proof.
  split; [vm_compute; reflexivity|].
  intros sa sa'.
  apply (C6_shadowing_gets_new_slot sa sa' (Scoping.x_at 29) 0 3 []
           Scoping.shadow_inner Scoping.shadow_after).
  - apply (AnalyzerFacts.visit_frame (ProgramNode Scoping.shadow_before)
             SemanticAnalyzer.init sa); [vm_compute; reflexivity|].
    apply slots_below_counter_init.
  - vm_compute. reflexivity.
  - refine (bool_decide_unpack _ _). vm_compute. exact I.
  - vm_compute. reflexivity.
Defined.

(** ** C10: a declaration as the bare body of [if] or [while] *)

(** C10.  Let [sb] be the analyzer state in which the body of an [if] or
    [while] is reached, with innermost scope [top], and let the body be
    the bare declaration of a name [x] that is new in [top].  Then the
    visit of the whole statement ends in the state that [visitVarDecl]
    leaves from [sb]: no scope was pushed or popped, [x] is bound in
    [top], the scope that encloses the statement, and resolves to the
    declaration's slot; the uses of [x] in the statements that follow are
    recorded with that slot.  The same holds when the declaration is the
    bare else-branch, reached in [sb] behind any condition and any
    then-branch.  With braces around the declaration the scopes after
    the statement are those of [sb]. *)
Theorem C10_unbraced_declaration_outlives_statement
    (sa sb : SemanticAnalyzer.t) (cond : ASTNode) (d : nat) (name : Token)
    (top : gmap string nat) (outer : list (gmap string nat)) :
  let x := lexeme name in
  let decl := VarDeclNode d name in
  let sd := Scoping.declared d name top outer sb in
  SemanticAnalyzer.visit cond sa = Ok sb ->
  SemanticAnalyzer.scopes sb = top :: outer ->
  top !! x = None ->
  SemanticAnalyzer.visit (IfNode cond decl None) sa = Ok sd /\
  SemanticAnalyzer.visit (WhileNode cond decl) sa = Ok sd /\
  (forall cond' thenBranch sa0 sa1,
     SemanticAnalyzer.visit cond' sa0 = Ok sa1 ->
     SemanticAnalyzer.visit thenBranch sa1 = Ok sb ->
     SemanticAnalyzer.visit (IfNode cond' thenBranch (Some decl)) sa0 = Ok sd) /\
  SemanticAnalyzer.scopes sd = <[x := SemanticAnalyzer.slotCounter sb]> top :: outer /\
  SemanticAnalyzer.resolve sd x = Some (SemanticAnalyzer.slotCounter sb) /\
  SemanticAnalyzer.varToSlot sd !! d = Some (SemanticAnalyzer.slotCounter sb) /\
  (forall after sa',
     NoDup (flat_map Scoping.refs after) ->
     forEach SemanticAnalyzer.visit after sd = Ok sa' ->
     forall u, u ∈ Scoping.uses_of x after ->
       SemanticAnalyzer.varToSlot sa' !! u = Some (SemanticAnalyzer.slotCounter sb)) /\
  (exists sa',
     SemanticAnalyzer.visit (IfNode cond (BlockNode [decl]) None) sa = Ok sa' /\
     SemanticAnalyzer.scopes sa' = top :: outer).
Proof.
  intros x decl sd Hcond Hsc Hfresh.
  pose proof (ShadowFacts.visitVarDecl_declared d name sb top outer Hsc Hfresh) as Hd.
  split; [|split; [|split; [|split; [|split; [|split; [|split]]]]]].
  - simpl. rewrite Hcond. simpl. by rewrite Hd.
  - simpl. by rewrite Hcond.
  - intros cond' thenBranch sa0 sa1 H0 H1. simpl. rewrite H0. simpl.
    by rewrite H1.
  - done.
  - apply ShadowFacts.resolve_declared.
  - simpl. by rewrite lookup_insert_eq.
  - intros after sa' Hnd H u Hu.
    by destruct (ShadowFacts.forEach_visit_binding x _ after sd sa' H Hnd
                   (ShadowFacts.resolve_declared d name top outer sb) u Hu).
  - eexists. split.
    + simpl. rewrite Hcond. simpl.
      unfold SemanticAnalyzer.visitVarDecl. simpl. rewrite lookup_empty.
      simpl. reflexivity.
    + done.
Qed.

(** [unbraced_sample], and [braced_sample] for contrast. *)
Lemma C10_unbraced_declaration_outlives_statement_witness :
  let sa := SemanticAnalyzer.init in
  let decl := VarDeclNode 0 (Scoping.x_at 12) in
  let sd := Scoping.declared 0 (Scoping.x_at 12) ∅ [] sa in
  (do tokens <- Lexer.tokenize Scoping.unbraced_sample; Parser.parse tokens)
    = Ok (ProgramNode (IfNode (LiteralNode (Int 1)) decl None :: Scoping.unbraced_after)) /\
  compile_and_run Scoping.unbraced_sample = Ok ["7"] /\
  compile_and_run Scoping.braced_sample = Err (UndeclaredVariable "x" 1) /\
  SemanticAnalyzer.visit (IfNode (LiteralNode (Int 1)) decl None) sa = Ok sd /\
  SemanticAnalyzer.resolve sd "x" = Some 0 /\
  (forall u, u ∈ Scoping.uses_of "x" Scoping.unbraced_after ->
     SemanticAnalyzer.varToSlot
       (Scoping.state_after_visiting Scoping.unbraced_after sd) !! u = Some 0).
Proof.
  intros sa decl sd.
  destruct (C10_unbraced_declaration_outlives_statement
              sa sa (LiteralNode (Int 1)) 0 (Scoping.x_at 12) ∅ [] eq_refl eq_refl eq_refl)
    as (Hif & _ & _ & _ & Hres & _ & Huses & _).
  split; [vm_compute; reflexivity|].
  split; [vm_compute; reflexivity|].
  split; [vm_compute; reflexivity|].
  split; [exact Hif|]. split; [exact Hres|].
  apply (Huses Scoping.unbraced_after).
  - refine (bool_decide_unpack _ _). vm_compute. exact I.
  - vm_compute. reflexivity.
Defined.

(** ** C5: binding errors *)

Module BindingFacts.
Import SemanticAnalyzer Binding OpenScopes.

Lemma depth_from_app l1 : forall d l2,
  depth_from d (l1 ++ l2) = depth_from d l1 ≫= fun d' => depth_from d' l2.
Proof.
  induction l1 as [|ev l1 IH]; intros d l2; simpl; [done|].
  destruct ev; try apply IH. destruct d; [done | apply IH].
Qed.

(** The events of a tree leave every block they enter. *)
Lemma events_balanced node : forall d, depth_from d (events node) = Some d.
Proof.
  assert (forall ss, Forall (fun n => forall d, depth_from d (events n) = Some d) ss ->
                     forall d, depth_from d (flat_map events ss) = Some d) as Hseq.
  { induction 1 as [|n l Hn _ IH]; intros d; simpl; [done|].
    rewrite depth_from_app, Hn. apply IH. }
  induction node as
    [ss IH | ref name | ref name expr IH | expr IH | ss IH
    | cond thenB elseB IHc IHt IHe | cond body IHc IHb
    | lhs o rhs IHl IHr | val | ref name ] using ASTNode_ind;
    intros d; simpl; try done.
  - by apply Hseq.
  - by rewrite depth_from_app, IH.
  - by rewrite depth_from_app, (Hseq ss IH).
  - rewrite depth_from_app, IHc. simpl. rewrite depth_from_app, IHt. simpl.
    destruct elseB as [e|]; [apply IHe | done].
  - rewrite depth_from_app, IHc. apply IHb.
  - rewrite depth_from_app, IHl. apply IHr.
Qed.

(** *** The analyzer and the events of the tree *)

Lemma names_enterScope sa : names (enterScope sa) = ∅ :: names sa.
Proof. unfold names. simpl. by rewrite dom_empty_L. Qed.

Lemma names_exitScope sa : names (exitScope sa) = tl (names sa).
Proof. unfold names. simpl. by destruct (scopes sa). Qed.

Lemma visitVarDecl_step ref name sa :
  match visitVarDecl ref name sa with
  | Ok sa' => step (Decl name) (names sa) = Ok (names sa')
  | Err e => step (Decl name) (names sa) = Err e
  end.
Proof.
  unfold visitVarDecl, names. destruct (scopes sa) as [|top outer]; simpl; [done|].
  destruct (top !! lexeme name) as [slot|] eqn:E.
  - rewrite decide_True; [done|]. apply elem_of_dom. by exists slot.
  - rewrite decide_False by (by apply not_elem_of_dom).
    simpl. by rewrite dom_insert_L.
Qed.

Lemma record_use_step ref name sa :
  match record_use ref name sa with
  | Ok sa' => step (Use name) (names sa) = Ok (names sa')
  | Err e => step (Use name) (names sa) = Err e
  end.
Proof.
  unfold record_use, resolve, names. simpl.
  destruct (resolve_in (scopes sa) (lexeme name)) as [slot|] eqn:E.
  - rewrite decide_True; [done|].
    apply ShadowFacts.resolve_in_elem in E as (sc & Hin & Hsc).
    apply Exists_exists. exists (dom sc). split.
    + apply list_elem_of_fmap. by exists sc.
    + apply elem_of_dom. by exists slot.
  - rewrite decide_False; [done|].
    intros (s & (sc & -> & Hin)%list_elem_of_fmap & Hx)%Exists_exists.
    apply elem_of_dom in Hx as [slot Hslot].
    pose proof (proj1 (ShadowFacts.resolve_in_None _ _) E sc Hin). congruence.
Qed.

(** The analyzer does to its scopes what the events of the tree say,
    and fails where they do. *)
Definition follows (node : ASTNode) : Prop :=
  forall sa,
    match visit node sa with
    | Ok sa' => forEach step (events node) (names sa) = Ok (names sa')
    | Err e => forEach step (events node) (names sa) = Err e
    end.

Lemma forEach_follows statements :
  Forall follows statements ->
  forall sa,
    match forEach visit statements sa with
    | Ok sa' => forEach step (flat_map events statements) (names sa) = Ok (names sa')
    | Err e => forEach step (flat_map events statements) (names sa) = Err e
    end.
Proof.
  induction 1 as [|n l Hn _ IH]; intros sa; simpl; [done|].
  rewrite AnalyzerFacts.forEach_app. specialize (Hn sa).
  destruct (visit n sa) as [sa1|e]; simpl; rewrite Hn; simpl; [apply IH | done].
Qed.

Lemma forEach_one {A S} (f : A -> S -> result S) a s :
  forEach f [a] s = f a s.
Proof. simpl. by destruct (f a s). Qed.

Ltac follow H sa sa1 :=
  let E := fresh "E" in
  pose proof (H sa) as E; rewrite AnalyzerFacts.forEach_app;
  destruct (visit _ sa) as [sa1|]; cbn [bind]; rewrite E; cbn [bind];
  [|done].

Lemma visit_follows node : follows node.
Proof.
  induction node as
    [ss IH | ref name | ref name expr IH | expr IH | ss IH
    | cond thenB elseB IHc IHt IHe | cond body IHc IHb
    | lhs o rhs IHl IHr | val | ref name ] using ASTNode_ind;
    intros sa; cbn [visit events].
  - by apply forEach_follows.
  - rewrite forEach_one. apply visitVarDecl_step.
  - follow IH sa sa1. rewrite forEach_one. apply record_use_step.
  - apply IH.
  - pose proof (forEach_follows ss IH (enterScope sa)) as H.
    rewrite names_enterScope in H.
    change (Enter :: ?l) with ([Enter] ++ l).
    rewrite AnalyzerFacts.forEach_app, forEach_one. cbn [step bind].
    rewrite AnalyzerFacts.forEach_app. revert H. destruct (forEach visit ss (enterScope sa)) as [sb|e];
      intros ->; cbn [bind]; [|done].
    rewrite forEach_one. simpl. by rewrite names_exitScope.
  - follow IHc sa sa1. follow IHt sa1 sa2.
    destruct elseB as [e|]; simpl in *; [apply IHe | done].
  - follow IHc sa sa1. apply IHb.
  - follow IHl sa sa1. apply IHr.
  - done.
  - rewrite forEach_one. apply record_use_step.
Qed.

(** *** The events and the declarations in scope *)

Lemma depth_from_one k0 ev k :
  depth_from k0 [ev] = Some k <->
  match ev with
  | Enter => k = S k0
  | Leave => k0 = S k
  | _ => k = k0
  end.
Proof.
  destruct ev; simpl; try (split; congruence).
  destruct k0; split; congruence.
Qed.

Lemma declared_at_snoc k x before ev :
  declared_at k x (before ++ [ev]) <->
  (exists d, ev = Decl d /\ lexeme d = x /\ k = 0) \/
  (exists k0, declared_at k0 x before /\ depth_from k0 [ev] = Some k).
Proof.
  split.
  - intros (pre & d & between & E & Hx & Hd).
    destruct between as [|ev' between _] using rev_ind.
    + apply app_inj_tail in E as [-> ->]. left. exists d.
      by injection Hd as <-.
    + rewrite app_comm_cons, app_assoc in E.
      apply app_inj_tail in E as [-> ->].
      rewrite depth_from_app in Hd.
      destruct (depth_from 0 between) as [k0|] eqn:Hk0; [|done].
      right. exists k0. split; [|done]. by exists pre, d, between.
  - intros [(d & -> & Hx & ->) | (k0 & (pre & d & between & -> & Hx & Hd) & Hk)].
    + by exists before, d, [].
    + exists pre, d, (between ++ [ev]). split; [by rewrite <- app_assoc|].
      split; [done|]. by rewrite depth_from_app, Hd.
Qed.

Lemma tracked_start : tracked [] (names init).
Proof.
  split; [by exists 0|]. intros k x. split.
  - intros (sc & Hsc & Hx). destruct k; simpl in Hsc; [|done].
    injection Hsc as <-. by rewrite dom_empty_L in Hx.
  - intros (pre & d & between & E & _). by destruct pre.
Qed.

Lemma fails_same before ev e e' :
  fails before ev e -> fails before ev e' -> e = e'.
Proof. intros H H'. by destruct H; inversion H'. Qed.

(** One event: it is in error exactly when the scopes refuse it, and
    otherwise the scopes go on holding the names declared in them. *)
Lemma step_spec before open ev :
  tracked before open ->
  is_Some (depth_from 0 (before ++ [ev])) ->
  match step ev open with
  | Ok open' => tracked (before ++ [ev]) open' /\ forall e, ~ fails before ev e
  | Err e => fails before ev e
  end.
Proof.
  intros [(d & Hd & Hlen) Hin] Hok.
  rewrite depth_from_app, Hd in Hok. simpl in Hok.
  assert (forall k x,
            declared_at k x (before ++ [ev]) <->
            (exists n, ev = Decl n /\ lexeme n = x /\ k = 0) \/
            (exists k0 sc, open !! k0 = Some sc /\ x ∈ sc /\
                           depth_from k0 [ev] = Some k)) as Hsnoc.
  { intros k x. rewrite declared_at_snoc.
    apply or_iff_compat_l. split.
    - intros (k0 & Hk0 & Hk). apply Hin in Hk0 as (sc & ? & ?).
      by exists k0, sc.
    - intros (k0 & sc & ? & ? & Hk). exists k0. split; [|done].
      apply Hin. by exists sc. }
  destruct ev as [| |name|name]; simpl.
  - split; [|by intros e H; inversion H]. split.
    + exists (S d). split; [by rewrite depth_from_app, Hd|]. simpl. by rewrite Hlen.
    + intros k x. rewrite Hsnoc. split.
      * intros (sc & Hsc & Hx). destruct k as [|k]; simpl in Hsc.
        -- injection Hsc as <-. by apply elem_of_empty in Hx.
        -- right. by exists k, sc.
      * intros [(n & ? & _) | (k0 & sc & Hsc & Hx & [= <-])]; [done|].
        by exists sc.
  - destruct d as [|d]; [by destruct Hok|].
    destruct open as [|top outer]; [done|]. simpl in *.
    split; [|by intros e H; inversion H]. split.
    + exists d. split; [by rewrite depth_from_app, Hd|]. lia.
    + intros k x. rewrite Hsnoc. split.
      * intros (sc & Hsc & Hx). right. by exists (S k), sc.
      * intros [(n & ? & _) | (k0 & sc & Hsc & Hx & Hk)]; [done|].
        destruct k0 as [|k0]; [done|]. injection Hk as <-. by exists sc.
  - destruct open as [|top outer]; [done|].
    destruct (decide (lexeme name ∈ top)) as [Htop|Htop].
    + constructor. apply Hin. by exists top.
    + split.
      * split; [exists d; split; [by rewrite depth_from_app, Hd | done]|].
        intros k x. rewrite Hsnoc. split.
        -- intros (sc & Hsc & Hx). destruct k as [|k]; simpl in Hsc.
           ++ injection Hsc as <-.
              apply elem_of_union in Hx as [->%elem_of_singleton|Hx].
              ** left. by exists name.
              ** right. by exists 0, top.
           ++ right. by exists (S k), sc.
        -- intros [(n & [= <-] & <- & ->) | (k0 & sc & Hsc & Hx & [= <-])].
           ++ exists ({[lexeme name]} ∪ top). split; [done|].
              apply elem_of_union. left. by apply elem_of_singleton.
           ++ destruct k0 as [|k0]; simpl in Hsc.
              ** injection Hsc as <-.
                 exists ({[lexeme name]} ∪ top). split; [done|].
                 apply elem_of_union. by right.
              ** by exists sc.
      * intros e H. inversion H as [n (sc & Hsc & Hx)%Hin|]; subst.
        simpl in Hsc. injection Hsc as <-. done.
  - destruct (decide (Exists (fun sc => lexeme name ∈ sc) open)) as [Hex|Hex].
    + split.
      * split; [exists d; split; [by rewrite depth_from_app, Hd | done]|].
        intros k x. rewrite Hsnoc. split.
        -- intros (sc & Hsc & Hx). right. by exists k, sc.
        -- intros [(n & ? & _) | (k0 & sc & Hsc & Hx & [= <-])]; [done|].
           by exists sc.
      * intros e H. inversion H as [|n Hnot]; subst. apply Hnot.
        apply Exists_exists in Hex as (sc & [k Hk]%list_elem_of_lookup_1 & Hx).
        exists k. apply Hin. by exists sc.
    + constructor. intros (k & (sc & Hsc & Hx)%Hin). apply Hex.
      apply Exists_exists. exists sc. split; [|done].
      by eapply list_elem_of_lookup_2.
Qed.

Lemma cons_split {A} (a : A) l b1 x b2 :
  a :: l = b1 ++ x :: b2 ->
  (b1 = [] /\ x = a) \/ exists b1', b1 = a :: b1' /\ l = b1' ++ x :: b2.
Proof.
  destruct b1 as [|c b1]; intros E; injection E as -> ->; [by left|].
  right. by exists b1.
Qed.

(** A run of events: the scopes refuse the first event in error, and
    accept the run when there is none. *)
Lemma run_spec evs : forall before open,
  tracked before open ->
  is_Some (depth_from 0 (before ++ evs)) ->
  match forEach step evs open with
  | Ok open' => tracked (before ++ evs) open' /\ clean_behind before evs
  | Err e =>
      exists b1 ev b2,
        evs = b1 ++ ev :: b2 /\ clean_behind before b1 /\
        fails (before ++ b1) ev e
  end.
Proof.
  induction evs as [|ev evs IH]; intros before open Htr Hok; simpl.
  - rewrite app_nil_r. split; [done|]. intros b1 ev b2 e E. by destruct b1.
  - assert (is_Some (depth_from 0 (before ++ [ev]))) as Hok1.
    { change (ev :: evs) with ([ev] ++ evs) in Hok.
      rewrite app_assoc, depth_from_app in Hok.
      by destruct (depth_from 0 (before ++ [ev])); [|destruct Hok]. }
    pose proof (step_spec before open ev Htr Hok1) as H1.
    destruct (step ev open) as [open1|e]; simpl.
    + destruct H1 as [Htr1 Hclean1].
      specialize (IH (before ++ [ev]) open1 Htr1).
      rewrite <- app_assoc in IH. specialize (IH Hok).
      destruct (forEach step evs open1) as [open'|e].
      * destruct IH as [Htr' Hclean]. split; [done|].
        intros b1 ev0 b2 e E.
        destruct (cons_split _ _ _ _ _ E) as [[-> ->]|(b1' & -> & E')].
        -- rewrite app_nil_r. apply Hclean1.
        -- change (ev :: b1') with ([ev] ++ b1'). rewrite app_assoc.
           by eapply Hclean.
      * destruct IH as (b1 & ev0 & b2 & -> & Hclean & Hfails).
        exists (ev :: b1), ev0, b2. split; [done|]. split.
        -- intros c1 ev1 c2 e1 E.
           destruct (cons_split _ _ _ _ _ E) as [[-> ->]|(c1' & -> & E')].
           ++ rewrite app_nil_r. apply Hclean1.
           ++ change (ev :: c1') with ([ev] ++ c1'). rewrite app_assoc.
              by eapply Hclean.
        -- change (ev :: b1) with ([ev] ++ b1). by rewrite app_assoc.
    + exists [], ev, evs. split; [done|]. split.
      * intros b1 ev0 b2 e0 E. by destruct b1.
      * by rewrite app_nil_r.
Qed.

(** What [analyze] answers, told by the events of the tree. *)
Lemma analyze_spec program :
  match analyze program with
  | Ok _ => clean (events program)
  | Err e => first_failure (events program) e
  end.
Proof.
  unfold analyze.
  pose proof (visit_follows program init) as Hf.
  pose proof (run_spec (events program) [] (names init) tracked_start) as Hr.
  simpl in Hr. rewrite events_balanced in Hr. specialize (Hr ltac:(eauto)).
  destruct (visit program init) as [sa|e]; simpl; rewrite Hf in Hr.
  - by destruct Hr.
  - done.
Qed.

Lemma first_failure_not_clean evs e : first_failure evs e -> ~ clean evs.
Proof.
  intros (b1 & ev & b2 & -> & _ & Hfails) Hclean.
  by apply (Hclean b1 ev b2 e).
Qed.

Lemma split_twice {A} (b1 : list A) : forall ev b2 c1 ev' c2,
  b1 ++ ev :: b2 = c1 ++ ev' :: c2 ->
  (b1 = c1 /\ ev = ev') \/
  (exists m, c1 = b1 ++ ev :: m) \/ (exists m, b1 = c1 ++ ev' :: m).
Proof.
  induction b1 as [|a b1 IH]; intros ev b2 [|c c1] ev' c2 E; simpl in E.
  - injection E as -> _. by left.
  - injection E as -> _. right. left. by exists c1.
  - injection E as -> _. right. right. by exists b1.
  - injection E as -> E.
    destruct (IH _ _ _ _ _ E) as [[-> ->]|[[m ->]|[m ->]]].
    + by left.
    + right. left. by exists m.
    + right. right. by exists m.
Qed.

Lemma first_failure_unique evs e e' :
  first_failure evs e -> first_failure evs e' -> e = e'.
Proof.
  intros (b1 & ev & b2 & -> & Hc & Hf) (c1 & ev' & c2 & E & Hc' & Hf').
  destruct (split_twice _ _ _ _ _ _ E) as [[-> ->]|[[m ->]|[m ->]]].
  - by eapply fails_same.
  - by destruct (Hc' b1 ev m e).
  - by destruct (Hc c1 ev' m e').
Qed.

End BindingFacts.

(** C5.  The declarations and uses of a program are taken in the order of
    a depth-first traversal: statements from first to last, the condition
    of an [if] or [while] before its branches, the left operand before
    the right one, the right-hand side of an assignment before its
    target.  A declaration is in error when the same name is declared
    before it in the same scope, that is in the same block, at the same
    level: a declaration in a block around it, or in a block that is
    closed, does not count.  A use, read or assignment target, is in
    error when no declaration of the name before it stands in a block
    that is still open.  [analyze] succeeds exactly when no declaration
    or use is in error, and otherwise fails with the error of the first
    one in error: redeclaration for a declaration, undeclared variable
    for a use, with its name and line; what follows is not looked at.
    So [redeclaration_sample] fails at the second [int a;]; without that
    line the error is the undeclared [b]; and a declaration of [a] in a
    nested block is accepted. *)
Theorem C5_binding_errors_first_only (program : ASTNode) :
  (forall e,
     SemanticAnalyzer.analyze program = Err e <->
     Binding.first_failure (Binding.events program) e) /\
  ((exists varToSlot, SemanticAnalyzer.analyze program = Ok varToSlot) <->
   Binding.clean (Binding.events program)) /\
  (do tokens <- Lexer.tokenize Scoping.redeclaration_sample;
   do ast <- Parser.parse tokens;
   SemanticAnalyzer.analyze ast) = Err (Redeclaration "a" 1) /\
  (do tokens <- Lexer.tokenize "int a; a=10; print(b);";
   do ast <- Parser.parse tokens;
   SemanticAnalyzer.analyze ast) = Err (UndeclaredVariable "b" 1) /\
  (exists varToSlot,
     (do tokens <- Lexer.tokenize "int a; { int a; a=10; } print(a);";
      do ast <- Parser.parse tokens;
      SemanticAnalyzer.analyze ast) = Ok varToSlot).
Proof.
  pose proof (BindingFacts.analyze_spec program) as H.
  split; [|split; [|split; [|split]]].
  - intros e. split.
    + intros E. by rewrite E in H.
    + intros Hf. destruct (SemanticAnalyzer.analyze program) as [m|e'].
      * by destruct (BindingFacts.first_failure_not_clean _ _ Hf).
      * f_equal. by eapply BindingFacts.first_failure_unique.
  - split.
    + intros [m E]. by rewrite E in H.
    + intros Hc. destruct (SemanticAnalyzer.analyze program) as [m|e].
      * by exists m.
      * by destruct (BindingFacts.first_failure_not_clean _ _ H).
  - vm_compute. reflexivity.
  - vm_compute. reflexivity.
  - eexists. vm_compute. reflexivity.
Qed.

(** ** The code generator *)

Ltac list_norm :=
  repeat first
    [ rewrite <- !app_assoc | rewrite !fmap_app | rewrite !app_nil_r
    | progress simpl ].

Ltac len_norm :=
  repeat first
    [ rewrite !length_app | rewrite !length_fmap | rewrite !length_cons
    | progress simpl ].

Module CodegenFacts.
Import CodeGenerator Layout.

Section WithMap.
Variable m : gmap nat nat.

Lemma patch_middle (l1 l2 : list Instruction) i v :
  patch (length l1) v (l1 ++ i :: l2)
  = Ok (l1 ++ mkInstruction (op i) (Some (Int (Z.of_nat v))) (comment i) :: l2).
Proof.
  unfold patch. rewrite list_lookup_middle by done.
  f_equal. rewrite insert_app_r_alt by lia. by rewrite Nat.sub_diag.
Qed.

Lemma emit_app o opd c code :
  emit o opd c code = (code ++ [mkInstruction o opd c], length code).
Proof. done. Qed.

Lemma length_sequence_fst f base l :
  length ((sequence f base l).*1) = length (sequence f base l).
Proof. apply length_fmap. Qed.

(** A run of statements is laid out one after the other. *)
Lemma forEach_sequence h statements :
  Forall (fun n => forall code h,
            visit m n code = Ok (code ++ (acode m h (length code) n).*1))
    statements ->
  forall code,
    forEach (visit m) statements code
    = Ok (code ++ (sequence (acode m h) (length code) statements).*1).
Proof.
  induction 1 as [|n l Hn _ IH]; intros code; simpl.
  - by rewrite app_nil_r.
  - rewrite (Hn code h). simpl. rewrite IH.
    rewrite length_app, length_fmap, fmap_app, app_assoc. done.
Qed.

Lemma patch_at (l1 l2 : list Instruction) i idx v code :
  code = l1 ++ i :: l2 -> idx = length l1 ->
  patch idx v code
  = Ok (l1 ++ mkInstruction (op i) (Some (Int (Z.of_nat v))) (comment i) :: l2).
Proof. intros -> ->. apply patch_middle. Qed.

Ltac fix_length n :=
  match goal with
  | |- context [Z.of_nat (length ?l)] =>
      replace (length l) with n by (len_norm; lia)
  end.

(** The generator appends exactly the laid-out code, jump operands
    included, and never throws. *)
Lemma visit_acode node : forall code h,
  visit m node code = Ok (code ++ (acode m h (length code) node).*1).
Proof.
  induction node as
    [ss IH | ref name | ref name expr IH | expr IH | ss IH
    | cond thenB elseB IHc IHt IHe | cond body IHc IHb
    | lhs o rhs IHl IHr | val | ref name ] using ASTNode_ind;
    intros code h; simpl.
  - by apply forEach_sequence.
  - unfold emit_. simpl. by rewrite <- app_assoc.
  - rewrite (IH code h). simpl. unfold emit_. simpl.
    by rewrite fmap_app, app_assoc.
  - rewrite (IH code h). simpl. unfold emit_. simpl.
    by rewrite fmap_app, app_assoc.
  - by apply forEach_sequence.
  - rewrite (IHc code h). simpl.
    set (cc := acode m h (length code) cond).
    rewrite (IHt _ h). simpl.
    replace (length ((code ++ cc.*1) ++ [mkInstruction JMP_IF_FALSE (Some (Int 0)) None]))
      with (length code + length cc + 1) by (len_norm; lia).
    set (tb := length code + length cc + 1).
    set (tc := acode m h tb thenB).
    destruct elseB as [e|]; simpl in *.
    + erewrite (patch_at (code ++ cc.*1) (tc.*1 ++ [mkInstruction JMP (Some (Int 0)) None]));
        [|by list_norm|by len_norm]. simpl.
      set (eb := tb + length tc + 1).
      replace (length ((((code ++ cc.*1) ++ [mkInstruction JMP_IF_FALSE (Some (Int 0)) None])
                        ++ tc.*1) ++ [mkInstruction JMP (Some (Int 0)) None]))
        with eb by (unfold eb, tb; len_norm; lia).
      replace (length (((code ++ cc.*1) ++ [mkInstruction JMP_IF_FALSE (Some (Int 0)) None])
                       ++ tc.*1))
        with (tb + length tc) by (unfold tb; len_norm; lia).
      rewrite (IHe _ h). simpl.
      replace (length ((code ++ cc.*1) ++ mkInstruction JMP_IF_FALSE (Some (Int (Z.of_nat eb))) None
                       :: tc.*1 ++ [mkInstruction JMP (Some (Int 0)) None]))
        with eb by (unfold eb, tb; len_norm; lia).
      set (ec := acode m h eb e).
      erewrite (patch_at ((code ++ cc.*1) ++ mkInstruction JMP_IF_FALSE (Some (Int (Z.of_nat eb))) None
                          :: tc.*1) (ec.*1));
        [|by list_norm|by unfold tb; len_norm; lia]. simpl.
      fix_length (eb + length ec). by list_norm.
    + erewrite (patch_at (code ++ cc.*1) (tc.*1)); [|by list_norm|by len_norm].
      simpl. fix_length (tb + length tc). by list_norm.
  - rewrite (IHc code h). simpl.
    set (cc := acode m h (length code) cond).
    rewrite (IHb _ h). simpl.
    replace (length ((code ++ cc.*1) ++ [mkInstruction JMP_IF_FALSE (Some (Int 0)) None]))
      with (length code + length cc + 1) by (len_norm; lia).
    set (bb := length code + length cc + 1).
    set (bc := acode m h bb body).
    unfold emit_. simpl.
    erewrite (patch_at (code ++ cc.*1)
                (bc.*1 ++ [mkInstruction JMP (Some (Int (Z.of_nat (length code)))) None]));
      [|by list_norm|by len_norm].
    simpl. fix_length (bb + length bc + 1). by list_norm.
  - rewrite (IHl code h). simpl.
    rewrite (IHr _ (S h)). simpl.
    replace (length (code ++ (acode m h (length code) lhs).*1))
      with (length code + length (acode m h (length code) lhs)) by (len_norm; lia).
    destruct (binaryOpCode (type o)) as [oc|]; unfold emit_; simpl; by list_norm.
  - done.
  - done.
Qed.

Lemma generate_annotated program :
  generate m program = Ok ((annotated m program).*1).
Proof.
  unfold generate, annotated, getBytecode.
  rewrite (visit_acode program [] 0). simpl. by rewrite fmap_app.
Qed.

End WithMap.

End CodegenFacts.

(** ** C2: jump operands *)

Module JumpFacts.
Import CodeGenerator Layout CodegenFacts.

Lemma targets_within_wider lo hi lo' hi' l :
  targets_within lo hi l -> lo' <= lo -> hi <= hi' -> targets_within lo' hi' l.
Proof.
  intros H Hlo Hhi. eapply Forall_impl; [exact H|].
  intros a Ha Hj. destruct (Ha Hj) as (t & ? & ?). exists t. split; [done|lia].
Qed.

Lemma targets_within_app lo hi l1 l2 :
  targets_within lo hi l1 -> targets_within lo hi l2 ->
  targets_within lo hi (l1 ++ l2).
Proof. intros. by apply Forall_app. Qed.

Lemma targets_within_no_jump lo hi o opd c h :
  o <> JMP -> o <> JMP_IF_FALSE -> targets_within lo hi [ins o opd c h].
Proof.
  intros H1 H2. apply Forall_singleton. intros [?|?]; simpl in *; congruence.
Qed.

Lemma targets_within_jump lo hi o t c h :
  lo <= t <= hi -> targets_within lo hi [ins o (Some (Int (Z.of_nat t))) c h].
Proof. intros Ht. apply Forall_singleton. intros _. eauto. Qed.

Section WithMap.
Variable m : gmap nat nat.

Lemma sequence_targets h statements :
  Forall (fun n => forall h base,
            targets_within base (base + length (acode m h base n)) (acode m h base n))
    statements ->
  forall base,
    targets_within base (base + length (sequence (acode m h) base statements))
      (sequence (acode m h) base statements).
Proof.
  induction 1 as [|n l Hn _ IH]; intros base; simpl; [by apply Forall_nil|].
  rewrite length_app. apply targets_within_app.
  - eapply targets_within_wider; [apply Hn | lia | lia].
  - eapply targets_within_wider; [apply IH | lia | lia].
Qed.

Lemma acode_targets node : forall h base,
  targets_within base (base + length (acode m h base node)) (acode m h base node).
Proof.
  induction node as
    [ss IH | ref name | ref name expr IH | expr IH | ss IH
    | cond thenB elseB IHc IHt IHe | cond body IHc IHb
    | lhs o rhs IHl IHr | val | ref name ] using ASTNode_ind;
    intros h base; simpl.
  - by apply sequence_targets.
  - apply (targets_within_app _ _ [_] [_]); by apply targets_within_no_jump.
  - rewrite length_app. apply targets_within_app.
    + eapply targets_within_wider; [apply IH | lia | lia].
    + by apply targets_within_no_jump.
  - rewrite length_app. apply targets_within_app.
    + eapply targets_within_wider; [apply IH | lia | lia].
    + by apply targets_within_no_jump.
  - by apply sequence_targets.
  - destruct elseB as [e|]; simpl in *.
    + rewrite !length_app. simpl. rewrite !length_app. simpl.
      apply targets_within_app; [|apply (targets_within_app _ _ [_]);
        [|apply targets_within_app; [|apply (targets_within_app _ _ [_])]]].
      * eapply targets_within_wider; [apply IHc | lia | lia].
      * apply targets_within_jump. lia.
      * eapply targets_within_wider; [apply IHt | lia | lia].
      * apply targets_within_jump. lia.
      * eapply targets_within_wider; [apply IHe | lia | lia].
    + rewrite !length_app. simpl.
      apply targets_within_app; [|apply (targets_within_app _ _ [_])].
      * eapply targets_within_wider; [apply IHc | lia | lia].
      * apply targets_within_jump. lia.
      * eapply targets_within_wider; [apply IHt | lia | lia].
  - rewrite !length_app. simpl. rewrite !length_app. simpl.
    apply targets_within_app; [|apply (targets_within_app _ _ [_]);
      [|apply targets_within_app]].
    + eapply targets_within_wider; [apply IHc | lia | lia].
    + apply targets_within_jump. lia.
    + eapply targets_within_wider; [apply IHb | lia | lia].
    + apply targets_within_jump. lia.
  - rewrite !length_app.
    apply targets_within_app; [|apply targets_within_app].
    + eapply targets_within_wider; [apply IHl | lia | lia].
    + eapply targets_within_wider; [apply IHr | lia | lia].
    + destruct (binaryOpCode (type o)) as [oc|] eqn:E; [|by apply Forall_nil].
      apply targets_within_no_jump; intros ->; by destruct (type o).
  - by apply targets_within_no_jump.
  - by apply targets_within_no_jump.
Qed.

Lemma annotated_jumps program : jumps_land_inside ((annotated m program).*1).
Proof.
  intros i inst Hi Hj.
  apply list_lookup_fmap_Some in Hi as ([inst' k] & -> & Hi). simpl in *.
  unfold annotated in *. rewrite length_fmap, length_app. simpl.
  apply lookup_app_Some in Hi as [Hi|[_ Hi]].
  - pose proof (acode_targets program 0 0) as H.
    unfold targets_within in H. rewrite Forall_lookup in H.
    destruct (H i _ Hi Hj) as (t & Ht1 & Ht). simpl in Ht1.
    exists (Z.of_nat t). split; [done|lia].
  - apply list_lookup_singleton_Some in Hi as [_ [= <- _]].
    destruct Hj as [Hj|Hj]; discriminate Hj.
Qed.

End WithMap.
End JumpFacts.

(** C2.  For every tree and every resolution map, code generation
    succeeds, and in the sequence it returns (trailing [HALT] included)
    every [JMP] and [JMP_IF_FALSE] has an operand [t] with
    0 <= t < length of the sequence. *)
Theorem C2_jump_operands_are_valid_indices
    (varToSlot : gmap nat nat) (program : ASTNode) :
  exists bytecode,
    CodeGenerator.generate varToSlot program = Ok bytecode /\
    Layout.jumps_land_inside bytecode.
Proof.
  exists ((Layout.annotated varToSlot program).*1). split.
  - apply CodegenFacts.generate_annotated.
  - apply JumpFacts.annotated_jumps.
Qed.
(** ** C7: compiled code runs safely *)

Module SafetyFacts.
Import VM Exec Safety.

Lemma height_lookup A i h :
  height A i = Some h <-> exists inst, A !! i = Some (inst, h).
Proof.
  unfold height, hh. rewrite head_lookup, lookup_drop, Nat.add_0_r.
  destruct (A !! i) as [[inst k]|]; simpl; split.
  - intros [= <-]. eauto.
  - by intros (? & [= _ ->]).
  - done.
  - by intros (? & ?).
Qed.

Lemma height_split A k l1 l2 :
  A = l1 ++ l2 -> k = length l1 -> height A k = hh l2.
Proof. intros -> ->. unfold height. by rewrite drop_app_length. Qed.

Lemma agrees_fetch A vm :
  agrees A vm ->
  exists i inst,
    ip vm = Some (Int (Z.of_nat i)) /\ A !! i = Some (inst, length (stack vm)) /\
    fetch vm = Some inst /\ ip_lt_length vm = true.
Proof.
  intros (Hb & i & Hip & Hh).
  apply height_lookup in Hh as (inst & Hi).
  exists i, inst. split; [done|]. split; [done|].
  unfold fetch, ip_lt_length. rewrite Hip, Hb.
  assert (i < length A) by (by eapply lookup_lt_Some).
  split.
  - destruct (Z.ltb_spec (Z.of_nat i) 0); [lia|].
    rewrite Nat2Z.id, list_lookup_fmap, Hi. done.
  - rewrite length_fmap. apply Z.ltb_lt. lia.
Qed.

Lemma next_ip i :
  next (Some (Int (Z.of_nat i))) = Some (Int (Z.of_nat (S i))).
Proof. unfold next. do 2 f_equal. lia. Qed.

Lemma ok_safe A i inst h :
  ok A i inst h ->
  pops (op inst) <= h /\ (reads_operand (op inst) = true -> is_Some (operand inst)).
Proof.
  unfold ok. destruct (op inst); simpl; intros H;
    repeat match goal with
           | H : _ /\ _ |- _ => destruct H
           | H : exists _, _ |- _ => destruct H
           end; subst; (split; [lia | intros; try done; eauto]).
Qed.

(** One dispatch from a state that agrees with a well-typed annotation is
    safe and leads to a state that agrees with it. *)
Lemma agrees_step A vm :
  well_typed A -> agrees A vm ->
  safe vm /\ forall vm', step vm = Some vm' -> agrees A vm'.
Proof.
  intros WT Hag.
  destruct (agrees_fetch A vm Hag) as (i & inst & Hip & Hi & Hf & Hlt).
  destruct Hag as (Hb & _).
  pose proof (WT i inst _ Hi) as Hok.
  split.
  { destruct (ok_safe _ _ _ _ Hok) as [Hp Ho].
    split; [done|]. exists inst. by repeat split. }
  unfold ok in Hok. unfold step. rewrite Hlt, Hf.
  unfold dispatch, binary, agrees.
  destruct (op inst) eqn:Hop; simpl.
  all: try (destruct Hok as (h' & Hh & Hnext);
            destruct (stack vm) as [|b [|a st]]; simpl in Hh; try discriminate Hh;
            injection Hh as <-;
            intros vm' [= <-]; simpl; split; [done|];
            exists (S i); rewrite Hip, next_ip; done).
  - destruct Hok as (Hopd & Hnext).
    intros vm' [= <-]. simpl. split; [done|].
    exists (S i). by rewrite Hip, next_ip.
  - destruct Hok as (Hopd & Hnext).
    intros vm' [= <-]. simpl. split; [done|].
    exists (S i). by rewrite Hip, next_ip.
  - destruct Hok as (Hopd & h' & Hh & Hnext).
    destruct (stack vm) as [|v st]; simpl in Hh; [done|]. injection Hh as <-.
    intros vm' [= <-]. simpl. split; [done|].
    exists (S i). by rewrite Hip, next_ip.
  - destruct Hok as (target & Hopd & Hnext).
    intros vm' [= <-]. simpl. split; [done|].
    exists target. by rewrite Hopd.
  - destruct Hok as (target & h' & Hopd & Hh & Htarget & Hnext).
    destruct (stack vm) as [|v st]; simpl in Hh; [done|]. injection Hh as <-.
    simpl. destruct (JS.strictEq v (Num (Int 0))); intros vm' [= <-]; simpl;
      (split; [done|]).
    + exists target. by rewrite Hopd.
    + exists (S i). by rewrite Hip, next_ip.
  - destruct Hok as (h' & Hh & Hnext).
    destruct (stack vm) as [|v st]; simpl in Hh; [done|]. injection Hh as <-.
    intros vm' [= <-]. simpl. split; [done|].
    exists (S i). by rewrite Hip, next_ip.
  - done.
Qed.

Lemma agrees_state_after A n : forall vm vm',
  well_typed A -> agrees A vm -> state_after n vm = Some vm' -> agrees A vm'.
Proof.
  induction n as [|n IH]; intros vm vm' WT Hag H; simpl in H.
  - by injection H as <-.
  - destruct (step vm) as [vm1|] eqn:E; [|done].
    eapply IH; [done| |done]. by apply (agrees_step A vm WT Hag).
Qed.

(** The loop never throws from a state that agrees with a well-typed
    annotation. *)
Lemma loop_no_throw A fuel : forall iterations vm,
  well_typed A -> agrees A vm ->
  (loop fuel iterations vm).1.1 <> Threw.
Proof.
  induction fuel as [|fuel IH]; intros iterations vm WT Hag; simpl; [done|].
  destruct (agrees_fetch A vm Hag) as (i & inst & Hip & Hi & Hf & Hlt).
  rewrite Hlt, Hf.
  destruct (dispatch inst vm) as [vm'|] eqn:E; [|done].
  apply IH; [done|].
  apply (agrees_step A vm WT Hag). unfold step. by rewrite Hlt, Hf.
Qed.

End SafetyFacts.

Module TypingFacts.
Import CodeGenerator Layout Safety Shape SafetyFacts.

Lemma frag_ok_nil A base : frag_ok A base [].
Proof. by intros j inst h H. Qed.

Lemma frag_ok_app A base F1 F2 :
  frag_ok A base F1 -> frag_ok A (base + length F1) F2 ->
  frag_ok A base (F1 ++ F2).
Proof.
  intros H1 H2 j inst h [Hj|[Hlen Hj]]%lookup_app_Some.
  - by apply H1.
  - replace (base + j) with (base + length F1 + (j - length F1)) by lia.
    by apply H2.
Qed.

Lemma frag_ok_single A base inst h :
  ok A base inst h -> frag_ok A base [(inst, h)].
Proof.
  intros H j inst' h' [-> [= <- <-]]%list_lookup_singleton_Some.
  by rewrite Nat.add_0_r.
Qed.

Section WithMap.
Variable m : gmap nat nat.

Lemma slotOf_defined r : is_Some (m !! r) -> is_Some (slotOf m r).
Proof. intros [s Hs]. unfold slotOf. rewrite Hs. by eexists. Qed.

(** An expression starts with an instruction, at the height it is entered
    with. *)
Lemma expr_entry e :
  is_expr e -> forall h base post, hh (acode m h base e ++ post) = Some h.
Proof.
  induction e as
    [ss IH | ref name | ref name expr IH | expr IH | ss IH
    | cond thenB elseB IHc IHt IHe | cond body IHc IHb
    | lhs o rhs IHl IHr | val | ref name ] using ASTNode_ind;
    intros He h base post; simpl in *; try done.
  apply andb_prop_elim in He as [He _]. apply andb_prop_elim in He as [Hl _].
  rewrite <- app_assoc. by apply IHl.
Qed.

Lemma sequence_entry h statements :
  Forall (fun s => is_stmt s -> forall h base post,
            hh post = Some h -> hh (acode m h base s ++ post) = Some h) statements ->
  forallb is_stmt statements ->
  forall base post,
    hh post = Some h -> hh (sequence (acode m h) base statements ++ post) = Some h.
Proof.
  induction 1 as [|s l Hs _ IH]; intros Hss base post Hpost; simpl in *; [done|].
  apply andb_prop_elim in Hss as [H1 H2].
  rewrite <- app_assoc. apply Hs; [done|]. by apply IH.
Qed.

(** A statement leaves the height it is entered with, also when it emits
    no code. *)
Lemma stmt_entry s :
  is_stmt s -> forall h base post,
    hh post = Some h -> hh (acode m h base s ++ post) = Some h.
Proof.
  induction s as
    [ss IH | ref name | ref name expr IH | expr IH | ss IH
    | cond thenB elseB IHc IHt IHe | cond body IHc IHb
    | lhs o rhs IHl IHr | val | ref name ] using ASTNode_ind;
    intros Hs h base post Hpost; simpl in *; try done.
  - rewrite <- app_assoc. by apply expr_entry.
  - rewrite <- app_assoc. by apply expr_entry.
  - by apply sequence_entry.
  - apply andb_prop_elim in Hs as [Hs _]. apply andb_prop_elim in Hs as [Hc _].
    destruct elseB; rewrite <- app_assoc; by apply expr_entry.
  - apply andb_prop_elim in Hs as [Hc _].
    rewrite <- app_assoc. by apply expr_entry.
Qed.

Lemma binaryOpCode_ok A i oc ty h :
  binaryOpCode ty = Some oc ->
  height A (S i) = Some (S h) ->
  ok A i (mkInstruction oc None None) (S (S h)).
Proof.
  intros Hoc Hh. unfold ok. simpl.
  destruct ty; simpl in Hoc; try discriminate Hoc; injection Hoc as <-; eauto.
Qed.

(** The code of an expression entered at height [h] is well typed where
    it is placed, provided the instruction after it is annotated with
    height [h + 1]. *)
Lemma expr_ok e :
  is_expr e -> (forall r, r ∈ Scoping.refs e -> is_Some (m !! r)) ->
  forall h base pre post A,
    A = pre ++ acode m h base e ++ post -> length pre = base ->
    hh post = Some (S h) ->
    frag_ok A base (acode m h base e).
Proof.
  induction e as
    [ss IH | ref name | ref name expr IH | expr IH | ss IH
    | cond thenB elseB IHc IHt IHe | cond body IHc IHb
    | lhs o rhs IHl IHr | val | ref name ] using ASTNode_ind;
    intros He Hrefs h base pre post A HA Hpre Hpost; simpl in *; try done.
  - apply andb_prop_elim in He as [He Ho]. apply andb_prop_elim in He as [Hl Hr].
    apply bool_decide_unpack in Ho as [oc Hoc]. rewrite Hoc in *.
    set (lc := acode m h base lhs) in *.
    set (rc := acode m (S h) (base + length lc) rhs) in *.
    apply frag_ok_app; [|apply frag_ok_app].
    + apply (IHl Hl) with (pre := pre) (post := rc ++ [ins oc None None (S (S h))] ++ post);
        [intros r Hr'; apply Hrefs, elem_of_app; by left | by subst A; list_norm
          | done |].
      by apply expr_entry.
    + apply (IHr Hr) with (pre := pre ++ lc)
        (post := [ins oc None None (S (S h))] ++ post);
        [intros r Hr'; apply Hrefs, elem_of_app; by right | by subst A; list_norm
        | by len_norm; lia | done].
    + apply frag_ok_single. eapply binaryOpCode_ok; [done|].
      rewrite (height_split A _ (pre ++ lc ++ rc ++ [ins oc None None (S (S h))]) post);
        [done | by subst A; list_norm | len_norm; lia].
  - apply frag_ok_single. unfold ok. simpl. split; [by eexists|].
    rewrite (height_split A _ (pre ++ [ins PUSH_INT (Some val) None h]) post);
      [done | by subst A; list_norm | len_norm; lia].
  - apply frag_ok_single. unfold ok. simpl. split.
    + apply slotOf_defined, Hrefs, list_elem_of_singleton. done.
    + rewrite (height_split A _ (pre ++ [ins LOAD (slotOf m ref)
                 (Some (String.append "load " (lexeme name))) h]) post);
        [done | by subst A; list_norm | len_norm; lia].
Qed.

Lemma sequence_ok statements :
  Forall (stmt_typed m) statements ->
  forallb is_stmt statements ->
  (forall r, r ∈ flat_map Scoping.refs statements -> is_Some (m !! r)) ->
  forall h base pre post A,
    A = pre ++ sequence (acode m h) base statements ++ post -> length pre = base ->
    hh post = Some h ->
    frag_ok A base (sequence (acode m h) base statements).
Proof.
  induction 1 as [|s l Hs Hl IH]; intros Hss Hrefs h base pre post A HA Hpre Hpost;
    simpl in *; [apply frag_ok_nil|].
  apply andb_prop_elim in Hss as [H1 H2].
  set (c := acode m h base s) in *.
  apply frag_ok_app.
  - apply (Hs H1) with (pre := pre) (post := sequence (acode m h) (base + length c) l ++ post);
      [intros r Hr; apply Hrefs, elem_of_app; by left | by subst A; list_norm | done |].
    apply sequence_entry; [|done|done].
    apply Forall_forall. intros ? _ ?. by apply stmt_entry.
  - apply IH with (pre := pre ++ c) (post := post);
      [done | intros r Hr; apply Hrefs, elem_of_app; by right | by subst A; list_norm
      | by len_norm; lia | done].
Qed.

(** The code of a statement entered at height [h] is well typed where it
    is placed, provided what follows it is annotated with height [h]. *)
Lemma stmt_ok s : stmt_typed m s.
Proof.
  induction s as
    [ss IH | ref name | ref name expr IH | expr IH | ss IH
    | cond thenB elseB IHc IHt IHe | cond body IHc IHb
    | lhs o rhs IHl IHr | val | ref name ] using ASTNode_ind;
    intros Hs Hrefs h base pre post A HA Hpre Hpost; simpl in *; try done.
  - (* VarDecl *)
    apply (frag_ok_app _ _ [_] [_]); apply frag_ok_single; unfold ok; simpl.
    + split; [by eexists|].
      rewrite (height_split A _
                 (pre ++ [ins PUSH_INT (Some (Int 0))
                            (Some (String.append "init " (lexeme name))) h])
                 (ins STORE (slotOf m ref) None (S h) :: post));
        [done | by subst A; list_norm | len_norm; lia].
    + split; [apply slotOf_defined, Hrefs, list_elem_of_singleton; done|].
      exists h. split; [done|].
      rewrite (height_split A _
                 (pre ++ [ins PUSH_INT (Some (Int 0))
                            (Some (String.append "init " (lexeme name))) h;
                          ins STORE (slotOf m ref) None (S h)]) post);
        [done | by subst A; list_norm | len_norm; lia].
  - (* Assign *)
    set (ec := acode m h base expr) in *.
    set (st := ins STORE (slotOf m ref)
                 (Some (String.append "assign " (lexeme name))) (S h)) in *.
    apply frag_ok_app.
    + apply (expr_ok expr Hs) with (pre := pre) (post := st :: post);
        [intros r Hr; apply Hrefs, elem_of_app; by left | by subst A; list_norm
        | done | done].
    + apply frag_ok_single. unfold ok. simpl. split.
      * apply slotOf_defined, Hrefs, elem_of_app. right.
        by apply list_elem_of_singleton.
      * exists h. split; [done|].
        rewrite (height_split A _ (pre ++ ec ++ [st]) post);
          [done | by subst A; list_norm | len_norm; lia].
  - (* Print *)
    set (ec := acode m h base expr) in *.
    apply frag_ok_app.
    + apply (expr_ok expr Hs) with (pre := pre)
        (post := ins PRINT None None (S h) :: post);
        [done | by subst A; list_norm | done | done].
    + apply frag_ok_single. unfold ok. simpl.
      exists h. split; [done|].
      rewrite (height_split A _ (pre ++ ec ++ [ins PRINT None None (S h)]) post);
        [done | by subst A; list_norm | len_norm; lia].
  - (* Block *)
    by apply (sequence_ok ss IH Hs Hrefs h base pre post A).
  - (* If *)
    apply andb_prop_elim in Hs as [Hs He]. apply andb_prop_elim in Hs as [Hc Ht].
    set (cc := acode m h base cond) in *.
    set (tb := base + length cc + 1) in *.
    set (tc := acode m h tb thenB) in *.
    destruct elseB as [e|]; simpl in *.
    + set (eb := tb + length tc + 1) in *.
      set (ec := acode m h eb e) in *.
      set (jif := ins JMP_IF_FALSE (Some (Int (Z.of_nat eb))) None (S h)) in *.
      set (jmp := ins JMP (Some (Int (Z.of_nat (eb + length ec)))) None h) in *.
      assert (hh (ec ++ post) = Some h) as Hentry_e by (by apply stmt_entry).
      assert (hh (tc ++ [jmp] ++ ec ++ post) = Some h) as Hentry_t
        by (by apply stmt_entry).
      apply frag_ok_app; [|apply (frag_ok_app _ _ [_]);
        [|apply frag_ok_app; [|apply (frag_ok_app _ _ [_])]]].
      * apply (expr_ok cond Hc) with (pre := pre)
                (post := [jif] ++ tc ++ [jmp] ++ ec ++ post);
          [intros r Hr; apply Hrefs, elem_of_app; by left | by subst A; list_norm
          | done | done].
      * apply frag_ok_single. unfold ok. simpl.
        exists eb, h. split; [done|]. split; [done|]. split.
        -- rewrite (height_split A _ (pre ++ cc ++ [jif] ++ tc ++ [jmp]) (ec ++ post));
             [done | by subst A; list_norm | unfold eb, tb; len_norm; lia].
        -- rewrite (height_split A _ (pre ++ cc ++ [jif]) (tc ++ [jmp] ++ ec ++ post));
             [done | by subst A; list_norm | len_norm; lia].
      * apply (IHt Ht) with (pre := pre ++ cc ++ [jif]) (post := [jmp] ++ ec ++ post);
          [intros r Hr; apply Hrefs; rewrite !elem_of_app; tauto | by subst A; list_norm
          | unfold tb; len_norm; lia | done].
      * apply frag_ok_single. unfold ok. simpl.
        exists (eb + length ec). split; [done|].
        rewrite (height_split A _ (pre ++ cc ++ [jif] ++ tc ++ [jmp] ++ ec) post);
          [done | by subst A; list_norm | unfold eb, tb; len_norm; lia].
      * apply (IHe He) with (pre := pre ++ cc ++ [jif] ++ tc ++ [jmp]) (post := post);
          [intros r Hr; apply Hrefs; rewrite !elem_of_app; tauto | by subst A; list_norm
          | unfold eb, tb; len_norm; lia | done].
    + set (jif := ins JMP_IF_FALSE (Some (Int (Z.of_nat (tb + length tc)))) None (S h)) in *.
      assert (hh (tc ++ post) = Some h) as Hentry_t by (by apply stmt_entry).
      apply frag_ok_app; [|apply (frag_ok_app _ _ [_])].
      * apply (expr_ok cond Hc) with (pre := pre) (post := [jif] ++ tc ++ post);
          [intros r Hr; apply Hrefs, elem_of_app; by left | by subst A; list_norm
          | done | done].
      * apply frag_ok_single. unfold ok. simpl.
        exists (tb + length tc), h. split; [done|]. split; [done|]. split.
        -- rewrite (height_split A _ (pre ++ cc ++ [jif] ++ tc) post);
             [done | by subst A; list_norm | unfold tb; len_norm; lia].
        -- rewrite (height_split A _ (pre ++ cc ++ [jif]) (tc ++ post));
             [done | by subst A; list_norm | len_norm; lia].
      * apply (IHt Ht) with (pre := pre ++ cc ++ [jif]) (post := post);
          [intros r Hr; apply Hrefs; rewrite !elem_of_app; tauto | by subst A; list_norm
          | unfold tb; len_norm; lia | done].
  - (* While *)
    apply andb_prop_elim in Hs as [Hc Hb].
    set (cc := acode m h base cond) in *.
    set (bb := base + length cc + 1) in *.
    set (bc := acode m h bb body) in *.
    set (jif := ins JMP_IF_FALSE (Some (Int (Z.of_nat (bb + length bc + 1)))) None (S h)) in *.
    set (jmp := ins JMP (Some (Int (Z.of_nat base))) None h) in *.
    assert (hh (bc ++ [jmp] ++ post) = Some h) as Hentry_b by (by apply stmt_entry).
    apply frag_ok_app; [|apply (frag_ok_app _ _ [_]); [|apply frag_ok_app]].
    + apply (expr_ok cond Hc) with (pre := pre) (post := [jif] ++ bc ++ [jmp] ++ post);
        [intros r Hr; apply Hrefs, elem_of_app; by left | by subst A; list_norm
        | done | done].
    + apply frag_ok_single. unfold ok. simpl.
      exists (bb + length bc + 1), h. split; [done|]. split; [done|]. split.
      * rewrite (height_split A _ (pre ++ cc ++ [jif] ++ bc ++ [jmp]) post);
          [done | by subst A; list_norm | unfold bb; len_norm; lia].
      * rewrite (height_split A _ (pre ++ cc ++ [jif]) (bc ++ [jmp] ++ post));
          [done | by subst A; list_norm | len_norm; lia].
    + apply (IHb Hb) with (pre := pre ++ cc ++ [jif]) (post := [jmp] ++ post);
        [intros r Hr; apply Hrefs, elem_of_app; by right | by subst A; list_norm
        | unfold bb; len_norm; lia | done].
    + apply frag_ok_single. unfold ok. simpl.
      exists base. split; [done|].
      rewrite (height_split A _ pre (cc ++ [jif] ++ bc ++ [jmp] ++ post));
        [by apply expr_entry | by subst A; list_norm | done].
Qed.

(** The annotated code of a well-shaped program whose key nodes all have
    a slot is well typed, and starts at height 0. *)
Lemma annotated_well_typed program :
  is_program program ->
  (forall r, r ∈ Scoping.refs program -> is_Some (m !! r)) ->
  well_typed (annotated m program) /\ height (annotated m program) 0 = Some 0.
Proof.
  destruct program as [ss| | | | | | | | |]; try done. simpl.
  intros Hss Hrefs. unfold annotated. simpl.
  set (halt := ins HALT None None 0).
  assert (Forall (stmt_typed m) ss) as Hall
    by (apply Forall_forall; intros ? _; apply stmt_ok).
  split.
  - intros i inst h [Hi|[Hlen Hi]]%lookup_app_Some.
    + pose proof (sequence_ok ss Hall Hss Hrefs 0 0 [] [halt] _ eq_refl eq_refl eq_refl)
        as Hok.
      by apply (Hok i inst h).
    + apply list_lookup_singleton_Some in Hi as [_ [= <- <-]]. done.
  - unfold height. simpl. apply sequence_entry; [|done|done].
    apply Forall_forall. intros ? _ ?. by apply stmt_entry.
Qed.

End WithMap.
End TypingFacts.

Module ShapeFacts.
Import Parser Shape ParserFacts.

Lemma bindM_Ok {A B} (mm : M A) (k : A -> M B) p r :
  bindM mm k p = Ok r <-> exists a p1, mm p = Ok (a, p1) /\ k a p1 = Ok r.
Proof.
  unfold bindM. destruct (mm p) as [[a p1]|e]; split.
  - eauto.
  - by intros (a' & p1' & [= <- <-] & H).
  - done.
  - by intros (? & ? & ? & _).
Qed.

Ltac inv_bind H :=
  let a := fresh "a" in
  let p := fresh "p" in
  let H1 := fresh "H" in
  apply bindM_Ok in H as (a & p & H1 & H).

Lemma match_true types p p1 :
  match_ types p = Ok (true, p1) ->
  exists tk r,
    rest p = tk :: r /\ type tk ∈ types /\ p1 = Grammar.after tk r p.
Proof.
  destruct p as [[|tk r] pv n].
  - destruct types as [|ty types]; simpl; [done|].
    unfold bindM, check, bindM, isAtEnd, bindM, peek. simpl. done.
  - rewrite match_head. case_bool_decide as H; [|done].
    intros [= <-]. exists tk, r. by destruct H.
Qed.

Lemma previous_after tk r p : previous (Grammar.after tk r p) = Ok (tk, Grammar.after tk r p).
Proof. done. Qed.

Section Expressions.
Variable E : M ASTNode.
Hypothesis HE : forall p e p', E p = Ok (e, p') -> is_expr e.

Lemma primary_shape p e p' : primary E p = Ok (e, p') -> is_expr e.
Proof.
  unfold primary. intros H.
  inv_bind H. destruct a.
  { inv_bind H. by injection H as <- _. }
  inv_bind H. destruct a.
  { inv_bind H. inv_bind H. by injection H as <- _. }
  inv_bind H. destruct a.
  { inv_bind H. inv_bind H. injection H as <- _. by eapply HE. }
  inv_bind H. done.
Qed.

Lemma binaryLoop_shape ops operand :
  (forall ty, ty ∈ ops -> is_Some (CodeGenerator.binaryOpCode ty)) ->
  (forall p e p', operand p = Ok (e, p') -> is_expr e) ->
  forall fuel expr p e p',
    is_expr expr -> binaryLoop ops operand fuel expr p = Ok (e, p') -> is_expr e.
Proof.
  intros Hops Hoperand.
  induction fuel as [|fuel IH]; intros expr p e p' Hexpr H; simpl in H; [done|].
  inv_bind H. destruct a.
  - apply match_true in H0 as (tk & r & Hrest & Hin & ->).
    inv_bind H. rewrite previous_after in H0. injection H0 as <- <-.
    inv_bind H. apply IH in H; [done|]. simpl.
    apply andb_prop_intro.
    split; [apply andb_prop_intro; split; [done|by eapply Hoperand]|].
    apply bool_decide_pack. by apply Hops.
  - by injection H as <- _.
Qed.

Lemma factor_shape fuel p e p' : factor E fuel p = Ok (e, p') -> is_expr e.
Proof.
  unfold factor. intros H. inv_bind H.
  eapply (binaryLoop_shape [STAR; SLASH; PERCENT] (primary E));
    [| |by eapply primary_shape|done].
  - intros ty Hty. repeat (apply elem_of_cons in Hty as [->|Hty]; [by eexists|]).
    by apply elem_of_nil in Hty.
  - apply primary_shape.
Qed.

Lemma term_shape fuel p e p' : term E fuel p = Ok (e, p') -> is_expr e.
Proof.
  unfold term. intros H. inv_bind H.
  eapply (binaryLoop_shape [PLUS; MINUS] (factor E fuel));
    [| |by eapply factor_shape|done].
  - intros ty Hty. repeat (apply elem_of_cons in Hty as [->|Hty]; [by eexists|]).
    by apply elem_of_nil in Hty.
  - apply factor_shape.
Qed.

Lemma comparison_shape fuel p e p' : comparison E fuel p = Ok (e, p') -> is_expr e.
Proof.
  unfold comparison. intros H. inv_bind H.
  eapply (binaryLoop_shape [EQ; NE; LT; GT; LE; GE] (term E fuel));
    [| |by eapply term_shape|done].
  - intros ty Hty. repeat (apply elem_of_cons in Hty as [->|Hty]; [by eexists|]).
    by apply elem_of_nil in Hty.
  - apply term_shape.
Qed.
End Expressions.

Lemma expression_shape fuel : forall p e p',
  expression fuel p = Ok (e, p') -> is_expr e.
Proof.
  induction fuel as [|fuel IH]; intros p e p' H; simpl in H; [done|].
  by eapply comparison_shape.
Qed.

Lemma forallb_snoc {A} (f : A -> bool) l x :
  forallb f l -> f x -> forallb f (l ++ [x]).
Proof.
  intros Hl Hx. rewrite forallb_app. simpl.
  apply andb_prop_intro. split; [done|]. apply andb_prop_intro. by split.
Qed.

Section Statements.
Variable E S : M ASTNode.
Hypothesis HE : forall p e p', E p = Ok (e, p') -> is_expr e.
Hypothesis HS : forall p s p', S p = Ok (s, p') -> is_stmt s.

Lemma block_loop_shape fuel : forall acc p ss p',
  forallb is_stmt acc -> block_loop S fuel acc p = Ok (ss, p') ->
  forallb is_stmt ss.
Proof.
  induction fuel as [|fuel IH]; intros acc p ss p' Hacc H; simpl in H; [done|].
  inv_bind H. destruct a; [by injection H as <- _|].
  inv_bind H. destruct a; [by injection H as <- _|].
  inv_bind H. eapply IH; [|done]. apply forallb_snoc; [done|]. by eapply HS.
Qed.

Lemma parse_loop_shape fuel : forall acc p ss p',
  forallb is_stmt acc -> parse_loop S fuel acc p = Ok (ss, p') ->
  forallb is_stmt ss.
Proof.
  induction fuel as [|fuel IH]; intros acc p ss p' Hacc H; simpl in H; [done|].
  inv_bind H. destruct a; [by injection H as <- _|].
  inv_bind H. eapply IH; [|done]. apply forallb_snoc; [done|]. by eapply HS.
Qed.
End Statements.

Lemma statement_shape efuel fuel : forall p s p',
  statement efuel fuel p = Ok (s, p') -> is_stmt s.
Proof.
  induction fuel as [|fuel IH]; intros p s p' H; simpl in H; [done|].
  inv_bind H. destruct a.
  { unfold varDecl in H. inv_bind H. inv_bind H. inv_bind H. by injection H as <- _. }
  inv_bind H. destruct a.
  { unfold printStmt in H. do 4 inv_bind H. injection H as <- _. simpl.
    by eapply expression_shape. }
  inv_bind H. destruct a.
  { unfold ifStmt in H. do 5 inv_bind H.
    assert (is_expr a0) by (by eapply expression_shape).
    assert (is_stmt a2) by (by eapply IH).
    destruct a3.
    - inv_bind H. injection H as <- _. simpl.
      apply andb_prop_intro. split; [apply andb_prop_intro; by split|]. by eapply IH.
    - injection H as <- _. simpl.
      apply andb_prop_intro. split; [apply andb_prop_intro; by split|done]. }
  inv_bind H. destruct a.
  { unfold whileStmt in H. do 4 inv_bind H. injection H as <- _. simpl.
    apply andb_prop_intro. split; [by eapply expression_shape | by eapply IH]. }
  inv_bind H. destruct a.
  { unfold block in H. do 2 inv_bind H. injection H as <- _. simpl.
    eapply (block_loop_shape (statement efuel fuel)); [exact IH| |done]. done. }
  unfold assignStmt in H. do 5 inv_bind H. injection H as <- _. simpl.
  by eapply expression_shape.
Qed.

(** Whatever [parse] returns is a program of well-shaped statements. *)
Lemma parse_shape tokens ast :
  parse tokens = Ok ast -> is_program ast.
Proof.
  unfold parse.
  destruct (parse_loop _ _ _ _) as [[ss p']|e] eqn:H; [|done].
  intros [= <-]. simpl.
  eapply (parse_loop_shape (statement (fuel_for tokens) (fuel_for tokens)));
    [apply statement_shape| |done]. done.
Qed.

End ShapeFacts.

Module OutcomeFacts.
Import VM Exec ExecFacts Safety SafetyFacts Outcome.

Lemma state_after_first_stop n : forall vm,
  state_after n vm = None ->
  exists k vm', k < n /\ state_after k vm = Some vm' /\ step vm' = None.
Proof.
  induction n as [|n IH]; intros vm H; simpl in H; [done|].
  destruct (step vm) as [vm1|] eqn:E.
  - destruct (IH vm1 H) as (k & vm' & Hk & Hk' & Hstop).
    exists (S k), vm'. split; [lia|]. simpl. by rewrite E.
  - exists 0, vm. split; [lia|]. done.
Qed.

(** From a state that agrees with a well-typed annotation, every state
    reached is safe, and [run] returns in one of the two ways. *)
Lemma agreeing_run A bytecode :
  well_typed A -> agrees A (new bytecode) ->
  (forall n vm, state_after n (new bytecode) = Some vm -> safe vm) /\
  (halts_normally bytecode \/ hits_the_cap bytecode).
Proof.
  intros WT Hag. split.
  - intros n vm Hn.
    apply (agrees_step A vm WT). by eapply agrees_state_after.
  - destruct (state_after MAX_ITERATIONS (new bytecode)) as [vm|] eqn:E.
    + right. exists vm. split; [done|]. by apply CapFacts.cap_reached.
    + left. destruct (state_after_first_stop _ _ E) as (k & vm & Hk & Hk' & Hstop).
      assert (agrees A vm) as Hvm by (by eapply agrees_state_after).
      destruct (agrees_fetch A vm Hvm) as (i & inst & Hip & Hi & Hf & Hlt).
      exists k, vm. split; [done|]. split; [done|]. split.
      * split; [done|]. exists inst. split; [done|].
        unfold step in Hstop. rewrite Hlt, Hf in Hstop.
        by apply (dispatch_halt inst vm).
      * unfold run_full. rewrite reset_new.
        rewrite (loop_stops k MAX_ITERATIONS 0 _ vm Hk' Hstop Hk).
        by rewrite Hlt, Hf.
Qed.

End OutcomeFacts.

Lemma compile_stages source bytecode :
  compile source = Ok bytecode ->
  exists tokens ast varToSlot,
    Lexer.tokenize source = Ok tokens /\
    Parser.parse tokens = Ok ast /\
    SemanticAnalyzer.analyze ast = Ok varToSlot /\
    CodeGenerator.generate varToSlot ast = Ok bytecode.
Proof.
  unfold compile. intros H.
  apply AnalyzerFacts.bind_Ok in H as (tokens & H1 & H).
  apply AnalyzerFacts.bind_Ok in H as (ast & H2 & H).
  apply AnalyzerFacts.bind_Ok in H as (varToSlot & H3 & H).
  by exists tokens, ast, varToSlot.
Qed.

(** The code compiled from a source has a well-typed annotation with
    which the new VM agrees. *)
Lemma compiled_agrees source bytecode :
  compile source = Ok bytecode ->
  exists A, Safety.well_typed A /\ Safety.agrees A (VM.new bytecode).
Proof.
  intros (tokens & ast & m & _ & Hparse & Hanalyze & Hgen)%compile_stages.
  exists (Layout.annotated m ast).
  rewrite CodegenFacts.generate_annotated in Hgen. injection Hgen as <-.
  unfold SemanticAnalyzer.analyze in Hanalyze.
  apply AnalyzerFacts.bind_Ok in Hanalyze as (sa & Hvisit & [= <-]).
  pose proof (AnalyzerFacts.visit_frame _ _ _ Hvisit) as (_ & _ & _ & _ & _ & Hdef).
  destruct (TypingFacts.annotated_well_typed (SemanticAnalyzer.varToSlot sa) ast
              (ShapeFacts.parse_shape _ _ Hparse) Hdef) as [WT H0].
  split; [done|]. split; [done|]. by exists 0.
Qed.

(** ** C3: the iteration cap *)

(** C3, as stated, fails: [runs_off_the_end] never reaches a [HALT], yet
    [run] dispatches one instruction, leaves the loop because [ip] is no
    longer below the length, and returns the empty output without the
    sentinel line. *)
Lemma C3_no_sentinel_when_ip_leaves_code :
  ~ Cap.sentinel_whenever_no_halt.
Proof.
  intros H. destruct (H Cap.runs_off_the_end) as (out & vm' & Hrun).
  - intros (n & vm & Hn & Hip & inst & Hf & Hop).
    destruct n as [|[|n]]; simpl in Hn.
    + injection Hn as <-. vm_compute in Hf. injection Hf as <-. done.
    + injection Hn as <-. vm_compute in Hip. done.
    + vm_compute in Hn. done.
  - assert (VM.run_full (VM.new Cap.runs_off_the_end)
            = (Ok [], 1,
               VM.mk Cap.runs_off_the_end [Num (Int 7)] ∅ (Some (Int 1)) []))
      as E by (vm_compute; reflexivity).
    rewrite E in Hrun.
    apply (f_equal (fun r => fst (fst r))) in Hrun. simpl in Hrun.
    destruct out; discriminate Hrun.
Qed.

(** C3, amended.  If during the first 100,000 dispatches execution neither
    reaches a [HALT] nor moves [ip] outside the sequence, then [run]
    dispatches exactly 100,000 instructions, appends the sentinel line
    once to the output accumulated by then, and returns it normally.  On a
    sequence produced by the code generator [ip] never leaves the
    sequence, so there it is enough that no [HALT] is reached. *)
Theorem C3_cap_appends_sentinel (bytecode : list Instruction) :
  ((forall n vm, n < VM.MAX_ITERATIONS ->
      Exec.state_after n (VM.new bytecode) = Some vm -> Cap.running vm) ->
   Outcome.hits_the_cap bytecode /\
   exists out, VM.run (VM.new bytecode) = Ok (out ++ [VM.sentinel])) /\
  (forall source,
     compile source = Ok bytecode ->
     (forall n vm, n < VM.MAX_ITERATIONS ->
        Exec.state_after n (VM.new bytecode) = Some vm -> ~ Exec.at_halt vm) ->
     Outcome.hits_the_cap bytecode /\
     exists out, VM.run (VM.new bytecode) = Ok (out ++ [VM.sentinel])).
Proof.
  split.
  - intros H. destruct (CapFacts.running_all _ _ H) as [vm' Hvm'].
    pose proof (CapFacts.cap_reached _ _ Hvm') as Hcap.
    split; [by exists vm'|].
    exists (VM.output vm'). unfold VM.run. by rewrite Hcap.
  - intros source (A & WT & Hag)%compiled_agrees Hno.
    destruct (OutcomeFacts.agreeing_run A bytecode WT Hag)
      as [_ [(n & vm & Hn & Hvm & Hhalt & _) | Hcap]].
    + by destruct (Hno n vm Hn Hvm).
    + split; [done|]. destruct Hcap as (vm & _ & Hrun).
      exists (VM.output vm). unfold VM.run. by rewrite Hrun.
Qed.

(** The compilation of [while (1) { }] is such a sequence. *)
Lemma C3_cap_appends_sentinel_witness :
  compile "while (1) { }" = Ok Cap.spin /\
  Outcome.hits_the_cap Cap.spin /\
  exists out, VM.run (VM.new Cap.spin) = Ok (out ++ [VM.sentinel]).
Proof.
  split; [vm_compute; reflexivity|].
  apply (C3_cap_appends_sentinel Cap.spin).
  apply CapFacts.all_running.
  vm_compute. eexists. reflexivity.
Defined.

(** ** C7 *)



(** ** The loop bounds of the lexer are never reached *)

Module LexerFacts.
Import Lexer LexerBound.

Lemma advance_left lx : remaining (advance lx).2 = pred (remaining lx).
Proof.
  unfold advance, remaining. destruct (Ascii.eqb _ _); simpl; by destruct (rest lx).
Qed.

Lemma isAtEnd_left lx : isAtEnd lx = true <-> remaining lx = 0.
Proof. unfold isAtEnd, remaining. destruct (rest lx); simpl; split; done. Qed.

Lemma not_isAtEnd_left lx : isAtEnd lx = false -> 0 < remaining lx.
Proof. unfold isAtEnd, remaining. destruct (rest lx); simpl; [done|lia]. Qed.

Lemma skipLineComment_left fuel : forall lx,
  remaining (skipLineComment fuel lx) <= remaining lx.
Proof.
  induction fuel as [|fuel IH]; intros lx; simpl; [done|].
  destruct (negb (isAtEnd lx) && _); [|done].
  etrans; [apply IH|]. rewrite advance_left. lia.
Qed.

(** With a bound of at least the number of characters remaining, one more
    turn changes nothing: the loop had already ended by itself. *)
Lemma skipLineComment_enough fuel : forall lx,
  remaining lx <= fuel -> skipLineComment (S fuel) lx = skipLineComment fuel lx.
Proof.
  induction fuel as [|fuel IH]; intros lx Hfuel.
  - simpl. assert (isAtEnd lx = true) as -> by (apply isAtEnd_left; lia). done.
  - change (skipLineComment (S (S fuel)) lx)
      with (if negb (isAtEnd lx) && negb (Ascii.eqb (peek lx) "010"%char)
            then skipLineComment (S fuel) (advance lx).2 else lx).
    change (skipLineComment (S fuel) lx)
      with (if negb (isAtEnd lx) && negb (Ascii.eqb (peek lx) "010"%char)
            then skipLineComment fuel (advance lx).2 else lx).
    destruct (negb (isAtEnd lx) && _); [|done].
    apply IH. rewrite advance_left. lia.
Qed.

Lemma skipWhitespace_left fuel : forall lx,
  remaining (skipWhitespace fuel lx) <= remaining lx.
Proof.
  induction fuel as [|fuel IH]; intros lx; simpl; [done|].
  destruct (isAtEnd lx); [done|].
  destruct (isSpace (peek lx)).
  - etrans; [apply IH|]. rewrite advance_left. lia.
  - destruct (Ascii.eqb (peek lx) "/"%char && nextIsSlash lx); [|done].
    etrans; [apply IH|]. apply skipLineComment_left.
Qed.

Lemma skipLineComment_consumes lx :
  isAtEnd lx = false -> Ascii.eqb (peek lx) "/"%char = true ->
  remaining (skipLineComment (remaining lx) lx) < remaining lx.
Proof.
  intros Hend Hslash. pose proof (not_isAtEnd_left lx Hend) as Hpos.
  destruct (remaining lx) as [|n] eqn:E; [lia|]. simpl. rewrite Hend. simpl.
  apply Ascii.eqb_eq in Hslash. rewrite Hslash. simpl.
  eapply Nat.le_lt_trans; [apply skipLineComment_left|].
  rewrite advance_left. lia.
Qed.

Lemma skipWhitespace_enough fuel : forall lx,
  remaining lx <= fuel -> skipWhitespace (S fuel) lx = skipWhitespace fuel lx.
Proof.
  induction fuel as [|fuel IH]; intros lx Hfuel.
  - simpl. assert (isAtEnd lx = true) as -> by (apply isAtEnd_left; lia). done.
  - change (skipWhitespace (S (S fuel)) lx)
      with (if isAtEnd lx then lx
            else if isSpace (peek lx) then skipWhitespace (S fuel) (advance lx).2
            else if Ascii.eqb (peek lx) "/"%char && nextIsSlash lx
            then skipWhitespace (S fuel) (skipLineComment (length (rest lx)) lx)
            else lx).
    change (skipWhitespace (S fuel) lx)
      with (if isAtEnd lx then lx
            else if isSpace (peek lx) then skipWhitespace fuel (advance lx).2
            else if Ascii.eqb (peek lx) "/"%char && nextIsSlash lx
            then skipWhitespace fuel (skipLineComment (length (rest lx)) lx)
            else lx).
    destruct (isAtEnd lx) eqn:Hend; [done|].
    destruct (isSpace (peek lx)).
    + apply IH. rewrite advance_left. lia.
    + destruct (Ascii.eqb (peek lx) "/"%char) eqn:Hslash; simpl; [|done].
      destruct (nextIsSlash lx); [|done].
      apply IH. pose proof (skipLineComment_consumes lx Hend Hslash).
      unfold remaining in *. lia.
Qed.

Lemma scanWhile_left p fuel : forall s lx,
  remaining (scanWhile p fuel s lx).2 <= remaining lx.
Proof.
  induction fuel as [|fuel IH]; intros s lx; simpl; [done|].
  destruct (p (peek lx)); [|done].
  destruct (advance lx) as [c lx'] eqn:E.
  etrans; [apply IH|]. replace lx' with (advance lx).2 by (by rewrite E).
  rewrite advance_left. lia.
Qed.

Lemma peek_at_end lx : remaining lx = 0 -> peek lx = "000"%char.
Proof. unfold remaining, peek. by destruct (rest lx). Qed.

Lemma scanWhile_enough p fuel : forall s lx,
  p "000"%char = false ->
  remaining lx <= fuel -> scanWhile p (S fuel) s lx = scanWhile p fuel s lx.
Proof.
  induction fuel as [|fuel IH]; intros s lx Hp Hfuel.
  - simpl. rewrite peek_at_end by lia. by rewrite Hp.
  - change (scanWhile p (S (S fuel)) s lx)
      with (if p (peek lx)
            then let '(c, lx') := advance lx in
                 scanWhile p (S fuel) (s ++ String c EmptyString) lx'
            else (s, lx)).
    change (scanWhile p (S fuel) s lx)
      with (if p (peek lx)
            then let '(c, lx') := advance lx in
                 scanWhile p fuel (s ++ String c EmptyString) lx'
            else (s, lx)).
    destruct (p (peek lx)); [|done].
    destruct (advance lx) as [c lx'] eqn:E.
    apply IH; [done|]. replace lx' with (advance lx).2 by (by rewrite E).
    rewrite advance_left. lia.
Qed.

Lemma punctuation_left char l c lx tok lx' :
  punctuation char l c lx = Ok (tok, lx') -> remaining lx' <= remaining lx.
Proof.
  unfold punctuation.
  repeat (destruct (Ascii.eqb char _); [intros [= _ <-]; done|]).
  repeat (destruct (Ascii.eqb char _);
          [destruct (Ascii.eqb (peek lx) _);
           [intros [= _ <-]; rewrite advance_left; lia
           |try (intros [= _ <-]; done); done]|]).
  done.
Qed.

(** [tokenize] never runs out of its bound. *)
Lemma tokenize_loop_enough fuel : forall lx tokens,
  remaining lx <= fuel -> tokenize_loop fuel lx tokens <> Err FuelExhausted.
Proof.
  induction fuel as [|fuel IH]; intros lx tokens Hfuel; simpl.
  - assert (isAtEnd lx = true) as -> by (apply isAtEnd_left; lia). done.
  - destruct (isAtEnd lx) eqn:Hend; [done|].
    pose proof (skipWhitespace_left (length (rest lx)) lx) as Hws.
    set (lx1 := skipWhitespace (length (rest lx)) lx) in *.
    destruct (isAtEnd lx1) eqn:Hend1; [done|].
    pose proof (not_isAtEnd_left lx1 Hend1) as Hpos.
    pose proof (advance_left lx1) as Hadv.
    destruct (advance lx1) as [char lx2]. simpl in Hadv.
    destruct (isDigit char).
    { pose proof (scanWhile_left isDigit (length (rest lx2)) (String char EmptyString) lx2) as Hsc.
      destruct (scanWhile isDigit _ _ lx2) as [num lx3]. simpl in Hsc.
      apply IH. lia. }
    destruct (isAlpha char).
    { pose proof (scanWhile_left isAlphaNumeric (length (rest lx2))
                    (String char EmptyString) lx2) as Hsc.
      destruct (scanWhile isAlphaNumeric _ _ lx2) as [id lx3]. simpl in Hsc.
      apply IH. lia. }
    destruct (punctuation char (line lx1) (col lx1) lx2) as [[tok lx3]|e] eqn:Hp.
    + apply punctuation_left in Hp. apply IH. lia.
    + unfold punctuation in Hp.
      repeat (destruct (Ascii.eqb char _); [discriminate Hp|]).
      repeat (destruct (Ascii.eqb char _);
              [destruct (Ascii.eqb (peek lx2) _); [discriminate Hp|];
               try discriminate Hp; by injection Hp as <-|]).
      by injection Hp as <-.
Qed.

Lemma tokenize_total input : Lexer.tokenize input <> Err FuelExhausted.
Proof. unfold tokenize. by apply tokenize_loop_enough. Qed.

End LexerFacts.

(** ** The loop bounds of the parser are never reached *)

Module ParserTermination.
Import Parser ParserLogic.

Section Primitives.
Context (allowed : Thrown -> Prop) `{!Tolerant allowed}.

Lemma wp_bind {A B} (mm : M A) (k : A -> M B) p Q :
  wp allowed mm p (fun a p' => wp allowed (k a) p' Q) -> wp allowed (bindM mm k) p Q.
Proof. unfold wp, bindM. by destruct (mm p) as [[a p']|e]. Qed.

Lemma wp_ret {A} (a : A) p (Q : A -> t -> Prop) : Q a p -> wp allowed (ret a) p Q.
Proof. done. Qed.

Lemma wp_throw {A} e p (Q : A -> t -> Prop) : allowed e -> wp allowed (throw e) p Q.
Proof. done. Qed.

Lemma wp_mono {A} (mm : M A) p (Q Q' : A -> t -> Prop) :
  wp allowed mm p Q -> (forall a p', Q a p' -> Q' a p') -> wp allowed mm p Q'.
Proof. unfold wp. destruct (mm p) as [[a p']|e]; eauto. Qed.

Lemma wp_peek p (Q : Token -> t -> Prop) : (forall tok, Q tok p) -> wp allowed peek p Q.
Proof.
  unfold wp, peek. destruct (rest p); [intros _; exact (@tolerant_type allowed _)|eauto].
Qed.

Lemma wp_previous p (Q : Token -> t -> Prop) :
  (forall tok, Q tok p) -> wp allowed previous p Q.
Proof.
  unfold wp, previous.
  destruct (prev p); [eauto|intros _; exact (@tolerant_type allowed _)].
Qed.

Lemma wp_newRef p (Q : nat -> t -> Prop) :
  (forall p', len p' = len p -> nextRef p' = S (nextRef p) -> Q (nextRef p) p') ->
  wp allowed newRef p Q.
Proof. intros H. unfold wp, newRef. by apply H. Qed.

Lemma wp_isAtEnd p (Q : bool -> t -> Prop) : (forall b, Q b p) -> wp allowed isAtEnd p Q.
Proof.
  intros H. unfold isAtEnd. apply wp_bind, wp_peek. intros tok. by apply wp_ret.
Qed.

Lemma wp_check ty p (Q : bool -> t -> Prop) :
  (forall b, Q b p) -> wp allowed (check ty) p Q.
Proof.
  intros H. unfold check. apply wp_bind, wp_isAtEnd. intros [|]; [by apply wp_ret|].
  apply wp_bind, wp_peek. intros tok. by apply wp_ret.
Qed.

Lemma wp_match types p (Q : bool -> t -> Prop) :
  (forall p', len p' < len p -> nextRef p' = nextRef p -> Q true p') -> Q false p ->
  wp allowed (match_ types) p Q.
Proof.
  intros Ht Hf. unfold wp.
  destruct p as [[|tk r] pv n].
  - destruct types as [|ty types]; simpl; [done|].
    unfold bindM, check, bindM, isAtEnd, bindM, peek. simpl.
    exact (@tolerant_type allowed _).
  - rewrite ParserFacts.match_head. case_bool_decide; [|done].
    apply Ht; [unfold len; simpl; lia | done].
Qed.

Lemma wp_consume ty message p (Q : Token -> t -> Prop) :
  (forall tok p', len p' < len p -> nextRef p' = nextRef p -> Q tok p') ->
  wp allowed (consume ty message) p Q.
Proof.
  intros H. unfold wp, consume, bindM.
  destruct p as [[|tk r] pv n].
  - unfold check, bindM, isAtEnd, bindM, peek. simpl. exact (@tolerant_type allowed _).
  - rewrite ParserFacts.check_head. case_bool_decide as Hc.
    + destruct Hc as [Hne _]. rewrite ParserFacts.advance_head by done.
      apply H; [unfold len; simpl; lia | done].
    + simpl. exact (@tolerant_parse _ _ _ _).
Qed.
End Primitives.

Local Abbreviation wpt := (wp not_fuel).

Section Expressions.
Variable E : M ASTNode.

Lemma primary_takes p :
  (forall p', len p' < len p -> wpt E p' (takes p')) ->
  wpt (primary E) p (takes p).
Proof.
  intros HE. unfold primary, takes.
  apply (wp_bind not_fuel), (wp_match not_fuel).
  { intros p1 H1 _. apply (wp_bind not_fuel), (wp_previous not_fuel).
    intros tok. by apply (wp_ret not_fuel). }
  apply (wp_bind not_fuel), (wp_match not_fuel).
  { intros p1 H1 _. apply (wp_bind not_fuel), (wp_previous not_fuel). intros tok.
    apply (wp_bind not_fuel), (wp_newRef not_fuel). intros p2 H2 _.
    apply (wp_ret not_fuel). lia. }
  apply (wp_bind not_fuel), (wp_match not_fuel).
  { intros p1 H1 _. apply (wp_bind not_fuel). eapply (wp_mono not_fuel); [by apply HE|].
    intros e p2 H2. unfold takes in H2.
    apply (wp_bind not_fuel), (wp_consume not_fuel). intros tok p3 H3 _.
    apply (wp_ret not_fuel). lia. }
  apply (wp_bind not_fuel), (wp_peek not_fuel). intros tok.
  apply (wp_throw not_fuel). done.
Qed.

Lemma binaryLoop_keeps ops operand fuel : forall expr p,
  (forall p', len p' < len p -> wpt operand p' (takes p')) ->
  len p < fuel ->
  wpt (binaryLoop ops operand fuel expr) p (keeps p).
Proof.
  induction fuel as [|fuel IH]; intros expr p Hop Hfuel; [lia|]. simpl.
  apply (wp_bind not_fuel), (wp_match not_fuel).
  - intros p1 H1 _. apply (wp_bind not_fuel), (wp_previous not_fuel). intros tok.
    apply (wp_bind not_fuel). eapply (wp_mono not_fuel); [by apply Hop|].
    intros right_ p2 H2. unfold takes in H2.
    eapply (wp_mono not_fuel); [apply IH; [|lia]|].
    + intros p' Hp'. apply Hop. lia.
    + intros e p3 H3. unfold keeps in *. lia.
  - apply (wp_ret not_fuel). unfold keeps. lia.
Qed.

Lemma level_takes ops operand fuel p :
  (forall p', len p' <= len p -> wpt operand p' (takes p')) ->
  len p < fuel ->
  wpt (bindM operand (fun expr => binaryLoop ops operand fuel expr)) p (takes p).
Proof.
  intros Hop Hfuel. apply (wp_bind not_fuel). eapply (wp_mono not_fuel); [by apply Hop|].
  intros expr p1 H1. unfold takes in H1.
  eapply (wp_mono not_fuel); [apply binaryLoop_keeps; [|lia]|].
  - intros p' Hp'. apply Hop. lia.
  - intros e p2 H2. unfold keeps, takes in *. lia.
Qed.

Lemma comparison_takes fuel p :
  (forall p', len p' < len p -> wpt E p' (takes p')) ->
  len p < fuel ->
  wpt (comparison E fuel) p (takes p).
Proof.
  intros HE Hfuel. unfold comparison. apply level_takes; [|done].
  intros p1 H1. unfold term. apply level_takes; [|lia].
  intros p2 H2. unfold factor. apply level_takes; [|lia].
  intros p3 H3. apply primary_takes. intros p4 H4. apply HE. lia.
Qed.
End Expressions.

Lemma expression_takes fuel : forall p,
  len p + 2 <= fuel -> wpt (expression fuel) p (takes p).
Proof.
  induction fuel as [|fuel IH]; intros p Hfuel; [lia|]. simpl.
  apply comparison_takes; [|lia]. intros p' Hp'. apply IH. lia.
Qed.

Section Statements.
Variable E S : M ASTNode.

Lemma varDecl_takes p : wpt varDecl p (takes p).
Proof.
  unfold varDecl, takes.
  apply (wp_bind not_fuel), (wp_consume not_fuel). intros name p1 H1 _.
  apply (wp_bind not_fuel), (wp_consume not_fuel). intros _ p2 H2 _.
  apply (wp_bind not_fuel), (wp_newRef not_fuel). intros p3 H3 _.
  apply (wp_ret not_fuel). lia.
Qed.

Hypothesis bound : nat.
Hypothesis HE : forall p', len p' <= bound -> wpt E p' (takes p').

Lemma printStmt_takes p : len p <= bound -> wpt (printStmt E) p (takes p).
Proof.
  intros Hb. unfold printStmt, takes.
  apply (wp_bind not_fuel), (wp_consume not_fuel). intros _ p1 H1 _.
  apply (wp_bind not_fuel). eapply (wp_mono not_fuel); [apply HE; lia|].
  intros expr p2 H2. unfold takes in H2.
  apply (wp_bind not_fuel), (wp_consume not_fuel). intros _ p3 H3 _.
  apply (wp_bind not_fuel), (wp_consume not_fuel). intros _ p4 H4 _.
  apply (wp_ret not_fuel). lia.
Qed.

Lemma assignStmt_takes p : len p <= bound -> wpt (assignStmt E) p (takes p).
Proof.
  intros Hb. unfold assignStmt, takes.
  apply (wp_bind not_fuel), (wp_consume not_fuel). intros name p1 H1 _.
  apply (wp_bind not_fuel), (wp_consume not_fuel). intros _ p2 H2 _.
  apply (wp_bind not_fuel). eapply (wp_mono not_fuel); [apply HE; lia|].
  intros expr p3 H3. unfold takes in H3.
  apply (wp_bind not_fuel), (wp_consume not_fuel). intros _ p4 H4 _.
  apply (wp_bind not_fuel), (wp_newRef not_fuel). intros p5 H5 _.
  apply (wp_ret not_fuel). lia.
Qed.

Lemma ifStmt_takes p :
  len p <= bound ->
  (forall p', len p' < len p -> wpt S p' (takes p')) ->
  wpt (ifStmt E S) p (takes p).
Proof.
  intros Hb HS. unfold ifStmt, takes.
  apply (wp_bind not_fuel), (wp_consume not_fuel). intros _ p1 H1 _.
  apply (wp_bind not_fuel). eapply (wp_mono not_fuel); [apply HE; lia|].
  intros cond p2 H2. unfold takes in H2.
  apply (wp_bind not_fuel), (wp_consume not_fuel). intros _ p3 H3 _.
  apply (wp_bind not_fuel). eapply (wp_mono not_fuel); [apply HS; lia|].
  intros thenB p4 H4. unfold takes in H4.
  apply (wp_bind not_fuel), (wp_match not_fuel).
  - intros p5 H5 _. apply (wp_bind not_fuel). eapply (wp_mono not_fuel); [apply HS; lia|].
    intros elseB p6 H6. unfold takes in H6. apply (wp_ret not_fuel). lia.
  - apply (wp_ret not_fuel). lia.
Qed.

Lemma whileStmt_takes p :
  len p <= bound ->
  (forall p', len p' < len p -> wpt S p' (takes p')) ->
  wpt (whileStmt E S) p (takes p).
Proof.
  intros Hb HS. unfold whileStmt, takes.
  apply (wp_bind not_fuel), (wp_consume not_fuel). intros _ p1 H1 _.
  apply (wp_bind not_fuel). eapply (wp_mono not_fuel); [apply HE; lia|].
  intros cond p2 H2. unfold takes in H2.
  apply (wp_bind not_fuel), (wp_consume not_fuel). intros _ p3 H3 _.
  apply (wp_bind not_fuel). eapply (wp_mono not_fuel); [apply HS; lia|].
  intros body p4 H4. unfold takes in H4.
  apply (wp_ret not_fuel). lia.
Qed.

Lemma block_loop_keeps fuel : forall acc p,
  (forall p', len p' <= len p -> wpt S p' (takes p')) ->
  len p < fuel ->
  wpt (block_loop S fuel acc) p (keeps p).
Proof.
  induction fuel as [|fuel IH]; intros acc p HS Hfuel; [lia|]. simpl.
  apply (wp_bind not_fuel), (wp_check not_fuel).
  intros [|]; [by apply (wp_ret not_fuel); unfold keeps|].
  apply (wp_bind not_fuel), (wp_isAtEnd not_fuel).
  intros [|]; [by apply (wp_ret not_fuel); unfold keeps|].
  apply (wp_bind not_fuel). eapply (wp_mono not_fuel); [by apply HS|].
  intros s p1 H1. unfold takes in H1.
  eapply (wp_mono not_fuel); [apply IH; [|lia]|].
  - intros p' Hp'. apply HS. lia.
  - intros ss p2 H2. unfold keeps in *. lia.
Qed.

Lemma block_takes fuel p :
  (forall p', len p' <= len p -> wpt S p' (takes p')) ->
  len p < fuel ->
  wpt (block S fuel) p (fun _ p' => len p' <= len p).
Proof.
  intros HS Hfuel. unfold block.
  apply (wp_bind not_fuel). eapply (wp_mono not_fuel); [by apply block_loop_keeps|].
  intros ss p1 H1. unfold keeps in H1.
  apply (wp_bind not_fuel), (wp_consume not_fuel). intros _ p2 H2 _.
  apply (wp_ret not_fuel). lia.
Qed.

Lemma parse_loop_keeps fuel : forall acc p,
  (forall p', len p' <= len p -> wpt S p' (takes p')) ->
  len p < fuel ->
  wpt (parse_loop S fuel acc) p (keeps p).
Proof.
  induction fuel as [|fuel IH]; intros acc p HS Hfuel; [lia|]. simpl.
  apply (wp_bind not_fuel), (wp_isAtEnd not_fuel).
  intros [|]; [by apply (wp_ret not_fuel); unfold keeps|].
  apply (wp_bind not_fuel). eapply (wp_mono not_fuel); [by apply HS|].
  intros s p1 H1. unfold takes in H1.
  eapply (wp_mono not_fuel); [apply IH; [|lia]|].
  - intros p' Hp'. apply HS. lia.
  - intros ss p2 H2. unfold keeps in *. lia.
Qed.
End Statements.

Lemma statement_S efuel fuel :
  statement efuel (S fuel) =
  bindM (match_ [KW_INT]) (fun b =>
    if b then varDecl
    else bindM (match_ [KW_PRINT]) (fun b =>
      if b then printStmt (expression efuel)
      else bindM (match_ [KW_IF]) (fun b =>
        if b then ifStmt (expression efuel) (statement efuel fuel)
        else bindM (match_ [KW_WHILE]) (fun b =>
          if b then whileStmt (expression efuel) (statement efuel fuel)
          else bindM (match_ [LBRACE]) (fun b =>
            if b then block (statement efuel fuel) fuel
            else assignStmt (expression efuel)))))).
Proof. reflexivity. Qed.

Lemma statement_takes efuel fuel : forall p,
  len p + 2 <= efuel -> len p < fuel ->
  wpt (statement efuel fuel) p (takes p).
Proof.
  induction fuel as [|fuel IH]; intros p He Hfuel; [lia|]. rewrite statement_S.
  assert (forall p', len p' <= len p -> wpt (expression efuel) p' (takes p')) as HE
    by (intros p' Hp'; apply expression_takes; lia).
  apply (wp_bind not_fuel), (wp_match not_fuel).
  { intros p1 H1 _. eapply (wp_mono not_fuel); [apply varDecl_takes|].
    intros s p2 H2. unfold takes in *. lia. }
  apply (wp_bind not_fuel), (wp_match not_fuel).
  { intros p1 H1 _.
    eapply (wp_mono not_fuel); [apply (printStmt_takes _ (len p)); [done|lia]|].
    intros s p2 H2. unfold takes in *. lia. }
  apply (wp_bind not_fuel), (wp_match not_fuel).
  { intros p1 H1 _.
    eapply (wp_mono not_fuel); [apply (ifStmt_takes _ _ (len p)); [done|lia|]|].
    - intros p' Hp'. apply IH; lia.
    - intros s p2 H2. unfold takes in *. lia. }
  apply (wp_bind not_fuel), (wp_match not_fuel).
  { intros p1 H1 _.
    eapply (wp_mono not_fuel); [apply (whileStmt_takes _ _ (len p)); [done|lia|]|].
    - intros p' Hp'. apply IH; lia.
    - intros s p2 H2. unfold takes in *. lia. }
  apply (wp_bind not_fuel), (wp_match not_fuel).
  { intros p1 H1 _.
    eapply (wp_mono not_fuel); [apply block_takes; [|lia]|].
    - intros p' Hp'. apply IH; lia.
    - intros s p2 H2. unfold takes in *. simpl in H2. lia. }
  apply (assignStmt_takes _ (len p)); [done|lia].
Qed.

(** [parse] never runs out of its bound: it returns a tree or throws one
    of the parser's own errors. *)
Lemma parse_total tokens : parse tokens <> Err FuelExhausted.
Proof.
  unfold parse, fuel_for.
  set (p := mk tokens None 0).
  assert (len p = length tokens) as Hlen by done.
  pose proof (parse_loop_keeps
                (statement (length tokens + 2) (length tokens + 2))
                (length tokens + 2) [] p) as H.
  unfold wp in H.
  destruct (parse_loop _ _ _ p) as [[ss p']|e]; [done|].
  intros [= ->]. apply H; [|lia|done].
  intros p' Hp'. apply statement_takes; lia.
Qed.

End ParserTermination.

(** ** The parser hands out distinct node references *)

Module ParserRefs.
Import Parser ParserLogic ParserTermination Scoping.

Local Abbreviation wpa := (wp any_error).

Lemma fresh_nil lo hi : fresh lo hi [].
Proof. split; [apply NoDup_nil_2 | by intros r ?%elem_of_nil]. Qed.

Lemma fresh_single r : fresh r (S r) [r].
Proof.
  split; [apply NoDup_singleton|].
  intros r' ->%list_elem_of_singleton. lia.
Qed.

Lemma fresh_wider lo hi lo' hi' l :
  fresh lo hi l -> lo' <= lo -> hi <= hi' -> fresh lo' hi' l.
Proof. intros [Hnd Hr] ? ?. split; [done|]. intros r Hin. specialize (Hr r Hin). lia. Qed.

Lemma fresh_app lo mid hi l1 l2 :
  fresh lo mid l1 -> fresh mid hi l2 -> lo <= mid <= hi -> fresh lo hi (l1 ++ l2).
Proof.
  intros [Hnd1 Hr1] [Hnd2 Hr2] Hm. split.
  - apply NoDup_app. split; [done|]. split; [|done].
    intros r H1 H2. specialize (Hr1 r H1). specialize (Hr2 r H2). lia.
  - intros r [H|H]%elem_of_app; [specialize (Hr1 r H) | specialize (Hr2 r H)]; lia.
Qed.

Section Expressions.
Variable E : M ASTNode.
Hypothesis HE : forall p, wpa E p (allocs p).

Lemma primary_allocs p : wpa (primary E) p (allocs p).
Proof.
  unfold primary.
  apply (wp_bind any_error), (wp_match any_error).
  { intros p1 _ H1. apply (wp_bind any_error), (wp_previous any_error). intros tok.
    apply (wp_ret any_error); unfold allocs, allocs_list. split; [lia|].
    apply fresh_nil. }
  apply (wp_bind any_error), (wp_match any_error).
  { intros p1 _ H1. apply (wp_bind any_error), (wp_previous any_error). intros tok.
    apply (wp_bind any_error), (wp_newRef any_error). intros p2 _ H2.
    apply (wp_ret any_error); unfold allocs, allocs_list. split; [lia|]. simpl.
    rewrite H2, H1. apply fresh_single. }
  apply (wp_bind any_error), (wp_match any_error).
  { intros p1 _ H1. apply (wp_bind any_error).
    eapply (wp_mono any_error); [apply HE|]. intros e p2 [H2 F2].
    apply (wp_bind any_error), (wp_consume any_error). intros tok p3 _ H3.
    apply (wp_ret any_error); unfold allocs, allocs_list. rewrite H3, <- H1. by split. }
  apply (wp_bind any_error), (wp_peek any_error). intros tok.
  by apply (wp_throw any_error).
Qed.

Lemma binaryLoop_allocs ops operand fuel : forall expr p lo,
  (forall p', wpa operand p' (allocs p')) ->
  lo <= nextRef p -> fresh lo (nextRef p) (refs expr) ->
  wpa (binaryLoop ops operand fuel expr) p
    (fun e p' => nextRef p <= nextRef p' /\ fresh lo (nextRef p') (refs e)).
Proof.
  induction fuel as [|fuel IH]; intros expr p lo Hop Hlo Hexpr; simpl; [done|].
  apply (wp_bind any_error), (wp_match any_error).
  - intros p1 _ H1. apply (wp_bind any_error), (wp_previous any_error). intros tok.
    apply (wp_bind any_error). eapply (wp_mono any_error); [apply Hop|].
    intros right_ p2 [H2 F2].
    eapply (wp_mono any_error); [apply (IH _ p2 lo Hop); [lia|]|].
    + simpl. eapply fresh_app; [|exact F2|lia]. by rewrite H1.
    + intros e p3 [H3 F3]. split; [lia|done].
  - apply (wp_ret any_error); unfold allocs, allocs_list. by split.
Qed.

Lemma level_allocs ops operand fuel p :
  (forall p', wpa operand p' (allocs p')) ->
  wpa (bindM operand (fun expr => binaryLoop ops operand fuel expr)) p (allocs p).
Proof.
  intros Hop. apply (wp_bind any_error). eapply (wp_mono any_error); [apply Hop|].
  intros expr p1 [H1 F1].
  eapply (wp_mono any_error); [by apply (binaryLoop_allocs _ _ _ _ p1 (nextRef p))|].
  intros e p2 [H2 F2]. split; [lia|done].
Qed.

Lemma comparison_allocs fuel p : wpa (comparison E fuel) p (allocs p).
Proof.
  unfold comparison. apply level_allocs. intros p1.
  unfold term. apply level_allocs. intros p2.
  unfold factor. apply level_allocs. intros p3. apply primary_allocs.
Qed.
End Expressions.

Lemma expression_allocs fuel : forall p, wpa (expression fuel) p (allocs p).
Proof.
  induction fuel as [|fuel IH]; intros p; simpl; [done|].
  by apply comparison_allocs.
Qed.

Section Statements.
Variable E S : M ASTNode.
Hypothesis HE : forall p, wpa E p (allocs p).
Hypothesis HS : forall p, wpa S p (allocs p).

Lemma varDecl_allocs p : wpa varDecl p (allocs p).
Proof.
  unfold varDecl.
  apply (wp_bind any_error), (wp_consume any_error). intros name p1 _ H1.
  apply (wp_bind any_error), (wp_consume any_error). intros tok p2 _ H2.
  apply (wp_bind any_error), (wp_newRef any_error). intros p3 _ H3.
  apply (wp_ret any_error); unfold allocs, allocs_list. split; [lia|]. simpl.
  rewrite H3, H2, H1. apply fresh_single.
Qed.

Lemma printStmt_allocs p : wpa (printStmt E) p (allocs p).
Proof.
  unfold printStmt.
  apply (wp_bind any_error), (wp_consume any_error). intros tok1 p1 _ H1.
  apply (wp_bind any_error). eapply (wp_mono any_error); [apply HE|]. intros e p2 [H2 F2].
  apply (wp_bind any_error), (wp_consume any_error). intros tok3 p3 _ H3.
  apply (wp_bind any_error), (wp_consume any_error). intros tok4 p4 _ H4.
  apply (wp_ret any_error); unfold allocs, allocs_list. rewrite H4, H3, <- H1. by split.
Qed.

Lemma assignStmt_allocs p : wpa (assignStmt E) p (allocs p).
Proof.
  unfold assignStmt.
  apply (wp_bind any_error), (wp_consume any_error). intros name p1 _ H1.
  apply (wp_bind any_error), (wp_consume any_error). intros tok2 p2 _ H2.
  apply (wp_bind any_error). eapply (wp_mono any_error); [apply HE|]. intros e p3 [H3 F3].
  apply (wp_bind any_error), (wp_consume any_error). intros tok4 p4 _ H4.
  apply (wp_bind any_error), (wp_newRef any_error). intros p5 _ H5.
  apply (wp_ret any_error); unfold allocs, allocs_list. split; [lia|]. simpl.
  rewrite H5, H4. eapply fresh_app; [|apply fresh_single|lia].
  by rewrite <- H1, <- H2.
Qed.

Lemma ifStmt_allocs p : wpa (ifStmt E S) p (allocs p).
Proof.
  unfold ifStmt.
  apply (wp_bind any_error), (wp_consume any_error). intros tok1 p1 _ H1.
  apply (wp_bind any_error). eapply (wp_mono any_error); [apply HE|]. intros c p2 [H2 F2].
  apply (wp_bind any_error), (wp_consume any_error). intros tok3 p3 _ H3.
  apply (wp_bind any_error). eapply (wp_mono any_error); [apply HS|].
  intros tb p4 [H4 F4].
  assert (fresh (nextRef p) (nextRef p4) (refs c ++ refs tb)) as F24.
  { eapply fresh_app; [|exact F4|lia]. by rewrite H3, <- H1. }
  apply (wp_bind any_error), (wp_match any_error).
  - intros p5 _ H5. apply (wp_bind any_error).
    eapply (wp_mono any_error); [apply HS|]. intros eb p6 [H6 F6].
    apply (wp_ret any_error); unfold allocs, allocs_list. split; [lia|]. simpl.
    rewrite app_assoc.
    eapply fresh_app; [|exact F6|lia]. by rewrite H5.
  - apply (wp_ret any_error); unfold allocs, allocs_list. split; [lia|]. simpl.
    by rewrite app_nil_r.
Qed.

Lemma whileStmt_allocs p : wpa (whileStmt E S) p (allocs p).
Proof.
  unfold whileStmt.
  apply (wp_bind any_error), (wp_consume any_error). intros tok1 p1 _ H1.
  apply (wp_bind any_error). eapply (wp_mono any_error); [apply HE|]. intros c p2 [H2 F2].
  apply (wp_bind any_error), (wp_consume any_error). intros tok3 p3 _ H3.
  apply (wp_bind any_error). eapply (wp_mono any_error); [apply HS|]. intros b p4 [H4 F4].
  apply (wp_ret any_error); unfold allocs, allocs_list. split; [lia|]. simpl.
  eapply fresh_app; [|exact F4|lia]. by rewrite H3, <- H1.
Qed.

Lemma block_loop_allocs fuel : forall acc p lo,
  lo <= nextRef p -> fresh lo (nextRef p) (flat_map refs acc) ->
  wpa (block_loop S fuel acc) p (allocs_list lo p).
Proof.
  induction fuel as [|fuel IH]; intros acc p lo Hlo Hacc; simpl; [done|].
  apply (wp_bind any_error), (wp_check any_error).
  intros [|]; [by apply (wp_ret any_error)|].
  apply (wp_bind any_error), (wp_isAtEnd any_error).
  intros [|]; [by apply (wp_ret any_error)|].
  apply (wp_bind any_error). eapply (wp_mono any_error); [apply HS|]. intros s p1 [H1 F1].
  eapply (wp_mono any_error); [apply (IH _ p1 lo); [lia|]|].
  - rewrite flat_map_app. simpl. rewrite app_nil_r.
    eapply fresh_app; [exact Hacc|exact F1|lia].
  - intros ss p2 [H2 F2]. split; [lia|done].
Qed.

Lemma block_allocs fuel p : wpa (block S fuel) p (allocs p).
Proof.
  unfold block. apply (wp_bind any_error).
  eapply (wp_mono any_error);
    [apply (block_loop_allocs fuel [] p (nextRef p)); [done|apply fresh_nil]|].
  intros ss p1 [H1 F1].
  apply (wp_bind any_error), (wp_consume any_error). intros tok p2 _ H2.
  apply (wp_ret any_error); unfold allocs, allocs_list. rewrite H2. by split.
Qed.

Lemma parse_loop_allocs fuel : forall acc p lo,
  lo <= nextRef p -> fresh lo (nextRef p) (flat_map refs acc) ->
  wpa (parse_loop S fuel acc) p (allocs_list lo p).
Proof.
  induction fuel as [|fuel IH]; intros acc p lo Hlo Hacc; simpl; [done|].
  apply (wp_bind any_error), (wp_isAtEnd any_error).
  intros [|]; [by apply (wp_ret any_error)|].
  apply (wp_bind any_error). eapply (wp_mono any_error); [apply HS|]. intros s p1 [H1 F1].
  eapply (wp_mono any_error); [apply (IH _ p1 lo); [lia|]|].
  - rewrite flat_map_app. simpl. rewrite app_nil_r.
    eapply fresh_app; [exact Hacc|exact F1|lia].
  - intros ss p2 [H2 F2]. split; [lia|done].
Qed.
End Statements.

Lemma statement_allocs efuel fuel : forall p,
  wpa (statement efuel fuel) p (allocs p).
Proof.
  induction fuel as [|fuel IH]; intros p; [done|]. rewrite statement_S.
  pose proof (expression_allocs efuel) as HE.
  assert (forall (mm : M ASTNode) p1,
            nextRef p1 = nextRef p -> wpa mm p1 (allocs p1) -> wpa mm p1 (allocs p))
              as Hsame.
  { intros mm p1 H1 H. eapply (wp_mono any_error); [exact H|].
    intros s p2. unfold allocs. by rewrite H1. }
  apply (wp_bind any_error), (wp_match any_error).
  { intros p1 _ H1. apply Hsame; [done|]. apply varDecl_allocs. }
  apply (wp_bind any_error), (wp_match any_error).
  { intros p1 _ H1. apply Hsame; [done|]. by apply printStmt_allocs. }
  apply (wp_bind any_error), (wp_match any_error).
  { intros p1 _ H1. apply Hsame; [done|]. by apply ifStmt_allocs. }
  apply (wp_bind any_error), (wp_match any_error).
  { intros p1 _ H1. apply Hsame; [done|]. by apply whileStmt_allocs. }
  apply (wp_bind any_error), (wp_match any_error).
  { intros p1 _ H1. apply Hsame; [done|]. by apply block_allocs. }
  by apply assignStmt_allocs.
Qed.

(** The key nodes of a parsed program all have different references. *)
Lemma parse_refs_distinct tokens ast :
  parse tokens = Ok ast -> NoDup (refs ast).
Proof.
  unfold parse.
  pose proof (parse_loop_allocs
                (statement (fuel_for tokens) (fuel_for tokens))
                (statement_allocs _ _) (fuel_for tokens) []
                (mk tokens None 0) 0 (Nat.le_refl _) (fresh_nil _ _)) as H.
  unfold wp in H.
  destruct (parse_loop _ _ _ _) as [[ss p']|e]; [|done].
  intros [= <-]. simpl. by destruct H as [_ [Hnd _]].
Qed.

End ParserRefs.

(** ** The pipeline as a whole *)

(** The bounds of the embedding never cut the pipeline short. *)
Lemma compile_never_out_of_fuel source : compile source <> Err FuelExhausted.
Proof.
  unfold compile.
  pose proof (LexerFacts.tokenize_total source) as Hlex.
  destruct (Lexer.tokenize source) as [tokens|e]; simpl;
    [|intros [= ->]; by apply Hlex].
  pose proof (ParserTermination.parse_total tokens) as Hparse.
  destruct (Parser.parse tokens) as [ast|e]; simpl;
    [|intros [= ->]; by apply Hparse].
  destruct (SemanticAnalyzer.analyze ast) as [m|e] eqn:Han; simpl.
  - by rewrite CodegenFacts.generate_annotated.
  - unfold SemanticAnalyzer.analyze in Han.
    destruct (SemanticAnalyzer.visit ast SemanticAnalyzer.init) as [sa|e'] eqn:Hv;
      simpl in Han; [done|]. injection Han as <-.
    intros [= ->]. by apply AnalyzerFacts.visit_never_out_of_fuel in Hv.
Qed.

(** The application's own chaining of the stages never visits the tree
    with the generator: whatever the program, its bytecode is the lone
    [HALT] and nothing is printed. *)
Remark runCompiler_skips_generation code bc result :
  App.runCompiler code = Ok (bc, result) ->
  bc = [mkInstruction HALT None None] /\ result = [].
Proof.
  unfold App.runCompiler.
  destruct (Lexer.tokenize code) as [tks|]; [simpl|done].
  destruct (Parser.parse tks) as [ast|]; [simpl|done].
  destruct (SemanticAnalyzer.analyze ast) as [m|]; [simpl|done].
  replace (VM.run (VM.new (CodeGenerator.getBytecode [])))
    with (@Ok (list string) []) by (vm_compute; reflexivity).
  simpl. by intros [= <- <-].
Qed.
(** * Further properties *)

(** ** The lexer *)

Module TextFacts.
Import Text.

Lemma newlines_app l k : newlines (l ++ k) = newlines l + newlines k.
Proof. induction l as [|c l IH]; simpl; [done|]. rewrite IH. lia. Qed.

Lemma since_newline_app l k :
  since_newline (l ++ k)
  = (if (0 <? newlines k)%nat then 0 else since_newline l) + since_newline k.
Proof.
  induction l as [|c l IH]; simpl.
  - by destruct (0 <? newlines k)%nat.
  - rewrite newlines_app, IH.
    destruct (Ascii.eqb c newline); simpl.
    + done.
    + destruct (Nat.ltb_spec 0 (newlines k)) as [Hk|Hk].
      * assert ((0 <? newlines l + newlines k)%nat = true) as ->
          by (apply Nat.ltb_lt; lia). done.
      * replace (newlines l + newlines k) with (newlines l) by lia.
        by destruct (0 <? newlines l)%nat.
Qed.

Lemma moved_refl lx : moved lx [] lx.
Proof. unfold moved. simpl. split; [done|]. split; lia. Qed.

Lemma moved_trans lx1 c1 lx2 c2 lx3 :
  moved lx1 c1 lx2 -> moved lx2 c2 lx3 -> moved lx1 (c1 ++ c2) lx3.
Proof.
  intros (R1 & L1 & C1) (R2 & L2 & C2). unfold moved.
  rewrite newlines_app, since_newline_app, R1, R2, <- app_assoc.
  split; [done|]. split; [lia|]. rewrite C2, C1.
  destruct (Nat.ltb_spec 0 (newlines c2)) as [H2|H2].
  - assert ((0 <? newlines c1 + newlines c2)%nat = true) as ->
      by (apply Nat.ltb_lt; lia). done.
  - replace (newlines c1 + newlines c2) with (newlines c1) by lia. lia.
Qed.

Lemma advance_moved lx c r :
  Lexer.rest lx = c :: r ->
  exists lx',
    Lexer.advance lx = (c, lx') /\ Lexer.rest lx' = r /\ moved lx [c] lx'.
Proof.
  intros Hr. unfold Lexer.advance, Lexer.peek, moved. rewrite Hr. simpl.
  fold newline.
  destruct (Ascii.eqb c newline); simpl; eexists; repeat split; simpl; lia.
Qed.

Lemma reading_moved input pre lx consumed lx' :
  reading input pre lx -> moved lx consumed lx' ->
  reading input (pre ++ consumed) lx'.
Proof.
  intros (Hin & Hl & Hc) (Hr & Hl' & Hc'). unfold reading, line_of, col_of.
  rewrite newlines_app, since_newline_app, Hin, Hr, <- app_assoc.
  split; [done|]. split; [unfold line_of in Hl; lia|].
  rewrite Hc'. unfold col_of in Hc.
  destruct (0 <? newlines consumed)%nat; lia.
Qed.

Lemma reading_start input : reading input [] (Lexer.mk input 1 1).
Proof. done. Qed.

End TextFacts.

Module ScanFacts.
Import Text TextFacts.

Lemma chars_app s1 s2 :
  list_ascii_of_string (s1 ++ s2)
  = list_ascii_of_string s1 ++ list_ascii_of_string s2.
Proof. induction s1 as [|c s1 IH]; simpl; [done|]. by rewrite IH. Qed.

Lemma peek_head lx c r : Lexer.rest lx = c :: r -> Lexer.peek lx = c.
Proof. unfold Lexer.peek. by intros ->. Qed.

Lemma not_at_end lx :
  Lexer.isAtEnd lx = false -> exists c r, Lexer.rest lx = c :: r.
Proof. unfold Lexer.isAtEnd. destruct (Lexer.rest lx) as [|c r]; [done|eauto]. Qed.

Lemma peek_accepted (p : ascii -> bool) lx :
  p "000"%char = false -> p (Lexer.peek lx) = true ->
  exists c r, Lexer.rest lx = c :: r /\ p c = true.
Proof.
  unfold Lexer.peek. destruct (Lexer.rest lx) as [|c r]; [congruence|eauto].
Qed.

Lemma scanWhile_moved (p : ascii -> bool) fuel : forall s lx,
  p "000"%char = false ->
  exists taken,
    moved lx taken (Lexer.scanWhile p fuel s lx).2 /\
    list_ascii_of_string (Lexer.scanWhile p fuel s lx).1
    = list_ascii_of_string s ++ taken /\
    forallb p taken = true.
Proof.
  induction fuel as [|fuel IH]; intros s lx Hp; simpl.
  - exists []. split; [apply moved_refl|]. by rewrite app_nil_r.
  - destruct (p (Lexer.peek lx)) eqn:Hpeek.
    + destruct (peek_accepted p lx Hp Hpeek) as (c & r & Hr & Hc).
      destruct (advance_moved lx c r Hr) as (lx' & -> & _ & Hm).
      destruct (IH (s ++ String c EmptyString)%string lx' Hp)
        as (taken & Hm' & Hs & Hall).
      exists (c :: taken). split; [|split].
      * by apply (moved_trans lx [c] lx' taken).
      * rewrite Hs, chars_app. simpl. by rewrite <- app_assoc.
      * simpl. by rewrite Hc.
    + exists []. split; [apply moved_refl|]. by rewrite app_nil_r.
Qed.

Lemma skipLineComment_moved fuel : forall lx,
  exists consumed, moved lx consumed (Lexer.skipLineComment fuel lx).
Proof.
  induction fuel as [|fuel IH]; intros lx; simpl.
  - exists []. apply moved_refl.
  - destruct (Lexer.isAtEnd lx) eqn:Hend; simpl;
      [exists []; apply moved_refl|].
    destruct (Ascii.eqb (Lexer.peek lx) "010"%char); simpl;
      [exists []; apply moved_refl|].
    destruct (not_at_end lx Hend) as (c & r & Hr).
    destruct (advance_moved lx c r Hr) as (lx' & -> & _ & Hm).
    destruct (IH lx') as (consumed & Hm').
    exists (c :: consumed). by apply (moved_trans lx [c] lx' consumed).
Qed.

Lemma skipWhitespace_moved fuel : forall lx,
  exists consumed, moved lx consumed (Lexer.skipWhitespace fuel lx).
Proof.
  induction fuel as [|fuel IH]; intros lx; simpl.
  - exists []. apply moved_refl.
  - destruct (Lexer.isAtEnd lx) eqn:Hend; [exists []; apply moved_refl|].
    destruct (Lexer.isSpace (Lexer.peek lx)).
    + destruct (not_at_end lx Hend) as (c & r & Hr).
      destruct (advance_moved lx c r Hr) as (lx' & -> & _ & Hm).
      destruct (IH lx') as (consumed & Hm').
      exists (c :: consumed). by apply (moved_trans lx [c] lx' consumed).
    + destruct (Ascii.eqb (Lexer.peek lx) "/"%char && Lexer.nextIsSlash lx);
        [|exists []; apply moved_refl].
      destruct (skipLineComment_moved (length (Lexer.rest lx)) lx)
        as (c1 & Hm1).
      destruct (IH (Lexer.skipLineComment (length (Lexer.rest lx)) lx))
        as (c2 & Hm2).
      exists (c1 ++ c2). by eapply moved_trans.
Qed.

(** Behind [skipWhitespace] the lexer is at the end or at a character
    that is not blank. *)
Lemma skipWhitespace_stops fuel : forall lx,
  LexerBound.remaining lx <= fuel ->
  Lexer.isAtEnd (Lexer.skipWhitespace fuel lx) = true \/
  Lexer.isSpace (Lexer.peek (Lexer.skipWhitespace fuel lx)) = false.
Proof.
  induction fuel as [|fuel IH]; intros lx Hfuel; simpl.
  - left. apply LexerFacts.isAtEnd_left. lia.
  - destruct (Lexer.isAtEnd lx) eqn:Hend; [by left|].
    destruct (Lexer.isSpace (Lexer.peek lx)) eqn:Hsp.
    + apply IH. rewrite LexerFacts.advance_left. lia.
    + destruct (Ascii.eqb (Lexer.peek lx) "/"%char) eqn:Hslash; simpl;
        [|by right].
      destruct (Lexer.nextIsSlash lx); [|by right].
      apply IH.
      pose proof (LexerFacts.skipLineComment_consumes lx Hend Hslash).
      unfold LexerBound.remaining in *. lia.
Qed.

Lemma tokenize_loop_S fuel lx tokens :
  Lexer.tokenize_loop (S fuel) lx tokens =
  if Lexer.isAtEnd lx then Ok (Lexer.finish lx tokens)
  else
    let lx1 := Lexer.skipWhitespace (length (Lexer.rest lx)) lx in
    if Lexer.isAtEnd lx1 then Ok (Lexer.finish lx1 tokens)
    else
      match scan lx1 with
      | Ok (tok, lx2) => Lexer.tokenize_loop fuel lx2 (tokens ++ [tok])
      | Err e => Err e
      end.
Proof.
  simpl. destruct (Lexer.isAtEnd lx); [done|].
  destruct (Lexer.isAtEnd _); [done|].
  unfold scan. destruct (Lexer.advance _) as [char lx2].
  destruct (Lexer.isDigit char).
  { by destruct (Lexer.scanWhile Lexer.isDigit _ _ lx2). }
  destruct (Lexer.isAlpha char).
  { by destruct (Lexer.scanWhile Lexer.isAlphaNumeric _ _ lx2). }
  done.
Qed.

End ScanFacts.

Module TokenFacts.
Import Text TextFacts ScanFacts.

Lemma peek_is lx c :
  c <> "000"%char -> Lexer.peek lx = c -> exists r, Lexer.rest lx = c :: r.
Proof.
  unfold Lexer.peek. destruct (Lexer.rest lx) as [|c' r]; [congruence|].
  intros _ ->. eauto.
Qed.

Lemma peek_head_option lx : forall c,
  Lexer.peek lx <> c -> head (Lexer.rest lx) <> Some c.
Proof.
  unfold Lexer.peek. destruct (Lexer.rest lx) as [|c' r]; simpl; congruence.
Qed.

Ltac one_char :=
  simpl; exists []; split; [apply moved_refl|];
  split; [reflexivity|]; split; [reflexivity|]; split; [reflexivity|];
  vm_compute; reflexivity.

Ltac two_chars lx1 :=
  simpl;
  destruct (Ascii.eqb_spec (Lexer.peek lx1) "="%char) as [Hpeek|Hpeek];
  [ destruct (peek_is lx1 "="%char ltac:(done) Hpeek) as (r' & Hr');
    destruct (advance_moved lx1 "="%char r' Hr') as (lx2 & -> & _ & Hm2);
    simpl; exists ["="%char]; split; [exact Hm2|];
    split; [reflexivity|]; split; [reflexivity|]; split; [reflexivity|];
    vm_compute; reflexivity
  | try one_char ].

(** What [punctuation] does with a character that is neither a digit
    nor a letter. *)
Lemma punctuation_spec c l k lx1 :
  Lexer.isDigit c = false -> Lexer.isAlpha c = false ->
  match Lexer.punctuation c l k lx1 with
  | Ok (tok, lx2) =>
      exists more,
        moved lx1 more lx2 /\
        list_ascii_of_string (lexeme tok) = c :: more /\
        line tok = l /\ col tok = k /\ fits tok = true
  | Err e =>
      e = LexerError c l k /\ starts_token c = false /\
      (c = "!"%char -> head (Lexer.rest lx1) <> Some "="%char)
  end.
Proof.
  intros Hd Ha. unfold Lexer.punctuation.
  destruct (Ascii.eqb_spec c "+"%char) as [->|N1]; [one_char|].
  destruct (Ascii.eqb_spec c "-"%char) as [->|N2]; [one_char|].
  destruct (Ascii.eqb_spec c "*"%char) as [->|N3]; [one_char|].
  destruct (Ascii.eqb_spec c "/"%char) as [->|N4]; [one_char|].
  destruct (Ascii.eqb_spec c "%"%char) as [->|N5]; [one_char|].
  destruct (Ascii.eqb_spec c "("%char) as [->|N6]; [one_char|].
  destruct (Ascii.eqb_spec c ")"%char) as [->|N7]; [one_char|].
  destruct (Ascii.eqb_spec c "{"%char) as [->|N8]; [one_char|].
  destruct (Ascii.eqb_spec c "}"%char) as [->|N9]; [one_char|].
  destruct (Ascii.eqb_spec c ";"%char) as [->|N10]; [one_char|].
  destruct (Ascii.eqb_spec c "="%char) as [->|N11]; [two_chars lx1|].
  destruct (Ascii.eqb_spec c "!"%char) as [->|N12].
  { two_chars lx1. split; [done|]. split; [by vm_compute|].
    intros _. by apply peek_head_option. }
  destruct (Ascii.eqb_spec c "<"%char) as [->|N13]; [two_chars lx1|].
  destruct (Ascii.eqb_spec c ">"%char) as [->|N14]; [two_chars lx1|].
  split; [done|]. split; [|done].
  unfold starts_token. rewrite Hd, Ha. simpl.
  apply bool_decide_eq_false. intros Hin.
  repeat (apply elem_of_cons in Hin as [->|Hin]; [done|]).
  by apply elem_of_nil in Hin.
Qed.

Lemma keywordOrId_word id :
  match Lexer.keywordOrId id with
  | ID | KW_INT | KW_IF | KW_ELSE | KW_WHILE | KW_PRINT => True
  | _ => False
  end.
Proof.
  unfold Lexer.keywordOrId.
  repeat (destruct (String.eqb id _); [done|]). done.
Qed.

Lemma fits_word id l k :
  is_word id = true -> fits (mkToken (Lexer.keywordOrId id) id l k) = true.
Proof.
  intros Hw. unfold fits. simpl.
  pose proof (keywordOrId_word id) as H.
  destruct (Lexer.keywordOrId id) eqn:E; try done;
    rewrite Hw; simpl; first [done | by apply bool_decide_eq_true_2].
Qed.

(** One turn of the loop, started at a character. *)
Lemma scan_spec lx c r :
  Lexer.rest lx = c :: r ->
  match scan lx with
  | Ok (tok, lx') =>
      moved lx (list_ascii_of_string (lexeme tok)) lx' /\
      line tok = Lexer.line lx /\ col tok = Lexer.col lx /\
      fits tok = true
  | Err e =>
      e = LexerError c (Lexer.line lx) (Lexer.col lx) /\
      starts_token c = false /\
      (c = "!"%char -> head r <> Some "="%char)
  end.
Proof.
  intros Hr. unfold scan.
  destruct (advance_moved lx c r Hr) as (lx1 & -> & Hr1 & Hm).
  destruct (Lexer.isDigit c) eqn:Hd.
  { destruct (scanWhile_moved Lexer.isDigit (length (Lexer.rest lx1))
                (String c EmptyString) lx1 eq_refl) as (taken & Hm1 & Hs & Hall).
    destruct (Lexer.scanWhile Lexer.isDigit _ _ lx1) as [num lx2].
    simpl in *. rewrite Hs.
    split; [by apply (moved_trans lx [c] lx1 taken)|].
    split; [done|]. split; [done|].
    unfold fits, is_number. simpl. rewrite Hs. simpl. by rewrite Hd. }
  destruct (Lexer.isAlpha c) eqn:Ha.
  { destruct (scanWhile_moved Lexer.isAlphaNumeric (length (Lexer.rest lx1))
                (String c EmptyString) lx1 eq_refl) as (taken & Hm1 & Hs & Hall).
    destruct (Lexer.scanWhile Lexer.isAlphaNumeric _ _ lx1) as [id lx2].
    simpl in *. rewrite Hs.
    split; [by apply (moved_trans lx [c] lx1 taken)|].
    split; [done|]. split; [done|].
    apply fits_word. unfold is_word. rewrite Hs. simpl. by rewrite Ha. }
  pose proof (punctuation_spec c (Lexer.line lx) (Lexer.col lx) lx1 Hd Ha) as H.
  destruct (Lexer.punctuation c _ _ lx1) as [[tok lx2]|e].
  - destruct H as (more & Hm1 & Hs & Hl & Hc & Hf). rewrite Hs.
    split; [by apply (moved_trans lx [c] lx1 more)|]. done.
  - by rewrite Hr1 in H.
Qed.

End TokenFacts.

Module LoopFacts.
Import Text TextFacts ScanFacts TokenFacts.

Lemma length_chars s : length (list_ascii_of_string s) = String.length s.
Proof. induction s as [|c s IH]; simpl; [done|]. by rewrite IH. Qed.

Lemma spans_wider input tokens : forall from upto upto',
  spans input from tokens upto -> upto <= upto' ->
  spans input from tokens upto'.
Proof.
  induction tokens as [|tok tokens IH]; intros from upto upto'; simpl.
  - lia.
  - intros (k & Hk & Hloc & Hrest) Hle. exists k. eauto.
Qed.

Lemma spans_snoc input tok tokens : forall from upto k upto',
  spans input from tokens upto -> upto <= k -> located input k tok ->
  k + String.length (lexeme tok) <= upto' ->
  spans input from (tokens ++ [tok]) upto'.
Proof.
  induction tokens as [|t tokens IH]; intros from upto k upto'; simpl.
  - intros Hfrom Hk Hloc Hup. exists k. split; [lia|]. done.
  - intros (k0 & Hk0 & Hloc0 & Hrest) Hk Hloc Hup.
    exists k0. split; [done|]. split; [done|]. by eapply IH.
Qed.

Lemma reading_located input pre lx tok lx' :
  reading input pre lx ->
  moved lx (list_ascii_of_string (lexeme tok)) lx' ->
  line tok = Lexer.line lx -> col tok = Lexer.col lx ->
  located input (length pre) tok.
Proof.
  intros (Hin & Hl & Hc) (Hr & _) Hlt Hct.
  exists pre, (Lexer.rest lx'). rewrite Hin, Hr. by rewrite Hlt, Hct.
Qed.

Lemma finish_outcome input pre lx acc :
  reading input pre lx -> Lexer.isAtEnd lx = true ->
  spans input 0 acc (length pre) -> Forall (fun t => fits t = true) acc ->
  outcome input (Ok (Lexer.finish lx acc)).
Proof.
  intros (Hin & Hl & Hc) Hend Hspans Hfits.
  assert (Lexer.rest lx = []) as Hr.
  { unfold Lexer.isAtEnd in Hend. by destruct (Lexer.rest lx). }
  rewrite Hr, app_nil_r in Hin. subst pre.
  unfold outcome, Lexer.finish.
  by exists acc, (mkToken EOF "" (Lexer.line lx) (Lexer.col lx)).
Qed.

Lemma tokenize_loop_outcome input fuel : forall lx acc pre,
  reading input pre lx ->
  spans input 0 acc (length pre) -> Forall (fun t => fits t = true) acc ->
  outcome input (Lexer.tokenize_loop fuel lx acc).
Proof.
  induction fuel as [|fuel IH]; intros lx acc pre Hread Hspans Hfits.
  - simpl. destruct (Lexer.isAtEnd lx) eqn:Hend.
    + by eapply finish_outcome.
    + by left.
  - rewrite tokenize_loop_S.
    destruct (Lexer.isAtEnd lx) eqn:Hend; [by eapply finish_outcome|].
    destruct (skipWhitespace_moved (length (Lexer.rest lx)) lx) as (gap & Hgap).
    pose proof (skipWhitespace_stops (length (Lexer.rest lx)) lx
                  (Nat.le_refl _)) as Hstop.
    set (lx1 := Lexer.skipWhitespace (length (Lexer.rest lx)) lx) in *.
    simpl.
    pose proof (reading_moved input pre lx gap lx1 Hread Hgap) as Hread1.
    assert (spans input 0 acc (length (pre ++ gap))) as Hspans1.
    { eapply spans_wider; [done|]. rewrite length_app. lia. }
    destruct (Lexer.isAtEnd lx1) eqn:Hend1; [by eapply finish_outcome|].
    destruct Hstop as [Hstop|Hstop]; [congruence|].
    destruct (not_at_end lx1 Hend1) as (c & r & Hr).
    rewrite (peek_head lx1 c r Hr) in Hstop.
    pose proof (scan_spec lx1 c r Hr) as Hscan.
    destruct (scan lx1) as [[tok lx2]|e].
    + destruct Hscan as (Hm & Hl & Hc & Hf).
      apply (IH lx2 (acc ++ [tok])
               ((pre ++ gap) ++ list_ascii_of_string (lexeme tok))).
      * by eapply reading_moved.
      * eapply spans_snoc; [exact Hspans1|done| |].
        -- by eapply reading_located.
        -- rewrite !length_app, length_chars. lia.
      * apply Forall_app. split; [done|]. by apply Forall_singleton.
    + destruct Hscan as (-> & Hst & Hbang). right.
      exists (pre ++ gap), c, r. destruct Hread1 as (Hin & Hl & Hc).
      rewrite Hin, Hr, Hl, Hc. done.
Qed.

Lemma tokenize_outcome source :
  outcome (list_ascii_of_string source) (Lexer.tokenize source).
Proof.
  unfold Lexer.tokenize.
  apply (tokenize_loop_outcome _ _ _ [] []); [|simpl; lia|done].
  apply reading_start.
Qed.

End LoopFacts.

(** X1.  The tokens [tokenize] returns are well formed: the last one
    is the [EOF] token with the empty lexeme, and before it there is no
    [EOF] and no [ERROR] token; a [NUM] lexeme is a non-empty run of
    digits; the lexeme of an identifier or keyword starts with a letter
    or underscore, goes on with letters, digits and underscores, and is a
    keyword exactly when the token is that keyword; every other token
    carries the one spelling of its type. *)
Theorem X1_tokens_are_well_formed
    (source : string) (tokens : list Token) :
  Lexer.tokenize source = Ok tokens ->
  exists body eof,
    tokens = body ++ [eof] /\
    type eof = EOF /\ lexeme eof = "" /\
    Forall (fun tok => Text.fits tok = true) body.
Proof.
  intros H. pose proof (LoopFacts.tokenize_outcome source) as Hout.
  rewrite H in Hout.
  destruct Hout as (body & eof & -> & Hfits & Hty & Hlex & _).
  by exists body, eof.
Qed.

Lemma X1_tokens_are_well_formed_witness :
  exists body eof,
    [mkToken KW_WHILE "while" 1 1; mkToken LPAREN "(" 1 6;
     mkToken ID "while1" 1 7; mkToken LE "<=" 1 13; mkToken NUM "007" 1 15;
     mkToken RPAREN ")" 1 18; mkToken EOF "" 1 19] = body ++ [eof] /\
    type eof = EOF /\ lexeme eof = "" /\
    Forall (fun tok => Text.fits tok = true) body.
Proof.
  apply (X1_tokens_are_well_formed "while(while1<=007)").
  vm_compute. reflexivity.
Defined.

(** X2.  The tokens stand in the source in the order in which they are
    returned, one behind the other without overlap: each lexeme is found
    at an offset of the text, behind the end of the token before, and
    the token carries the line (1 plus the number of line ends before
    the offset) and the column (1 plus the number of characters since
    the last line end) of that offset.  The [EOF] token, which comes
    last, carries the position behind the last character of the source,
    whatever blanks and comments end it. *)
Theorem X2_tokens_are_located_in_the_source
    (source : string) (tokens : list Token) :
  Lexer.tokenize source = Ok tokens ->
  exists body eof,
    tokens = body ++ [eof] /\
    Text.spans (list_ascii_of_string source) 0 body (String.length source) /\
    type eof = EOF /\
    line eof = Text.line_of (list_ascii_of_string source) /\
    col eof = Text.col_of (list_ascii_of_string source).
Proof.
  intros H. pose proof (LoopFacts.tokenize_outcome source) as Hout.
  rewrite H in Hout.
  destruct Hout as (body & eof & -> & _ & Hty & _ & Hspans & Hl & Hc).
  rewrite LoopFacts.length_chars in Hspans. by exists body, eof.
Qed.

Lemma X2_tokens_are_located_in_the_source_witness :
  let source := ["a"; "="; "1"; ";"; " "; "/"; "/"; "c"; "010"; " "; "b"; "b";
                 " "; " "]%char in
  exists body eof,
    [mkToken ID "a" 1 1; mkToken ASSIGN "=" 1 2; mkToken NUM "1" 1 3;
     mkToken SEMI ";" 1 4; mkToken ID "bb" 2 2; mkToken EOF "" 2 6]
    = body ++ [eof] /\
    Text.spans source 0 body 14 /\
    type eof = EOF /\
    line eof = Text.line_of source /\ col eof = Text.col_of source.
Proof.
  intros source.
  apply (X2_tokens_are_located_in_the_source (string_of_list_ascii source)).
  vm_compute. reflexivity.
Defined.

(** X3.  When [tokenize] fails, the error names a character of the
    source together with the line and column at which it stands; that
    character is not blank and cannot start a token: it is none of the
    digits, letters, underscore and [+-*/%(){};=<>], and if it is [!] it
    is not followed by [=].  So a text made only of blanks and of
    characters that can start a token is always tokenized. *)
Theorem X3_lexer_error_points_at_the_character
    (source : string) :
  (forall e,
     Lexer.tokenize source = Err e ->
     exists pre c post,
       list_ascii_of_string source = pre ++ c :: post /\
       e = LexerError c (Text.line_of pre) (Text.col_of pre) /\
       Text.starts_token c = false /\ Lexer.isSpace c = false /\
       (c = "!"%char -> head post <> Some "="%char)) /\
  (Forall (fun c => Text.starts_token c || Lexer.isSpace c = true)
     (list_ascii_of_string source) ->
   exists tokens, Lexer.tokenize source = Ok tokens).
Proof.
  pose proof (LoopFacts.tokenize_outcome source) as Hout.
  pose proof (LexerFacts.tokenize_total source) as Hfuel.
  split.
  - intros e H. rewrite H in Hout. by destruct Hout as [->|Hout].
  - intros Hall. destruct (Lexer.tokenize source) as [tokens|e]; [eauto|].
    destruct Hout as [->|(pre & c & post & Hin & _ & Hst & Hsp & _)]; [done|].
    rewrite Hin in Hall. apply Forall_app in Hall as [_ Hall].
    apply Forall_cons in Hall as [Hc _]. by rewrite Hst, Hsp in Hc.
Qed.

Lemma X3_lexer_error_points_at_the_character_witness :
  (exists pre c post,
     list_ascii_of_string "a = 1 ! 2;" = pre ++ c :: post /\
     LexerError "!" 1 7 = LexerError c (Text.line_of pre) (Text.col_of pre) /\
     Text.starts_token c = false /\ Lexer.isSpace c = false /\
     (c = "!"%char -> head post <> Some "="%char)) /\
  (exists tokens, Lexer.tokenize "a = 1 < 2;" = Ok tokens).
Proof.
  split.
  - apply (X3_lexer_error_points_at_the_character "a = 1 ! 2;").
    vm_compute. reflexivity.
  - apply (X3_lexer_error_points_at_the_character "a = 1 < 2;").
    refine (bool_decide_unpack _ _). vm_compute. exact I.
Defined.

(** ** The failures of the parser *)

Module ParseErrorFacts.
Import Parser ParseErrors.

Section Inside.
Variable tokens : list Token.

Lemma inside_head p :
  inside tokens p ->
  exists tk r, rest p = tk :: r /\ tk ∈ tokens.
Proof.
  intros [(consumed & Hc) (body & eof & Hb & _)].
  destruct (rest p) as [|tk r] eqn:E; [by destruct body|].
  exists tk, r. split; [done|]. rewrite Hc. apply elem_of_app. right.
  apply elem_of_cons. by left.
Qed.

Lemma inside_step tk r pv n pv' n' :
  inside tokens (mk (tk :: r) pv n) -> type tk <> EOF ->
  inside tokens (mk r pv' n').
Proof.
  intros [(consumed & Hc) (body & eof & Hb & He)] Hne. simpl in *. split.
  - exists (consumed ++ [tk]). by rewrite <- app_assoc.
  - destruct body as [|b body]; simpl in Hb.
    + injection Hb as -> _. done.
    + injection Hb as _ ->. by exists body, eof.
Qed.

Lemma inside_same p pv' n' :
  inside tokens p -> inside tokens (mk (rest p) pv' n').
Proof. done. Qed.

Lemma wpi_bind {A B} (mm : M A) (k : A -> M B) p Q :
  wpi tokens mm p (fun a p' => wpi tokens (k a) p' Q) ->
  wpi tokens (bindM mm k) p Q.
Proof.
  unfold wpi, bindM. intros H Hp. specialize (H Hp).
  destruct (mm p) as [[a p']|e]; [|done]. destruct H as [Hp' H]. by apply H.
Qed.

Lemma wpi_ret {A} (a : A) p (Q : A -> t -> Prop) :
  Q a p -> wpi tokens (ret a) p Q.
Proof. by intros H Hp. Qed.

Lemma wpi_mono {A} (mm : M A) p (Q Q' : A -> t -> Prop) :
  wpi tokens mm p Q -> (forall a p', Q a p' -> Q' a p') ->
  wpi tokens mm p Q'.
Proof.
  unfold wpi. intros H HQ Hp. specialize (H Hp).
  destruct (mm p) as [[a p']|e]; [|done]. destruct H. eauto.
Qed.

Lemma wpi_peek p (Q : Token -> t -> Prop) :
  (forall tok, tok ∈ tokens -> Q tok p) -> wpi tokens peek p Q.
Proof.
  intros H Hp. destruct (inside_head p Hp) as (tk & r & Hr & Hin).
  unfold peek. rewrite Hr. eauto.
Qed.

Lemma wpi_previous p (Q : Token -> t -> Prop) :
  is_Some (prev p) -> (forall tok, Q tok p) -> wpi tokens previous p Q.
Proof. intros [tok Hprev] H Hp. unfold previous. rewrite Hprev. eauto. Qed.

Lemma wpi_newRef p (Q : nat -> t -> Prop) :
  (forall p', Q (nextRef p) p') -> wpi tokens newRef p Q.
Proof. intros H Hp. unfold newRef. split; [by apply inside_same|]. apply H. Qed.

Lemma wpi_isAtEnd p (Q : bool -> t -> Prop) :
  (forall b, Q b p) -> wpi tokens isAtEnd p Q.
Proof.
  intros H. unfold isAtEnd. apply wpi_bind, wpi_peek. intros tok _.
  by apply wpi_ret.
Qed.

Lemma wpi_check ty p (Q : bool -> t -> Prop) :
  (forall b, Q b p) -> wpi tokens (check ty) p Q.
Proof.
  intros H. unfold check. apply wpi_bind, wpi_isAtEnd.
  intros [|]; [by apply wpi_ret|].
  apply wpi_bind, wpi_peek. intros tok _. by apply wpi_ret.
Qed.

Lemma wpi_match types p (Q : bool -> t -> Prop) :
  (forall p', is_Some (prev p') -> Q true p') -> Q false p ->
  wpi tokens (match_ types) p Q.
Proof.
  intros Ht Hf Hp. destruct (inside_head p Hp) as (tk & r & Hr & Hin).
  destruct p as [rs pv n]. simpl in Hr. subst rs.
  rewrite ParserFacts.match_head. case_bool_decide as Hc; [|done].
  destruct Hc as [Hne _]. split; [by eapply inside_step|].
  apply Ht. by eexists.
Qed.

Lemma wpi_consume ty message p (Q : Token -> t -> Prop) :
  (forall tok p', Q tok p') -> wpi tokens (consume ty message) p Q.
Proof.
  intros H Hp. destruct (inside_head p Hp) as (tk & r & Hr & Hin).
  destruct p as [rs pv n]. simpl in Hr. subst rs.
  unfold consume, bindM. rewrite ParserFacts.check_head.
  case_bool_decide as Hc.
  - destruct Hc as [Hne _]. rewrite ParserFacts.advance_head by done.
    split; [by eapply inside_step|]. apply H.
  - simpl. right. eauto.
Qed.

Lemma wpi_fuel {A} p (Q : A -> t -> Prop) :
  wpi tokens (throw FuelExhausted) p Q.
Proof. intros _. by left. Qed.

Ltac bind_with lem := apply wpi_bind, lem.

Section Expressions.
Variable E : M ASTNode.
Hypothesis HE : forall p, wpi tokens E p fine.

Lemma primary_fine p : wpi tokens (primary E) p fine.
Proof.
  unfold primary.
  bind_with wpi_match.
  { intros p1 H1. bind_with wpi_previous; [done|]. intros tok.
    by apply wpi_ret. }
  bind_with wpi_match.
  { intros p1 H1. bind_with wpi_previous; [done|]. intros tok.
    bind_with wpi_newRef. intros p2. by apply wpi_ret. }
  bind_with wpi_match.
  { intros p1 H1. apply wpi_bind. eapply wpi_mono; [apply HE|].
    intros e p2 _. bind_with wpi_consume. intros tok p3. by apply wpi_ret. }
  bind_with wpi_peek. intros tok Hin Hp. right. eauto.
Qed.

Lemma binaryLoop_fine ops operand fuel : forall expr p,
  (forall p', wpi tokens operand p' fine) ->
  wpi tokens (binaryLoop ops operand fuel expr) p fine.
Proof.
  induction fuel as [|fuel IH]; intros expr p Hop; simpl; [apply wpi_fuel|].
  bind_with wpi_match.
  - intros p1 H1. bind_with wpi_previous; [done|]. intros tok.
    apply wpi_bind. eapply wpi_mono; [apply Hop|].
    intros right_ p2 _. by apply IH.
  - by apply wpi_ret.
Qed.

Lemma level_fine ops operand fuel p :
  (forall p', wpi tokens operand p' fine) ->
  wpi tokens (bindM operand (fun expr => binaryLoop ops operand fuel expr))
    p fine.
Proof.
  intros Hop. apply wpi_bind. eapply wpi_mono; [apply Hop|].
  intros expr p1 _. by apply binaryLoop_fine.
Qed.

Lemma comparison_fine fuel p : wpi tokens (comparison E fuel) p fine.
Proof.
  unfold comparison. apply level_fine. intros p1.
  unfold term. apply level_fine. intros p2.
  unfold factor. apply level_fine. intros p3. apply primary_fine.
Qed.
End Expressions.

Lemma expression_fine fuel : forall p, wpi tokens (expression fuel) p fine.
Proof.
  induction fuel as [|fuel IH]; intros p; simpl; [apply wpi_fuel|].
  by apply comparison_fine.
Qed.

Section Statements.
Variable E S : M ASTNode.
Hypothesis HE : forall p, wpi tokens E p fine.
Hypothesis HS : forall p, wpi tokens S p fine.

Lemma varDecl_fine p : wpi tokens varDecl p fine.
Proof.
  unfold varDecl.
  bind_with wpi_consume. intros name p1.
  bind_with wpi_consume. intros _ p2.
  bind_with wpi_newRef. intros p3. by apply wpi_ret.
Qed.

Lemma printStmt_fine p : wpi tokens (printStmt E) p fine.
Proof.
  unfold printStmt.
  bind_with wpi_consume. intros _ p1.
  apply wpi_bind. eapply wpi_mono; [apply HE|]. intros expr p2 _.
  bind_with wpi_consume. intros _ p3.
  bind_with wpi_consume. intros _ p4. by apply wpi_ret.
Qed.

Lemma assignStmt_fine p : wpi tokens (assignStmt E) p fine.
Proof.
  unfold assignStmt.
  bind_with wpi_consume. intros name p1.
  bind_with wpi_consume. intros _ p2.
  apply wpi_bind. eapply wpi_mono; [apply HE|]. intros expr p3 _.
  bind_with wpi_consume. intros _ p4.
  bind_with wpi_newRef. intros p5. by apply wpi_ret.
Qed.

Lemma ifStmt_fine p : wpi tokens (ifStmt E S) p fine.
Proof.
  unfold ifStmt.
  bind_with wpi_consume. intros _ p1.
  apply wpi_bind. eapply wpi_mono; [apply HE|]. intros cond p2 _.
  bind_with wpi_consume. intros _ p3.
  apply wpi_bind. eapply wpi_mono; [apply HS|]. intros thenB p4 _.
  bind_with wpi_match.
  - intros p5 _. apply wpi_bind. eapply wpi_mono; [apply HS|].
    intros elseB p6 _. by apply wpi_ret.
  - by apply wpi_ret.
Qed.

Lemma whileStmt_fine p : wpi tokens (whileStmt E S) p fine.
Proof.
  unfold whileStmt.
  bind_with wpi_consume. intros _ p1.
  apply wpi_bind. eapply wpi_mono; [apply HE|]. intros cond p2 _.
  bind_with wpi_consume. intros _ p3.
  apply wpi_bind. eapply wpi_mono; [apply HS|]. intros body p4 _.
  by apply wpi_ret.
Qed.

Lemma block_loop_fine fuel : forall acc p,
  wpi tokens (block_loop S fuel acc) p fine.
Proof.
  induction fuel as [|fuel IH]; intros acc p; simpl; [apply wpi_fuel|].
  bind_with wpi_check. intros [|]; [by apply wpi_ret|].
  bind_with wpi_isAtEnd. intros [|]; [by apply wpi_ret|].
  apply wpi_bind. eapply wpi_mono; [apply HS|]. intros s p1 _. apply IH.
Qed.

Lemma block_fine fuel p : wpi tokens (block S fuel) p fine.
Proof.
  unfold block.
  apply wpi_bind. eapply wpi_mono; [apply block_loop_fine|]. intros ss p1 _.
  bind_with wpi_consume. intros _ p2. by apply wpi_ret.
Qed.

Lemma parse_loop_fine fuel : forall acc p,
  wpi tokens (parse_loop S fuel acc) p fine.
Proof.
  induction fuel as [|fuel IH]; intros acc p; simpl; [apply wpi_fuel|].
  bind_with wpi_isAtEnd. intros [|]; [by apply wpi_ret|].
  apply wpi_bind. eapply wpi_mono; [apply HS|]. intros s p1 _. apply IH.
Qed.
End Statements.

Lemma statement_fine efuel fuel : forall p,
  wpi tokens (statement efuel fuel) p fine.
Proof.
  induction fuel as [|fuel IH]; intros p; [apply wpi_fuel|].
  rewrite ParserTermination.statement_S.
  pose proof (expression_fine efuel) as HE.
  bind_with wpi_match; [intros p1 _; apply varDecl_fine|].
  bind_with wpi_match; [intros p1 _; by apply printStmt_fine|].
  bind_with wpi_match; [intros p1 _; by apply ifStmt_fine|].
  bind_with wpi_match; [intros p1 _; by apply whileStmt_fine|].
  bind_with wpi_match; [intros p1 _; by apply block_fine|].
  by apply assignStmt_fine.
Qed.

End Inside.

(** On tokens that end with [EOF], [parse] fails only with a parse
    error at one of the tokens. *)
Lemma parse_failure_only tokens e :
  ends_with_eof tokens -> parse tokens = Err e ->
  exists message found, e = ParseError message found /\ found ∈ tokens.
Proof.
  intros Heof H.
  pose proof (ParserTermination.parse_total tokens) as Hfuel.
  unfold parse in *.
  pose proof (parse_loop_fine tokens
                (statement (fuel_for tokens) (fuel_for tokens))
                (statement_fine tokens _ _) (fuel_for tokens) []
                (mk tokens None 0)) as Hwp.
  unfold wpi in Hwp.
  destruct (parse_loop _ _ _ _) as [[ss p']|e']; [done|].
  injection H as ->.
  destruct Hwp as [->|Hwp]; [|done|done].
  split; [by exists []|done].
Qed.

End ParseErrorFacts.

(** X4.  On a token list that ends with an [EOF] token, as every list
    returned by [tokenize] does, [parse] never reads outside the list:
    when it fails it is with a parse error, and the token the error
    reports is one of the list.  Without the [EOF] token it does read
    outside: on the empty list [peek] raises. *)
Theorem X4_parse_fails_only_at_a_token (tokens : list Token) :
  ParseErrors.ends_with_eof tokens ->
  (forall e,
     Parser.parse tokens = Err e ->
     exists message found, e = ParseError message found /\ found ∈ tokens) /\
  Parser.parse [] = Err TypeError.
Proof.
  intros Heof. split; [|reflexivity].
  intros e H. by apply ParseErrorFacts.parse_failure_only.
Qed.

Lemma X4_parse_fails_only_at_a_token_witness :
  exists message found,
    ParseError "Expect ';' after assignment" (Grammar.tok EOF "" 6)
    = ParseError message found /\
    found ∈ [Grammar.tok ID "a" 1; Grammar.tok ASSIGN "=" 2;
             Grammar.tok NUM "1" 3; Grammar.tok EOF "" 6].
Proof.
  destruct (X4_parse_fails_only_at_a_token
              [Grammar.tok ID "a" 1; Grammar.tok ASSIGN "=" 2;
               Grammar.tok NUM "1" 3; Grammar.tok EOF "" 6]) as [H _].
  - by exists [Grammar.tok ID "a" 1; Grammar.tok ASSIGN "=" 2;
               Grammar.tok NUM "1" 3], (Grammar.tok EOF "" 6).
  - apply H. vm_compute. reflexivity.
Defined.

(** X5.  A tree returned by [parse] is a program whose statements are
    built by the statement productions and whose expressions are built
    by the expression productions; in particular the operator of every
    binary expression is one of the eleven for which the generator has
    an instruction, so none is passed over by its [switch]. *)
Theorem X5_parsed_trees_are_well_shaped
    (tokens : list Token) (ast : ASTNode) :
  Parser.parse tokens = Ok ast ->
  exists statements,
    ast = ProgramNode statements /\
    Forall (fun s => Shape.is_stmt s = true) statements.
Proof.
  intros H. apply ShapeFacts.parse_shape in H.
  destruct ast as [statements| | | | | | | | |]; try done.
  exists statements. split; [done|]. simpl in H.
  apply Is_true_true in H. rewrite forallb_forall in H.
  apply Forall_forall. intros s Hs. apply H. by apply list_elem_of_In.
Qed.

Lemma X5_parsed_trees_are_well_shaped_witness :
  exists statements,
    ProgramNode
      [PrintNode (BinaryExprNode (LiteralNode (Int 1)) (Grammar.tok PLUS "+" 8)
                    (LiteralNode (Int 2)))]
    = ProgramNode statements /\
    Forall (fun s => Shape.is_stmt s = true) statements.
Proof.
  apply (X5_parsed_trees_are_well_shaped
           [Grammar.tok KW_PRINT "print" 1; Grammar.tok LPAREN "(" 6;
            Grammar.tok NUM "1" 7; Grammar.tok PLUS "+" 8;
            Grammar.tok NUM "2" 9; Grammar.tok RPAREN ")" 10;
            Grammar.tok SEMI ";" 11; Grammar.tok EOF "" 12]).
  vm_compute. reflexivity.
Defined.


(** ** Chains of binary operators *)

(** X6.  Each of the three binary levels of the grammar folds a chain
    of any length to the left: when the tokens behind a first operand
    are operators of the level, each followed by an operand of the
    level, and the token behind the last operand is not an operator of
    the level, the loop returns the tree in which the operators are
    applied from left to right, and stops behind the last operand.
    With the levels nested as they are the multiplicative operators bind
    tighter than the additive ones, and these tighter than the
    comparisons. *)
Theorem X6_binary_levels_fold_to_the_left
    (ops : list TokenType) (operand : Parser.M ASTNode)
    (items : list (Token * ASTNode)) (first : ASTNode) (p p' : Parser.t)
    (following : Token) (r : list Token) (fuel : nat) :
  Chain.reads ops operand p items p' ->
  Parser.rest p' = following :: r ->
  type following ∉ ops ->
  length items < fuel ->
  Parser.binaryLoop ops operand fuel first p = Ok (Chain.tree first items, p') /\
  compile_and_run "print(2+3*4); print(10-4-3); print(2*3%4); print(1<2+3);"
  = Ok ["14"; "3"; "2"; "1"].
Proof.
  intros Hreads Hrest Hnot Hfuel. split; [|vm_compute; reflexivity].
  revert first p fuel Hreads Hfuel.
  induction items as [|[o rhs] items IH]; intros first p fuel Hreads Hfuel;
    simpl in Hreads.
  - subst p'. destruct fuel as [|fuel]; [simpl in Hfuel; lia|].
    by rewrite (ParserFacts.binaryLoop_exit _ _ _ _ _ _ _ Hrest Hnot).
  - destruct Hreads as (r1 & p1 & Hr1 & Hin & Hne & Hop & Hreads).
    destruct fuel as [|fuel]; [simpl in Hfuel; lia|].
    rewrite (ParserFacts.binaryLoop_turn _ _ _ _ _ _ _ _ _ Hr1 Hin Hne Hop).
    apply IH; [done|]. simpl in Hfuel. lia.
Qed.

Lemma X6_binary_levels_fold_to_the_left_witness :
  let a := Grammar.tok ID "a" 1 in
  let b := Grammar.tok NUM "2" 3 in
  let c := Grammar.tok NUM "3" 5 in
  let minus1 := Grammar.tok MINUS "-" 2 in
  let minus2 := Grammar.tok MINUS "-" 4 in
  let eof := Grammar.tok EOF "" 6 in
  let E := Parser.expression 3 in
  Parser.binaryLoop [PLUS; MINUS] (Parser.factor E 3) 3 (IdentifierNode 0 a)
    (Parser.mk [minus1; b; minus2; c; eof] (Some a) 1)
  = Ok (BinaryExprNode
          (BinaryExprNode (IdentifierNode 0 a) minus1 (LiteralNode (Int 2)))
          minus2 (LiteralNode (Int 3)),
        Parser.mk [eof] (Some c) 1).
Proof.
  intros a b c minus1 minus2 eof E.
  apply (X6_binary_levels_fold_to_the_left [PLUS; MINUS] (Parser.factor E 3)
           [(minus1, LiteralNode (Int 2)); (minus2, LiteralNode (Int 3))]
           (IdentifierNode 0 a)
           (Parser.mk [minus1; b; minus2; c; eof] (Some a) 1)
           (Parser.mk [eof] (Some c) 1) eof [] 3).
  - simpl. exists [b; minus2; c; eof], (Parser.mk [minus2; c; eof] (Some b) 1).
    split; [reflexivity|].
    split; [apply elem_of_cons; right; apply elem_of_cons; by left|].
    split; [done|]. split; [vm_compute; reflexivity|].
    exists [c; eof], (Parser.mk [eof] (Some c) 1).
    split; [reflexivity|].
    split; [apply elem_of_cons; right; apply elem_of_cons; by left|].
    split; [done|]. split; [vm_compute; reflexivity|]. reflexivity.
  - reflexivity.
  - simpl. intros Hin.
    repeat (apply elem_of_cons in Hin as [Hin|Hin]; [discriminate|]).
    by apply elem_of_nil in Hin.
  - simpl. lia.
Defined.


(** ** The slots the analyzer hands out *)

Module SlotFacts.
Import SemanticAnalyzer Scoping AnalyzerFacts Slots.

Lemma decls_flat_map (l : list ASTNode) :
  Forall (fun n => forall d, d ∈ decls n -> d ∈ refs n) l ->
  forall d, d ∈ flat_map decls l -> d ∈ flat_map refs l.
Proof.
  induction 1 as [|n l Hn _ IH]; intros d; simpl; [done|].
  rewrite !elem_of_app. intros [?|?]; auto.
Qed.

Lemma decls_refs node : forall d, d ∈ decls node -> d ∈ refs node.
Proof.
  induction node as
    [ss IH | ref name | ref name expr IH | expr IH | ss IH
    | cond thenB elseB IHc IHt IHe | cond body IHc IHb
    | lhs o rhs IHl IHr | val | ref name ] using ASTNode_ind;
    intros d; simpl.
  - by apply decls_flat_map.
  - done.
  - rewrite elem_of_app. auto.
  - apply IH.
  - by apply decls_flat_map.
  - rewrite !elem_of_app. destruct elseB as [e|]; simpl in *.
    + intros [?|[?|?]]; auto.
    + rewrite !elem_of_nil. intros [?|[?|?]]; auto.
  - rewrite !elem_of_app. intros [?|?]; auto.
  - rewrite !elem_of_app. intros [?|?]; auto.
  - done.
  - by rewrite elem_of_nil.
Qed.

Lemma tracks_refl n sa : decls n = [] -> tracks n sa sa.
Proof.
  intros Hn. unfold tracks. rewrite Hn. simpl.
  split; [lia|]. split; [done|]. by intros _ i d.
Qed.

Lemma tracks_seq n n1 n2 sa sa1 sa2 :
  splits n n1 n2 ->
  frame n1 sa sa1 -> tracks n1 sa sa1 ->
  frame n2 sa1 sa2 -> tracks n2 sa1 sa2 ->
  tracks n sa sa2.
Proof.
  intros (Hd & _ & Hnd) (G1 & C1 & W1 & M1 & K1 & D1) (T1 & B1 & S1)
         (G2 & C2 & W2 & M2 & K2 & D2) (T2 & B2 & S2).
  unfold tracks. rewrite Hd, length_app.
  split; [lia|]. split; [by auto|].
  intros (Hnd1 & Hnd2 & Hdisj)%Hnd i d [Hi|[Hlen Hi]]%lookup_app_Some.
  - rewrite M2; [by apply S1|].
    apply Hdisj, decls_refs. by eapply list_elem_of_lookup_2.
  - rewrite (S2 Hnd2 _ _ Hi). f_equal. lia.
Qed.

Lemma splits_app (l1 l2 : list ASTNode) :
  splits (ProgramNode (l1 ++ l2)) (ProgramNode l1) (ProgramNode l2).
Proof.
  unfold splits. simpl. rewrite !flat_map_app.
  split; [done|]. split; [intros r; by rewrite elem_of_app|].
  apply NoDup_app_disjoint.
Qed.

Lemma splits_parts (n n1 n2 : ASTNode) :
  decls n = decls n1 ++ decls n2 -> refs n = refs n1 ++ refs n2 ->
  splits n n1 n2.
Proof.
  intros Hd Hr. unfold splits. rewrite Hr.
  split; [done|]. split; [intros r; by rewrite elem_of_app|].
  apply NoDup_app_disjoint.
Qed.

Lemma visitVarDecl_tracks ref name sa sa' :
  visitVarDecl ref name sa = Ok sa' -> tracks (VarDeclNode ref name) sa sa'.
Proof.
  intros (top & outer & Hsc & Hfresh & ->)%ShadowFacts.visitVarDecl_Ok.
  unfold tracks, declared. simpl. split; [lia|]. split.
  - intros _ Hm r slot. unfold map_below_counter. simpl.
    destruct (decide (r = ref)) as [->|Hne].
    + rewrite lookup_insert_eq. intros [= <-]. lia.
    + rewrite lookup_insert_ne by done. intros H%Hm. lia.
  - intros _ [|i] d; simpl; [|done]. intros [= <-].
    rewrite lookup_insert_eq. f_equal. lia.
Qed.

Lemma record_use_tracks ref name sa sa' n :
  record_use ref name sa = Ok sa' -> decls n = [] -> tracks n sa sa'.
Proof.
  unfold record_use.
  destruct (resolve sa (lexeme name)) as [slot|] eqn:R; [|done].
  intros [= <-] Hn. unfold tracks. rewrite Hn. simpl.
  split; [lia|]. split; [|by intros _ i d].
  intros Hs Hm r s. unfold map_below_counter. simpl.
  destruct (decide (r = ref)) as [->|Hne].
  - rewrite lookup_insert_eq. intros [= <-].
    destruct (ShadowFacts.resolve_in_elem _ _ _ R) as (sc & Hin & Hx).
    by eapply Hs.
  - rewrite lookup_insert_ne by done. apply Hm.
Qed.

Lemma forEach_tracks statements :
  Forall (fun n => forall sa sa', visit n sa = Ok sa' -> tracks n sa sa')
    statements ->
  forall sa sa',
    forEach visit statements sa = Ok sa' ->
    tracks (ProgramNode statements) sa sa'.
Proof.
  induction 1 as [|n l Hn _ IH]; intros sa sa' H; simpl in H.
  - injection H as <-. by apply tracks_refl.
  - apply bind_Ok in H as (sa1 & H1 & H2).
    apply (tracks_seq (ProgramNode (n :: l)) n (ProgramNode l) sa sa1 sa').
    + by apply splits_parts.
    + by apply visit_frame.
    + by apply Hn.
    + by apply ShadowFacts.forEach_visit_frame.
    + by apply IH.
Qed.

Lemma visit_tracks node : forall sa sa',
  visit node sa = Ok sa' -> tracks node sa sa'.
Proof.
  induction node as
    [ss IH | ref name | ref name expr IH | expr IH | ss IH
    | cond thenB elseB IHc IHt IHe | cond body IHc IHb
    | lhs o rhs IHl IHr | val | ref name ] using ASTNode_ind;
    intros sa sa' H; simpl in H.
  - by apply forEach_tracks.
  - by apply visitVarDecl_tracks.
  - apply bind_Ok in H as (sa1 & H1 & H2).
    apply (tracks_seq _ expr (IdentifierNode ref name) sa sa1 sa').
    + apply splits_parts; simpl; [by rewrite app_nil_r|done].
    + by apply visit_frame.
    + by apply IH.
    + eapply record_use_frame; [done|]. intros r. simpl.
      apply list_elem_of_singleton.
    + by eapply record_use_tracks.
  - by apply IH.
  - apply bind_Ok in H as (sb & H1 & [= <-]).
    pose proof (ShadowFacts.forEach_visit_frame _ _ _ H1) as (G & C & W & _).
    apply (forEach_tracks _ IH) in H1 as (T & B & S).
    unfold tracks. simpl in *. split; [done|]. split; [|done].
    intros Hs Hm. apply B; [|done].
    intros sc x slot [->|Hsc]%elem_of_cons Hx; [done|]. by eapply Hs.
  - apply bind_Ok in H as (sa1 & H1 & H).
    apply bind_Ok in H as (sa2 & H2 & H3).
    assert (tracks (WhileNode cond thenB) sa sa2) as Hct.
    { apply (tracks_seq _ cond thenB sa sa1 sa2);
        [by apply splits_parts | by apply visit_frame | by apply IHc
        | by apply visit_frame | by apply IHt]. }
    assert (frame (WhileNode cond thenB) sa sa2) as Fct.
    { eapply (frame_trans cond thenB); [by apply visit_frame..|].
      intros r. simpl. by rewrite elem_of_app. }
    destruct elseB as [e|]; simpl in *.
    + apply (tracks_seq _ (WhileNode cond thenB) e sa sa2 sa');
        [|done|done|by apply visit_frame|by apply IHe].
      apply splits_parts; simpl; by rewrite app_assoc.
    + injection H3 as <-.
      destruct Hct as (T & B & S). unfold tracks. simpl in *.
      by rewrite !app_nil_r.
  - apply bind_Ok in H as (sa1 & H1 & H2).
    apply (tracks_seq _ cond body sa sa1 sa');
      [by apply splits_parts | by apply visit_frame | by apply IHc
      | by apply visit_frame | by apply IHb].
  - apply bind_Ok in H as (sa1 & H1 & H2).
    apply (tracks_seq _ lhs rhs sa sa1 sa');
      [by apply splits_parts | by apply visit_frame | by apply IHl
      | by apply visit_frame | by apply IHr].
  - injection H as <-. by apply tracks_refl.
  - by eapply record_use_tracks.
Qed.

End SlotFacts.

Module BindingErrors.
Import SemanticAnalyzer Scoping AnalyzerFacts Slots.

Lemma grows_nonempty scs scs' : grows scs scs' -> scs <> [] -> scs' <> [].
Proof. by destruct scs, scs'. Qed.

Lemma visit_nonempty node sa sa' :
  visit node sa = Ok sa' -> scopes sa <> [] -> scopes sa' <> [].
Proof.
  intros (G & _)%visit_frame. by apply grows_nonempty.
Qed.

Lemma record_use_error ref name sa e :
  record_use ref name sa = Err e -> is_binding_error e.
Proof.
  unfold record_use. destruct (resolve sa (lexeme name)); [done|].
  by intros [= <-].
Qed.

Lemma forEach_error statements :
  Forall (fun n => forall sa e,
            visit n sa = Err e -> scopes sa <> [] -> is_binding_error e)
    statements ->
  forall sa e,
    forEach visit statements sa = Err e -> scopes sa <> [] ->
    is_binding_error e.
Proof.
  induction 1 as [|n l Hn _ IH]; intros sa e H Hsc; simpl in H; [done|].
  destruct (visit n sa) as [sa1|e1] eqn:E; simpl in H.
  - eapply IH; [done|]. by eapply visit_nonempty.
  - injection H as <-. by eapply Hn.
Qed.

(** With a scope on the stack, the analyzer fails only with one of its
    own two errors. *)
Lemma visit_error node : forall sa e,
  visit node sa = Err e -> scopes sa <> [] -> is_binding_error e.
Proof.
  induction node as
    [ss IH | ref name | ref name expr IH | expr IH | ss IH
    | cond thenB elseB IHc IHt IHe | cond body IHc IHb
    | lhs o rhs IHl IHr | val | ref name ] using ASTNode_ind;
    intros sa e H Hsc; simpl in H.
  - by eapply forEach_error.
  - unfold visitVarDecl in H. destruct (scopes sa) as [|top outer]; [done|].
    destruct (top !! lexeme name); [|done]. by injection H as <-.
  - destruct (visit expr sa) as [sa1|e1] eqn:E; simpl in H.
    + by eapply record_use_error.
    + injection H as <-. by eapply IH.
  - by eapply IH.
  - destruct (forEach visit ss (enterScope sa)) as [sb|e1] eqn:E;
      simpl in H; [done|].
    injection H as <-. by eapply (forEach_error ss IH (enterScope sa)).
  - destruct (visit cond sa) as [sa1|e1] eqn:E1; simpl in H;
      [|injection H as <-; by eapply IHc].
    pose proof (visit_nonempty _ _ _ E1 Hsc) as Hsc1.
    destruct (visit thenB sa1) as [sa2|e2] eqn:E2; simpl in H;
      [|injection H as <-; by eapply IHt].
    pose proof (visit_nonempty _ _ _ E2 Hsc1) as Hsc2.
    destruct elseB as [el|]; simpl in *; [by eapply IHe|done].
  - destruct (visit cond sa) as [sa1|e1] eqn:E1; simpl in H;
      [|injection H as <-; by eapply IHc].
    eapply IHb; [done|]. by eapply visit_nonempty.
  - destruct (visit lhs sa) as [sa1|e1] eqn:E1; simpl in H;
      [|injection H as <-; by eapply IHl].
    eapply IHr; [done|]. by eapply visit_nonempty.
  - done.
  - by eapply record_use_error.
Qed.

End BindingErrors.

(** X7.  A block gives back the scopes it found: after a successful
    visit of a block every name resolves as before it, so a name declared
    only inside is undeclared again behind it.  The counter is not given
    back: it stays advanced by the number of declarations inside. *)
Theorem X7_block_restores_scopes_keeps_counter
    (statements : list ASTNode) (sa sa' : SemanticAnalyzer.t) :
  SemanticAnalyzer.visit (BlockNode statements) sa = Ok sa' ->
  SemanticAnalyzer.scopes sa' = SemanticAnalyzer.scopes sa /\
  (forall x, SemanticAnalyzer.resolve sa' x = SemanticAnalyzer.resolve sa x) /\
  (forall ref name,
     SemanticAnalyzer.resolve sa (lexeme name) = None ->
     SemanticAnalyzer.visit (IdentifierNode ref name) sa'
     = Err (UndeclaredVariable (lexeme name) (line name))) /\
  SemanticAnalyzer.slotCounter sa'
  = SemanticAnalyzer.slotCounter sa
    + length (Slots.decls (BlockNode statements)).
Proof.
  intros H.
  pose proof (SlotFacts.visit_tracks _ _ _ H) as (Hcounter & _).
  simpl in H. apply AnalyzerFacts.bind_Ok in H as (sb & Hbody & [= <-]).
  pose proof (ShadowFacts.forEach_visit_frame _ _ _ Hbody) as (G & _).
  assert (SemanticAnalyzer.scopes (SemanticAnalyzer.exitScope sb)
          = SemanticAnalyzer.scopes sa) as Hsc.
  { apply AnalyzerFacts.grows_tl in G. simpl in *. by rewrite <- G. }
  assert (forall x, SemanticAnalyzer.resolve (SemanticAnalyzer.exitScope sb) x
                    = SemanticAnalyzer.resolve sa x) as Hres.
  { intros x. unfold SemanticAnalyzer.resolve. by rewrite Hsc. }
  split; [done|]. split; [done|]. split; [|done].
  intros ref name Hx. simpl. unfold SemanticAnalyzer.record_use.
  by rewrite Hres, Hx.
Qed.

Lemma X7_block_restores_scopes_keeps_counter_witness :
  let x := Scoping.x_at 3 in
  let block := [VarDeclNode 0 x; AssignNode 1 x (LiteralNode (Int 1))] in
  let sa' := Scoping.state_after_visiting [BlockNode block] SemanticAnalyzer.init in
  SemanticAnalyzer.scopes sa' = [∅] /\
  SemanticAnalyzer.visit (IdentifierNode 2 x) sa' = Err (UndeclaredVariable "x" 1) /\
  SemanticAnalyzer.slotCounter sa' = 1.
Proof.
  intros x block sa'.
  destruct (X7_block_restores_scopes_keeps_counter block
              SemanticAnalyzer.init sa') as (Hsc & _ & Hundeclared & Hcounter).
  - vm_compute. reflexivity.
  - split; [exact Hsc|]. split; [|exact Hcounter].
    apply (Hundeclared 2 x). vm_compute. reflexivity.
Defined.

(** X8.  In a parsed program the declarations receive the slots 0, 1,
    2, ... in the order in which they stand in the text, whatever the
    blocks they are in: no slot is given twice. *)
Theorem X8_declarations_get_successive_slots
    (tokens : list Token) (ast : ASTNode) (varToSlot : gmap nat nat) :
  Parser.parse tokens = Ok ast ->
  SemanticAnalyzer.analyze ast = Ok varToSlot ->
  (forall i d, Slots.decls ast !! i = Some d -> varToSlot !! d = Some i) /\
  (forall i j d d',
     Slots.decls ast !! i = Some d -> Slots.decls ast !! j = Some d' ->
     i <> j -> varToSlot !! d <> varToSlot !! d').
Proof.
  intros Hparse Hanalyze.
  apply ParserRefs.parse_refs_distinct in Hparse as Hnd.
  unfold SemanticAnalyzer.analyze in Hanalyze.
  apply AnalyzerFacts.bind_Ok in Hanalyze as (sa & Hvisit & [= <-]).
  pose proof (SlotFacts.visit_tracks _ _ _ Hvisit) as (_ & _ & Hslots).
  assert (forall i d, Slots.decls ast !! i = Some d ->
                      SemanticAnalyzer.varToSlot sa !! d = Some i) as H.
  { intros i d Hi. by rewrite (Hslots Hnd i d Hi). }
  split; [done|].
  intros i j d d' Hi Hj Hne. rewrite (H i d Hi), (H j d' Hj). congruence.
Qed.

Lemma X8_declarations_get_successive_slots_witness :
  exists ast varToSlot,
    (do tokens <- Lexer.tokenize "int a; { int b; } { int a; }";
     Parser.parse tokens) = Ok ast /\
    SemanticAnalyzer.analyze ast = Ok varToSlot /\
    Slots.decls ast = [0; 1; 2] /\
    varToSlot !! 0 = Some 0 /\ varToSlot !! 1 = Some 1 /\ varToSlot !! 2 = Some 2.
Proof.
  destruct (Lexer.tokenize "int a; { int b; } { int a; }") as [tokens|] eqn:Ht;
    [|vm_compute in Ht; discriminate Ht].
  destruct (Parser.parse tokens) as [ast|] eqn:Hp;
    [|vm_compute in Ht; injection Ht as <-; vm_compute in Hp; discriminate Hp].
  destruct (SemanticAnalyzer.analyze ast) as [m|] eqn:Ha;
    [|vm_compute in Ht; injection Ht as <-; vm_compute in Hp;
      injection Hp as <-; vm_compute in Ha; discriminate Ha].
  exists ast, m. split; [done|]. split; [done|].
  destruct (X8_declarations_get_successive_slots tokens ast m Hp Ha) as [H _].
  assert (Slots.decls ast = [0; 1; 2]) as Hd.
  { vm_compute in Ht. injection Ht as <-. vm_compute in Hp. injection Hp as <-.
    reflexivity. }
  split; [done|]. rewrite Hd in H.
  split; [exact (H 0 0 eq_refl)|]. split; [exact (H 1 1 eq_refl)|].
  exact (H 2 2 eq_refl).
Defined.

(** X9.  After a successful analysis the resolution map is defined on
    the declarations, assignments and identifiers of the tree and on
    nothing else, and every slot in it is below the number of
    declarations of the program. *)
Theorem X9_map_covers_tree_with_slots_in_range
    (ast : ASTNode) (varToSlot : gmap nat nat) :
  SemanticAnalyzer.analyze ast = Ok varToSlot ->
  (forall r, is_Some (varToSlot !! r) <-> r ∈ Scoping.refs ast) /\
  (forall r slot, varToSlot !! r = Some slot -> slot < length (Slots.decls ast)).
Proof.
  unfold SemanticAnalyzer.analyze.
  intros (sa & Hvisit & [= <-])%AnalyzerFacts.bind_Ok.
  pose proof (AnalyzerFacts.visit_frame _ _ _ Hvisit) as (_ & _ & _ & M & _ & D).
  pose proof (SlotFacts.visit_tracks _ _ _ Hvisit) as (Hcounter & Hbelow & _).
  split.
  - intros r. split; [|by apply D].
    intros Hr. destruct (decide (r ∈ Scoping.refs ast)) as [|Hnot]; [done|].
    rewrite (M r Hnot) in Hr. simpl in Hr. rewrite lookup_empty in Hr.
    by destruct Hr.
  - intros r slot Hr. simpl in Hcounter. rewrite <- Hcounter.
    apply (Hbelow slots_below_counter_init) in Hr; [done|].
    intros r' slot'. simpl. by rewrite lookup_empty.
Qed.

Lemma X9_map_covers_tree_with_slots_in_range_witness :
  let ast :=
    ProgramNode [VarDeclNode 0 (Scoping.x_at 5);
                 AssignNode 2 (Scoping.x_at 8)
                   (IdentifierNode 1 (Scoping.x_at 10))] in
  exists varToSlot,
    SemanticAnalyzer.analyze ast = Ok varToSlot /\
    (forall r, is_Some (varToSlot !! r) <-> r ∈ [0; 1; 2]) /\
    (forall r slot, varToSlot !! r = Some slot -> slot < 1).
Proof.
  intros ast.
  destruct (SemanticAnalyzer.analyze ast) as [m|] eqn:Ha;
    [|vm_compute in Ha; discriminate Ha].
  exists m. split; [done|].
  exact (X9_map_covers_tree_with_slots_in_range ast m Ha).
Defined.

(** ** The instructions the generator emits *)

Module EmittedFacts.
Import CodeGenerator Layout Emitted.

Section WithMap.
Variable m : gmap nat nat.

Lemma from_wider rs rs' inst :
  (forall r, r ∈ rs -> r ∈ rs') -> from m rs inst -> from m rs' inst.
Proof.
  unfold from. intros Hsub. destruct (op inst); try done.
  - intros (r & Hr & Ho). eauto.
  - intros (r & Hr & Ho). eauto.
Qed.

Lemma Forall_from_wider rs rs' (l : list (Instruction * nat)) :
  (forall r, r ∈ rs -> r ∈ rs') ->
  Forall (fun a => from m rs a.1) l -> Forall (fun a => from m rs' a.1) l.
Proof.
  intros Hsub H. eapply Forall_impl; [exact H|]. intros a. by apply from_wider.
Qed.

Lemma sequence_emitted h statements :
  Forall (fun n => forall h base,
            Forall (fun a => from m (Scoping.refs n) a.1) (acode m h base n))
    statements ->
  forall base,
    Forall (fun a => from m (flat_map Scoping.refs statements) a.1)
      (sequence (acode m h) base statements).
Proof.
  induction 1 as [|n l Hn _ IH]; intros base; simpl; [done|].
  apply Forall_app. split.
  - eapply Forall_from_wider; [|apply Hn]. intros r Hr. apply elem_of_app. by left.
  - eapply Forall_from_wider; [|apply IH]. intros r Hr. apply elem_of_app. by right.
Qed.

Ltac emitted_split :=
  repeat first
    [ apply Forall_nil_2
    | apply Forall_cons; split
    | apply Forall_app; split ].

Ltac emitted_part IH :=
  eapply Forall_from_wider; [|apply IH];
  intros r Hr; simpl; rewrite ?elem_of_app; auto.

Ltac emitted_one := unfold from; simpl; eauto.

(** Every instruction of the code of a tree is one the generator can
    emit for it. *)
Lemma acode_emitted node : forall h base,
  Forall (fun a => from m (Scoping.refs node) a.1) (acode m h base node).
Proof.
  induction node as
    [ss IH | ref name | ref name expr IH | expr IH | ss IH
    | cond thenB elseB IHc IHt IHe | cond body IHc IHb
    | lhs o rhs IHl IHr | val | ref name ] using ASTNode_ind;
    intros h base; simpl.
  - by apply sequence_emitted.
  - emitted_split; [emitted_one|].
    unfold from. simpl. exists ref.
    split; [apply list_elem_of_singleton|]; done.
  - emitted_split; [emitted_part IH|].
    unfold from. simpl. exists ref.
    split; [|done]. apply elem_of_app. right. by apply list_elem_of_singleton.
  - emitted_split; [apply IH|emitted_one].
  - by apply sequence_emitted.
  - destruct elseB as [e|]; simpl in *.
    + emitted_split;
        [emitted_part IHc | emitted_one | emitted_part IHt | emitted_one
        | emitted_part IHe].
    + emitted_split; [emitted_part IHc | emitted_one | emitted_part IHt].
  - emitted_split;
      [emitted_part IHc | emitted_one | emitted_part IHb | emitted_one].
  - apply Forall_app; split; [emitted_part IHl|].
    apply Forall_app; split; [emitted_part IHr|].
    destruct (binaryOpCode (type o)) as [oc|] eqn:Hoc; [|done].
    apply Forall_singleton. unfold from. simpl.
    destruct (type o); simpl in Hoc; try discriminate Hoc;
      by injection Hoc as <-.
  - emitted_split. emitted_one.
  - emitted_split. unfold from. simpl. exists ref.
    split; [apply list_elem_of_singleton|]; done.
Qed.

(** Moving a whole fragment [base] places further. *)
Lemma relocate_plus b1 b2 inst :
  relocate b1 (relocate b2 inst) = relocate (b2 + b1) inst.
Proof.
  unfold relocate, is_jumpb.
  destruct inst as [o opd c]. destruct o; simpl; try done.
  all: destruct opd as [[t| | |]|]; simpl; try done; do 3 f_equal; lia.
Qed.

Lemma relocate_0 inst : relocate 0 inst = inst.
Proof.
  unfold relocate, is_jumpb.
  destruct inst as [o opd c]. destruct o; simpl; try done.
  all: destruct opd as [[t| | |]|]; simpl; try done; do 3 f_equal; lia.
Qed.

Lemma sequence_relocated h statements :
  Forall (fun n => forall h base,
            acode m h base n = relocate_annotated base <$> acode m h 0 n)
    statements ->
  forall base,
    sequence (acode m h) base statements
    = relocate_annotated base <$> sequence (acode m h) 0 statements.
Proof.
  induction 1 as [|n l Hn _ IH]; intros base; simpl; [done|].
  rewrite fmap_app, <- Hn. f_equal.
  rewrite (IH (base + _)), (IH (length (acode m h 0 n))).
  rewrite <- list_fmap_compose.
  rewrite (Hn h base), length_fmap.
  apply list_fmap_ext. intros i [inst k] _. unfold relocate_annotated. simpl.
  f_equal. rewrite relocate_plus. f_equal. lia.
Qed.

End WithMap.
End EmittedFacts.

Module RelocateFacts.
Import CodeGenerator Layout Emitted EmittedFacts.

Section WithMap.
Variable m : gmap nat nat.

Lemma shifted n :
  (forall h base, acode m h base n = relocate_annotated base <$> acode m h 0 n) ->
  forall h b0 base,
    acode m h (base + b0) n = relocate_annotated base <$> acode m h b0 n.
Proof.
  intros H h b0 base. rewrite (H h (base + b0)), (H h b0).
  rewrite <- list_fmap_compose. apply list_fmap_ext.
  intros i [inst k] _. unfold relocate_annotated. simpl.
  f_equal. rewrite relocate_plus. f_equal. lia.
Qed.

Lemma same_length n :
  (forall h base, acode m h base n = relocate_annotated base <$> acode m h 0 n) ->
  forall h base, length (acode m h base n) = length (acode m h 0 n).
Proof. intros H h base. by rewrite (H h base), length_fmap. Qed.

Lemma relocate_jump base o t c h :
  is_jumpb (mkInstruction o (Some (Int (Z.of_nat t))) c) = true ->
  relocate_annotated base (ins o (Some (Int (Z.of_nat t))) c h)
  = ins o (Some (Int (Z.of_nat (base + t)))) c h.
Proof.
  intros Hj. unfold relocate_annotated, relocate, ins. simpl. rewrite Hj.
  simpl. do 4 f_equal. lia.
Qed.

Ltac fmap_norm :=
  repeat first [rewrite fmap_app | rewrite fmap_cons | rewrite fmap_nil].

Ltac same_code := repeat first [reflexivity | lia | progress f_equal].

(** The code of a tree placed at [base] is its code placed at 0, moved
    [base] places further. *)
Lemma acode_relocated node : forall h base,
  acode m h base node = relocate_annotated base <$> acode m h 0 node.
Proof.
  induction node as
    [ss IH | ref name | ref name expr IH | expr IH | ss IH
    | cond thenB elseB IHc IHt IHe | cond body IHc IHb
    | lhs o rhs IHl IHr | val | ref name ] using ASTNode_ind;
    intros h base; simpl.
  - by apply sequence_relocated.
  - done.
  - by rewrite fmap_app, <- IH.
  - by rewrite fmap_app, <- IH.
  - by apply sequence_relocated.
  - pose proof (same_length cond IHc h base) as Lc.
    destruct elseB as [e|]; simpl in *.
    + fmap_norm. rewrite <- IHc, Lc.
      set (nc := length (acode m h 0 cond)).
      replace (base + nc + 1) with (base + (nc + 1)) by lia.
      rewrite (shifted thenB IHt h (nc + 1) base), length_fmap.
      set (tc := acode m h (nc + 1) thenB).
      replace (base + (nc + 1) + length tc + 1)
        with (base + (nc + 1 + length tc + 1)) by lia.
      rewrite (shifted e IHe h _ base), length_fmap.
      rewrite !relocate_jump by done. same_code.
    + fmap_norm. rewrite <- IHc, Lc.
      set (nc := length (acode m h 0 cond)).
      replace (base + nc + 1) with (base + (nc + 1)) by lia.
      rewrite (shifted thenB IHt h (nc + 1) base), length_fmap.
      rewrite !relocate_jump by done. same_code.
  - pose proof (same_length cond IHc h base) as Lc.
    fmap_norm. rewrite <- IHc, Lc.
    set (nc := length (acode m h 0 cond)).
    replace (base + nc + 1) with (base + (nc + 1)) by lia.
    rewrite (shifted body IHb h (nc + 1) base), length_fmap.
    rewrite !relocate_jump by done. same_code.
  - pose proof (same_length lhs IHl h base) as Ll.
    fmap_norm. rewrite <- IHl, Ll.
    replace (base + length (acode m h 0 lhs))
      with (base + (0 + length (acode m h 0 lhs))) by lia.
    rewrite (shifted rhs IHr (S h) _ base). simpl.
    do 2 f_equal. by destruct (type o).
  - done.
  - done.
Qed.

End WithMap.
End RelocateFacts.

(** X10.  Whatever the tree and the map, the generator succeeds, and
    the sequence it returns ends with a [HALT] and holds no other: the
    visit of a tree never emits one. *)
Theorem X10_code_ends_with_its_only_halt
    (varToSlot : gmap nat nat) (program : ASTNode) :
  exists body,
    CodeGenerator.generate varToSlot program
    = Ok (body ++ [mkInstruction HALT None None]) /\
    Forall (fun inst => op inst <> HALT) body.
Proof.
  exists ((Layout.acode varToSlot 0 0 program).*1). split.
  - rewrite CodegenFacts.generate_annotated. unfold Layout.annotated.
    by rewrite fmap_app.
  - apply Forall_fmap.
    eapply Forall_impl; [apply EmittedFacts.acode_emitted|].
    intros [inst h]. unfold Emitted.from. simpl. intros H Hop.
    by rewrite Hop in H.
Qed.

(** X11.  In the code generated for an analyzed program, every [LOAD]
    and [STORE] has an operand, and it is a slot below the number of
    declarations of the program. *)
Theorem X11_slot_accesses_stay_in_range
    (ast : ASTNode) (varToSlot : gmap nat nat) (code : list Instruction) :
  SemanticAnalyzer.analyze ast = Ok varToSlot ->
  CodeGenerator.generate varToSlot ast = Ok code ->
  forall inst,
    inst ∈ code -> Emitted.is_slot_access inst ->
    exists slot,
      operand inst = Some (Int (Z.of_nat slot)) /\ slot < length (Slots.decls ast).
Proof.
  unfold SemanticAnalyzer.analyze.
  intros (sa & Hvisit & [= <-])%AnalyzerFacts.bind_Ok Hgen inst Hin Hacc.
  pose proof (AnalyzerFacts.visit_frame _ _ _ Hvisit) as (_ & _ & _ & _ & _ & D).
  pose proof (SlotFacts.visit_tracks _ _ _ Hvisit) as (Hcounter & Hbelow & _).
  rewrite CodegenFacts.generate_annotated in Hgen. injection Hgen as <-.
  unfold Layout.annotated in Hin. rewrite fmap_app in Hin.
  apply elem_of_app in Hin as [Hin|Hin].
  - apply list_elem_of_fmap in Hin as ([inst' h] & -> & Hin).
    pose proof (EmittedFacts.acode_emitted (SemanticAnalyzer.varToSlot sa)
                  ast 0 0) as Hall.
    rewrite Forall_forall in Hall. specialize (Hall _ Hin). simpl in *.
    assert (exists r, r ∈ Scoping.refs ast /\
              operand inst' = CodeGenerator.slotOf (SemanticAnalyzer.varToSlot sa) r)
      as (r & Hr & Hop).
    { unfold Emitted.from in Hall. by destruct Hacc as [Ho|Ho]; rewrite Ho in Hall. }
    destruct (D r Hr) as [slot Hslot].
    exists slot. split.
    + rewrite Hop. unfold CodeGenerator.slotOf. by rewrite Hslot.
    + simpl in Hcounter. rewrite <- Hcounter.
      apply (Hbelow slots_below_counter_init) in Hslot; [done|].
      intros r' slot'. simpl. by rewrite lookup_empty.
  - simpl in Hin. apply list_elem_of_singleton in Hin as ->.
    by destruct Hacc.
Qed.

Lemma X11_slot_accesses_stay_in_range_witness :
  let ast :=
    ProgramNode [VarDeclNode 0 (Scoping.x_at 5);
                 PrintNode (IdentifierNode 1 (Scoping.x_at 14))] in
  let load := mkInstruction LOAD (Some (Int 0)) (Some "load x") in
  exists slot, operand load = Some (Int (Z.of_nat slot)) /\ slot < 1.
Proof.
  intros ast load.
  apply (X11_slot_accesses_stay_in_range ast
           (<[1 := 0]> (<[0 := 0]> ∅))
           [mkInstruction PUSH_INT (Some (Int 0)) (Some "init x");
            mkInstruction STORE (Some (Int 0)) None;
            load;
            mkInstruction PRINT None None;
            mkInstruction HALT None None]).
  - vm_compute. reflexivity.
  - vm_compute. reflexivity.
  - do 2 (apply elem_of_cons; right). apply elem_of_cons. by left.
  - by left.
Defined.

(** X12.  A visit only appends: the instructions emitted before it are
    returned unchanged in front, although jumps are patched in place.
    What it appends after [instructions] is what it emits into an empty
    sequence, with the operand of every jump moved by the number of
    instructions in front and nothing else changed. *)
Theorem X12_visit_appends_relocated_code
    (varToSlot : gmap nat nat) (node : ASTNode) :
  exists code0,
    CodeGenerator.visit varToSlot node [] = Ok code0 /\
    forall instructions,
      CodeGenerator.visit varToSlot node instructions
      = Ok (instructions
            ++ (Emitted.relocate (length instructions) <$> code0)).
Proof.
  exists ((Layout.acode varToSlot 0 0 node).*1). split.
  - by rewrite (CodegenFacts.visit_acode varToSlot node [] 0).
  - intros instructions.
    rewrite (CodegenFacts.visit_acode varToSlot node instructions 0).
    rewrite (RelocateFacts.acode_relocated varToSlot node 0 (length instructions)).
    do 2 f_equal. rewrite <- !list_fmap_compose.
    apply list_fmap_ext. by intros i [inst h] _.
Qed.

(** ** The VM on arbitrary code *)

Module RunFacts.
Import VM Exec ExecFacts Run.

Lemma fetch_elem vm inst : fetch vm = Some inst -> inst ∈ bytecode vm.
Proof.
  unfold fetch. destruct (ip vm) as [[i| | |]|]; try done.
  - destruct (i <? 0)%Z; [done|]. apply list_elem_of_lookup_2.
  - apply list_elem_of_lookup_2.
Qed.

Lemma missing_is_negative vm :
  ip_lt_length vm = true -> fetch vm = None ->
  exists i, ip vm = Some i /\ JS.ltb i (Int 0) = true.
Proof.
  unfold ip_lt_length, fetch. destruct (ip vm) as [i|]; [|done].
  intros Hlt Hf. exists i. split; [done|].
  destruct i as [i| |[|]|]; try done.
  - rewrite JSFacts.ltb_Int in *. destruct (Z.ltb_spec i 0) as [|Hi]; [done|].
    apply lookup_ge_None in Hf. lia.
  - change (JS.ltb NegZero ?n) with (JS.ltb (Int 0) n) in Hlt.
    rewrite JSFacts.ltb_Int in Hlt. apply lookup_ge_None in Hf. lia.
Qed.

Lemma step_ip_not_negative vm vm' :
  no_negative_jump (bytecode vm) ->
  ip_not_negative vm -> step vm = Some vm' -> ip_not_negative vm'.
Proof.
  intros Hj Hip. unfold step.
  destruct (ip_lt_length vm); [|done].
  destruct (fetch vm) as [inst|] eqn:Hf; [|done].
  pose proof (fetch_elem _ _ Hf) as Hin.
  assert (forall i, next (ip vm) = Some i -> JS.ltb i (Int 0) = false)
    as Hnext.
  { intros i. unfold next. destruct (ip vm) as [k|] eqn:Hk; [|by intros [= <-]].
    specialize (Hip k Hk).
    destruct k as [k| |[|]|]; intros [= <-]; try done.
    rewrite JSFacts.ltb_Int in *. lia. }
  unfold dispatch, binary.
  destruct (op inst) eqn:Hop; repeat (destruct (pop _));
    try destruct (JS.strictEq _ _); try done;
    intros [= <-]; unfold ip_not_negative; simpl; try done;
    intros i Hi; apply (Hj inst i Hin); try done;
    unfold Layout.is_jump; auto.
Qed.

Lemma state_after_ip_not_negative n : forall vm vm',
  no_negative_jump (bytecode vm) ->
  ip_not_negative vm -> state_after n vm = Some vm' -> ip_not_negative vm'.
Proof.
  induction n as [|n IH]; intros vm vm' Hj Hip H; simpl in H.
  - by injection H as <-.
  - destruct (step vm) as [vm1|] eqn:E; [|done].
    apply (IH vm1); [|by eapply step_ip_not_negative|done].
    by rewrite (state_after_bytecode 1 vm vm1) by (simpl; by rewrite E).
Qed.

(** [run] raises only from a state in which the instruction is missing. *)
Lemma raise_is_missing vm e :
  run vm = Err e ->
  exists n vm', state_after n (reset vm) = Some vm' /\ at_missing vm'.
Proof.
  unfold run, run_full.
  destruct (state_after MAX_ITERATIONS (reset vm)) as [vm'|] eqn:E.
  - rewrite (loop_running _ 0 _ _ E). simpl "+". by rewrite Nat.leb_refl.
  - destruct (OutcomeFacts.state_after_first_stop _ _ E)
      as (n & vm' & Hn & Hvm' & Hstop).
    rewrite (loop_stops n MAX_ITERATIONS 0 _ vm' Hvm' Hstop Hn).
    destruct (ip_lt_length vm') eqn:Hlt.
    + destruct (fetch vm') as [inst|] eqn:Hf; [done|].
      intros _. exists n, vm'. split; [done|]. split; [done|]. split; [done|].
      by apply missing_is_negative.
    + by destruct (MAX_ITERATIONS <=? 0 + n)%nat.
Qed.

End RunFacts.

(** X13.  Whatever the code and whatever the VM object, [run] ends in one
    of four ways, told by the first state in which the loop body does not
    complete: a [HALT] is dispatched and the output is returned; [ip] is
    no longer below the length and the output is returned, without the
    sentinel; [ip] is negative and reading the instruction raises; or
    100,000 dispatches went through and the output is returned with the
    sentinel line.  The dispatch count never exceeds 100,000. *)
Theorem X13_run_ends_in_one_of_four_ways (vm : VM.t) :
  let start := VM.reset vm in
  (exists n vm',
     n < VM.MAX_ITERATIONS /\ Exec.state_after n start = Some vm' /\
     Exec.at_halt vm' /\
     VM.run_full vm = (Ok (VM.output vm'), S n, vm')) \/
  (exists n vm',
     n < VM.MAX_ITERATIONS /\ Exec.state_after n start = Some vm' /\
     Exec.left_code vm' /\
     VM.run_full vm = (Ok (VM.output vm'), n, vm')) \/
  (exists n vm',
     n < VM.MAX_ITERATIONS /\ Exec.state_after n start = Some vm' /\
     Run.at_missing vm' /\
     VM.run_full vm = (Err TypeError, S n, vm')) \/
  (exists vm',
     Exec.state_after VM.MAX_ITERATIONS start = Some vm' /\
     VM.run_full vm
       = (Ok (VM.output vm' ++ [VM.sentinel]), VM.MAX_ITERATIONS,
          Cap.with_sentinel vm')).
Proof.
  intros start. unfold VM.run_full. fold start.
  destruct (Exec.state_after VM.MAX_ITERATIONS start) as [vm'|] eqn:E.
  - right. right. right. exists vm'. split; [done|].
    rewrite (ExecFacts.loop_running _ 0 _ _ E). simpl "+".
    by rewrite Nat.leb_refl.
  - destruct (OutcomeFacts.state_after_first_stop _ _ E)
      as (n & vm' & Hn & Hvm' & Hstop).
    rewrite (ExecFacts.loop_stops n VM.MAX_ITERATIONS 0 _ vm' Hvm' Hstop Hn).
    simpl "+". unfold Exec.step in Hstop.
    destruct (VM.ip_lt_length vm') eqn:Hlt.
    + destruct (VM.fetch vm') as [inst|] eqn:Hf.
      * left. exists n, vm'. split; [exact Hn|]. split; [exact Hvm'|].
        split; [|reflexivity]. split; [exact Hlt|].
        exists inst. split; [exact Hf|].
        by apply (ExecFacts.dispatch_halt inst vm').
      * right. right. left. exists n, vm'.
        split; [exact Hn|]. split; [exact Hvm'|]. split; [|reflexivity].
        split; [exact Hlt|]. split; [exact Hf|].
        by apply RunFacts.missing_is_negative.
    + right. left. exists n, vm'.
      split; [exact Hn|]. split; [exact Hvm'|]. split; [exact Hlt|].
      assert ((VM.MAX_ITERATIONS <=? n)%nat = false) as ->
        by (apply Nat.leb_gt; lia).
      done.
Qed.

(** X14.  Code without a negative jump operand never makes [run] raise,
    whatever else it does: popping an empty stack, a missing operand, a
    jump beyond the end or without operand all let [run] return.  A
    negative jump operand does raise. *)
Theorem X14_run_raises_only_on_negative_jump (vm : VM.t) :
  Run.no_negative_jump (VM.bytecode vm) ->
  (exists out, VM.run vm = Ok out) /\
  VM.run (VM.new Run.jump_back_before_start) = Err TypeError.
Proof.
  intros Hj. split; [|vm_compute; reflexivity].
  destruct (VM.run vm) as [out|e] eqn:Hrun; [by exists out|].
  destruct (RunFacts.raise_is_missing vm e Hrun)
    as (n & vm' & Hvm' & _ & _ & i & Hi & Hneg).
  assert (Run.ip_not_negative (VM.reset vm)) as H0.
  { intros k. simpl. by intros [= <-]. }
  pose proof (RunFacts.state_after_ip_not_negative n (VM.reset vm) vm'
                Hj H0 Hvm' i Hi).
  congruence.
Qed.

Lemma X14_run_raises_only_on_negative_jump_witness :
  (exists out,
     VM.run (VM.new [mkInstruction ADD None None;
                     mkInstruction PRINT None None;
                     mkInstruction JMP None None]) = Ok out) /\
  VM.run (VM.new Run.jump_back_before_start) = Err TypeError.
Proof.
  apply (X14_run_raises_only_on_negative_jump
           (VM.new [mkInstruction ADD None None;
                    mkInstruction PRINT None None;
                    mkInstruction JMP None None])).
  intros inst z Hin Hjump Hop. simpl in Hin.
  repeat (apply elem_of_cons in Hin as [->|Hin]; [by simpl in Hop|]).
  by apply elem_of_nil in Hin.
Defined.

(** ** Division by zero *)

(** X15.  Dividing by zero does not raise.  With the integer [a] below a
    zero on the stack, DIV pushes [NaN] when [a] is zero and otherwise the
    infinity whose sign is that of [a], flipped when the zero is the
    negative zero; MOD pushes [NaN].  PRINT shows them as text, and
    execution goes on. *)
Theorem X15_division_by_zero_gives_infinity_or_nan
    (vm : VM.t) (x y : jsnum) (a : Z) (st : list jsval) (inst : Instruction) :
  Arith.represents x a ->
  Arith.represents y 0 ->
  VM.stack vm = Num y :: Num x :: st ->
  (op inst = DIV ->
   VM.dispatch inst vm
   = Some (Arith.pushed vm
             (Num (if (a =? 0)%Z then NaN
                   else Inf (xorb (a <? 0)%Z (JS.negative y)))) st)) /\
  (op inst = MOD ->
   VM.dispatch inst vm = Some (Arith.pushed vm (Num NaN) st)) /\
  compile_and_run
    "print(7/0); print((0-7)/0); print(0/0); print(7%0); print(7/(0*(0-1))); print(1);"
  = Ok ["Infinity"; "-Infinity"; "NaN"; "NaN"; "-Infinity"; "1"].
Proof.
  intros Hx Hy Hst.
  assert (JS.isZero y = true /\ JS.isNaN y = false /\ JS.isInf y = false)
    as (Hy0 & Hy1 & Hy2).
  { destruct Hy as [->|[-> _]]; done. }
  split; [|split; [|vm_compute; reflexivity]].
  - intros Hop. unfold VM.dispatch, VM.binary, VM.arith. rewrite Hop, Hst.
    simpl. unfold Arith.pushed. do 3 f_equal.
    unfold JS.floorDiv. rewrite Hy0, Hy1, Hy2.
    destruct Hx as [->|[-> ->]]; simpl; [|done].
    destruct (Z.eqb_spec a 0) as [->|Hne]; [done|].
    unfold JS.isZero. destruct a; done.
  - intros Hop. unfold VM.dispatch, VM.binary, VM.arith. rewrite Hop, Hst.
    simpl. unfold Arith.pushed. do 3 f_equal.
    unfold JS.rem. rewrite Hy0, Hy1, Hy2.
    destruct Hx as [->|[-> ->]]; simpl; by rewrite ?orb_false_r.
Qed.

Lemma X15_division_by_zero_gives_infinity_or_nan_witness :
  let vm := VM.mk [] [Num NegZero; Num (Int 7)] ∅ (Some (Int 0)) [] in
  VM.dispatch (mkInstruction DIV None None) vm
  = Some (Arith.pushed vm (Num (Inf true)) []).
Proof.
  intros vm.
  destruct (X15_division_by_zero_gives_infinity_or_nan vm (Int 7) NegZero 7 []
              (mkInstruction DIV None None)) as (Hdiv & _).
  - by left.
  - by right.
  - reflexivity.
  - exact (Hdiv eq_refl).
Defined.

(** ** Arithmetic within 53 bits *)

(** X25.  Within 53 bits the arithmetic of the VM is that of the
    integers: ADD, SUB and MUL replace the integers [a] and [b] by their
    sum, difference and product whenever that result has at most 53
    bits.  A longer result is rounded to the nearest double:
    94906267 * 94906267 gives 9007199515875288 for 9007199515875289, and
    adding 1 to 2^53 changes nothing. *)
Theorem X25_arithmetic_is_exact_within_53_bits
    (vm : VM.t) (x y : jsnum) (a b : Z) (st : list jsval) (inst : Instruction) :
  Arith.represents x a ->
  Arith.represents y b ->
  VM.stack vm = Num y :: Num x :: st ->
  (op inst = ADD -> Arith.safe (a + b) ->
   exists r,
     VM.dispatch inst vm = Some (Arith.pushed vm (Num r) st) /\
     Arith.represents r (a + b)) /\
  (op inst = SUB -> Arith.safe (a - b) ->
   exists r,
     VM.dispatch inst vm = Some (Arith.pushed vm (Num r) st) /\
     Arith.represents r (a - b)) /\
  (op inst = MUL -> Arith.safe (a * b) ->
   exists r,
     VM.dispatch inst vm = Some (Arith.pushed vm (Num r) st) /\
     Arith.represents r (a * b)) /\
  compile_and_run
    "print(94906267*94906267); print(9007199254740992+1); print(9007199254740992+1-9007199254740992);"
  = Ok ["9007199515875288"; "9007199254740992"; "0"].
Proof.
  intros Hx Hy Hst. unfold Arith.safe.
  split; [|split; [|split]].
  - intros Hop Hs. exists (JS.add x y). split.
    + unfold VM.dispatch, VM.binary. by rewrite Hop, Hst.
    + destruct Hx as [->|[-> ->]], Hy as [->|[-> ->]]; simpl.
      * left. by apply JSFacts.round_safe.
      * left. f_equal. lia.
      * by left.
      * by right.
  - intros Hop Hs. exists (JS.sub x y). split.
    + unfold VM.dispatch, VM.binary. by rewrite Hop, Hst.
    + unfold JS.sub.
      assert (forall z, z <> 0%Z -> JS.neg (Int z) = Int (- z)) as Hneg
        by (by intros [| |]).
      destruct Hx as [->|[-> ->]], Hy as [->|[-> ->]].
      * destruct (Z.eq_dec b 0%Z) as [->|Hb].
        -- left. simpl. f_equal. lia.
        -- rewrite (Hneg b Hb). left.
           change (JS.round (a + - b) = Int (a - b)).
           rewrite Z.add_opp_r. by apply JSFacts.round_safe.
      * left. simpl JS.neg. change (JS.round (a + 0) = Int (a - 0)).
        rewrite Z.sub_0_r, Z.add_0_r in *. by apply JSFacts.round_safe.
      * destruct (Z.eq_dec b 0%Z) as [->|Hb]; [by right|].
        rewrite (Hneg b Hb). by left.
      * by left.
  - intros Hop Hs. exists (JS.mul x y). split.
    + unfold VM.dispatch, VM.binary. by rewrite Hop, Hst.
    + destruct (ArithFacts.represents_cases _ _ Hx) as (Hx1 & Hx2 & Hx3 & _).
      destruct (ArithFacts.represents_cases _ _ Hy) as (Hy1 & Hy2 & Hy3 & _).
      unfold JS.mul. rewrite Hx1, Hy1, Hx2, Hy2, Hx3, Hy3. simpl.
      destruct (Z.eqb_spec (a * b) 0%Z) as [->|_].
      * unfold JS.zero. destruct (xorb _ _); [by right | by left].
      * left. by apply JSFacts.round_safe.
  - vm_compute. reflexivity.
Qed.

Lemma X25_arithmetic_is_exact_within_53_bits_witness :
  let vm := VM.mk [] [Num (Int 94906264); Num (Int (-94906267))] ∅
              (Some (Int 0)) [] in
  (exists r,
     VM.dispatch (mkInstruction ADD None None) vm
     = Some (Arith.pushed vm (Num r) []) /\ Arith.represents r (-3)%Z) /\
  (exists r,
     VM.dispatch (mkInstruction SUB None None) vm
     = Some (Arith.pushed vm (Num r) []) /\ Arith.represents r (-189812531)) /\
  (exists r,
     VM.dispatch (mkInstruction MUL None None) vm
     = Some (Arith.pushed vm (Num r) []) /\
     Arith.represents r (-9007199231156488)).
Proof.
  intros vm.
  pose proof (fun inst =>
                X25_arithmetic_is_exact_within_53_bits vm (Int (-94906267))
                  (Int 94906264) (-94906267) 94906264 [] inst
                  (or_introl eq_refl) (or_introl eq_refl) eq_refl) as H.
  split; [|split].
  - destruct (H (mkInstruction ADD None None)) as (Hadd & _).
    apply Hadd; [done | vm_compute; reflexivity].
  - destruct (H (mkInstruction SUB None None)) as (_ & Hsub & _).
    apply Hsub; [done | vm_compute; reflexivity].
  - destruct (H (mkInstruction MUL None None)) as (_ & _ & Hmul & _).
    apply Hmul; [done | vm_compute; reflexivity].
Defined.

(** ** What the VM uses up *)

Module BoundFacts.
Import VM Exec.

Lemma step_grows vm vm' :
  step vm = Some vm' ->
  length (stack vm') <= S (length (stack vm)) /\
  length (output vm') <= S (length (output vm)) /\
  output vm `prefix_of` output vm'.
Proof.
  unfold step. destruct (ip_lt_length vm); [|done].
  destruct (fetch vm) as [inst|]; [|done].
  unfold dispatch, binary.
  destruct (op inst); destruct (stack vm) as [|v1 [|v2 st]]; simpl;
    try destruct (JS.strictEq _ _); intros [= <-]; simpl;
    rewrite ?length_app; simpl;
    (split; [lia|split; [lia|]]); try done; by apply prefix_app_r.
Qed.

Lemma state_after_grows n : forall vm vm',
  state_after n vm = Some vm' ->
  length (stack vm') <= length (stack vm) + n /\
  length (output vm') <= length (output vm) + n /\
  output vm `prefix_of` output vm'.
Proof.
  induction n as [|n IH]; intros vm vm' H; simpl in H.
  - injection H as <-. split; [lia|]. split; [lia|done].
  - destruct (step vm) as [vm1|] eqn:E; [|done].
    destruct (step_grows _ _ E) as (S1 & O1 & P1).
    destruct (IH _ _ H) as (S2 & O2 & P2).
    split; [lia|]. split; [lia|by etrans].
Qed.

End BoundFacts.

(** X16.  One call of [run] dispatches at most 100,000 instructions,
    whatever the code.  The operand stack it leaves holds at most one
    value for each dispatch, and the output at most one line for each
    dispatch, plus the sentinel line. *)
Theorem X16_run_is_bounded (vm : VM.t) :
  exists r n vm',
    VM.run_full vm = (r, n, vm') /\
    n <= VM.MAX_ITERATIONS /\
    length (VM.stack vm') <= n /\
    length (VM.output vm') <= S n /\
    forall out, r = Ok out -> length out <= S VM.MAX_ITERATIONS.
Proof.
  assert (forall k vm1, Exec.state_after k (VM.reset vm) = Some vm1 ->
            length (VM.stack vm1) <= k /\ length (VM.output vm1) <= k) as Hg.
  { intros k vm1 H. by destruct (BoundFacts.state_after_grows _ _ _ H) as (? & ? & _). }
  unfold VM.run_full.
  destruct (Exec.state_after VM.MAX_ITERATIONS (VM.reset vm)) as [vm1|] eqn:E.
  - rewrite (ExecFacts.loop_running _ 0 _ _ E). simpl "+".
    rewrite Nat.leb_refl. destruct (Hg _ _ E) as [Hs Ho].
    eexists _, _, _. split; [done|]. simpl. rewrite length_app. simpl.
    repeat split; try lia. intros out [= <-]. rewrite length_app. simpl. lia.
  - destruct (OutcomeFacts.state_after_first_stop _ _ E)
      as (n & vm1 & Hn & Hvm1 & Hstop).
    rewrite (ExecFacts.loop_stops n VM.MAX_ITERATIONS 0 _ vm1 Hvm1 Hstop Hn).
    simpl "+". destruct (Hg _ _ Hvm1) as [Hs Ho].
    destruct (VM.ip_lt_length vm1).
    + destruct (VM.fetch vm1);
        (eexists _, _, _; split; [done|]; repeat split; try lia);
        [intros out [= <-]; lia | done].
    + assert ((VM.MAX_ITERATIONS <=? n)%nat = false) as ->
        by (apply Nat.leb_gt; lia).
      eexists _, _, _. split; [done|]. repeat split; try lia.
      intros out [= <-]. lia.
Qed.

(** ** The code of an expression *)

Module EvalFacts.
Import VM Exec ExecFacts CodeGenerator Layout Shape Eval.

(** The dispatch that happens when [ip] is at [inst]. *)
Lemma step_at vm pre inst post :
  bytecode vm = pre ++ inst :: post ->
  ip vm = Some (Int (Z.of_nat (length pre))) ->
  step vm = dispatch inst vm.
Proof.
  intros Hb Hip. unfold step, ip_lt_length, fetch. rewrite Hip, Hb.
  rewrite JSFacts.ltb_Int.
  assert ((Z.of_nat (length pre) <? Z.of_nat (length (pre ++ inst :: post)))%Z
          = true) as ->.
  { apply Z.ltb_lt. rewrite length_app. simpl. lia. }
  assert ((Z.of_nat (length pre) <? 0)%Z = false) as -> by (apply Z.ltb_ge; lia).
  by rewrite Nat2Z.id, list_lookup_middle.
Qed.

Lemma binary_apply ty oc vm a b st :
  binaryOpCode ty = Some oc ->
  stack vm = b :: a :: st ->
  dispatch (mkInstruction oc None None) vm
  = Some (mk (bytecode vm) (apply ty a b :: st) (variables vm)
             (next (ip vm)) (output vm)).
Proof.
  intros Hoc Hst. unfold dispatch, binary. simpl. rewrite Hst. simpl.
  destruct ty; simpl in Hoc; try discriminate Hoc; by injection Hoc as <-.
Qed.

Section WithMap.
Variable m : gmap nat nat.

Lemma expr_runs e :
  is_expr e ->
  forall h base vm pre post,
    bytecode vm = pre ++ (acode m h base e).*1 ++ post ->
    ip vm = Some (Int (Z.of_nat (length pre))) ->
    state_after (length (acode m h base e)) vm
    = Some (pushed_at vm (value m (variables vm) e)
              (length pre + length (acode m h base e))).
Proof.
  induction e as
    [ss IH | ref name | ref name expr IH | expr IH | ss IH
    | cond thenB elseB IHc IHt IHe | cond body IHc IHb
    | lhs o rhs IHl IHr | val | ref name ] using ASTNode_ind;
    intros He h base vm pre post Hb Hip; simpl in He; try done.
  - apply andb_prop_elim in He as [He Ho]. apply andb_prop_elim in He as [Hl Hr].
    apply bool_decide_unpack in Ho as [oc Hoc].
    simpl in *. rewrite Hoc in *.
    set (lc := acode m h base lhs) in *.
    set (rc := acode m (S h) (base + length lc) rhs) in *.
    rewrite !length_app, !state_after_plus.
    pose proof (IHl Hl h base vm pre
                  (rc.*1 ++ [mkInstruction oc None None] ++ post)) as H1.
    fold lc in H1. rewrite H1; [|by rewrite Hb; list_norm|done]. clear H1.
    pose proof (IHr Hr (S h) (base + length lc)
                  (pushed_at vm (value m (variables vm) lhs)
                     (length pre + length lc))
                  (pre ++ lc.*1) ([mkInstruction oc None None] ++ post)) as H2.
    fold rc in H2. rewrite state_after_plus.
    rewrite H2;
      [|by simpl; rewrite Hb; list_norm|by simpl; len_norm; rewrite Nat2Z.inj_add].
    clear H2. simpl.
    rewrite (step_at _ (pre ++ lc.*1 ++ rc.*1) (mkInstruction oc None None) post);
      [|by simpl; rewrite Hb; list_norm|by simpl; len_norm; do 2 f_equal; lia].
    erewrite binary_apply; [|done|done]. simpl.
    unfold pushed_at. simpl. do 4 f_equal. len_norm. lia.
  - simpl in *.
    rewrite (step_at vm pre (mkInstruction PUSH_INT (Some val) None) post Hb Hip).
    unfold dispatch, pushed_at. simpl. rewrite Hip. simpl.
    do 4 f_equal. lia.
  - simpl in *.
    rewrite (step_at vm pre _ post Hb Hip).
    unfold dispatch, pushed_at. simpl. rewrite Hip. simpl.
    do 4 f_equal. lia.
Qed.

End WithMap.
End EvalFacts.

(** X17.  Let [code] be what the generator returns when it visits an
    expression tree after [instructions] were emitted, and let a VM whose
    code starts with [code] be at the first instruction of the
    expression.  Then one dispatch for each instruction of the expression
    leads to the index right behind them, with one value pushed on the
    stack, the one JavaScript computes for the tree from the slots (left
    operand first), and with slots and output untouched. *)
Theorem X17_expression_code_pushes_its_value
    (varToSlot : gmap nat nat) (expr : ASTNode)
    (instructions code post : list Instruction) (vm : VM.t) :
  Shape.is_expr expr ->
  CodeGenerator.visit varToSlot expr instructions = Ok code ->
  VM.bytecode vm = code ++ post ->
  VM.ip vm = Some (Int (Z.of_nat (length instructions))) ->
  length instructions < length code /\
  Exec.state_after (length code - length instructions) vm
  = Some (Eval.pushed_at vm (Eval.value varToSlot (VM.variables vm) expr)
            (length code)).
Proof.
  intros He Hvisit Hb Hip.
  rewrite (CodegenFacts.visit_acode varToSlot expr instructions 0) in Hvisit.
  injection Hvisit as <-.
  set (c := Layout.acode varToSlot 0 (length instructions) expr) in *.
  assert (0 < length c) as Hpos.
  { pose proof (TypingFacts.expr_entry varToSlot expr He 0
                  (length instructions) []) as Hh.
    fold c in Hh. rewrite app_nil_r in Hh. destruct c; [done|simpl; lia]. }
  rewrite length_app, length_fmap. split; [lia|].
  replace (length instructions + length c - length instructions)
    with (length c) by lia.
  apply (EvalFacts.expr_runs varToSlot expr He 0 (length instructions)
           vm instructions post); [|done].
  by rewrite Hb, <- app_assoc.
Qed.

(** For [7 - a * 2] with [a] unset, and for [94906267 * 94906267],
    whose product 9007199515875289 is not a double. *)
Lemma X17_expression_code_pushes_its_value_witness :
  let expr :=
    BinaryExprNode (LiteralNode (Int 7)) (Grammar.tok MINUS "-" 2)
      (BinaryExprNode (IdentifierNode 0 (Grammar.tok ID "a" 3))
         (Grammar.tok STAR "*" 4) (LiteralNode (Int 2))) in
  let code :=
    [mkInstruction PUSH_INT (Some (Int 7)) None;
     mkInstruction LOAD None (Some "load a");
     mkInstruction PUSH_INT (Some (Int 2)) None;
     mkInstruction MUL None None;
     mkInstruction SUB None None] in
  let vm := VM.new (code ++ [mkInstruction HALT None None]) in
  let square :=
    BinaryExprNode (LiteralNode (Int 94906267)) (Grammar.tok STAR "*" 9)
      (LiteralNode (Int 94906267)) in
  let code' :=
    [mkInstruction PUSH_INT (Some (Int 94906267)) None;
     mkInstruction PUSH_INT (Some (Int 94906267)) None;
     mkInstruction MUL None None] in
  let vm' := VM.new (code' ++ [mkInstruction HALT None None]) in
  (0 < 5 /\
   Exec.state_after (5 - 0) vm
   = Some (Eval.pushed_at vm (Num (Int 7)) 5)) /\
  (0 < 3 /\
   Exec.state_after (3 - 0) vm'
   = Some (Eval.pushed_at vm' (Num (Int 9007199515875288)) 3)).
Proof.
  intros expr code vm square code' vm'. split.
  - apply (X17_expression_code_pushes_its_value ∅ expr [] code
             [mkInstruction HALT None None] vm); reflexivity.
  - apply (X17_expression_code_pushes_its_value ∅ square [] code'
             [mkInstruction HALT None None] vm'); reflexivity.
Defined.

(** ** What compiled statements do *)

Module EffectFacts.
Import VM Exec ExecFacts CodeGenerator Layout Shape Eval Effect.

Section WithMap.
Variable m : gmap nat nat.

(** The code of an expression followed by one more instruction. *)
Lemma expr_then e inst :
  is_expr e ->
  forall h base vm pre post,
    bytecode vm = pre ++ (acode m h base e).*1 ++ inst :: post ->
    ip vm = Some (Int (Z.of_nat (length pre))) ->
    state_after (S (length (acode m h base e))) vm
    = dispatch inst
        (pushed_at vm (value m (variables vm) e)
           (length pre + length (acode m h base e))).
Proof.
  intros He h base vm pre post Hb Hip.
  rewrite state_after_S.
  rewrite (EvalFacts.expr_runs m e He h base vm pre (inst :: post) Hb Hip).
  apply (EvalFacts.step_at _ (pre ++ (acode m h base e).*1) inst post).
  - simpl. by rewrite Hb, <- app_assoc.
  - simpl. by rewrite length_app, length_fmap.
Qed.

Lemma jump_if_false vm v st target :
  stack vm = v :: st ->
  dispatch (mkInstruction JMP_IF_FALSE (Some target) None) vm
  = Some (mk (bytecode vm) st (variables vm)
             (if is_false v then Some target else next (ip vm)) (output vm)).
Proof.
  intros Hst. unfold dispatch, is_false. simpl. rewrite Hst. simpl.
  by destruct (JS.strictEq v (Num (Int 0))).
Qed.

End WithMap.
End EffectFacts.

(** X18.  The code of the three statements without jumps does what the
    statement says, in one dispatch for each of its instructions and
    leaving the operand stack as it found it: [print(e)] appends the
    text of the value of [e] to the output; [x = e] puts the value of
    [e] into the slot recorded for the assignment; [int x] puts 0 into
    the slot recorded for the declaration. *)
Theorem X18_plain_statements_run_as_written
    (varToSlot : gmap nat nat) (instructions code post : list Instruction)
    (vm : VM.t) (ref : nat) (name : Token) (expr : ASTNode) :
  VM.bytecode vm = code ++ post ->
  VM.ip vm = Some (Int (Z.of_nat (length instructions))) ->
  let steps := length code - length instructions in
  let v := Eval.value varToSlot (VM.variables vm) expr in
  let slot := VM.key (CodeGenerator.slotOf varToSlot ref) in
  (Shape.is_expr expr ->
   CodeGenerator.visit varToSlot (PrintNode expr) instructions = Ok code ->
   Exec.state_after steps vm
   = Some (Effect.at_index vm (length code) (VM.stack vm) (VM.variables vm)
             (VM.output vm ++ [JS.toString v]))) /\
  (Shape.is_expr expr ->
   CodeGenerator.visit varToSlot (AssignNode ref name expr) instructions
   = Ok code ->
   Exec.state_after steps vm
   = Some (Effect.at_index vm (length code) (VM.stack vm)
             (<[slot := v]> (VM.variables vm)) (VM.output vm))) /\
  (CodeGenerator.visit varToSlot (VarDeclNode ref name) instructions = Ok code ->
   Exec.state_after steps vm
   = Some (Effect.at_index vm (length code) (VM.stack vm)
             (<[slot := Num (Int 0)]> (VM.variables vm)) (VM.output vm))).
Proof.
  intros Hb Hip steps v slot. subst steps.
  split; [|split].
  - intros He Hvisit.
    rewrite (CodegenFacts.visit_acode varToSlot _ instructions 0) in Hvisit.
    injection Hvisit as <-. simpl in *.
    rewrite fmap_app, <- !app_assoc in Hb. simpl in Hb.
    rewrite !length_app, length_fmap, !length_app. simpl.
    replace (length instructions + (length _ + 1) - length instructions)
      with (S (length (Layout.acode varToSlot 0 (length instructions) expr)))
      by lia.
    rewrite (EffectFacts.expr_then varToSlot expr _ He 0 _ vm instructions post
               Hb Hip).
    unfold VM.dispatch, Effect.at_index, Eval.pushed_at. simpl.
    do 4 f_equal. lia.
  - intros He Hvisit.
    rewrite (CodegenFacts.visit_acode varToSlot _ instructions 0) in Hvisit.
    injection Hvisit as <-. simpl in *.
    rewrite fmap_app, <- !app_assoc in Hb. simpl in Hb.
    rewrite !length_app, length_fmap, !length_app. simpl.
    replace (length instructions + (length _ + 1) - length instructions)
      with (S (length (Layout.acode varToSlot 0 (length instructions) expr)))
      by lia.
    rewrite (EffectFacts.expr_then varToSlot expr _ He 0 _ vm instructions post
               Hb Hip).
    unfold VM.dispatch, Effect.at_index, Eval.pushed_at. simpl.
    do 4 f_equal. lia.
  - intros Hvisit.
    rewrite (CodegenFacts.visit_acode varToSlot _ instructions 0) in Hvisit.
    injection Hvisit as <-. simpl in *.
    rewrite <- app_assoc in Hb. simpl in Hb.
    rewrite !length_app. simpl.
    replace (length instructions + 2 - length instructions) with 2 by lia.
    simpl.
    rewrite (EvalFacts.step_at vm instructions _ _ Hb Hip).
    unfold VM.dispatch at 1. simpl.
    erewrite (EvalFacts.step_at _ (instructions ++ [_]) _ post);
      [|by simpl; rewrite Hb, <- app_assoc
       |by simpl; rewrite Hip, length_app; simpl; do 2 f_equal; lia].
    unfold VM.dispatch, Effect.at_index. simpl. rewrite Hip. simpl.
    do 4 f_equal. lia.
Qed.

Lemma X18_plain_statements_run_as_written_witness :
  let code :=
    [mkInstruction PUSH_INT (Some (Int 7)) None; mkInstruction PRINT None None] in
  let vm := VM.new (code ++ [mkInstruction HALT None None]) in
  Exec.state_after 2 vm = Some (Effect.at_index vm 2 [] ∅ ["7"]).
Proof.
  intros code vm.
  destruct (X18_plain_statements_run_as_written ∅ [] code
              [mkInstruction HALT None None] vm 0 (Scoping.x_at 1)
              (LiteralNode (Int 7)) eq_refl eq_refl) as (Hprint & _).
  apply Hprint; reflexivity.
Defined.

(** X19.  The jumps of a [while] statement land where the loop needs
    them.  With [c1] the sequence after the visit of the condition and
    [c2] the sequence after the visit of the body, the back jump is the
    last instruction of the statement, at index [length c2].  Started at
    the first instruction of the condition, the VM evaluates it and
    continues at the first instruction of the body when the value is not
    0, and right behind the statement when it is 0, the stack being as
    before; from the back jump it continues at the first instruction of
    the condition. *)
Theorem X19_while_jumps_close_the_loop
    (varToSlot : gmap nat nat) (cond body : ASTNode)
    (instructions code post : list Instruction) (vm : VM.t) :
  Shape.is_expr cond ->
  CodeGenerator.visit varToSlot (WhileNode cond body) instructions = Ok code ->
  VM.bytecode vm = code ++ post ->
  exists c1 c2,
    CodeGenerator.visit varToSlot cond instructions = Ok c1 /\
    CodeGenerator.visit varToSlot body
      (c1 ++ [mkInstruction JMP_IF_FALSE (Some (Int 0)) None]) = Ok c2 /\
    length instructions < length c1 /\ length c1 < length c2 /\
    length code = S (length c2) /\
    (VM.ip vm = Some (Int (Z.of_nat (length instructions))) ->
     Exec.state_after (length c1 - length instructions + 1) vm
     = Some (Effect.moved_to vm
               (if Effect.is_false (Eval.value varToSlot (VM.variables vm) cond)
                then length code else S (length c1)))) /\
    (VM.ip vm = Some (Int (Z.of_nat (length c2))) ->
     Exec.state_after 1 vm
     = Some (Effect.moved_to vm (length instructions))).
Proof.
  intros He Hvisit Hb.
  rewrite (CodegenFacts.visit_acode varToSlot _ instructions 0) in Hvisit.
  injection Hvisit as <-. simpl in *.
  set (cc := Layout.acode varToSlot 0 (length instructions) cond) in *.
  set (bc := Layout.acode varToSlot 0 (length instructions + length cc + 1) body)
    in *.
  assert (0 < length cc) as Hpos.
  { pose proof (TypingFacts.expr_entry varToSlot cond He 0
                  (length instructions) []) as Hh.
    fold cc in Hh. rewrite app_nil_r in Hh. destruct cc; [done|simpl; lia]. }
  exists (instructions ++ cc.*1).
  exists ((instructions ++ cc.*1)
          ++ [mkInstruction JMP_IF_FALSE (Some (Int 0)) None] ++ bc.*1).
  split; [by rewrite (CodegenFacts.visit_acode varToSlot cond instructions 0)|].
  split.
  { rewrite (CodegenFacts.visit_acode varToSlot body _ 0).
    rewrite <- !app_assoc. do 5 f_equal. unfold bc. f_equal.
    rewrite !length_app, length_fmap. simpl. lia. }
  repeat (rewrite fmap_app in Hb || rewrite fmap_cons in Hb).
  rewrite <- !app_assoc in Hb. simpl in Hb.
  split; [len_norm; lia|]. split; [len_norm; lia|]. split; [len_norm; lia|].
  split.
  - intros Hip.
    replace (length (instructions ++ cc.*1) - length instructions + 1)
      with (S (length cc)) by (len_norm; lia).
    pose proof (EffectFacts.expr_then varToSlot cond _ He 0 _ vm instructions _
                  Hb Hip) as Hrun.
    fold cc in Hrun. rewrite Hrun. clear Hrun.
    erewrite EffectFacts.jump_if_false; [|reflexivity].
    unfold Effect.moved_to, Effect.at_index, Eval.pushed_at. simpl.
    do 2 f_equal.
    destruct (Effect.is_false _); simpl; do 2 f_equal; len_norm; lia.
  - intros Hip.
    simpl.
    erewrite (EvalFacts.step_at vm
                (instructions ++ cc.*1
                 ++ mkInstruction JMP_IF_FALSE _ None :: bc.*1) _ post);
      [|by rewrite Hb, <- !app_assoc
       |rewrite Hip; do 2 f_equal; len_norm; lia].
    done.
Qed.

Lemma X19_while_jumps_close_the_loop_witness :
  let code :=
    [mkInstruction PUSH_INT (Some (Int 0)) None;
     mkInstruction JMP_IF_FALSE (Some (Int 5)) None;
     mkInstruction PUSH_INT (Some (Int 7)) None;
     mkInstruction PRINT None None;
     mkInstruction JMP (Some (Int 0)) None] in
  let vm := VM.new (code ++ [mkInstruction HALT None None]) in
  exists c1 c2 : list Instruction,
    length c1 = 1 /\ length c2 = 4 /\
    Exec.state_after (length c1 - 0 + 1) vm = Some (Effect.moved_to vm 5).
Proof.
  intros code vm.
  destruct (X19_while_jumps_close_the_loop ∅ (LiteralNode (Int 0))
              (PrintNode (LiteralNode (Int 7))) [] code
              [mkInstruction HALT None None] vm)
    as (c1 & c2 & H1 & H2 & _ & _ & _ & Hrun & _); [done..|].
  exists c1, c2.
  injection H1 as <-. injection H2 as <-.
  split; [reflexivity|]. split; [reflexivity|].
  exact (Hrun eq_refl).
Defined.

(** X20.  The jumps of an [if] statement select the branch.  With [c1]
    the sequence after the visit of the condition and [c2] the sequence
    after the visit of the then-branch: started at the first instruction
    of the condition, the VM evaluates it and continues at the first
    instruction of the then-branch when the value is not 0; when it is 0
    it continues right behind the statement if there is no else-branch,
    and at the first instruction of the else-branch if there is one.  In
    that case the then-branch is followed by a jump, at index
    [length c2], that continues right behind the statement. *)
Theorem X20_if_jumps_select_the_branch
    (varToSlot : gmap nat nat) (cond thenBranch : ASTNode)
    (elseBranch : option ASTNode)
    (instructions code post : list Instruction) (vm : VM.t) :
  Shape.is_expr cond ->
  CodeGenerator.visit varToSlot (IfNode cond thenBranch elseBranch) instructions
  = Ok code ->
  VM.bytecode vm = code ++ post ->
  exists c1 c2,
    CodeGenerator.visit varToSlot cond instructions = Ok c1 /\
    CodeGenerator.visit varToSlot thenBranch
      (c1 ++ [mkInstruction JMP_IF_FALSE (Some (Int 0)) None]) = Ok c2 /\
    length instructions < length c1 /\ length c1 < length c2 /\
    let on_false :=
      match elseBranch with
      | Some _ => S (length c2)
      | None => length code
      end in
    on_false <= length code /\
    (VM.ip vm = Some (Int (Z.of_nat (length instructions))) ->
     Exec.state_after (length c1 - length instructions + 1) vm
     = Some (Effect.moved_to vm
               (if Effect.is_false (Eval.value varToSlot (VM.variables vm) cond)
                then on_false else S (length c1)))) /\
    (is_Some elseBranch ->
     VM.ip vm = Some (Int (Z.of_nat (length c2))) ->
     Exec.state_after 1 vm = Some (Effect.moved_to vm (length code))).
Proof.
  intros He Hvisit Hb.
  rewrite (CodegenFacts.visit_acode varToSlot _ instructions 0) in Hvisit.
  injection Hvisit as <-. simpl in *.
  set (cc := Layout.acode varToSlot 0 (length instructions) cond) in *.
  set (tc := Layout.acode varToSlot 0 (length instructions + length cc + 1)
               thenBranch) in *.
  assert (0 < length cc) as Hpos.
  { pose proof (TypingFacts.expr_entry varToSlot cond He 0
                  (length instructions) []) as Hh.
    fold cc in Hh. rewrite app_nil_r in Hh. destruct cc; [done|simpl; lia]. }
  exists (instructions ++ cc.*1).
  exists ((instructions ++ cc.*1)
          ++ [mkInstruction JMP_IF_FALSE (Some (Int 0)) None] ++ tc.*1).
  split; [by rewrite (CodegenFacts.visit_acode varToSlot cond instructions 0)|].
  split.
  { rewrite (CodegenFacts.visit_acode varToSlot thenBranch _ 0).
    rewrite <- !app_assoc. do 5 f_equal. unfold tc. f_equal.
    rewrite !length_app, length_fmap. simpl. lia. }
  split; [len_norm; lia|]. split; [len_norm; lia|].
  destruct elseBranch as [e|]; simpl in *.
  - set (ec := Layout.acode varToSlot 0
                 (length instructions + length cc + 1 + length tc + 1) e) in *.
    repeat (rewrite fmap_app in Hb || rewrite fmap_cons in Hb).
    rewrite <- !app_assoc in Hb. simpl in Hb.
    split; [len_norm; lia|]. split.
    + intros Hip.
      replace (length (instructions ++ cc.*1) - length instructions + 1)
        with (S (length cc)) by (len_norm; lia).
      pose proof (EffectFacts.expr_then varToSlot cond _ He 0 _ vm
                    instructions _ Hb Hip) as Hrun.
      fold cc in Hrun. rewrite Hrun. clear Hrun.
      erewrite EffectFacts.jump_if_false; [|reflexivity].
      unfold Effect.moved_to, Effect.at_index, Eval.pushed_at. simpl.
      do 2 f_equal.
      destruct (Effect.is_false _); simpl; do 2 f_equal; len_norm; lia.
    + intros _ Hip. simpl.
      erewrite (EvalFacts.step_at vm
                  (instructions ++ cc.*1
                   ++ mkInstruction JMP_IF_FALSE _ None :: tc.*1) _
                  (ec.*1 ++ post));
        [|by rewrite Hb, <- !app_assoc
         |rewrite Hip; do 2 f_equal; len_norm; lia].
      unfold VM.dispatch, Effect.moved_to, Effect.at_index. simpl.
      do 4 f_equal. len_norm. lia.
  - repeat (rewrite fmap_app in Hb || rewrite fmap_cons in Hb).
    rewrite <- !app_assoc in Hb. simpl in Hb.
    split; [done|]. split.
    + intros Hip.
      replace (length (instructions ++ cc.*1) - length instructions + 1)
        with (S (length cc)) by (len_norm; lia).
      pose proof (EffectFacts.expr_then varToSlot cond _ He 0 _ vm
                    instructions _ Hb Hip) as Hrun.
      fold cc in Hrun. rewrite Hrun. clear Hrun.
      erewrite EffectFacts.jump_if_false; [|reflexivity].
      unfold Effect.moved_to, Effect.at_index, Eval.pushed_at. simpl.
      do 2 f_equal.
      destruct (Effect.is_false _); simpl; do 2 f_equal; len_norm; lia.
    + by intros [? ?].
Qed.

Lemma X20_if_jumps_select_the_branch_witness :
  let code :=
    [mkInstruction PUSH_INT (Some (Int 0)) None;
     mkInstruction JMP_IF_FALSE (Some (Int 5)) None;
     mkInstruction PUSH_INT (Some (Int 1)) None;
     mkInstruction PRINT None None;
     mkInstruction JMP (Some (Int 7)) None;
     mkInstruction PUSH_INT (Some (Int 2)) None;
     mkInstruction PRINT None None] in
  let vm := VM.new (code ++ [mkInstruction HALT None None]) in
  exists c1 c2 : list Instruction,
    length c1 = 1 /\ length c2 = 4 /\
    Exec.state_after (length c1 - 0 + 1) vm = Some (Effect.moved_to vm 5).
Proof.
  intros code vm.
  destruct (X20_if_jumps_select_the_branch ∅ (LiteralNode (Int 0))
              (PrintNode (LiteralNode (Int 1))) (Some (PrintNode (LiteralNode (Int 2))))
              [] code [mkInstruction HALT None None] vm)
    as (c1 & c2 & H1 & H2 & _ & _ & _ & Hrun & _); [done..|].
  exists c1, c2.
  injection H1 as <-. injection H2 as <-.
  split; [reflexivity|]. split; [reflexivity|].
  exact (Hrun eq_refl).
Defined.

(** ** Programs without loops *)

Module MeaningFacts.
Import VM Exec ExecFacts CodeGenerator Layout Shape Eval Effect Meaning.

Lemma runs_refl vm : runs vm 0 vm.
Proof. by exists 0. Qed.

Lemma runs_trans vm n1 vm1 n2 vm2 n :
  runs vm n1 vm1 -> runs vm1 n2 vm2 -> n1 + n2 <= n -> runs vm n vm2.
Proof.
  intros (k1 & Hk1 & H1) (k2 & Hk2 & H2) Hn. exists (k1 + k2).
  split; [lia|]. by rewrite state_after_plus, H1.
Qed.

Lemma runs_exactly vm n vm' : state_after n vm = Some vm' -> runs vm n vm'.
Proof. intros H. by exists n. Qed.

Lemma state_of_reached vm i st : state_of (reached vm i st) = st.
Proof. by destruct st. Qed.

Ltac flatten_in H :=
  repeat first
    [ rewrite fmap_app in H | rewrite fmap_cons in H
    | rewrite <- app_assoc in H | progress simpl in H ].

Ltac aligned :=
  repeat first [ rewrite <- app_assoc | progress simpl ]; reflexivity.

Section WithMap.
Variable m : gmap nat nat.

Lemma sequence_carried h statements :
  Forall (carried_out m) statements ->
  forallb is_stmt statements -> forallb loop_free statements ->
  forall vm pre post,
    bytecode vm
    = pre ++ (sequence (acode m h) (length pre) statements).*1 ++ post ->
    ip vm = Some (Int (Z.of_nat (length pre))) ->
    runs vm (length (sequence (acode m h) (length pre) statements))
      (reached vm
         (length pre + length (sequence (acode m h) (length pre) statements))
         (fold_left (fun st s => exec m s st) statements (state_of vm))).
Proof.
  induction 1 as [|s l Hs _ IH]; intros Hss Hlf vm pre post Hb Hip.
  - simpl. rewrite Nat.add_0_r. exists 0. split; [done|]. simpl.
    unfold reached, at_index, state_of. simpl. rewrite <- Hip.
    by destruct vm.
  - simpl in *.
    apply andb_prop_elim in Hss as [Hs1 Hs2].
    apply andb_prop_elim in Hlf as [Hl1 Hl2].
    set (c := acode m h (length pre) s) in *.
    rewrite fmap_app, <- app_assoc in Hb.
    pose proof (Hs Hs1 Hl1 h vm pre _ Hb Hip) as H1. fold c in H1.
    set (vm1 := reached vm (length pre + length c) (exec m s (state_of vm)))
      in *.
    assert (length (pre ++ c.*1) = length pre + length c) as Hlen
      by (by rewrite length_app, length_fmap).
    pose proof (IH Hs2 Hl2 vm1 (pre ++ c.*1) post) as H2.
    rewrite Hlen in H2.
    apply (runs_trans vm (length c) vm1
             (length (sequence (acode m h) (length pre + length c) l)));
      [exact H1| |rewrite length_app; lia].
    replace (reached vm _ _)
      with (reached vm1
              (length pre + length c
               + length (sequence (acode m h) (length pre + length c) l))
              (fold_left (fun st s0 => exec m s0 st) l (state_of vm1))).
    + apply H2; [|done]. simpl. by rewrite Hb, <- app_assoc.
    + unfold vm1 at 2. rewrite state_of_reached, length_app.
      unfold reached, at_index, vm1. simpl. do 3 f_equal. lia.
Qed.

Lemma varDecl_carried ref name : carried_out m (VarDeclNode ref name).
Proof.
  intros _ _ h vm pre post Hb Hip. simpl in *. apply runs_exactly. simpl.
  rewrite (EvalFacts.step_at vm pre _ _ Hb Hip).
  unfold dispatch at 1. simpl.
  erewrite (EvalFacts.step_at _ (pre ++ [_]) _ post);
    [|by simpl; rewrite Hb, <- app_assoc
     |by simpl; rewrite Hip, length_app; simpl; do 2 f_equal; lia].
  unfold dispatch, reached, at_index. simpl. rewrite Hip. simpl.
  do 4 f_equal. lia.
Qed.

Lemma assign_carried ref name expr : carried_out m (AssignNode ref name expr).
Proof.
  intros He _ h vm pre post Hb Hip. simpl in *. apply runs_exactly.
  rewrite fmap_app, <- app_assoc in Hb. simpl in Hb.
  rewrite length_app. simpl. rewrite Nat.add_1_r.
  rewrite (EffectFacts.expr_then m expr _ He h _ vm pre post Hb Hip).
  unfold dispatch, reached, at_index, pushed_at. simpl.
  do 4 f_equal. lia.
Qed.

Lemma print_carried expr : carried_out m (PrintNode expr).
Proof.
  intros He _ h vm pre post Hb Hip. simpl in *. apply runs_exactly.
  rewrite fmap_app, <- app_assoc in Hb. simpl in Hb.
  rewrite length_app. simpl. rewrite Nat.add_1_r.
  rewrite (EffectFacts.expr_then m expr _ He h _ vm pre post Hb Hip).
  unfold dispatch, reached, at_index, pushed_at. simpl.
  do 4 f_equal. lia.
Qed.

Lemma if_carried cond thenB elseB :
  carried_out m thenB -> from_option (carried_out m) True elseB ->
  carried_out m (IfNode cond thenB elseB).
Proof.
  intros Ht He Hs Hlf h vm pre post Hb Hip. simpl in Hs, Hlf.
  apply andb_prop_elim in Hs as [Hs Hse].
  apply andb_prop_elim in Hs as [Hc Hst].
  apply andb_prop_elim in Hlf as [Hlt Hle].
  simpl acode in *.
  set (cc := acode m h (length pre) cond) in *.
  set (tc := acode m h (length pre + length cc + 1) thenB) in *.
  set (v := value m (variables vm) cond).
  assert (exec m (IfNode cond thenB elseB) (state_of vm)
          = if is_false v
            then match elseB with
                 | Some e => exec m e (state_of vm)
                 | None => state_of vm
                 end
            else exec m thenB (state_of vm)) as Hexec by done.
  rewrite Hexec. clear Hexec.
  assert (length (pre ++ cc.*1 ++ [mkInstruction JMP_IF_FALSE
                                     (Some (Int 0)) None])
          = length pre + length cc + 1) as Hlen1 by (len_norm; lia).
  destruct elseB as [e|]; simpl in He, Hse, Hle.
  - set (ec := acode m h (length pre + length cc + 1 + length tc + 1) e) in *.
    flatten_in Hb.
    pose proof (EffectFacts.expr_then m cond _ Hc h _ vm pre _ Hb Hip) as HA.
    fold cc v in HA.
    erewrite EffectFacts.jump_if_false in HA; [|reflexivity].
    simpl in HA.
    destruct (is_false v).
    + set (vmA := mk (bytecode vm) (stack vm) (variables vm)
                    (Some (Int (Z.of_nat
                       (length pre + length cc + 1 + length tc + 1))))
                    (output vm)) in *.
      set (pre' := pre ++ cc.*1
                   ++ mkInstruction JMP_IF_FALSE
                        (Some (Int (Z.of_nat
                           (length pre + length cc + 1 + length tc + 1))))
                        None
                   :: tc.*1
                   ++ [mkInstruction JMP
                         (Some (Int (Z.of_nat
                            (length pre + length cc + 1 + length tc + 1
                             + length ec)))) None]).
      assert (length pre' = length pre + length cc + 1 + length tc + 1)
        as Hlen by (unfold pre'; len_norm; lia).
      pose proof (He Hse Hle h vmA pre' post) as HB.
      rewrite Hlen in HB. fold ec in HB.
      apply (runs_trans vm (S (length cc)) vmA (length ec));
        [by apply runs_exactly| |len_norm; lia].
      replace (reached vm _ _)
        with (reached vmA
                (length pre + length cc + 1 + length tc + 1 + length ec)
                (exec m e (state_of vmA))).
      * apply HB; [|done]. unfold pre'. simpl. rewrite Hb. aligned.
      * unfold reached, at_index, vmA, state_of. simpl. do 3 f_equal.
        len_norm. lia.
    + set (vmA := mk (bytecode vm) (stack vm) (variables vm)
                    (Some (Int ((Z.of_nat (length pre + length cc)) + 1)))
                    (output vm)) in *.
      set (jif := mkInstruction JMP_IF_FALSE
                    (Some (Int (Z.of_nat
                       (length pre + length cc + 1 + length tc + 1)))) None)
        in *.
      set (pre' := pre ++ cc.*1 ++ [jif]).
      assert (length pre' = length pre + length cc + 1) as Hlen
        by (unfold pre'; len_norm; lia).
      pose proof (Ht Hst Hlt h vmA pre'
                    (mkInstruction JMP
                       (Some (Int (Z.of_nat
                          (length pre + length cc + 1 + length tc + 1
                           + length ec)))) None :: ec.*1 ++ post)) as HB.
      rewrite Hlen in HB. fold tc in HB.
      set (vmB := reached vmA (length pre + length cc + 1 + length tc)
                    (exec m thenB (state_of vmA))) in *.
      apply (runs_trans vm (S (length cc) + length tc) vmB 1);
        [| |len_norm; lia].
      * apply (runs_trans vm (S (length cc)) vmA (length tc));
          [by apply runs_exactly| |lia].
        apply HB.
        -- unfold pre'. simpl. rewrite Hb. aligned.
        -- simpl. do 2 f_equal. lia.
      * apply runs_exactly. simpl.
        erewrite (EvalFacts.step_at vmB (pre' ++ tc.*1) _ (ec.*1 ++ post));
          [|unfold pre'; simpl; rewrite Hb; aligned
           |by simpl; do 2 f_equal; unfold pre'; len_norm; lia].
        unfold dispatch, reached, at_index, vmB, vmA, state_of. simpl.
        do 4 f_equal. len_norm. lia.
  - repeat (rewrite fmap_app in Hb || rewrite fmap_cons in Hb).
    rewrite <- !app_assoc in Hb. simpl in Hb.
    pose proof (EffectFacts.expr_then m cond _ Hc h _ vm pre _ Hb Hip) as HA.
    fold cc v in HA.
    erewrite EffectFacts.jump_if_false in HA; [|reflexivity].
    simpl in HA.
    destruct (is_false v).
    + exists (S (length cc)). split; [len_norm; lia|].
      simpl. rewrite HA. unfold reached, at_index, state_of. simpl.
      do 4 f_equal.
      len_norm. lia.
    + set (vmA := mk (bytecode vm) (stack vm) (variables vm)
                    (Some (Int ((Z.of_nat (length pre + length cc)) + 1)))
                    (output vm)) in *.
      set (jif := mkInstruction JMP_IF_FALSE
                    (Some (Int (Z.of_nat (length pre + length cc + 1 + length tc))))
                    None) in *.
      set (pre' := pre ++ cc.*1 ++ [jif]).
      assert (length pre' = length pre + length cc + 1) as Hlen
        by (unfold pre'; len_norm; lia).
      pose proof (Ht Hst Hlt h vmA pre' post) as HB.
      rewrite Hlen in HB. fold tc in HB.
      apply (runs_trans vm (S (length cc)) vmA (length tc));
        [by apply runs_exactly| |len_norm; lia].
      replace (reached vm _ _)
        with (reached vmA (length pre + length cc + 1 + length tc)
                (exec m thenB (state_of vmA))).
      * apply HB.
        -- unfold pre'. simpl. rewrite Hb. aligned.
        -- simpl. do 2 f_equal. lia.
      * unfold reached, at_index, vmA, state_of. simpl. do 3 f_equal.
        len_norm. lia.
Qed.

(** The code of a statement without loops carries the statement out. *)
Lemma stmt_carried s : carried_out m s.
Proof.
  induction s as
    [ss IH | ref name | ref name expr IH | expr IH | ss IH
    | cond thenB elseB IHc IHt IHe | cond body IHc IHb
    | lhs o rhs IHl IHr | val | ref name ] using ASTNode_ind.
  - by intros Hs.
  - apply varDecl_carried.
  - apply assign_carried.
  - apply print_carried.
  - intros Hs Hlf h vm pre post Hb Hip. simpl in *.
    exact (sequence_carried h ss IH Hs Hlf vm pre post Hb Hip).
  - by apply if_carried.
  - by intros _ Hlf.
  - by intros Hs.
  - by intros Hs.
  - by intros Hs.
Qed.

End WithMap.
End MeaningFacts.

(** X24.  A program without [while] prints what it means.  When the
    stages succeed on a source whose tree has no [while] statement, and
    the code has at most 100,000 instructions, [run] returns exactly the
    lines that carrying out the statements as written produces: each
    [print] writes the text of the value of its expression, each
    assignment and declaration sets its slot, and an [if] carries out
    the then-branch when its condition is not 0 and the else-branch, if
    there is one, when it is 0. *)
Theorem X24_programs_without_loops_print_what_they_mean
    (source : string) (tokens : list Token) (ast : ASTNode)
    (varToSlot : gmap nat nat) (code : list Instruction) :
  Lexer.tokenize source = Ok tokens ->
  Parser.parse tokens = Ok ast ->
  SemanticAnalyzer.analyze ast = Ok varToSlot ->
  CodeGenerator.generate varToSlot ast = Ok code ->
  Meaning.loop_free ast ->
  length code <= VM.MAX_ITERATIONS ->
  compile_and_run source = Ok (Meaning.exec varToSlot ast (∅, [])).2.
Proof.
  intros Ht Hp Ha Hg Hlf Hlen.
  unfold compile_and_run, compile. rewrite Ht. simpl. rewrite Hp. simpl.
  rewrite Ha. simpl. rewrite Hg. simpl.
  apply ShapeFacts.parse_shape in Hp.
  destruct ast as [ss| | | | | | | | |]; try done. simpl in Hp, Hlf.
  rewrite CodegenFacts.generate_annotated in Hg. injection Hg as <-.
  unfold Layout.annotated in *. simpl Layout.acode in *.
  set (seq := Layout.sequence (Layout.acode varToSlot 0) 0 ss) in *.
  rewrite fmap_app in *. simpl in Hlen |- *.
  rewrite length_app, length_fmap in Hlen. simpl in Hlen.
  set (halt := mkInstruction HALT None None) in *.
  unfold VM.run, VM.run_full. rewrite ExecFacts.reset_new.
  set (vm := VM.new (seq.*1 ++ [halt])).
  assert (Forall (Meaning.carried_out varToSlot) ss) as Hall.
  { apply Forall_forall. intros s _. apply MeaningFacts.stmt_carried. }
  destruct (MeaningFacts.sequence_carried varToSlot 0 ss Hall Hp Hlf vm
              [] [halt] eq_refl eq_refl) as (k & Hk & Hrun).
  change (k <= length seq) in Hk.
  set (vm' := Meaning.reached vm (length seq)
                (fold_left (fun st s => Meaning.exec varToSlot s st) ss
                   (Meaning.state_of vm))) in *.
  assert (Exec.step vm' = None) as Hstop.
  { rewrite (EvalFacts.step_at vm' (seq.*1) halt []); [done|done|].
    simpl. by rewrite length_fmap. }
  rewrite (ExecFacts.loop_stops k VM.MAX_ITERATIONS 0 vm vm' Hrun Hstop)
    by lia.
  assert (VM.ip_lt_length vm' = true) as ->.
  { unfold VM.ip_lt_length. simpl. apply Z.ltb_lt.
    rewrite length_app, length_fmap. simpl. lia. }
  assert (VM.fetch vm' = Some halt) as ->.
  { unfold VM.fetch. simpl.
    destruct (Z.ltb_spec (Z.of_nat (length seq)) 0); [lia|].
    rewrite Nat2Z.id. apply list_lookup_middle. by rewrite length_fmap. }
  done.
Qed.

(** The square of 94906267 is odd, and even once rounded to a double. *)
Lemma X24_programs_without_loops_print_what_they_mean_witness :
  compile_and_run
    "int x; x = 94906267; if (x*x%2) print(1); else { int y; y = x*x; print(y); }"
  = Ok ["9007199515875288"].
Proof.
  set (source :=
    "int x; x = 94906267; if (x*x%2) print(1); else { int y; y = x*x; print(y); }").
  let r := eval vm_compute in (Lexer.tokenize source) in
  lazymatch r with
  | Ok ?tokens =>
    let r := eval vm_compute in (Parser.parse tokens) in
    lazymatch r with
    | Ok ?ast =>
      let r := eval vm_compute in (SemanticAnalyzer.analyze ast) in
      lazymatch r with
      | Ok ?m =>
        let r := eval vm_compute in (CodeGenerator.generate m ast) in
        lazymatch r with
        | Ok ?code =>
          rewrite (X24_programs_without_loops_print_what_they_mean
                     source tokens ast m code)
        end
      end
    end
  end.
  - vm_compute. reflexivity.
  - vm_compute. reflexivity.
  - vm_compute. reflexivity.
  - vm_compute. reflexivity.
  - vm_compute. reflexivity.
  - vm_compute. exact I.
  - apply Nat.leb_le. vm_compute. reflexivity.
Defined.

(** ** The pipeline as a whole, and the application *)

Module PipelineFacts.
Import Pipeline.

Lemma tokenize_ends_with_eof source tokens :
  Lexer.tokenize source = Ok tokens -> ParseErrors.ends_with_eof tokens.
Proof.
  intros H. pose proof (LoopFacts.tokenize_outcome source) as Hout.
  rewrite H in Hout. destruct Hout as (body & eof & -> & _ & Hty & _).
  by exists body, eof.
Qed.

Lemma tokenize_error source e :
  Lexer.tokenize source = Err e -> is_stage_error e.
Proof.
  intros H. pose proof (LoopFacts.tokenize_outcome source) as Hout.
  pose proof (LexerFacts.tokenize_total source) as Hfuel.
  rewrite H in Hout, Hfuel.
  destruct Hout as [->|(pre & c & post & _ & -> & _)]; done.
Qed.

Lemma analyze_error ast e :
  SemanticAnalyzer.analyze ast = Err e -> is_stage_error e.
Proof.
  unfold SemanticAnalyzer.analyze.
  destruct (SemanticAnalyzer.visit ast SemanticAnalyzer.init) as [sa|e']
    eqn:Hv; simpl; [done|].
  intros [= <-].
  apply BindingErrors.visit_error in Hv; [|done]. by destruct e'.
Qed.

(** The front end and the generator fail only with a stage error. *)
Lemma compile_error source e :
  compile source = Err e -> is_stage_error e.
Proof.
  unfold compile.
  destruct (Lexer.tokenize source) as [tokens|e1] eqn:Ht; simpl;
    [|intros [= <-]; by eapply tokenize_error].
  destruct (Parser.parse tokens) as [ast|e2] eqn:Hp; simpl.
  - destruct (SemanticAnalyzer.analyze ast) as [m|e3] eqn:Ha; simpl.
    + by rewrite CodegenFacts.generate_annotated.
    + intros [= <-]. by eapply analyze_error.
  - intros [= <-].
    destruct (ParseErrorFacts.parse_failure_only tokens e2
                (tokenize_ends_with_eof _ _ Ht) Hp) as (msg & found & -> & _).
    done.
Qed.

End PipelineFacts.

(** X22.  Whatever the source text, the five stages chained together
    fail only with the error of one of the three stages that can reject
    a program: a lexer error, a parse error, a redeclaration or an
    undeclared variable.  No stage ever reads a missing token, a missing
    scope, a missing instruction or an empty stack in a way that
    raises. *)
Theorem X22_pipeline_fails_only_with_a_stage_error (source : string) (e : Thrown) :
  compile_and_run source = Err e -> Pipeline.is_stage_error e.
Proof.
  unfold compile_and_run.
  destruct (compile source) as [bytecode|e1] eqn:Hc; simpl.
  - destruct (compiled_agrees source bytecode Hc) as (A & WT & Hag).
    destruct (OutcomeFacts.agreeing_run A bytecode WT Hag)
      as [_ [(n & vm & _ & _ & _ & Hrun)|(vm & _ & Hrun)]];
      unfold VM.run; by rewrite Hrun.
  - intros [= <-]. by eapply PipelineFacts.compile_error.
Qed.

Lemma X22_pipeline_fails_only_with_a_stage_error_witness :
  Pipeline.is_stage_error (ParseError "Expect expression" (mkToken MINUS "-" 1 7)).
Proof.
  apply (X22_pipeline_fails_only_with_a_stage_error "print(-1);").
  vm_compute. reflexivity.
Defined.

(** X23.  [runCompiler] hands the resolution map to a new generator and
    asks for its bytecode without having it visit the tree.  So whenever
    the front end accepts the program, the bytecode shown is the lone
    [HALT] and the output shown is empty, whatever the program prints;
    and when it fails it is with the error of the stage that rejected
    the program. *)
Theorem X23_runCompiler_runs_an_empty_program (code : string) :
  (forall bc result,
     App.runCompiler code = Ok (bc, result) ->
     bc = [mkInstruction HALT None None] /\ result = []) /\
  (forall e, App.runCompiler code = Err e -> Pipeline.is_stage_error e) /\
  (forall bytecode,
     compile code = Ok bytecode ->
     App.runCompiler code = Ok ([mkInstruction HALT None None], [])).
Proof.
  assert (VM.run (VM.new (CodeGenerator.getBytecode [])) = Ok []) as Hrun
    by (vm_compute; reflexivity).
  unfold App.runCompiler, compile.
  destruct (Lexer.tokenize code) as [tokens|e1] eqn:Ht; simpl.
  - destruct (Parser.parse tokens) as [ast|e2] eqn:Hp; simpl.
    + destruct (SemanticAnalyzer.analyze ast) as [m|e3] eqn:Ha; simpl.
      * rewrite Hrun. simpl. split; [|split]; [|done|done].
        intros bc result [= <- <-]. split; reflexivity.
      * split; [done|]. split; [|done].
        intros e [= <-]. by eapply PipelineFacts.analyze_error.
    + split; [done|]. split; [|done]. intros e [= <-].
      destruct (ParseErrorFacts.parse_failure_only tokens e2
                  (PipelineFacts.tokenize_ends_with_eof _ _ Ht) Hp)
        as (msg & found & -> & _).
      done.
  - split; [done|]. split; [|done].
    intros e [= <-]. by eapply PipelineFacts.tokenize_error.
Qed.

Lemma X23_runCompiler_runs_an_empty_program_witness :
  App.runCompiler while_sample = Ok ([mkInstruction HALT None None], []).
Proof.
  destruct (X23_runCompiler_runs_an_empty_program while_sample) as (_ & _ & H).
  apply (H Outcome.while_bytecode). vm_compute. reflexivity.
Defined.
